(** * Cubane: block rendering pipeline

    A shallow embedding of the block rendering core of Cubane
    (ModelResolver, AssetLoader, BlockMeshBuilder, AtlasBuilder, the
    Cubane facade, ResourcePackManager and AnimatedTextureManager)
    together with the properties its specification states about it and
    further properties read off the code.

    Conventions of the embedding.
    - A JavaScript string is a [string]; characters are its code units,
      restricted to the 8-bit range.  Default string ordering (the one
      [Array.prototype.sort] uses) is the lexicographic order on code
      units, [String.le].
    - A JavaScript object used as a dictionary whose enumeration order
      matters (a block's [properties], a blockstate's [variants]) is an
      association list in [Object.keys] order; [JS.get] reads an own key
      and [JS.assign] writes one, array indices going first as
      JavaScript enumerates them.  A [Map] is such a list in insertion
      order, written by [JS.set].
      Dictionaries whose order is never observed ([textures], the atlas
      [uvMap]) are [gmap]s.
    - Numbers that the code only uses as integers (degrees, pixel
      coordinates) are [Z] or, for pixel sizes, [N].  The liquid levels,
      which come out of [parseInt] and go through [String], are
      [JS.Number]s: integers rounded as doubles are, [NaN] and the
      infinities.
    - An exception (a rejected promise for the [async] methods) is the
      [Throws] outcome of [result]. *)

From Stdlib Require Import ZArith NArith QArith Lqa String Ascii List Lia Bool.
From stdpp Require Import base list strings gmap sorting.

Open Scope string_scope.

(** ** Outcomes of calls that may throw *)

Inductive result (A : Type) : Type :=
| Returns (a : A)
| Throws (message : string).
Arguments Returns {A} a.
Arguments Throws {A} message.

Global Instance result_ret : MRet result := λ A a, Returns a.
Global Instance result_bind : MBind result := λ A B k r,
  match r with
  | Returns a => k a
  | Throws m => Throws m
  end.

(** ** The fragment of the JavaScript standard library the code uses *)

Module JS.

(** [s.startsWith(p)] *)
Definition startsWith (s p : string) : bool := String.prefix p s.

(** [s.includes(p)] *)
Fixpoint includes (s p : string) : bool :=
  startsWith s p ||
  match s with
  | EmptyString => false
  | String _ s' => includes s' p
  end.

(** [s.substring(n)] *)
Fixpoint substring_from (n : nat) (s : string) : string :=
  match n, s with
  | O, _ => s
  | S n', String _ s' => substring_from n' s'
  | S _, EmptyString => EmptyString
  end.

(** [s.replace(pat, rep)] with a string pattern: only the first
    occurrence of [pat] is replaced. *)
Fixpoint replace (s pat rep : string) : string :=
  if startsWith s pat then rep +:+ substring_from (String.length pat) s
  else match s with
       | EmptyString => EmptyString
       | String c s' => String c (replace s' pat rep)
       end.

(** [s.split(sep)] for a one-character separator; never empty. *)
Fixpoint split (sep : ascii) (s : string) : list string :=
  match s with
  | EmptyString => [EmptyString]
  | String c s' =>
      if Ascii.eqb c sep then EmptyString :: split sep s'
      else match split sep s' with
           | [] => [String c EmptyString]
           | w :: ws => String c w :: ws
           end
  end.

(** [l.join(sep)] *)
Fixpoint join (sep : string) (l : list string) : string :=
  match l with
  | [] => EmptyString
  | [w] => w
  | w :: ws => w +:+ sep +:+ join sep ws
  end.

(** [l.sort()] on an array of strings (code-unit order). *)
Definition sort (l : list string) : list string := merge_sort String.le l.

(** Objects as dictionaries, in enumeration order. *)
Definition Obj (V : Type) : Type := list (string * V).

(** [Object.keys(o)] *)
Definition keys {V} (o : Obj V) : list string := fst <$> o.

(** [o[k]]; [None] is [undefined]. *)
Fixpoint get {V} (k : string) (o : Obj V) : option V :=
  match o with
  | [] => None
  | (k', v) :: o' => if String.eqb k' k then Some v else get k o'
  end.

(** The members every plain object inherits from [Object.prototype]: for
    such a key [k] that [o] does not own, [o[k]] is not [undefined] but a
    built-in function, or [Object.prototype] itself for [__proto__]. *)
Definition objectPrototype : list string :=
  ["constructor"; "__defineGetter__"; "__defineSetter__"; "hasOwnProperty";
   "__lookupGetter__"; "__lookupSetter__"; "isPrototypeOf";
   "propertyIsEnumerable"; "toString"; "valueOf"; "__proto__";
   "toLocaleString"].

(** What [o[k]] reads, given the own entry of [o] at [k] if there is one. *)
Inductive Member (V : Type) : Type :=
| Own (v : V)
| Inherited
| Undefined.
Arguments Own {V} v.
Arguments Inherited {V}.
Arguments Undefined {V}.

Definition member {V} (own : option V) (k : string) : Member V :=
  match own with
  | Some v => Own v
  | None => if bool_decide (k ∈ objectPrototype) then Inherited else Undefined
  end.

(** [String(o[k])] for an inherited member, as V8 prints built-in
    functions. *)
Definition inheritedText (k : string) : string :=
  if bool_decide (k = "__proto__") then "[object Object]"
  else if bool_decide (k = "constructor") then "function Object() { [native code] }"
  else "function " +:+ k +:+ "() { [native code] }".

(** [String(o[k])] for an object of strings; [None] when [o[k]] is
    [undefined]. *)
Definition text (k : string) (m : Member string) : option string :=
  match m with
  | Own v => Some v
  | Inherited => Some (inheritedText k)
  | Undefined => None
  end.

(** Numbers, as far as the liquid levels reach: the integers that are
    doubles, [NaN] and the two infinities.  [-0] is not told apart from
    [0]: the code only compares it with [0], to which it is equal. *)
Inductive Number : Type :=
| NaN
| Infinity (negative : bool)
| Integer (z : Z).

(** The double nearest to an integer: 53 significant bits, a tie goes to
    the even significand, and what rounds to [2^1024] is an infinity. *)
Definition roundDouble (z : Z) : Number :=
  let a := Z.abs z in
  if (a <? 2 ^ 53)%Z then Integer z
  else
    let e := (Z.log2 a - 52)%Z in
    let q := (a / 2 ^ e)%Z in
    let r := (a mod 2 ^ e)%Z in
    let half := (2 ^ (e - 1))%Z in
    let q' := if (half <? r)%Z || ((r =? half)%Z && Z.odd q) then (q + 1)%Z else q in
    let rounded := (q' * 2 ^ e)%Z in
    if (2 ^ 1024 <=? rounded)%Z then Infinity (z <? 0)%Z
    else Integer (Z.sgn z * rounded).

(** [n === 0] *)
Definition isZero (n : Number) : bool :=
  match n with
  | Integer 0 => true
  | _ => false
  end.

(** [n === x] for an integer [x] *)
Definition isInteger (x : Z) (n : Number) : bool :=
  match n with
  | Integer z => (z =? x)%Z
  | _ => false
  end.

(** [a * b] *)
Definition mul (a b : Number) : Number :=
  match a, b with
  | NaN, _ | _, NaN => NaN
  | Integer x, Integer y => roundDouble (x * y)
  | Infinity s, Integer y => if (y =? 0)%Z then NaN else Infinity (xorb s (y <? 0)%Z)
  | Integer x, Infinity s => if (x =? 0)%Z then NaN else Infinity (xorb s (x <? 0)%Z)
  | Infinity s, Infinity t => Infinity (xorb s t)
  end.

(** [a - b] *)
Definition sub (a b : Number) : Number :=
  match a, b with
  | NaN, _ | _, NaN => NaN
  | Integer x, Integer y => roundDouble (x - y)
  | Infinity s, Integer _ => Infinity s
  | Integer _, Infinity t => Infinity (negb t)
  | Infinity s, Infinity t => if Bool.eqb s t then NaN else Infinity s
  end.

(** [parseInt(s, 10)]: leading white space is skipped, then an
    optional sign, then the longest run of decimal digits, whose value is
    rounded to a double (exactly, as V8 does; the standard lets an engine
    read the digits after the 20th as zeros); no digit at all gives
    [NaN]. *)
Definition isWhiteSpace (c : ascii) : bool :=
  Ascii.is_space c || Ascii.eqb c "160"%char.

Fixpoint skipWhiteSpace (s : string) : string :=
  match s with
  | String c s' => if isWhiteSpace c then skipWhiteSpace s' else s
  | EmptyString => EmptyString
  end.

Definition digitValue (c : ascii) : option Z :=
  Z.of_nat <$> Ascii.is_nat c.

Fixpoint parseDigits (acc : option Z) (s : string) : option Z :=
  match s with
  | String c s' =>
      match digitValue c with
      | Some d => parseDigits (Some (10 * default 0 acc + d)%Z) s'
      | None => acc
      end
  | EmptyString => acc
  end.

Definition parseInt (s : string) : Number :=
  let number (negative : bool) (digits : option Z) : Number :=
    match digits with
    | Some n => roundDouble (if negative then - n else n)
    | None => NaN
    end in
  match skipWhiteSpace s with
  | String "-" s' => number true (parseDigits None s')
  | String "+" s' => number false (parseDigits None s')
  | s' => number false (parseDigits None s')
  end.

(** The decimal digits of a natural number. *)
Definition digitChar (d : Z) : ascii :=
  ascii_of_nat (48 + Z.to_nat d).

Fixpoint natDigits (fuel : nat) (n : Z) (acc : string) : string :=
  match fuel with
  | O => acc
  | S fuel' =>
      let acc' := String (digitChar (n mod 10)) acc in
      if (n <? 10)%Z then acc' else natDigits fuel' (n / 10) acc'
  end.

Definition decimal (n : Z) : string :=
  natDigits (S (Z.to_nat (Z.log2 n))) n EmptyString.

Fixpoint zeros (n : nat) : string :=
  match n with
  | O => EmptyString
  | S n' => String "0" (zeros n')
  end.

(** [Number::toString] of a double [x >= 2^53] looks for the fewest
    digits [k] and a [k]-digit [s] such that [s * 10^(n-k)] is read as
    [x]; among several [s], the one closest to [x], the even one on a tie. *)
Definition readsAs (x s k n : Z) : bool :=
  (10 ^ (k - 1) <=? s)%Z && (s <? 10 ^ k)%Z &&
  isInteger x (roundDouble (s * 10 ^ (n - k))).

Definition closestDigits (x k n : Z) : option Z :=
  let unit := (10 ^ (n - k))%Z in
  let low := (x / unit)%Z in
  let high := (low + 1)%Z in
  let below := (x - low * unit)%Z in
  let above := (high * unit - x)%Z in
  match readsAs x low k n, readsAs x high k n with
  | true, true =>
      Some (if (below <? above)%Z then low
            else if (above <? below)%Z then high
            else if Z.even low then low else high)
  | true, false => Some low
  | false, true => Some high
  | false, false => None
  end.

Fixpoint fewestDigits (fuel : nat) (x k n : Z) : Z * Z :=
  match fuel with
  | O => (x, n)
  | S fuel' =>
      match closestDigits x k n with
      | Some s => (s, k)
      | None => fewestDigits fuel' x (k + 1) n
      end
  end.

(** The triple [(s, k, n)] of [Number::toString]; 17 digits always do. *)
Definition shortestDigits (x : Z) : Z * Z * Z :=
  let n := Z.of_nat (String.length (decimal x)) in
  if isInteger x (roundDouble (10 ^ n)) then (1, 1, n + 1)%Z
  else (fewestDigits 17 x 1 n, n).

(** The digits of [s] followed by [n - k] zeros up to 21 digits, and the
    exponent form [d.ddde+NN] beyond. *)
Definition formatDigits (s k n : Z) : string :=
  if (n <=? 21)%Z then decimal s +:+ zeros (Z.to_nat (n - k))
  else
    match decimal s with
    | String d rest =>
        String d ((if bool_decide (rest = "") then "" else "." +:+ rest) +:+
                  "e+" +:+ decimal (n - 1))
    | EmptyString => EmptyString
    end.

Definition magnitudeToString (x : Z) : string :=
  if (x <? 2 ^ 53)%Z then decimal x
  else let '(s, k, n) := shortestDigits x in formatDigits s k n.

(** [String(n)] / template interpolation of a number. *)
Definition numberToString (n : Number) : string :=
  match n with
  | NaN => "NaN"
  | Infinity negative => if negative then "-Infinity" else "Infinity"
  | Integer z =>
      if (z <? 0)%Z then String "-" (magnitudeToString (- z))
      else magnitudeToString z
  end.

(** [s.trim()] *)
Definition trim (s : string) : string :=
  String.rev (skipWhiteSpace (String.rev (skipWhiteSpace s))).

(** [s.indexOf(c)] for a one-character [c]; [None] is [-1]. *)
Fixpoint indexOf (c : ascii) (s : string) : option nat :=
  match s with
  | EmptyString => None
  | String c' s' => if Ascii.eqb c' c then Some 0%nat else S <$> indexOf c s'
  end.

(** [s.substring(start, end)]: the two indices are swapped when
    [start > end], and both stop at the length of [s]. *)
Definition substring (start finish : nat) (s : string) : string :=
  String.substring (start `min` finish) (start `max` finish - start `min` finish) s.

(** [m.set(k, v)] on a [Map] kept in insertion order: an existing key
    keeps its place. *)
Fixpoint set {V} (k : string) (v : V) (o : Obj V) : Obj V :=
  match o with
  | [] => [(k, v)]
  | (k', v') :: o' => if String.eqb k' k then (k', v) :: o' else (k', v') :: set k v o'
  end.

(** An array index: the canonical decimal form of a number below
    [2^32 - 1].  An object enumerates such keys first, in ascending order,
    and the other keys after them in the order they were added. *)
Definition arrayIndex (k : string) : option Z :=
  match parseDigits None k with
  | Some n =>
      if String.eqb (decimal n) k && (n <? 2 ^ 32 - 1)%Z then Some n else None
  | None => None
  end.

Fixpoint insertIndex {V} (n : Z) (k : string) (v : V) (o : Obj V) : Obj V :=
  match o with
  | [] => [(k, v)]
  | (k', v') :: o' =>
      match arrayIndex k' with
      | Some n' =>
          if (n' <? n)%Z then (k', v') :: insertIndex n k v o' else (k, v) :: o
      | None => (k, v) :: o
      end
  end.

(** [o[k] = v] on an object built from the literal [{}], [v] a string:
    assigning to [__proto__] calls the inherited setter, which leaves
    the object as it is; an existing key keeps its place; a new key is
    placed where the enumeration order has it. *)
Definition assign {V} (k : string) (v : V) (o : Obj V) : Obj V :=
  if bool_decide (k = "__proto__") then o
  else if bool_decide (k ∈ keys o) then set k v o
  else match arrayIndex k with
       | Some n => insertIndex n k v o
       | None => (o ++ [(k, v)])%list
       end.

(** [m.delete(k)] on a [Map] kept in insertion order. *)
Definition remove {V} (k : string) (o : Obj V) : Obj V :=
  filter (λ entry, entry.1 ≠ k) o.

End JS.

(** ** types.ts *)

Record ModelData := mkModelData {
  model : string;
  x : option Z;
  y : option Z;
  uvlock : option bool
}.

Record Block := mkBlock {
  namespace : string;
  name : string;
  properties : JS.Obj string
}.

Record BlockStateModelHolder := mkHolder {
  holder_model : string;
  holder_x : option Z;
  holder_y : option Z;
  holder_uvlock : option bool;
  holder_weight : option Z
}.

(** [BlockStateModelHolder | BlockStateModelHolder[]] *)
Inductive ModelChoice :=
| Single (holder : BlockStateModelHolder)
| Weighted (holders : list BlockStateModelHolder).

(** [BlockStateDefinitionVariant<string>]: a condition map.  Values are
    kept as the strings [String(value)] yields. *)
Definition Condition : Type := JS.Obj string.

(** The [when] of a multipart rule: a condition map, or an object with
    the key [OR] holding a list of condition maps. *)
Inductive When :=
| WhenAll (condition : Condition)
| WhenOR (conditions : list Condition).

Record BlockStateMultipart := mkMultipart {
  when : option When;
  apply : ModelChoice
}.

Record BlockStateDefinition := mkBlockState {
  variants : option (JS.Obj ModelChoice);
  multipart : option (list BlockStateMultipart)
}.

Record Face := mkFace {
  texture : string;
  cullface : option string;
  rotation : option Z;
  tintindex : option Z;
  uv : option (Z * Z * Z * Z)
}.

Record ElementRotation := mkElementRotation {
  origin : Z * Z * Z;
  axis : string;
  angle : Q;
  rescale : option bool
}.

Record BlockModelElement := mkElement {
  from : JS.Number * JS.Number * JS.Number;
  to : JS.Number * JS.Number * JS.Number;
  element_rotation : option ElementRotation;
  faces : option (JS.Obj Face)
}.

(** [display] is carried around but never inspected: its JSON text. *)
Record BlockModel := mkBlockModel {
  parent : option string;
  textures : option (gmap string string);
  elements : option (list BlockModelElement);
  display : option string
}.

(** The literal [{}] cast to a [BlockModel]. *)
Definition emptyBlockModel : BlockModel :=
  {| parent := None; textures := None; elements := None; display := None |}.

(** ** AssetLoader.ts *)

Module AssetLoader.

(** What [JSON.parse] makes of a resource string. *)
Inductive Json (A : Type) : Type :=
| SyntaxError
| Parsed (a : A).
Arguments SyntaxError {A}.
Arguments Parsed {A} a.

(** The loaded resource packs, seen through [getResourceString]:
    [None] is [undefined] (no pack has the file, or it is empty).  A
    blockstate document may be the JSON value [null], hence the inner
    [option].  The string and JSON caches in front of the packs hold
    what the packs hold and are left out. *)
Record Assets := mkAssets {
  blockstateJson : string → option (Json (option BlockStateDefinition));
  modelJson : string → option (Json BlockModel)
}.

(** The literal [{}] cast to a [BlockStateDefinition]. *)
Definition emptyBlockState : BlockStateDefinition :=
  {| variants := None; multipart := None |}.

Definition getBlockState (assets : Assets) (blockId : string)
  : option BlockStateDefinition :=
  let blockId := JS.replace blockId "minecraft:" "" in
  match blockstateJson assets ("blockstates/" +:+ blockId +:+ ".json") with
  | None => Some emptyBlockState
  | Some SyntaxError => Some emptyBlockState
  | Some (Parsed definition) => definition
  end.

(** *** Parent inheritance *)

Definition MAX_DEPTH : nat := 5.

(** One pass of the body of the [while] loop: the object literal that
    merges [parentModel] under [currentModel]. *)
Definition mergeModels (parentModel currentModel : BlockModel) : BlockModel :=
  {| parent :=
       match parent currentModel with
       | Some p => Some p
       | None => parent parentModel
       end;
     textures :=
       Some (default ∅ (textures currentModel) ∪ default ∅ (textures parentModel));
     elements :=
       match elements currentModel with
       | Some es => Some es
       | None => elements parentModel
       end;
     display :=
       match display currentModel with
       | Some d => Some d
       | None => display parentModel
       end |}.

(** The [while (parentPath && depth < MAX_DEPTH)] loop; [fuel] is
    [MAX_DEPTH - depth]. *)
Fixpoint mergeLoop (assets : Assets) (fuel : nat)
    (currentModel : BlockModel) (parentPath : string) : BlockModel :=
  match fuel with
  | O => currentModel
  | S fuel' =>
      if decide (parentPath = "") then currentModel
      else
        let parentPath := JS.replace parentPath "minecraft:" "" in
        match modelJson assets ("models/" +:+ parentPath +:+ ".json") with
        | None => currentModel
        | Some SyntaxError => currentModel
        | Some (Parsed parentModel) =>
            mergeLoop assets fuel'
              (mergeModels parentModel currentModel)
              (default "" (parent parentModel))
        end
  end.

Definition dropParent (m : BlockModel) : BlockModel :=
  {| parent := None; textures := textures m;
     elements := elements m; display := display m |}.

Definition loadAndMergeModel (assets : Assets) (model : BlockModel) : BlockModel :=
  match parent model with
  | None => model
  | Some p =>
      if decide (p = "") then model
      else dropParent (mergeLoop assets MAX_DEPTH model p)
  end.

(** *** Texture references *)

Definition missing_texture : string := "block/missing_texture".

(** The [while (ref.startsWith("#") && depth < MAX_DEPTH)] loop.
    [Returns None] is the [return] from inside the loop (model without
    textures).  [model.textures[key]] for a key the table does not own
    but inherits is a function (an object for [__proto__]): it is truthy,
    so it becomes [ref], and the next [ref.startsWith] throws a
    [TypeError]. *)
Fixpoint resolveLoop (model : BlockModel) (fuel : nat)
    (ref : string) (depth : nat) : result (option (string * nat)) :=
  match fuel with
  | O => Returns (Some (ref, depth))
  | S fuel' =>
      if JS.startsWith ref "#" && bool_decide (depth < MAX_DEPTH)%nat then
        match textures model with
        | None => Returns None
        | Some table =>
            let key := JS.substring_from 1 ref in
            match JS.member (table !! key) key with
            | JS.Own value =>
                let ref' := if decide (value = "") then ref else value in
                resolveLoop model fuel' ref' (S depth)
            | JS.Undefined => resolveLoop model fuel' ref (S depth)
            | JS.Inherited => Throws "TypeError"
            end
        end
      else Returns (Some (ref, depth))
  end.

Definition resolveTexture (textureRef : string) (model : BlockModel)
  : result string :=
  if bool_decide (textureRef = "") || bool_decide (textureRef = "#missing")
  then Returns missing_texture
  else if negb (JS.startsWith textureRef "#")
  then Returns (JS.replace textureRef "minecraft:" "")
  else
    exit ← resolveLoop model MAX_DEPTH textureRef 0;
    match exit with
    | None => Returns missing_texture
    | Some (ref, depth) =>
        if bool_decide (MAX_DEPTH ≤ depth)%nat || JS.startsWith ref "#"
        then Returns missing_texture
        else Returns (JS.replace ref "minecraft:" "")
    end.

(** *** Models, with the synthetic liquid models *)

Definition isDigit (c : ascii) : bool :=
  match JS.digitValue c with Some _ => true | None => false end.

Fixpoint takeDigits (s : string) : string :=
  match s with
  | String c s' => if isDigit c then String c (takeDigits s') else EmptyString
  | EmptyString => EmptyString
  end.

(** [modelPath.match(/_level_(\d+)/)]: the capture group of the
    leftmost match, [None] for [null]. *)
Fixpoint matchLevel (s : string) : option string :=
  let here :=
    if JS.startsWith s "_level_"
    then match takeDigits (JS.substring_from 7 s) with
         | EmptyString => None
         | digits => Some digits
         end
    else None in
  match here with
  | Some digits => Some digits
  | None =>
      match s with
      | EmptyString => None
      | String _ s' => matchLevel s'
      end
  end.

Definition liquidFace (textureRef direction : string) : Face :=
  {| texture := textureRef; cullface := Some direction;
     rotation := None; tintindex := None; uv := None |}.

(** The object literal [liquidModel] of [getModel], before the model
    file of the pack (if any) is merged into it. *)
Definition liquidModel (isWater : bool) (actualHeight : JS.Number) : BlockModel :=
  let still := if isWater then "block/water_still" else "block/lava_still" in
  let flow := if isWater then "block/water_flow" else "block/lava_flow" in
  {| parent := None;
     textures := Some (list_to_map
       [("particle", still); ("all", still); ("top", still); ("bottom", still);
        ("north", flow); ("south", flow); ("east", flow); ("west", flow)]);
     elements := Some
       [{| from := (JS.Integer 0, JS.Integer 0, JS.Integer 0);
           to := (JS.Integer 16, actualHeight, JS.Integer 16);
           element_rotation := None;
           faces := Some
             [("down", liquidFace "#bottom" "down");
              ("up", liquidFace "#top" "up");
              ("north", liquidFace "#north" "north");
              ("south", liquidFace "#south" "south");
              ("west", liquidFace "#west" "west");
              ("east", liquidFace "#east" "east")] |}];
     display := None |}.

(** The level read back from a liquid model path. *)
Definition liquidLevel (modelPath : string) : JS.Number :=
  match matchLevel modelPath with
  | Some digits => JS.parseInt digits
  | None => JS.Integer 0
  end.

Definition liquidActualHeight (isWater : bool) (level : JS.Number) : JS.Number :=
  let liquidHeight :=
    if JS.isZero level then JS.Integer 16
    else JS.sub (JS.Integer 16) (JS.mul level (JS.Integer 2)) in
  if isWater && JS.isZero level then JS.Integer 14 else liquidHeight.

(** The synthetic model for a liquid path (source lines 315-363). *)
Definition synthesizeLiquid (modelPath : string) : BlockModel :=
  let isWater := JS.startsWith modelPath "block/water" in
  liquidModel isWater (liquidActualHeight isWater (liquidLevel modelPath)).

(** Merging the pack's own model file into the synthetic model.
    [Object.assign] writes the entries of the file's table by assignment,
    and assigning a string to [__proto__] changes nothing. *)
Definition mergeOriginalLiquid (levelSpecific : bool)
    (liquid originalModel : BlockModel) : BlockModel :=
  {| parent := parent liquid;
     textures :=
       match textures originalModel with
       | Some original =>
           Some (delete "__proto__" original ∪ default ∅ (textures liquid))
       | None => textures liquid
       end;
     elements :=
       match elements originalModel with
       | Some es => if levelSpecific then elements liquid else Some es
       | None => elements liquid
       end;
     display := display liquid |}.

Definition getModel (assets : Assets) (modelPath : string) : BlockModel :=
  let modelPath := JS.replace modelPath "minecraft:" "" in
  if JS.startsWith modelPath "block/water" || JS.startsWith modelPath "block/lava"
  then
    let isWater := JS.startsWith modelPath "block/water" in
    let levelMatch := matchLevel modelPath in
    let liquid := synthesizeLiquid modelPath in
    let jsonString := modelJson assets ("models/" +:+ modelPath +:+ ".json") in
    let jsonString :=
      match jsonString, levelMatch with
      | None, Some _ =>
          let baseModelPath := if isWater then "block/water" else "block/lava" in
          modelJson assets ("models/" +:+ baseModelPath +:+ ".json")
      | _, _ => jsonString
      end in
    match jsonString with
    | Some (Parsed originalModel) =>
        mergeOriginalLiquid (bool_decide (is_Some levelMatch)) liquid originalModel
    | Some SyntaxError => liquid
    | None => liquid
    end
  else
    match modelJson assets ("models/" +:+ modelPath +:+ ".json") with
    | None => emptyBlockModel
    | Some SyntaxError => emptyBlockModel
    | Some (Parsed model) => loadAndMergeModel assets model
    end.

End AssetLoader.

(** ** ModelResolver.ts *)

Module ModelResolver.

Import AssetLoader.

Definition createModelData (modelHolder : BlockStateModelHolder) : ModelData :=
  {| model := holder_model modelHolder;
     x := holder_x modelHolder;
     y := holder_y modelHolder;
     uvlock := holder_uvlock modelHolder |}.

(** [models.push(createModelData(Array.isArray(v) ? v[0] : v))];
    [createModelData(undefined)] throws a [TypeError]. *)
Definition pushModel (choice : ModelChoice) : result (list ModelData) :=
  match choice with
  | Single holder => Returns [createModelData holder]
  | Weighted holders =>
      match holders !! 0%nat with
      | Some holder => Returns [createModelData holder]
      | None => Throws "TypeError"
      end
  end.

(** *** Liquids *)

Definition isLiquidName (n : string) : bool :=
  bool_decide (n = "water") || bool_decide (n = "flowing_water") ||
  bool_decide (n = "lava") || bool_decide (n = "flowing_lava").

(** [levelStr ? parseInt(levelStr, 10) : 0] *)
Definition blockLevel (block : Block) : JS.Number :=
  match JS.get "level" (properties block) with
  | Some levelStr =>
      if bool_decide (levelStr = "") then JS.Integer 0 else JS.parseInt levelStr
  | None => JS.Integer 0
  end.

Definition createLiquidModelData (block : Block) : list ModelData :=
  let isWater := JS.includes (name block) "water" in
  let level := blockLevel block in
  let modelPath :=
    if isWater
    then if JS.isZero level then "block/water"
         else "block/water_level_" +:+ JS.numberToString level
    else if JS.isZero level then "block/lava"
         else "block/lava_level_" +:+ JS.numberToString level in
  [{| model := modelPath; x := Some 0%Z; y := Some 0%Z; uvlock := Some false |}].

(** *** Variants *)

(** [validVariantProperties]: the names before [=] in the parts of the
    non-empty variant keys. *)
Definition collectVariantProperties (variantKeys : list string) : gset string :=
  foldl (λ acc key,
           if bool_decide (key = "") then acc
           else foldl (λ acc' part, acc' ∪ {[ default "" (head (JS.split "=" part)) ]})
                      acc (JS.split "," key))
        ∅ variantKeys.

Definition formatProperty (kv : string * string) : string :=
  kv.1 +:+ "=" +:+ kv.2.

Definition buildVariantKey (block : Block) (validVariantProperties : gset string)
  : string :=
  if bool_decide (0 < length (properties block))%nat
  then
    let filteredProps :=
      formatProperty <$>
        filter (λ kv, kv.1 ∈ validVariantProperties) (properties block) in
    JS.join "," (JS.sort filteredProps)
  else "".

(** [key.split(",").map(prop => { const [name, value] = prop.split("="); ... })];
    a part without [=] has the value [undefined]. *)
Definition variantProps (key : string) : list (string * option string) :=
  (λ prop, let parts := JS.split "=" prop in
           (default "" (head parts), parts !! 1%nat)) <$> JS.split "," key.

(** [variantProps.find(p => p.name === propName)] *)
Definition findProp (props : list (string * option string)) (propName : string)
  : option (string * option string) :=
  List.find (λ p, String.eqb p.1 propName) props.

(** The inner [for] loop over [targetProps], with its [break]; returns
    [(allMatch, matchCount)]. *)
Fixpoint scanTargetProps (vprops : list (string * option string))
    (targetProps : list (string * string)) (matchCount : Z) : bool * Z :=
  match targetProps with
  | [] => (true, matchCount)
  | (propName, propValue) :: rest =>
      match findProp vprops propName with
      | Some matchingProp =>
          if bool_decide (matchingProp.2 = Some propValue)
          then scanTargetProps vprops rest (matchCount + 1)%Z
          else (false, matchCount)
      | None => scanTargetProps vprops rest matchCount
      end
  end.

(** One pass of the outer loop; the state is
    [(bestVariantKey, bestMatchCount)]. *)
Definition bestMatchStep (targetProps : list (string * string))
    (best : string * Z) (key : string) : string * Z :=
  if bool_decide (key = "") then best
  else
    let '(allMatch, matchCount) := scanTargetProps (variantProps key) targetProps 0%Z in
    if allMatch && (best.2 <? matchCount)%Z then (key, matchCount) else best.

Definition findBestVariantKey (variantKeys : list string) (block : Block) : string :=
  (foldl (bestMatchStep (properties block)) ("", (-1)%Z) variantKeys).1.

(** The fourth approach: the first property whose ["key=value"] is a
    variant key. *)
Fixpoint singlePropertyVariant (vs : JS.Obj ModelChoice)
    (props : list (string * string)) : option ModelChoice :=
  match props with
  | [] => None
  | kv :: rest =>
      match JS.get (formatProperty kv) vs with
      | Some v => Some v
      | None => singlePropertyVariant vs rest
      end
  end.

(** The variant the [if (blockStateDefinition.variants)] block settles
    on; [None] when [variant] stays [undefined]. *)
Definition selectVariant (vs : JS.Obj ModelChoice) (block : Block)
  : option ModelChoice :=
  let variantKeys := JS.keys vs in
  let validVariantProperties := collectVariantProperties variantKeys in
  let variantKey := buildVariantKey block validVariantProperties in
  match JS.get variantKey vs with
  | Some v => Some v
  | None =>
      match JS.get "" vs with
      | Some v => Some v
      | None =>
          let bestVariantKey := findBestVariantKey variantKeys block in
          let variant :=
            if bool_decide (bestVariantKey = "") then None
            else JS.get bestVariantKey vs in
          let variant :=
            match variant with
            | Some v => Some v
            | None =>
                if bool_decide (0 < length (properties block))%nat
                then singlePropertyVariant vs (properties block)
                else None
            end in
          match variant with
          | Some v => Some v
          | None =>
              match variantKeys with
              | firstKey :: _ => JS.get firstKey vs
              | [] => None
              end
          end
      end
  end.

Definition resolveVariants (vs : JS.Obj ModelChoice) (block : Block)
  : result (list ModelData) :=
  match selectVariant vs block with
  | Some variant => pushModel variant
  | None => Returns []
  end.

(** *** Multipart *)

(** [block.properties[property]] also sees the members the property map
    inherits; [String(blockValue)] is then the text of a built-in. *)
Fixpoint matchesCondition (block : Block) (condition : Condition) : bool :=
  match condition with
  | [] => true
  | (property, valueStr) :: rest =>
      let blockValue := JS.member (JS.get property (properties block)) property in
      match JS.text property blockValue with
      | None => false
      | Some blockValueStr =>
          if JS.includes valueStr "|"
          then
            let values := JS.split "|" valueStr in
            if bool_decide (blockValueStr ∈ values)
            then matchesCondition block rest
            else false
          else
            if bool_decide (blockValueStr ≠ valueStr) then false
            else matchesCondition block rest
      end
  end.

Definition ruleApplies (block : Block) (part : BlockStateMultipart) : bool :=
  match when part with
  | None => true
  | Some (WhenOR conditions) => existsb (matchesCondition block) conditions
  | Some (WhenAll condition) => matchesCondition block condition
  end.

Fixpoint resolveMultipart (parts : list BlockStateMultipart) (block : Block)
  : result (list ModelData) :=
  match parts with
  | [] => Returns []
  | part :: rest =>
      if ruleApplies block part
      then m ← pushModel (apply part); ms ← resolveMultipart rest block; mret (m ++ ms)%list
      else resolveMultipart rest block
  end.

(** *** resolveBlockModel *)

Definition resolveBlockModel (assets : Assets) (block : Block)
  : result (list ModelData) :=
  if isLiquidName (name block) then Returns (createLiquidModelData block)
  else
    let blockName := JS.replace (name block) "minecraft:" "" in
    match getBlockState assets blockName with
    | None => Returns []
    | Some blockStateDefinition =>
        match variants blockStateDefinition, multipart blockStateDefinition with
        | None, None => Returns []
        | vs, mp =>
            fromVariants ←
              match vs with
              | Some vs => resolveVariants vs block
              | None => Returns []
              end;
            fromMultipart ←
              match mp with
              | Some parts => resolveMultipart parts block
              | None => Returns []
              end;
            mret (fromVariants ++ fromMultipart)%list
        end
    end.

End ModelResolver.

(** ** Blocks and their blockstate files, as the specification words them *)

(** The blocks that never reach their blockstate. *)
Definition liquidNames : list string :=
  ["water"; "flowing_water"; "lava"; "flowing_lava"].

(** The file the blockstate of a block is read from: the first
    [minecraft:] is taken off the name by [resolveBlockModel], and once
    more by [getBlockState]. *)
Definition blockstateFile (block : Block) : string :=
  "blockstates/" +:+
  JS.replace (JS.replace (name block) "minecraft:" "") "minecraft:" "" +:+ ".json".

(** ** The variant fallback order, as the specification words it *)

Module VariantSpec.

(** The literal [name=value] of a property. *)
Definition keyValue (kv : string * string) : string :=
  kv.1 +:+ "=" +:+ kv.2.

(** A variant key decomposes into its [,]-separated parts; a part names
    the property before its first [=] and gives it the value between the
    first [=] and the next, or no value when it has no [=]. *)
Definition nameOf (part : string) : string :=
  default "" (head (JS.split "=" part)).

Definition valueOf (part : string) : option string :=
  JS.split "=" part !! 1%nat.

(** The value a variant key specifies for a property name, if it names
    the property at all: that of the first part naming it. *)
Definition specifies (key p : string) : option (option string) :=
  valueOf <$> head (filter (λ part, nameOf part = p) (JS.split "," key)).

(** [p] is a property name appearing in some variant key (the empty
    key names no property). *)
Definition appears (variantKeys : list string) (p : string) : bool :=
  existsb (λ key, negb (bool_decide (key = "")) &&
                  bool_decide (is_Some (specifies key p))) variantKeys.

(** Step 1: the block's properties restricted to the names that appear
    in a variant key, sorted and comma-joined. *)
Definition isVariantKey (vs : JS.Obj ModelChoice) (block : Block)
    (variantKey : string) : Prop :=
  ∃ l : list string,
    l ≡ₚ keyValue <$>
           filter (λ kv, appears (JS.keys vs) kv.1 = true) (properties block) ∧
    Sorted String.le l ∧
    variantKey = JS.join "," l.

(** A requested property conflicts with the key when the key specifies
    another value for it; it agrees when the key specifies its value. *)
Definition conflicts (key : string) (kv : string * string) : bool :=
  match specifies key kv.1 with
  | Some w => negb (bool_decide (w = Some kv.2))
  | None => false
  end.

Definition agrees (key : string) (kv : string * string) : bool :=
  bool_decide (specifies key kv.1 = Some (Some kv.2)).

Definition validCandidate (block : Block) (key : string) : Prop :=
  ∀ kv, kv ∈ properties block → conflicts key kv = false.

Definition agreeCount (block : Block) (key : string) : nat :=
  length (filter (λ kv, agrees key kv = true) (properties block)).

(** Step 4: a valid candidate with the highest count of agreeing
    properties, the first such in key-enumeration order. *)
Definition bestPartialMatch (vs : JS.Obj ModelChoice) (block : Block)
    (key : string) : Prop :=
  ∃ i : nat,
    JS.keys vs !! i = Some key ∧ validCandidate block key ∧
    ∀ (j : nat) key', JS.keys vs !! j = Some key' → validCandidate block key' →
      (agreeCount block key' ≤ agreeCount block key)%nat ∧
      ((j < i)%nat → (agreeCount block key' < agreeCount block key)%nat).

(** Step 5: the first property, in encounter order, whose literal
    ["key=value"] is a variant key. *)
Definition firstLiteralHit (vs : JS.Obj ModelChoice) (block : Block)
    (v : ModelChoice) : Prop :=
  ∃ (i : nat) kv,
    properties block !! i = Some kv ∧
    JS.get (keyValue kv) vs = Some v ∧
    ∀ (j : nat) kv', (j < i)%nat → properties block !! j = Some kv' →
      JS.get (keyValue kv') vs = None.

(** The six steps, each available only when the earlier ones failed. *)
Inductive Selected (vs : JS.Obj ModelChoice) (block : Block)
  : option ModelChoice → Prop :=
| by_exact_match variantKey v :
    isVariantKey vs block variantKey →
    JS.get variantKey vs = Some v →
    Selected vs block (Some v)
| by_empty_key variantKey v :
    isVariantKey vs block variantKey →
    JS.get variantKey vs = None →
    JS.get "" vs = Some v →
    Selected vs block (Some v)
| by_partial_match variantKey key v :
    isVariantKey vs block variantKey →
    JS.get variantKey vs = None →
    JS.get "" vs = None →
    bestPartialMatch vs block key →
    JS.get key vs = Some v →
    Selected vs block (Some v)
| by_single_property variantKey v :
    isVariantKey vs block variantKey →
    JS.get variantKey vs = None →
    JS.get "" vs = None →
    (∀ key, key ∈ JS.keys vs → ¬ validCandidate block key) →
    firstLiteralHit vs block v →
    Selected vs block (Some v)
| by_first_key variantKey firstKey v :
    isVariantKey vs block variantKey →
    JS.get variantKey vs = None →
    JS.get "" vs = None →
    (∀ key, key ∈ JS.keys vs → ¬ validCandidate block key) →
    (∀ kv, kv ∈ properties block → JS.get (keyValue kv) vs = None) →
    JS.keys vs !! 0%nat = Some firstKey →
    JS.get firstKey vs = Some v →
    Selected vs block (Some v)
| by_nothing :
    vs = [] →
    Selected vs block None.

End VariantSpec.

(** ** Well-formed property maps *)

(** A property name or value as [parseBlockString] produces them and as
    blockstate files write them: free of the separators [=] and [,]. *)
Definition cleanString (s : string) : Prop :=
  JS.includes s "=" = false ∧ JS.includes s "," = false.

Definition cleanProperty (kv : string * string) : Prop :=
  cleanString kv.1 ∧ cleanString kv.2.

(** ** Concrete packs and blocks used in examples *)

Module Examples.

Import AssetLoader.

Definition holder (path : string) : BlockStateModelHolder :=
  {| holder_model := path; holder_x := None; holder_y := None;
     holder_uvlock := None; holder_weight := None |}.

(** A pack whose only blockstate is [blockstates/<name>.json]. *)
Definition onlyBlockstate (blockName : string) (definition : BlockStateDefinition)
  : Assets :=
  {| blockstateJson := λ path,
       if bool_decide (path = "blockstates/" +:+ blockName +:+ ".json")
       then Some (Parsed (Some definition)) else None;
     modelJson := λ _, None |}.

(** A variants-only blockstate whose keys carry values with an [=]. *)
Definition crateState : BlockStateDefinition :=
  {| variants := Some [("a=1=x", Single (holder "block/crate_a"));
                       ("b=2=y", Single (holder "block/crate_b"))];
     multipart := None |}.

Definition crate_ab : Block := mkBlock "minecraft" "crate" [("a", "1=x"); ("b", "2=y")].
Definition crate_ba : Block := mkBlock "minecraft" "crate" [("b", "2=y"); ("a", "1=x")].

(** An oak log, with its properties in two orders. *)
Definition logState : BlockStateDefinition :=
  {| variants := Some [("axis=x", Single {| holder_model := "block/oak_log_horizontal";
                                            holder_x := Some 90%Z; holder_y := Some 90%Z;
                                            holder_uvlock := None; holder_weight := None |});
                       ("axis=y", Single (holder "block/oak_log"))];
     multipart := None |}.

Definition log_1 : Block :=
  mkBlock "minecraft" "oak_log" [("axis", "x"); ("waterlogged", "false")].
Definition log_2 : Block :=
  mkBlock "minecraft" "oak_log" [("waterlogged", "false"); ("axis", "x")].

(** A child model over a parent model, as in the specification's example. *)
Definition cubeElement : BlockModelElement :=
  {| from := (JS.Integer 0, JS.Integer 0, JS.Integer 0);
     to := (JS.Integer 16, JS.Integer 16, JS.Integer 16);
     element_rotation := None; faces := None |}.

Definition parentModel : BlockModel :=
  {| parent := None;
     textures := Some (list_to_map [("top", "B"); ("side", "C")]);
     elements := Some [cubeElement];
     display := None |}.

Definition childModel : BlockModel :=
  {| parent := Some "block/P";
     textures := Some (list_to_map [("top", "A")]);
     elements := None;
     display := None |}.

(** A pack whose only model is [models/<path>.json]. *)
Definition onlyModel (path : string) (m : BlockModel) : Assets :=
  {| blockstateJson := λ _, None;
     modelJson := λ file,
       if bool_decide (file = "models/" +:+ path +:+ ".json")
       then Some (Parsed m) else None |}.

End Examples.

(** ** Multipart rules, as the specification words them *)

Module MultipartSpec.

(** The model an [apply] contributes: the holder itself, or the entry
    at index 0 of a list. *)
Definition firstHolder (choice : ModelChoice) : option BlockStateModelHolder :=
  match choice with
  | Single holder => Some holder
  | Weighted holders => holders !! 0%nat
  end.

(** The value a block has for a property: its own, or else the text of
    the member its property map inherits from [Object.prototype]. *)
Definition blockValue (block : Block) (property : string) : option string :=
  match JS.get property (properties block) with
  | Some value => Some value
  | None =>
      if bool_decide (property ∈ JS.objectPrototype)
      then Some (JS.inheritedText property) else None
  end.

(** An entry of a condition map is satisfied when the block has the
    property and its value is one of the [|]-separated alternatives. *)
Definition entrySatisfied (block : Block) (entry : string * string) : Prop :=
  ∃ value, blockValue block entry.1 = Some value ∧
           value ∈ JS.split "|" entry.2.

(** The reading of the claim: the block defines the property, and its
    value equals the expected value or is one of the alternatives. *)
Definition entrySatisfiedLoose (block : Block) (entry : string * string) : Prop :=
  ∃ value, JS.get entry.1 (properties block) = Some value ∧
           (value = entry.2 ∨ value ∈ JS.split "|" entry.2).

Definition conditionMatches (block : Block) (condition : Condition) : Prop :=
  ∀ entry, entry ∈ condition → entrySatisfied block entry.

Definition applies (block : Block) (part : BlockStateMultipart) : Prop :=
  match when part with
  | None => True
  | Some (WhenOR conditions) => ∃ c, c ∈ conditions ∧ conditionMatches block c
  | Some (WhenAll condition) => conditionMatches block condition
  end.

(** The rules that apply, in declaration order. *)
Inductive Applying (block : Block)
  : list BlockStateMultipart → list BlockStateMultipart → Prop :=
| applying_nil : Applying block [] []
| applying_keep part parts kept :
    applies block part → Applying block parts kept →
    Applying block (part :: parts) (part :: kept)
| applying_skip part parts kept :
    ¬ applies block part → Applying block parts kept →
    Applying block (part :: parts) kept.

(** The model data a holder contributes. *)
Definition contribution (holder : BlockStateModelHolder) : ModelData :=
  {| model := holder_model holder; x := holder_x holder;
     y := holder_y holder; uvlock := holder_uvlock holder |}.

End MultipartSpec.

(** ** Parent inheritance, as the specification words it *)

Module InheritanceSpec.

Import AssetLoader.

(** The parent models that get merged, nearest first: at most [hops] of
    them, the chain ending early at a model without parent and at a parent
    file that is missing or does not parse. *)
Fixpoint ancestors (assets : Assets) (hops : nat) (parentPath : string)
  : list BlockModel :=
  match hops with
  | O => []
  | S hops' =>
      if decide (parentPath = "") then []
      else
        match modelJson assets
                ("models/" +:+ JS.replace parentPath "minecraft:" "" +:+ ".json") with
        | Some (Parsed parentModel) =>
            parentModel :: ancestors assets hops' (default "" (parent parentModel))
        | Some SyntaxError => []
        | None => []
        end
  end.

(** The value a model's texture table gives a key. *)
Definition textureOf (key : string) (m : BlockModel) : option string :=
  textures m ≫= (.!! key).

(** The answer of the first model of a chain, child first, that has one. *)
Definition firstOf {A} (f : BlockModel → option A) (chain : list BlockModel)
  : option A :=
  head (omap f chain).

End InheritanceSpec.

(** ** Liquids, as the specification words them *)

Module LiquidSpec.

Fixpoint allDigits (s : string) : bool :=
  match s with
  | EmptyString => true
  | String c s' => AssetLoader.isDigit c && allDigits s'
  end.

(** The level of a liquid block: its [level] property read as an
    integer, 0 when the block has none or an empty one. *)
Definition levelOf (block : Block) : JS.Number :=
  match JS.get "level" (properties block) with
  | Some text => if bool_decide (text = "") then JS.Integer 0 else JS.parseInt text
  | None => JS.Integer 0
  end.

(** The model path of a liquid block: the liquid's base path, followed by
    [_level_] and the level as JavaScript prints it unless the level is 0. *)
Definition liquidPath (isWater : bool) (level : JS.Number) : string :=
  (if isWater then "block/water" else "block/lava") +:+
  (if JS.isZero level then ""
   else "_level_" +:+ JS.numberToString level).

(** The height of a full liquid. *)
Definition sourceHeight (isWater : bool) : JS.Number :=
  JS.Integer (if isWater then 14 else 16).

(** The height of the liquid cuboid for the number the path's digits are
    read as. *)
Definition heightFor (isWater : bool) (n : JS.Number) : JS.Number :=
  if JS.isZero n then sourceHeight isWater
  else JS.sub (JS.Integer 16) (JS.mul n (JS.Integer 2)).

(** The height of the liquid cuboid at a level of the block: a level
    that is positive is read back from the leading digits of its printed
    form; any other level leaves no digits in the path. *)
Definition liquidHeightAt (isWater : bool) (level : JS.Number) : JS.Number :=
  match level with
  | JS.Integer z =>
      if (0 <? z)%Z
      then heightFor isWater (JS.parseInt (JS.numberToString level))
      else sourceHeight isWater
  | _ => sourceHeight isWater
  end.

Definition stillTexture (isWater : bool) : string :=
  if isWater then "block/water_still" else "block/lava_still".

Definition flowTexture (isWater : bool) : string :=
  if isWater then "block/water_flow" else "block/lava_flow".

End LiquidSpec.

(** ** Texture references, as the specification words them *)

Module TextureSpec.

(** One lookup: a [#key] reference is replaced by the value the table
    gives [key], and is kept when the table has none (or an empty one); a
    literal is left alone. *)
Definition lookupStep (table : gmap string string) (ref : string) : string :=
  if JS.startsWith ref "#"
  then match table !! JS.substring_from 1 ref with
       | Some value => if decide (value = "") then ref else value
       | None => ref
       end
  else ref.

(** One lookup as JavaScript makes it: a key the table does not have
    but every object inherits reads as a function (an object for
    [__proto__]), and the loop then throws a [TypeError]. *)
Definition readTable (table : gmap string string) (ref : string) : result string :=
  if JS.startsWith ref "#"
  then match JS.member (table !! JS.substring_from 1 ref) (JS.substring_from 1 ref) with
       | JS.Own value => Returns (if decide (value = "") then ref else value)
       | JS.Undefined => Returns ref
       | JS.Inherited => Throws "TypeError"
       end
  else Returns ref.

(** Stripping a leading [minecraft:] and nothing else. *)
Definition stripNamespace (s : string) : string :=
  if JS.startsWith s "minecraft:" then JS.substring_from 10 s else s.

(** A texture table with a chain of five references before the literal. *)
Definition fiveHops : BlockModel :=
  {| parent := None;
     textures := Some (list_to_map
       [("a", "#b"); ("b", "#c"); ("c", "#d"); ("d", "#e"); ("e", "block/stone");
        ("end", "#side"); ("side", "block/stone"); ("loop", "#loop")]);
     elements := None;
     display := None |}.

End TextureSpec.

(** ** BlockMeshBuilder.ts *)

Module BlockMeshBuilder.

(** The [transform] argument: the blockstate's rotation and uv-lock. *)
Record Transform := mkTransform {
  transform_x : option Z;
  transform_y : option Z;
  transform_uvlock : option bool
}.

(** The [uvCoords] array, two entries per corner, in the order top-left,
    top-right, bottom-left, bottom-right. *)
Definition UVCoords : Type := ((Q * Q) * (Q * Q) * (Q * Q) * (Q * Q))%type.

Definition applyUVRotation (uvCoords : UVCoords) (rotation : Z) : UVCoords :=
  let '(tl, tr, bl, br) := uvCoords in
  if (rotation =? 0)%Z then uvCoords
  else if (rotation =? 90)%Z then (bl, tl, br, tr)
  else if (rotation =? 180)%Z then (br, bl, tr, tl)
  else if (rotation =? 270)%Z then (tr, br, tl, bl)
  else uvCoords.

(** The local UV corners of a face: pixel coordinates over 16, with the
    vertical flip. *)
Definition faceUVCoords (faceData : Face) : UVCoords :=
  let '(uMinPx, vMinPx, uMaxPx, vMaxPx) := default (0, 0, 16, 16)%Z (uv faceData) in
  let u1 := (inject_Z uMinPx / 16)%Q in
  let v1 := (inject_Z vMinPx / 16)%Q in
  let u2 := (inject_Z uMaxPx / 16)%Q in
  let v2 := (inject_Z vMaxPx / 16)%Q in
  ((u1, 1 - v1)%Q, (u2, 1 - v1)%Q, (u1, 1 - v2)%Q, (u2, 1 - v2)%Q).

(** [totalRotation] after the [switch] and the normalisation
    [((totalRotation % 360) + 360) % 360]; [%] is the truncating
    remainder. *)
Definition totalRotation (direction : string) (faceData : Face)
    (transform : Transform) : Z :=
  let totalRotation := default 0%Z (rotation faceData) in
  let totalRotation :=
    if bool_decide (transform_uvlock transform ≠ Some true)
    then
      let yRot := default 0%Z (transform_y transform) in
      let xRot := default 0%Z (transform_x transform) in
      if bool_decide (direction = "up") then (totalRotation + yRot)%Z
      else if bool_decide (direction = "down") then (totalRotation - yRot)%Z
      else if bool_decide (direction = "north") then (totalRotation + yRot)%Z
      else if bool_decide (direction = "south") then (totalRotation - yRot)%Z
      else if bool_decide (direction = "east") then (totalRotation + yRot)%Z
      else if bool_decide (direction = "west") then (totalRotation - yRot)%Z
      else totalRotation
    else totalRotation in
  Z.rem (Z.rem totalRotation 360 + 360) 360.

(** [Math.round(totalRotation / 90) * 90]; [Math.round] rounds half up. *)
Definition roundedRotation (totalRotation : Z) : Z :=
  ((2 * totalRotation + 90) / 180 * 90)%Z.

Definition mapUVCoordinates (direction : string) (faceData : Face)
    (transform : Transform) : UVCoords :=
  let uvCoords := faceUVCoords faceData in
  let totalRotation := totalRotation direction faceData transform in
  if (totalRotation =? 0)%Z then uvCoords
  else applyUVRotation uvCoords (roundedRotation totalRotation).

End BlockMeshBuilder.

(** ** UV rotation, as the specification words it *)

Module UVSpec.

(** The sign with which a face direction takes the blockstate rotation. *)
Definition directionSign (direction : string) : Z :=
  if bool_decide (direction = "up" ∨ direction = "north" ∨ direction = "east")
  then 1%Z
  else if bool_decide (direction = "down" ∨ direction = "south" ∨ direction = "west")
  then (-1)%Z
  else 0%Z.

(** [r] is [t] snapped to the nearest multiple of 90 (a tie goes up). *)
Definition nearest90 (r t : Z) : Prop :=
  (r mod 90 = 0)%Z ∧ (t - 45 < r ≤ t + 45)%Z.

(** A face without declared rotation or uv, and a blockstate rotated
    about x only. *)
Definition plainFace : Face :=
  {| texture := "#all"; cullface := None; rotation := None;
     tintindex := None; uv := None |}.

Definition xOnly : BlockMeshBuilder.Transform :=
  {| BlockMeshBuilder.transform_x := Some 90%Z;
     BlockMeshBuilder.transform_y := Some 0%Z;
     BlockMeshBuilder.transform_uvlock := Some false |}.

Definition yOnly : BlockMeshBuilder.Transform :=
  {| BlockMeshBuilder.transform_x := Some 0%Z;
     BlockMeshBuilder.transform_y := Some 90%Z;
     BlockMeshBuilder.transform_uvlock := Some false |}.

(** The face with another declared rotation. *)
Definition withRotation (declared : Z) (faceData : Face) : Face :=
  {| texture := texture faceData; cullface := cullface faceData;
     rotation := Some declared; tintindex := tintindex faceData; uv := uv faceData |}.

End UVSpec.

(** ** AtlasBuilder.ts *)

Module AtlasBuilder.

(** An image, as far as the packer looks at it: its pixel dimensions. *)
Record Image := mkImage {
  image_width : N;
  image_height : N
}.

(** An entry [{ path, image }] of the [textures] argument. *)
Record TextureInput := mkTextureInput {
  input_path : string;
  input_image : Image
}.

Record TextureInfo := mkTextureInfo {
  tex_path : string;
  tex_image : Image;
  tex_width : N;
  tex_height : N;
  tex_area : N
}.

(** [PackedTexture extends TextureInfo] with the offset [x], [y]. *)
Record PackedTexture := mkPackedTexture {
  packed_info : TextureInfo;
  packed_x : N;
  packed_y : N
}.

(** An [AtlasNode]: unused, or used and carrying its [right] and [down]
    children. *)
Inductive AtlasNode :=
| Unused (node_x node_y node_width node_height : N)
| Split (node_x node_y node_width node_height : N) (rightNode downNode : AtlasNode).

(** The JavaScript number [dividend / divisor]. *)
Record Quotient := Over {
  dividend : N;
  divisor : N
}.

Record UVRect := mkUVRect {
  uv_u : Quotient;
  uv_v : Quotient;
  uv_width : Quotient;
  uv_height : Quotient
}.

(** A reference to a node inside the tree: the branches from the root. *)
Inductive Branch := ToRight | ToDown.

Fixpoint findNode (root : AtlasNode) (w h : N) : option (list Branch) :=
  match root with
  | Split _ _ _ _ rightNode downNode =>
      match findNode rightNode w h with
      | Some node => Some (ToRight :: node)
      | None => cons ToDown <$> findNode downNode w h
      end
  | Unused _ _ width height =>
      if (w <=? width)%N && (h <=? height)%N then Some [] else None
  end.

Definition node_origin (node : AtlasNode) : N * N :=
  match node with
  | Unused x y _ _ => (x, y)
  | Split x y _ _ _ _ => (x, y)
  end.

(** [splitNode] marks the node used and gives it fresh children. *)
Definition splitHere (node : AtlasNode) (w h : N) : AtlasNode :=
  match node with
  | Unused x y width height
  | Split x y width height _ _ =>
      Split x y width height
        (Unused (x + w) y (width - w) h)
        (Unused x (y + h) width (height - h))
  end.

(** [splitNode(node, w, h)] for the node that [node] refers to in
    [root]: the tree after the update, and the node's [x] and [y]. *)
Fixpoint splitNode (root : AtlasNode) (node : list Branch) (w h : N)
  : AtlasNode * (N * N) :=
  match node, root with
  | [], _ => (splitHere root w h, node_origin root)
  | ToRight :: node', Split x y width height rightNode downNode =>
      let '(rightNode', fit) := splitNode rightNode node' w h in
      (Split x y width height rightNode' downNode, fit)
  | ToDown :: node', Split x y width height rightNode downNode =>
      let '(downNode', fit) := splitNode downNode node' w h in
      (Split x y width height rightNode downNode', fit)
  | _ :: _, Unused _ _ _ _ => (root, node_origin root)
  end.

Section Packer.

Variables (atlasSize padding : N).

(** The [for] loop of [packTextures] over the remaining textures. *)
Fixpoint packLoop (root : AtlasNode) (textures : list TextureInfo)
  : list PackedTexture :=
  match textures with
  | [] => []
  | texture :: rest =>
      let w := (tex_width texture + padding)%N in
      let h := (tex_height texture + padding)%N in
      match findNode root w h with
      | Some node =>
          let '(root', (fit_x, fit_y)) := splitNode root node w h in
          {| packed_info := texture; packed_x := fit_x; packed_y := fit_y |}
            :: packLoop root' rest
      | None => packLoop root rest
      end
  end.

Definition packTextures (textures : list TextureInfo) : list PackedTexture :=
  packLoop (Unused 0 0 atlasSize atlasSize) textures.

Definition uvRectOf (texture : PackedTexture) : UVRect :=
  {| uv_u := Over (packed_x texture) atlasSize;
     uv_v := Over (packed_y texture) atlasSize;
     uv_width := Over (tex_width (packed_info texture)) atlasSize;
     uv_height := Over (tex_height (packed_info texture)) atlasSize |}.

(** The canvas is the sequence of [drawImage(image, x, y)] calls. *)
Record AtlasCanvas := mkAtlasCanvas {
  canvas : list (Image * N * N);
  canvas_uvMap : gmap string UVRect
}.

Definition createAtlasCanvas (packedTextures : list PackedTexture) : AtlasCanvas :=
  foldl (λ acc texture,
           {| canvas := canvas acc ++
                [(tex_image (packed_info texture), packed_x texture, packed_y texture)];
              canvas_uvMap :=
                <[tex_path (packed_info texture) := uvRectOf texture]> (canvas_uvMap acc) |})
        {| canvas := []; canvas_uvMap := ∅ |} packedTextures.

(** [calculatePackingEfficiency] *)
Definition calculatePackingEfficiency (packedTextures : list PackedTexture) : Q :=
  let totalTextureArea :=
    foldl (λ sum tex, (sum + tex_area (packed_info tex))%N) 0%N packedTextures in
  let atlasArea := (atlasSize * atlasSize)%N in
  (inject_Z (Z.of_N totalTextureArea) / inject_Z (Z.of_N atlasArea) * 100)%Q.

(** [[...textures].sort(compare)]: the stable sort by a comparator. *)
Fixpoint insertSorted (compare : TextureInfo → TextureInfo → Z) (a : TextureInfo)
    (sorted : list TextureInfo) : list TextureInfo :=
  match sorted with
  | [] => [a]
  | b :: rest =>
      if (compare a b <=? 0)%Z then a :: b :: rest
      else b :: insertSorted compare a rest
  end.

Definition sortBy (compare : TextureInfo → TextureInfo → Z)
    (textures : list TextureInfo) : list TextureInfo :=
  foldr (insertSorted compare) [] textures.

Definition largestFirst (a b : TextureInfo) : Z :=
  let aMax := N.max (tex_width a) (tex_height a) in
  let bMax := N.max (tex_width b) (tex_height b) in
  if bool_decide (bMax ≠ aMax) then (Z.of_N bMax - Z.of_N aMax)%Z
  else (Z.of_N (tex_area b) - Z.of_N (tex_area a))%Z.

Definition areaFirst (a b : TextureInfo) : Z :=
  (Z.of_N (tex_area b) - Z.of_N (tex_area a))%Z.

Definition heightFirst (a b : TextureInfo) : Z :=
  if bool_decide (tex_height b ≠ tex_height a)
  then (Z.of_N (tex_height b) - Z.of_N (tex_height a))%Z
  else (Z.of_N (tex_width b) - Z.of_N (tex_width a))%Z.

Definition widthFirst (a b : TextureInfo) : Z :=
  if bool_decide (tex_width b ≠ tex_width a)
  then (Z.of_N (tex_width b) - Z.of_N (tex_width a))%Z
  else (Z.of_N (tex_height b) - Z.of_N (tex_height a))%Z.

Definition perimeterFirst (a b : TextureInfo) : Z :=
  (Z.of_N (tex_width b + tex_height b) - Z.of_N (tex_width a + tex_height a))%Z.

(** [sortTexturesForPacking], in the order the strategies are tried. *)
Definition sortTexturesForPacking (textures : list TextureInfo)
  : list (string * list TextureInfo) :=
  [("largest-first", sortBy largestFirst textures);
   ("area-first", sortBy areaFirst textures);
   ("height-first", sortBy heightFirst textures);
   ("width-first", sortBy widthFirst textures);
   ("perimeter-first", sortBy perimeterFirst textures)].

Record PackingResult := mkPackingResult {
  strategy : string;
  packedTextures : list PackedTexture;
  efficiency : Q
}.

Definition packWithStrategy (sorted : string * list TextureInfo) : PackingResult :=
  let packed := packTextures sorted.2 in
  {| strategy := sorted.1;
     packedTextures := packed;
     efficiency := calculatePackingEfficiency packed |}.

(** [packingResults.reduce((best, current) =>
      current.efficiency > best.efficiency ? current : best)] *)
Definition bestResult (packingResults : list PackingResult) : option PackingResult :=
  match packingResults with
  | [] => None
  | first :: rest =>
      Some (foldl (λ best current,
                     if Qlt_le_dec (efficiency best) (efficiency current)
                     then current else best)
                  first rest)
  end.

Record AtlasResult := mkAtlasResult {
  atlas : list (Image * N * N);
  uvMap : gmap string UVRect;
  packingEfficiency : Q
}.

Definition textureInfoOf (input : TextureInput) : TextureInfo :=
  {| tex_path := input_path input;
     tex_image := input_image input;
     tex_width := image_width (input_image input);
     tex_height := image_height (input_image input);
     tex_area := (image_width (input_image input) * image_height (input_image input))%N |}.

Definition buildNewAtlas (textures : list TextureInput) : AtlasResult :=
  let textureInfos := textureInfoOf <$> textures in
  let sortedTextures := sortTexturesForPacking textureInfos in
  let packingResults := packWithStrategy <$> sortedTextures in
  match bestResult packingResults with
  | Some best =>
      let drawn := createAtlasCanvas (packedTextures best) in
      {| atlas := canvas drawn;
         uvMap := canvas_uvMap drawn;
         packingEfficiency := efficiency best |}
  | None => {| atlas := []; uvMap := ∅; packingEfficiency := 0%Q |}
  end.

End Packer.

End AtlasBuilder.

(** ** The atlas, as the specification words it *)

Module AtlasSpec.

Import AtlasBuilder.

(** A pixel rectangle [(x, y, width, height)] and the pixels it covers. *)
Definition Rect : Type := (N * N * N * N)%type.

Definition covers (r : Rect) (px py : N) : Prop :=
  let '(x, y, width, height) := r in
  (x ≤ px < x + width)%N ∧ (y ≤ py < y + height)%N.

Definition overlap (r1 r2 : Rect) : Prop :=
  ∃ px py, covers r1 px py ∧ covers r2 px py.

(** The pixels a placed texture is drawn on. *)
Definition pixelRect (texture : PackedTexture) : Rect :=
  (packed_x texture, packed_y texture,
   tex_width (packed_info texture), tex_height (packed_info texture)).

(** The region of the canvas a node stands for. *)
Definition nodeRect (node : AtlasNode) : Rect :=
  match node with
  | Unused x y width height => (x, y, width, height)
  | Split x y width height _ _ => (x, y, width, height)
  end.

(** The unused nodes of a tree, in the order [findNode] visits them. *)
Fixpoint unusedNodes (root : AtlasNode) : list Rect :=
  match root with
  | Unused x y width height => [(x, y, width, height)]
  | Split _ _ _ _ rightNode downNode => unusedNodes rightNode ++ unusedNodes downNode
  end.

(** No two members of a list overlap. *)
Fixpoint pairwiseApart (rects : list Rect) : Prop :=
  match rects with
  | [] => True
  | r :: rest => (∀ r', r' ∈ rest → ¬ overlap r r') ∧ pairwiseApart rest
  end.

(** Every pixel of [r1] is a pixel of [r2]. *)
Definition within (r1 r2 : Rect) : Prop :=
  ∀ px py, covers r1 px py → covers r2 px py.

End AtlasSpec.

(** ** AtlasBuilder.ts: [buildAtlas] and its caches *)

Module AtlasCache.

Import AtlasBuilder.

(** An entry of the IndexedDB store [atlases].  [cached_pixels] is the
    canvas the stored [imageData] is put back on; [None] stands for
    data from which [new ImageData] throws. *)
Record AtlasCacheData := mkAtlasCacheData {
  cached_pixels : option (list (Image * N * N));
  cached_uvMap : gmap string UVRect;
  cached_packingEfficiency : Q;
  cached_timestamp : Z;
  cached_textureCount : N
}.

(** The legacy entry [AtlasCache] kept in [localStorage].
    [legacy_image] is what the data URL loads to; [None] is an image
    that fails to load. *)
Record AtlasCache := mkAtlasCache {
  legacy_image : option (list (Image * N * N));
  legacy_uvMap : gmap string UVRect;
  legacy_packingEfficiency : Q;
  legacy_timestamp : Z;
  legacy_textureCount : N
}.

(** A [localStorage] item: the empty string, a text that [JSON.parse]
    rejects, or the text of a legacy entry. *)
Inductive StoredItem :=
| EmptyText
| Malformed
| Encodes (cacheData : AtlasCache).

(** What a call leaves running when its promise settles: a
    [saveToCache] that [buildAtlas] does not await, or the
    [migrateToIndexedDB] that [loadFromCache] starts.  Either has made
    its entry, from the canvas and the clock, before the call went on. *)
Inductive Job :=
| Saving (cacheKey : string) (cacheData : AtlasCacheData)
| Migrating (cacheKey : string) (cacheData : AtlasCacheData).

(** The browser around the builder.  [indexedDB] is the object store
    [atlases] of the database [cubane-atlas-cache]; [None] when
    [openAtlasCacheDb] rejects.  [now] is [Date.now()].  [background]
    holds the jobs that have not ended yet, in the order they were
    started. *)
Record Browser := mkBrowser {
  indexedDB : option (gmap string AtlasCacheData);
  localStorage : gmap string StoredItem;
  now : Z;
  background : list Job
}.

(** What [loadFromCache] and [buildNewAtlas] resolve to is an
    [AtlasResult]; [buildAtlas] adds [fromCache]. *)
Record BuiltAtlas := mkBuiltAtlas {
  built : AtlasResult;
  fromCache : bool
}.

Definition maxAge : Z := 7 * 24 * 60 * 60 * 1000.

Definition removeItem (key : string) (browser : Browser) : Browser :=
  {| indexedDB := indexedDB browser;
     localStorage := delete key (localStorage browser);
     now := now browser;
     background := background browser |}.

(** [deleteFromCache]: errors are ignored. *)
Definition deleteFromCache (browser : Browser) (cacheKey : string) : Browser :=
  {| indexedDB := delete cacheKey <$> indexedDB browser;
     localStorage := localStorage browser;
     now := now browser;
     background := background browser |}.

(** [saveToCache], up to its first [await]: the entry it is going to
    put.  The [uvMap] is copied into a plain object by assignments, of
    which the one to [__proto__] adds no entry. *)
Definition cacheEntry (browser : Browser) (result : AtlasResult) (textureCount : N)
  : AtlasCacheData :=
  {| cached_pixels := Some (atlas result);
     cached_uvMap := delete "__proto__" (uvMap result);
     cached_packingEfficiency := packingEfficiency result;
     cached_timestamp := now browser;
     cached_textureCount := textureCount |}.

(** Leaving a job to run in the background. *)
Definition start (job : Job) (browser : Browser) : Browser :=
  {| indexedDB := indexedDB browser;
     localStorage := localStorage browser;
     now := now browser;
     background := (background browser ++ [job])%list |}.

(** [store.put(cacheData)] *)
Definition put (cacheKey : string) (cacheData : AtlasCacheData) (browser : Browser)
  : Browser :=
  {| indexedDB := insert cacheKey cacheData <$> indexedDB browser;
     localStorage := localStorage browser;
     now := now browser;
     background := background browser |}.

(** A job runs to its end.  [landed] tells whether the entry of its
    [saveToCache] reached the store: reading the canvas, opening the
    database and the [put] may each fail, which [saveToCache] logs and
    does not raise.  [migrateToIndexedDB] therefore removes the legacy
    item whether the entry landed or not. *)
Definition finish (landed : bool) (job : Job) (browser : Browser) : Browser :=
  match job with
  | Saving cacheKey cacheData =>
      if landed then put cacheKey cacheData browser else browser
  | Migrating cacheKey cacheData =>
      removeItem ("atlas_" +:+ cacheKey)
        (if landed then put cacheKey cacheData browser else browser)
  end.

(** The job at position [i] of the background ends. *)
Definition settle (i : nat) (landed : bool) (browser : Browser) : Browser :=
  match background browser !! i with
  | Some job =>
      finish landed job
        {| indexedDB := indexedDB browser;
           localStorage := localStorage browser;
           now := now browser;
           background := delete i (background browser) |}
  | None => browser
  end.

(** [expectedTextureCount > 0 && cacheData.textureCount !== expectedTextureCount] *)
Definition countMismatch (expectedTextureCount textureCount : N) : bool :=
  (0 <? expectedTextureCount)%N && negb (textureCount =? expectedTextureCount)%N.

(** [loadFromLocalStorage]: the result carries [textureCount]. *)
Definition loadFromLocalStorage (browser : Browser) (cacheKey : string)
    (expectedTextureCount : N) : Browser * option (AtlasResult * N) :=
  let key := "atlas_" +:+ cacheKey in
  match localStorage browser !! key with
  | None | Some EmptyText => (browser, None)
  | Some Malformed => (removeItem key browser, None)
  | Some (Encodes cacheData) =>
      if countMismatch expectedTextureCount (legacy_textureCount cacheData)
      then (browser, None)
      else if (maxAge <? now browser - legacy_timestamp cacheData)%Z
      then (removeItem key browser, None)
      else
        match legacy_image cacheData with
        | None => (removeItem key browser, None)
        | Some img =>
            (browser,
             Some ({| atlas := img;
                      uvMap := legacy_uvMap cacheData;
                      packingEfficiency := legacy_packingEfficiency cacheData |},
                   legacy_textureCount cacheData))
        end
  end.

(** [migrateToIndexedDB], as far as the call in [loadFromCache] gets:
    it is started and not awaited. *)
Definition migrateToIndexedDB (browser : Browser) (cacheKey : string)
    (result : AtlasResult * N) : Browser :=
  start (Migrating cacheKey (cacheEntry browser result.1 result.2)) browser.

(** [loadFromCache]; [None] is [null].  Whatever is thrown inside is
    caught and gives [null]. *)
Definition loadFromCache (browser : Browser) (cacheKey : string)
    (expectedTextureCount : N) : Browser * option AtlasResult :=
  match indexedDB browser with
  | None => (browser, None)
  | Some store =>
      match store !! cacheKey with
      | Some cacheData =>
          if countMismatch expectedTextureCount (cached_textureCount cacheData)
          then (browser, None)
          else if (maxAge <? now browser - cached_timestamp cacheData)%Z
          then (deleteFromCache browser cacheKey, None)
          else
            match cached_pixels cacheData with
            | None => (browser, None)
            | Some pixels =>
                (browser,
                 Some {| atlas := pixels;
                         uvMap := cached_uvMap cacheData;
                         packingEfficiency := cached_packingEfficiency cacheData |})
            end
      | None =>
          let '(browser, legacyResult) :=
            loadFromLocalStorage browser cacheKey expectedTextureCount in
          match legacyResult with
          | Some legacy => (migrateToIndexedDB browser cacheKey legacy, Some legacy.1)
          | None => (browser, None)
          end
      end
  end.

(** The optional [cacheKey] when it is truthy. *)
Definition givenKey (cacheKey : option string) : option string :=
  match cacheKey with
  | Some "" => None
  | other => other
  end.

Section Builder.

Variables (atlasSize padding : N).

(** [buildAtlas(textures, cacheKey?)]: the browser when the promise
    settles, and how it settles.  The save to the cache is started and
    not awaited. *)
Definition buildAtlas (browser : Browser) (textures : list TextureInput)
    (cacheKey : option string) : Browser * result BuiltAtlas :=
  let '(browser, cachedResult) :=
    match givenKey cacheKey with
    | Some key => loadFromCache browser key (N.of_nat (length textures))
    | None => (browser, None)
    end in
  match cachedResult with
  | Some cached => (browser, Returns {| built := cached; fromCache := true |})
  | None =>
      if (length textures =? 0)%nat
      then (browser, Throws "No cache found and no textures provided")
      else
        let result := buildNewAtlas atlasSize padding textures in
        let browser :=
          match givenKey cacheKey with
          | Some key =>
              start (Saving key (cacheEntry browser result (N.of_nat (length textures))))
                    browser
          | None => browser
          end in
        (browser, Returns {| built := result; fromCache := false |})
  end.

End Builder.

(** Neither store has anything under the key. *)
Definition noEntry (browser : Browser) (cacheKey : string) : Prop :=
  (∀ store, indexedDB browser = Some store → store !! cacheKey = None) ∧
  localStorage browser !! ("atlas_" +:+ cacheKey) = None.

(** [clearAllCaches]: the object store is cleared (a database that
    cannot be opened is left alone) and every [localStorage] item whose
    key starts with [atlas_] is removed. *)
Definition clearAllCaches (browser : Browser) : Browser :=
  {| indexedDB := (λ _, ∅) <$> indexedDB browser;
     localStorage :=
       filter (λ item, JS.startsWith item.1 "atlas_" = false) (localStorage browser);
     now := now browser;
     background := background browser |}.

(** The same browser when [Date.now()] has become [time]. *)
Definition atTime (time : Z) (browser : Browser) : Browser :=
  {| indexedDB := indexedDB browser;
     localStorage := localStorage browser;
     now := time;
     background := background browser |}.

End AtlasCache.


(** ** Cubane.ts *)

Module Cubane.

Import AssetLoader ModelResolver.

Definition Vector3 : Type := (Q * Q * Q)%type.

Record HybridBlockDynamicPart := mkDynamicPart {
  entityType : string;
  offset : option Vector3;
  part_rotation : option Vector3
}.

Inductive Geometry := BoxGeometry (width height depth : Q).

Inductive Material := MeshBasicMaterial (color : N) (wireframe : bool).

(** A [THREE.Object3D], as far as [getBlockMesh] puts it together.
    [EntityObject] is the mesh [EntityRenderer.createEntityMesh] made
    for an entity type and [BlockObject] the object
    [BlockMeshBuilder.createBlockMesh] made from its arguments.
    [Clone original] is what [original.clone()] returns: another object,
    with the name, the transform, the user data and clones of the children
    of the original, but without the fields [blockData] and [biome] that
    [getBlockMesh] hangs on its groups. *)
#[warning="-register-all"] Inductive Object3D :=
| Mesh (name : string) (geometry : Geometry) (material : Material)
| EntityObject (name : string) (entity : string)
| BlockObject (modelJson : BlockModel) (uvlock : option bool) (blockData : Block)
    (biome : string)
| Rotated (part : Object3D) (rotateY rotateX : option Z)
| SignPlaced (entityMesh : Object3D) (blockData : Block)
| DynamicPart (mesh : Object3D) (position rotation : option Vector3) (entity : string)
| Group (name : string) (blockData : Block) (biome : string) (children : list Object3D)
| Clone (original : Object3D).

(** [object.name = name] *)
Fixpoint setName (newName : string) (object : Object3D) : Object3D :=
  match object with
  | Mesh _ geometry material => Mesh newName geometry material
  | EntityObject _ entity => EntityObject newName entity
  | BlockObject modelJson uvlock blockData biome =>
      BlockObject modelJson uvlock blockData biome
  | Rotated part rotateY rotateX => Rotated (setName newName part) rotateY rotateX
  | SignPlaced entityMesh blockData => SignPlaced (setName newName entityMesh) blockData
  | DynamicPart mesh position rotation entity =>
      DynamicPart (setName newName mesh) position rotation entity
  | Group _ blockData biome children => Group newName blockData biome children
  | Clone original => Clone (setName newName original)
  end.

(** The fields of a [Cubane] that [getBlockMesh] reads and writes. *)
Record Cubane := mkCubane {
  assetLoader : Assets;
  blockMeshCache : gmap string Object3D;
  entityMeshCache : gmap string Object3D;
  pureBlockEntityMap : gmap string string;
  hybridBlockConfig : gmap string (list HybridBlockDynamicPart)
}.

Definition getShulkerBoxEntityMap : gmap string string :=
  list_to_map
    ((λ color, ("minecraft:" +:+ color +:+ "_shulker_box", "shulker_box")) <$>
       ["white"; "orange"; "magenta"; "light_blue"; "yellow"; "lime"; "pink";
        "gray"; "light_gray"; "cyan"; "purple"; "blue"; "brown"; "green";
        "red"; "black"]).

Definition getSignEntityMap : gmap string string :=
  let woodTypes :=
    ["oak"; "spruce"; "birch"; "jungle"; "acacia"; "dark_oak";
     "mangrove"; "cherry"; "bamboo"; "crimson"; "warped"; "pale_oak"] in
  let signMap :=
    foldl (λ signMap wood,
             <["minecraft:" +:+ wood +:+ "_hanging_sign" := wood +:+ "_hanging_sign"]>
               (<["minecraft:" +:+ wood +:+ "_wall_sign" := wood +:+ "_wall_sign"]>
                  (<["minecraft:" +:+ wood +:+ "_sign" := wood +:+ "_sign"]> signMap)))
          ∅ woodTypes in
  <["minecraft:hanging_sign" := "hanging_sign"]>
    (<["minecraft:wall_sign" := "wall_sign"]>
       (<["minecraft:sign" := "sign"]> signMap)).

(** [registerBlockEntity]; assigning a string to [__proto__] adds no
    entry. *)
Definition registerBlockEntity (cubane : Cubane) (blockId entity : string) : Cubane :=
  if bool_decide (blockId = "__proto__") then cubane
  else
    {| assetLoader := assetLoader cubane;
       blockMeshCache := blockMeshCache cubane;
       entityMeshCache := entityMeshCache cubane;
       pureBlockEntityMap := <[blockId := entity]> (pureBlockEntityMap cubane);
       hybridBlockConfig := hybridBlockConfig cubane |}.

(** [registerHybridBlock]; assigning an array to [__proto__] adds no
    entry either: it makes the array the prototype of the record, whose
    members are never read under a block id, which contains a colon. *)
Definition registerHybridBlock (cubane : Cubane) (blockId : string)
    (dynamicParts : list HybridBlockDynamicPart) : Cubane :=
  if bool_decide (blockId = "__proto__") then cubane
  else
    {| assetLoader := assetLoader cubane;
       blockMeshCache := blockMeshCache cubane;
       entityMeshCache := entityMeshCache cubane;
       pureBlockEntityMap := pureBlockEntityMap cubane;
       hybridBlockConfig := <[blockId := dynamicParts]> (hybridBlockConfig cubane) |}.

(** The field initialisers and the constructor, over the assets of the
    loaded packs. *)
Definition newCubane (assets : Assets) : Cubane :=
  let cubane :=
    {| assetLoader := assets;
       blockMeshCache := ∅;
       entityMeshCache := ∅;
       pureBlockEntityMap :=
         {[ "minecraft:chest" := "chest";
            "minecraft:trapped_chest" := "trapped_chest";
            "minecraft:ender_chest" := "ender_chest" ]};
       hybridBlockConfig :=
         {[ "minecraft:lectern" :=
              [{| entityType := "lectern_book"; offset := None; part_rotation := None |}];
            "minecraft:bell" :=
              [{| entityType := "bell"; offset := None; part_rotation := None |}] ]} |} in
  let cubane :=
    map_fold (λ blockId entity cubane, registerBlockEntity cubane blockId entity)
             cubane getShulkerBoxEntityMap in
  map_fold (λ blockId entity cubane, registerBlockEntity cubane blockId entity)
           cubane getSignEntityMap.

(** *** parseBlockString *)

(** [propertiesString.split(",").forEach(...)] on the [properties] of
    the result. *)
Definition parseProperties (propertiesString : string) : JS.Obj string :=
  foldl (λ properties prop,
           match JS.split "=" prop with
           | key :: value :: _ =>
               if bool_decide (key ≠ "") && bool_decide (value ≠ "")
               then JS.assign (JS.trim key) (JS.trim value) properties
               else properties
           | _ => properties
           end)
        [] (JS.split "," propertiesString).

(** The name and the properties in a block string without its
    namespace. *)
Definition parseNameAndProperties (remaining : string) : string * JS.Obj string :=
  match JS.indexOf "[" remaining with
  | Some propertyIndex =>
      (JS.substring 0 propertyIndex remaining,
       parseProperties
         (JS.substring (propertyIndex + 1) (String.length remaining - 1) remaining))
  | None => (remaining, [])
  end.

Definition parseBlockString (blockString : string) : Block :=
  match JS.split ":" blockString with
  | namespacePart :: remaining :: _ =>
      let '(blockName, blockProperties) := parseNameAndProperties remaining in
      {| namespace := namespacePart; name := blockName; properties := blockProperties |}
  | _ =>
      let '(blockName, blockProperties) := parseNameAndProperties blockString in
      {| namespace := "minecraft"; name := blockName; properties := blockProperties |}
  end.

(** *** Meshes *)

(** [createFallbackMesh]: the magenta wireframe cube. *)
Definition createFallbackMesh (name : string) : Object3D :=
  Mesh name (BoxGeometry (8 # 10) (8 # 10) (8 # 10)) (MeshBasicMaterial 0xff00ff true).

(** [applySignPositioning]: only a sign is moved. *)
Definition applySignPositioning (entityMesh : Object3D) (block : Block) : Object3D :=
  let blockName := name block in
  let isStandingSign :=
    JS.includes blockName "_sign" && negb (JS.includes blockName "wall")
      && negb (JS.includes blockName "hanging") in
  let isWallSign := JS.includes blockName "wall_sign" in
  let isHangingSign := JS.includes blockName "hanging_sign" in
  if negb isStandingSign && negb isWallSign && negb isHangingSign
  then entityMesh
  else SignPlaced entityMesh block.

Section Renderers.

(** The two renderers, by how a call ends: [createEntityMesh] returns a
    mesh ([true]), returns nothing, or throws; [createBlockMesh]
    returns an object or throws. *)
Variable createEntityMesh : string → result bool.
Variable createBlockMesh : BlockModel → option bool → Block → string → result unit.

Definition cacheEntityMesh (cubane : Cubane) (useCache : bool) (key : string)
    (mesh : Object3D) : Cubane :=
  if useCache
  then {| assetLoader := assetLoader cubane;
          blockMeshCache := blockMeshCache cubane;
          entityMeshCache := <[key := mesh]> (entityMeshCache cubane);
          pureBlockEntityMap := pureBlockEntityMap cubane;
          hybridBlockConfig := hybridBlockConfig cubane |}
  else cubane.

Definition cacheBlockMesh (cubane : Cubane) (useCache : bool) (key : string)
    (mesh : Object3D) : Cubane :=
  if useCache
  then {| assetLoader := assetLoader cubane;
          blockMeshCache := <[key := mesh]> (blockMeshCache cubane);
          entityMeshCache := entityMeshCache cubane;
          pureBlockEntityMap := pureBlockEntityMap cubane;
          hybridBlockConfig := hybridBlockConfig cubane |}
  else cubane.

Definition getEntityMesh (cubane : Cubane) (entity : string) (useCache : bool)
  : Cubane * Object3D :=
  match (if useCache then entityMeshCache cubane !! entity else None) with
  | Some cachedMesh => (cubane, setName ("entity_" +:+ entity) (Clone cachedMesh))
  | None =>
      let mesh :=
        match createEntityMesh entity with
        | Returns true => EntityObject ("entity_" +:+ entity) entity
        | Returns false => createFallbackMesh ("entity_" +:+ entity)
        | Throws _ => createFallbackMesh ("entity_" +:+ entity)
        end in
      (cacheEntityMesh cubane useCache entity (Clone mesh), mesh)
  end.

(** The body of [modelDataList.map]: the part for one model, [None]
    when making it threw. *)
Definition staticPart (cubane : Cubane) (block : Block) (biome : string)
    (modelData : ModelData) : option Object3D :=
  let modelJson := getModel (assetLoader cubane) (model modelData) in
  match createBlockMesh modelJson (uvlock modelData) block biome with
  | Returns _ =>
      let rotateY :=
        match y modelData with
        | Some degrees => if (degrees =? 0)%Z then None else Some degrees
        | None => None
        end in
      let rotateX :=
        match x modelData with
        | Some degrees => if (degrees =? 0)%Z then None else Some degrees
        | None => None
        end in
      Some (Rotated (BlockObject modelJson (uvlock modelData) block biome) rotateY rotateX)
  | Throws _ => None
  end.

(** [offset[i] - 0.5] *)
Definition centred (offset : Vector3) : Vector3 :=
  let '(ox, oy, oz) := offset in
  ((ox - (5 # 10))%Q, (oy - (5 # 10))%Q, (oz - (5 # 10))%Q).

(** The loop over the dynamic parts of a hybrid block. *)
Fixpoint dynamicParts (cubane : Cubane) (useCache : bool)
    (dynamicPartsConfig : list HybridBlockDynamicPart) : Cubane * list Object3D :=
  match dynamicPartsConfig with
  | [] => (cubane, [])
  | partConfig :: rest =>
      let '(cubane, dynamicMesh) := getEntityMesh cubane (entityType partConfig) useCache in
      let position := centred <$> offset partConfig in
      let part :=
        DynamicPart dynamicMesh position (part_rotation partConfig) (entityType partConfig) in
      let '(cubane, parts) := dynamicParts cubane useCache rest in
      (cubane, part :: parts)
  end.

(** [o[k]] on a record of strings, when truthy. *)
Definition truthyEntry (o : gmap string string) (k : string) : option string :=
  match o !! k with
  | Some "" => None
  | other => other
  end.

(** [getBlockMesh(blockString, biome, useCache)]: the instance
    afterwards and the mesh the promise resolves to. *)
Definition getBlockMesh (cubane : Cubane) (blockString biome : string) (useCache : bool)
  : Cubane * Object3D :=
  let cacheKey := blockString +:+ ":" +:+ biome in
  match (if useCache then blockMeshCache cubane !! cacheKey else None) with
  | Some cachedMesh => (cubane, Clone cachedMesh)
  | None =>
      let block := parseBlockString blockString in
      let blockId := namespace block +:+ ":" +:+ name block in
      match truthyEntry (pureBlockEntityMap cubane) blockId with
      | Some entity =>
          let '(cubane, entityMesh) := getEntityMesh cubane entity useCache in
          let entityMesh := applySignPositioning entityMesh block in
          (cacheBlockMesh cubane useCache cacheKey (Clone entityMesh), entityMesh)
      | None =>
          let rootName := "block_" +:+ JS.replace (name block) "minecraft:" "" in
          let staticParts :=
            match resolveBlockModel (assetLoader cubane) block with
            | Returns modelDataList => omap (staticPart cubane block biome) modelDataList
            | Throws _ => []
            end in
          let '(cubane, dynamic) :=
            match hybridBlockConfig cubane !! blockId with
            | Some dynamicPartsConfig => dynamicParts cubane useCache dynamicPartsConfig
            | None => (cubane, [])
            end in
          match (staticParts ++ dynamic)%list with
          | [] =>
              let fallback := createFallbackMesh ("block_fallback_" +:+ blockId) in
              (cacheBlockMesh cubane useCache cacheKey (Clone fallback), fallback)
          | children =>
              let rootGroup := Group rootName block biome children in
              (cacheBlockMesh cubane useCache cacheKey (Clone rootGroup), rootGroup)
          end
      end
  end.

End Renderers.

(** [clearMeshCaches], on the two caches of meshes. *)
Definition clearMeshCaches (cubane : Cubane) : Cubane :=
  {| assetLoader := assetLoader cubane;
     blockMeshCache := ∅;
     entityMeshCache := ∅;
     pureBlockEntityMap := pureBlockEntityMap cubane;
     hybridBlockConfig := hybridBlockConfig cubane |}.

(** [isBlockMeshCached] *)
Definition isBlockMeshCached (cubane : Cubane) (blockString biome : string) : bool :=
  bool_decide (is_Some (blockMeshCache cubane !! (blockString +:+ ":" +:+ biome))).

End Cubane.

(** ** The fail-soft path, as the specification words it *)

Module FallbackSpec.

Import AssetLoader ModelResolver Cubane.

(** The blockstate file of a block is missing, is not JSON, is the
    JSON [null], or has neither [variants] nor [multipart]. *)
Definition noUsableBlockstate (assets : Assets) (block : Block) : Prop :=
  let file :=
    blockstateJson assets
      ("blockstates/" +:+ JS.replace (JS.replace (name block) "minecraft:" "") "minecraft:" ""
         +:+ ".json") in
  file = None ∨ file = Some SyntaxError ∨ file = Some (Parsed None) ∨
  ∃ definition, file = Some (Parsed (Some definition)) ∧
                variants definition = None ∧ multipart definition = None.

(** The placeholder of a block: the magenta wireframe cube. *)
Definition placeholder (block : Block) : Object3D :=
  Mesh ("block_fallback_" +:+ namespace block +:+ ":" +:+ name block)
       (BoxGeometry (8 # 10) (8 # 10) (8 # 10)) (MeshBasicMaterial 0xff00ff true).

(** A pack that has no file at all. *)
Definition emptyPack : Assets :=
  {| blockstateJson := λ _, None; modelJson := λ _, None |}.

End FallbackSpec.


(** ** The packing, measured *)

Module PackingSpec.

Import AtlasBuilder AtlasSpec.

(** The region a placed texture takes from the atlas: its image and the
    padding to its right and below. *)
Definition paddedRect (padding : N) (texture : PackedTexture) : Rect :=
  (packed_x texture, packed_y texture,
   tex_width (packed_info texture) + padding,
   tex_height (packed_info texture) + padding)%N.

Definition area (r : Rect) : N :=
  let '(_, _, width, height) := r in (width * height)%N.

Definition totalArea (rects : list Rect) : N :=
  foldr (λ r sum, (area r + sum)%N) 0%N rects.

(** The rectangle ends inside a square canvas of the given size. *)
Definition fitsIn (size : N) (r : Rect) : Prop :=
  let '(x, y, width, height) := r in
  (x + width ≤ size)%N ∧ (y + height ≤ size)%N.

(** The texture with the padding counted into its dimensions. *)
Definition inflate (padding : N) (texture : TextureInfo) : TextureInfo :=
  {| tex_path := tex_path texture;
     tex_image := tex_image texture;
     tex_width := tex_width texture + padding;
     tex_height := tex_height texture + padding;
     tex_area := tex_area texture |}.

End PackingSpec.


(** ** ResourcePackManager.ts *)

Module ResourcePackManager.

(** A pack archive, by what [zip.file(path)] finds: its files that are
    not directories, each with the outcome of reading it as a string. *)
Definition Zip : Type := gmap string (result string).

(** The fields of [ResourcePackInfo] the manager itself reads or
    writes; [textureCount] is [assetCounts.textures]. *)
Record ResourcePackInfo := mkPackInfo {
  pack_id : string;
  pack_name : string;
  priority : Z;
  enabled : bool;
  pack_size : N;
  textureCount : N;
  sourceUrl : option string;
  pack_hash : string
}.

Record LoadedPack := mkLoadedPack {
  info : ResourcePackInfo;
  zip : Zip
}.

(** The events of [PackEventMap] that the modelled methods emit. *)
Inductive PackEvent :=
| PackAdded (packId : string) (packInfo : ResourcePackInfo)
| PackRemoved (packId : string) (packName : string)
| PackToggled (packId : string) (nowEnabled : bool)
| PackOrderChanged (packIds : list string)
| PacksChanged (reason : string)
| AtlasRebuilding (textures : N)
| LoadStart (packId : string) (source : string)
| LoadComplete (packId : string) (packInfo : ResourcePackInfo)
| LoadError (packId : string) (message : string).

(** What a method does to the outside, in order: an event handed to the
    listeners, or a call of one of the two rebuild callbacks. *)
Inductive Effect :=
| Emitted (event : PackEvent)
| AtlasRebuildCalled
| MeshRebuildCalled.

(** The manager.  [packs] is the [Map] in insertion order.  A callback
    is given by how its call ends, which may depend on all that happened
    before; listeners, whose exceptions [emit] swallows, are not kept. *)
Record Manager := mkManager {
  packs : JS.Obj LoadedPack;
  packOrder : list string;
  autoRebuild : bool;
  batchUpdateDepth : nat;
  pendingRebuild : bool;
  onAtlasRebuildNeeded : option (list Effect → result ());
  onMeshRebuildNeeded : option (list Effect → result ());
  effects : list Effect
}.

(** [new ResourcePackManager()] *)
Definition newManager : Manager :=
  {| packs := []; packOrder := []; autoRebuild := true; batchUpdateDepth := 0;
     pendingRebuild := false; onAtlasRebuildNeeded := None;
     onMeshRebuildNeeded := None; effects := [] |}.

Definition withPacks (newPacks : JS.Obj LoadedPack) (m : Manager) : Manager :=
  {| packs := newPacks; packOrder := packOrder m; autoRebuild := autoRebuild m;
     batchUpdateDepth := batchUpdateDepth m; pendingRebuild := pendingRebuild m;
     onAtlasRebuildNeeded := onAtlasRebuildNeeded m;
     onMeshRebuildNeeded := onMeshRebuildNeeded m; effects := effects m |}.

Definition withOrder (newOrder : list string) (m : Manager) : Manager :=
  {| packs := packs m; packOrder := newOrder; autoRebuild := autoRebuild m;
     batchUpdateDepth := batchUpdateDepth m; pendingRebuild := pendingRebuild m;
     onAtlasRebuildNeeded := onAtlasRebuildNeeded m;
     onMeshRebuildNeeded := onMeshRebuildNeeded m; effects := effects m |}.

Definition withDepth (depth : nat) (m : Manager) : Manager :=
  {| packs := packs m; packOrder := packOrder m; autoRebuild := autoRebuild m;
     batchUpdateDepth := depth; pendingRebuild := pendingRebuild m;
     onAtlasRebuildNeeded := onAtlasRebuildNeeded m;
     onMeshRebuildNeeded := onMeshRebuildNeeded m; effects := effects m |}.

Definition withPending (pending : bool) (m : Manager) : Manager :=
  {| packs := packs m; packOrder := packOrder m; autoRebuild := autoRebuild m;
     batchUpdateDepth := batchUpdateDepth m; pendingRebuild := pending;
     onAtlasRebuildNeeded := onAtlasRebuildNeeded m;
     onMeshRebuildNeeded := onMeshRebuildNeeded m; effects := effects m |}.

Definition withEffect (effect : Effect) (m : Manager) : Manager :=
  {| packs := packs m; packOrder := packOrder m; autoRebuild := autoRebuild m;
     batchUpdateDepth := batchUpdateDepth m; pendingRebuild := pendingRebuild m;
     onAtlasRebuildNeeded := onAtlasRebuildNeeded m;
     onMeshRebuildNeeded := onMeshRebuildNeeded m;
     effects := (effects m ++ [effect])%list |}.

(** [setAutoRebuild] *)
Definition setAutoRebuild (isEnabled : bool) (m : Manager) : Manager :=
  {| packs := packs m; packOrder := packOrder m; autoRebuild := isEnabled;
     batchUpdateDepth := batchUpdateDepth m; pendingRebuild := pendingRebuild m;
     onAtlasRebuildNeeded := onAtlasRebuildNeeded m;
     onMeshRebuildNeeded := onMeshRebuildNeeded m; effects := effects m |}.

(** [setAtlasRebuildCallback] and [setMeshRebuildCallback] *)
Definition setAtlasRebuildCallback (callback : list Effect → result ()) (m : Manager)
  : Manager :=
  {| packs := packs m; packOrder := packOrder m; autoRebuild := autoRebuild m;
     batchUpdateDepth := batchUpdateDepth m; pendingRebuild := pendingRebuild m;
     onAtlasRebuildNeeded := Some callback;
     onMeshRebuildNeeded := onMeshRebuildNeeded m; effects := effects m |}.

Definition setMeshRebuildCallback (callback : list Effect → result ()) (m : Manager)
  : Manager :=
  {| packs := packs m; packOrder := packOrder m; autoRebuild := autoRebuild m;
     batchUpdateDepth := batchUpdateDepth m; pendingRebuild := pendingRebuild m;
     onAtlasRebuildNeeded := onAtlasRebuildNeeded m;
     onMeshRebuildNeeded := Some callback; effects := effects m |}.

(** *** Methods as actions on the manager *)

(** A method: the manager afterwards and how the call (or its promise)
    ends.  What was done before a throw stays done. *)
Definition Action (A : Type) : Type := Manager → Manager * result A.

#[global] Instance action_ret : MRet Action := λ A a m, (m, Returns a).

#[global] Instance action_bind : MBind Action := λ A B k action m,
  match action m with
  | (m', Returns a) => k a m'
  | (m', Throws message) => (m', Throws message)
  end.

Definition update (change : Manager → Manager) : Action () :=
  λ m, (change m, Returns ()).

(** A read of the manager that may itself throw. *)
Definition inspect {A} (query : Manager → result A) : Action A :=
  λ m, (m, query m).

(** [for (const x of l) await body(x)] *)
Fixpoint forEach {A} (l : list A) (body : A → Action ()) : Action () :=
  match l with
  | [] => mret ()
  | x :: rest => _ ← body x; forEach rest body
  end.

(** [emit] *)
Definition emit (event : PackEvent) : Action () :=
  update (withEffect (Emitted event)).

(** *** Querying *)

(** [this.packs.get(id)!.info] and the like throw on an id that the
    map lacks. *)
Definition undefinedPack : string :=
  "TypeError: Cannot read properties of undefined".

Definition packOf (m : Manager) (packId : string) : result LoadedPack :=
  match JS.get packId (packs m) with
  | Some pack => Returns pack
  | None => Throws undefinedPack
  end.

(** [getPack]; [None] is [null]. *)
Definition getPack (m : Manager) (packId : string) : option ResourcePackInfo :=
  info <$> JS.get packId (packs m).

(** [getAllPacks] *)
Definition getAllPacks (m : Manager) : result (list ResourcePackInfo) :=
  mapM (λ packId, pack ← packOf m packId; mret (info pack)) (packOrder m).

(** [getEnabledPacks] *)
Definition getEnabledPacks (m : Manager) : result (list ResourcePackInfo) :=
  infos ← getAllPacks m; mret (filter (λ packInfo, enabled packInfo = true) infos).

(** [getPackCount] *)
Definition getPackCount (m : Manager) : nat := length (packs m).

(** [getPackZip] *)
Definition getPackZip (m : Manager) (packId : string) : option Zip :=
  zip <$> JS.get packId (packs m).

(** [getEnabledPacksInOrder]: lowest priority first. *)
Definition getEnabledPacksInOrder (m : Manager) : result (list (string * Zip)) :=
  loaded ← mapM (packOf m) (packOrder m);
  mret ((λ pack, (pack_id (info pack), zip pack)) <$>
          filter (λ pack, enabled (info pack) = true) loaded).

Inductive AssetType := Texture | Blockstate | Model.

Definition assetFullPath (assetPath : string) (type : AssetType) : string :=
  let prefix :=
    match type with
    | Texture => "assets/minecraft/textures/"
    | Blockstate => "assets/minecraft/blockstates/"
    | Model => "assets/minecraft/models/"
    end in
  let suffix := match type with Texture => ".png" | _ => ".json" end in
  prefix +:+ assetPath +:+ suffix.

(** The loop of [getAssetSource] over the ids from index [i] down,
    given highest index first. *)
Fixpoint findAssetSource (m : Manager) (fullPath : string) (highestFirst : list string)
  : result (option string) :=
  match highestFirst with
  | [] => Returns None
  | packId :: lower =>
      pack ← packOf m packId;
      if negb (enabled (info pack)) then findAssetSource m fullPath lower
      else if bool_decide (is_Some (zip pack !! fullPath)) then Returns (Some packId)
      else findAssetSource m fullPath lower
  end.

(** [getAssetSource]; [None] is [null]. *)
Definition getAssetSource (m : Manager) (assetPath : string) (type : AssetType)
  : result (option string) :=
  findAssetSource m (assetFullPath assetPath type) (reverse (packOrder m)).

(** [getMemoryUsage]: [totalPacksSize] and [loadedPacksCount]. *)
Definition getMemoryUsage (m : Manager) : N * nat :=
  (foldl (λ total entry, (total + pack_size (info entry.2))%N) 0%N (packs m),
   length (packs m)).

(** *** Rebuilds and batches *)

Definition callAtlasRebuild : Action () := λ m,
  match onAtlasRebuildNeeded m with
  | Some callback => (withEffect AtlasRebuildCalled m, callback (effects m))
  | None => (m, Returns ())
  end.

Definition callMeshRebuild : Action () := λ m,
  match onMeshRebuildNeeded m with
  | Some callback => (withEffect MeshRebuildCalled m, callback (effects m))
  | None => (m, Returns ())
  end.

(** [triggerRebuild] *)
Definition triggerRebuild (reason : string) : Action () :=
  _ ← emit (PacksChanged reason);
  enabledPacks ← inspect getEnabledPacks;
  let totalTextures :=
    foldl (λ sum p, (sum + textureCount p)%N) 0%N enabledPacks in
  _ ← emit (AtlasRebuilding totalTextures);
  _ ← callAtlasRebuild;
  callMeshRebuild.

(** [triggerRebuildIfNeeded] *)
Definition triggerRebuildIfNeeded (reason : string) : Action () := λ m,
  if (0 <? batchUpdateDepth m)%nat then (withPending true m, Returns ())
  else if autoRebuild m then triggerRebuild reason m
  else (withPending true m, Returns ()).

(** [beginBatchUpdate] *)
Definition beginBatchUpdate : Action () :=
  update (λ m, withDepth (S (batchUpdateDepth m)) m).

(** [endBatchUpdate] *)
Definition endBatchUpdate : Action () := λ m,
  let m := withDepth (batchUpdateDepth m - 1) m in
  if (batchUpdateDepth m =? 0)%nat && pendingRebuild m
  then triggerRebuild "batch update completed" (withPending false m)
  else (m, Returns ()).

(** [rebuildAtlas] *)
Definition rebuildAtlas : Action () := triggerRebuild "manual rebuild".

(** *** Pack management *)

Definition packNotFound (packId : string) : string :=
  "Pack " +:+ packId +:+ " not found".

(** [pack.info.enabled = enabled] and [pack.info.priority = priority]
    on the pack under an id. *)
Definition setInfo (change : ResourcePackInfo → ResourcePackInfo) (packId : string)
    (m : Manager) : Manager :=
  match JS.get packId (packs m) with
  | Some pack =>
      withPacks (JS.set packId {| info := change (info pack); zip := zip pack |} (packs m)) m
  | None => m
  end.

Definition withEnabled (isEnabled : bool) (p : ResourcePackInfo) : ResourcePackInfo :=
  {| pack_id := pack_id p; pack_name := pack_name p; priority := priority p;
     enabled := isEnabled; pack_size := pack_size p; textureCount := textureCount p;
     sourceUrl := sourceUrl p; pack_hash := pack_hash p |}.

Definition withPriority (newPriority : Z) (p : ResourcePackInfo) : ResourcePackInfo :=
  {| pack_id := pack_id p; pack_name := pack_name p; priority := newPriority;
     enabled := enabled p; pack_size := pack_size p; textureCount := textureCount p;
     sourceUrl := sourceUrl p; pack_hash := pack_hash p |}.

(** [removePack] *)
Definition removePack (packId : string) : Action () := λ m,
  match JS.get packId (packs m) with
  | None => (m, Returns ())
  | Some pack =>
      let m := withPacks (JS.remove packId (packs m)) m in
      let m := withOrder (filter (λ other, other ≠ packId) (packOrder m)) m in
      (_ ← emit (PackRemoved packId (pack_name (info pack)));
       triggerRebuildIfNeeded "pack removed") m
  end.

(** [removeAllPacks] *)
Definition removeAllPacks : Action () := λ m,
  (_ ← beginBatchUpdate;
   _ ← forEach (JS.keys (packs m)) removePack;
   endBatchUpdate) m.

(** [setPackEnabled] *)
Definition setPackEnabled (packId : string) (isEnabled : bool) : Action () := λ m,
  match JS.get packId (packs m) with
  | None => (m, Throws (packNotFound packId))
  | Some pack =>
      if bool_decide (enabled (info pack) = isEnabled) then (m, Returns ())
      else
        (_ ← emit (PackToggled packId isEnabled);
         triggerRebuildIfNeeded "pack toggled") (setInfo (withEnabled isEnabled) packId m)
  end.

(** [enablePack], [disablePack] *)
Definition enablePack (packId : string) : Action () := setPackEnabled packId true.
Definition disablePack (packId : string) : Action () := setPackEnabled packId false.

(** [togglePack] *)
Definition togglePack (packId : string) : Action bool := λ m,
  match JS.get packId (packs m) with
  | None => (m, Throws (packNotFound packId))
  | Some pack =>
      let newState := negb (enabled (info pack)) in
      (_ ← setPackEnabled packId newState; mret newState) m
  end.

(** The index at which [insertPackByPriority] splices the id in. *)
Fixpoint insertIndex (m : Manager) (newPriority : Z) (order : list string) : nat :=
  match order with
  | [] => 0
  | packId :: rest =>
      match JS.get packId (packs m) with
      | Some existingPack =>
          if (newPriority <? priority (info existingPack))%Z then 0
          else S (insertIndex m newPriority rest)
      | None => S (insertIndex m newPriority rest)
      end
  end.

(** [insertPackByPriority] *)
Definition insertPackByPriority (packId : string) (newPriority : Z) (m : Manager)
  : Manager :=
  let i := insertIndex m newPriority (packOrder m) in
  withOrder (take i (packOrder m) ++ packId :: drop i (packOrder m))%list m.

(** [setPackPriority] *)
Definition setPackPriority (packId : string) (newPriority : Z) : Action () := λ m,
  match JS.get packId (packs m) with
  | None => (m, Throws (packNotFound packId))
  | Some pack =>
      let m := setInfo (withPriority newPriority) packId m in
      let m := withOrder (filter (λ other, other ≠ packId) (packOrder m)) m in
      let m := insertPackByPriority packId newPriority m in
      (_ ← emit (PackOrderChanged (packOrder m));
       triggerRebuildIfNeeded "priority changed") m
  end.

(** [this.packOrder.indexOf(packId)]; [None] is [-1]. *)
Fixpoint indexOf (packId : string) (order : list string) : option nat :=
  match order with
  | [] => None
  | other :: rest =>
      if String.eqb other packId then Some 0%nat else S <$> indexOf packId rest
  end.

(** The body shared by [movePackUp] and [movePackDown]: the pack at
    [index] and its neighbour at [other] swap priorities and places. *)
Definition swapWith (packId : string) (index other : nat) (reason : string)
  : Action () := λ m,
  match packOrder m !! other with
  | None => (m, Returns ())
  | Some otherPackId =>
      match JS.get otherPackId (packs m), JS.get packId (packs m) with
      | Some otherPack, Some currentPack =>
          let tempPriority := priority (info currentPack) in
          let m := setInfo (withPriority (priority (info otherPack))) packId m in
          let m := setInfo (withPriority tempPriority) otherPackId m in
          let m := withOrder (<[other := packId]> (<[index := otherPackId]> (packOrder m))) m in
          (_ ← emit (PackOrderChanged (packOrder m));
           triggerRebuildIfNeeded reason) m
      | _, _ => (m, Returns ())
      end
  end.

(** [movePackUp] *)
Definition movePackUp (packId : string) : Action () := λ m,
  match indexOf packId (packOrder m) with
  | None => (m, Returns ())
  | Some index =>
      if bool_decide (S index = length (packOrder m)) then (m, Returns ())
      else swapWith packId index (S index) "pack moved up" m
  end.

(** [movePackDown] *)
Definition movePackDown (packId : string) : Action () := λ m,
  match indexOf packId (packOrder m) with
  | None => (m, Returns ())
  | Some 0%nat => (m, Returns ())
  | Some (S previous) => swapWith packId (S previous) previous "pack moved down" m
  end.

(** [packIds.forEach((packId, index) => pack.info.priority = index)] *)
Fixpoint numberPacks (packIds : list string) (index : Z) (m : Manager) : Manager :=
  match packIds with
  | [] => m
  | packId :: rest => numberPacks rest (index + 1) (setInfo (withPriority index) packId m)
  end.

(** [reorderPacks] *)
Definition reorderPacks (packIds : list string) : Action () := λ m,
  match find (λ packId, bool_decide (JS.get packId (packs m) = None :> option LoadedPack)) packIds with
  | Some missing => (m, Throws (packNotFound missing))
  | None =>
      let m := withOrder packIds (numberPacks packIds 0 m) in
      (_ ← emit (PackOrderChanged (packOrder m));
       triggerRebuildIfNeeded "packs reordered") m
  end.

(** *** Configuration *)

Record PackConfig := mkPackConfig {
  config_id : string;
  config_name : string;
  config_sourceUrl : option string;
  config_priority : Z;
  config_enabled : bool
}.

(** [exportConfig]: the [packs] of the configuration. *)
Definition exportConfig (m : Manager) : result (list PackConfig) :=
  mapM (λ packId,
          pack ← packOf m packId;
          mret {| config_id := pack_id (info pack);
                  config_name := pack_name (info pack);
                  config_sourceUrl := sourceUrl (info pack);
                  config_priority := priority (info pack);
                  config_enabled := enabled (info pack) |})
       (packOrder m).

(** [importConfig] *)
Definition importConfig (config : list PackConfig) : Action () :=
  _ ← beginBatchUpdate;
  _ ← update (λ m,
         foldl (λ m packConfig,
                  setInfo (λ p, withPriority (config_priority packConfig)
                                  (withEnabled (config_enabled packConfig) p))
                          (config_id packConfig) m)
               m config);
  _ ← update (λ m,
         withOrder (filter (λ packId, is_Some (JS.get packId (packs m)))
                           (config_id <$> config)) m);
  endBatchUpdate.

(** *** Loading *)

(** [getNextPriority] *)
Definition getNextPriority (m : Manager) : Z :=
  match (λ entry, priority (info entry.2)) <$> packs m with
  | [] => 0
  | first :: rest => foldl Z.max first rest + 1
  end.

(** What [loadPackInternal] takes from outside: the hash of the blob,
    the outcome of [JSZip.loadAsync], what [extractPackMetadata] reads
    from the archive, and the options. *)
Record PackSource := mkPackSource {
  source_hash : string;
  source_zip : result Zip;
  source_size : N;
  source_name : string;
  source_textures : N;
  option_priority : option Z;
  option_enabled : option bool;
  option_sourceUrl : option string
}.

(** [loadPackInternal] *)
Definition loadPackInternal (source : PackSource) (packId : string)
  : Action ResourcePackInfo := λ m,
  match find (λ entry, bool_decide (pack_hash (info entry.2) = source_hash source)) (packs m) with
  | Some existing => (m, Returns (info existing.2))
  | None =>
      match source_zip source with
      | Throws message => (m, Throws message)
      | Returns archive =>
          let newPriority := default (getNextPriority m) (option_priority source) in
          let packInfo :=
            {| pack_id := packId; pack_name := source_name source;
               priority := newPriority;
               enabled := default true (option_enabled source);
               pack_size := source_size source;
               textureCount := source_textures source;
               sourceUrl := option_sourceUrl source;
               pack_hash := source_hash source |} in
          let m := withPacks (JS.set packId {| info := packInfo; zip := archive |} (packs m)) m in
          let m := insertPackByPriority packId newPriority m in
          (_ ← emit (PackAdded packId packInfo);
           _ ← triggerRebuildIfNeeded "pack added";
           mret packInfo) m
      end
  end.

(** The options [loadPackFromBlob] passes on: a name and nothing else. *)
Definition nameOnly (source : PackSource) : PackSource :=
  {| source_hash := source_hash source; source_zip := source_zip source;
     source_size := source_size source; source_name := source_name source;
     source_textures := source_textures source;
     option_priority := None; option_enabled := None; option_sourceUrl := None |}.

(** [loadPackFromBlob], for the id [generatePackId] has made. *)
Definition loadPackFromBlob (source : PackSource) (packId : string) : Action string := λ m,
  let m := withEffect (Emitted (LoadStart packId "blob")) m in
  match loadPackInternal (nameOnly source) packId m with
  | (m, Returns packInfo) =>
      (withEffect (Emitted (LoadComplete packId packInfo)) m, Returns packId)
  | (m, Throws message) =>
      (withEffect (Emitted (LoadError packId message)) m, Throws message)
  end.

(** [dispose] *)
Definition dispose (m : Manager) : Manager :=
  withOrder [] (withPacks [] m).

End ResourcePackManager.


(** ** AssetLoader.ts: the packs behind [getResourceString] *)

Module PackFiles.

Import ResourcePackManager.

(** The fields of an [AssetLoader] that decide which pack a resource
    string is read from, and those [loadResourcePack] writes.
    [packManager] is set together with [usePackManager];
    [resourcePacks] and [resourcePackOrder] are the packs loaded
    directly. *)
Record Loader := mkLoader {
  packManager : option Manager;
  resourcePacks : gmap string Zip;
  resourcePackOrder : list string;
  stringCache : gmap string string;
  cacheEnabled : bool;
  resourcePackHash : string
}.

(** [getOrderedPacks]: highest priority first. *)
Definition getOrderedPacks (loader : Loader) : result (list (string * Zip)) :=
  let legacy :=
    omap (λ packId, (λ archive, (packId, archive)) <$> resourcePacks loader !! packId)
         (resourcePackOrder loader) in
  match packManager loader with
  | Some manager =>
      managed ← getEnabledPacksInOrder manager;
      match managed with
      | [] => Returns legacy
      | _ => Returns (reverse managed)
      end
  | None => Returns legacy
  end.

(** The loop of [getResourceString] over the packs: the first file
    found that can be read. *)
Fixpoint readFirst (path : string) (ordered : list (string * Zip)) : option string :=
  match ordered with
  | [] => None
  | (packId, archive) :: lower =>
      match archive !! ("assets/minecraft/" +:+ path) with
      | Some (Returns content) => Some content
      | Some (Throws _) => readFirst path lower
      | None => readFirst path lower
      end
  end.

(** [getResourceString]; [None] is [undefined]. *)
Definition getResourceString (loader : Loader) (path : string)
  : Loader * result (option string) :=
  let cacheKey := "string:" +:+ path in
  match stringCache loader !! cacheKey with
  | Some cached => (loader, Returns (Some cached))
  | None =>
      match getOrderedPacks loader with
      | Throws message => (loader, Throws message)
      | Returns ordered =>
          match readFirst path ordered with
          | Some content =>
              ({| packManager := packManager loader;
                  resourcePacks := resourcePacks loader;
                  resourcePackOrder := resourcePackOrder loader;
                  stringCache := <[cacheKey := content]> (stringCache loader);
                  cacheEnabled := cacheEnabled loader;
                  resourcePackHash := resourcePackHash loader |},
               Returns (Some content))
          | None => (loader, Returns None)
          end
      end
  end.

(** A [Uint8Array], by the values of its bytes. *)
Definition Bytes : Type := list N.

Definition signatureAt (view : Bytes) (i : nat) : bool :=
  bool_decide (view !! i = Some 0x50%N ∧ view !! (i + 1)%nat = Some 0x4b%N ∧
               view !! (i + 2)%nat = Some 0x05%N ∧ view !! (i + 3)%nat = Some 0x06%N).

(** [findEOCD]: the loop runs from [byteLength - 22] down to 0;
    [None] is [-1]. *)
Definition findEOCD (view : Bytes) : option nat :=
  List.find (signatureAt view) (reverse (seq 0 (length view - 21))).

(** The messages of the two checks of [loadResourcePack]. *)
Definition invalidZipHeader : string :=
  "❌ Invalid ZIP: missing PK" +:+ String "003" (String "004" " header").

Definition missingEOCD : string := "❌ ZIP missing End of Central Directory (EOCD)".

(** The first four bytes are [PK\x03\x04]. *)
Definition zipHeader (bytes : Bytes) : bool :=
  bool_decide (bytes !! 0%nat = Some 0x50%N ∧ bytes !! 1%nat = Some 0x4b%N ∧
               bytes !! 2%nat = Some 0x03%N ∧ bytes !! 3%nat = Some 0x04%N).

(** [this.resourcePackHash = hash] *)
Definition withHash (hash : string) (loader : Loader) : Loader :=
  {| packManager := packManager loader;
     resourcePacks := resourcePacks loader;
     resourcePackOrder := resourcePackOrder loader;
     stringCache := stringCache loader;
     cacheEnabled := cacheEnabled loader;
     resourcePackHash := hash |}.

(** [loadResourcePack], with what its awaits settle to: [blob] for
    [blob.arrayBuffer()], [digest] for the SHA-256 digest in hexadecimal,
    asked for only when the cache is enabled, and [parsed] for
    [JSZip.loadAsync]; [packId] is the id made from the clock.  Whatever
    is thrown is logged and thrown again; the hash, once written, stays. *)
Definition loadResourcePack (loader : Loader) (blob : result Bytes)
    (digest : result string) (parsed : result Zip) (packId : string)
  : Loader * result () :=
  match blob with
  | Throws message => (loader, Throws message)
  | Returns bytes =>
      let hashed :=
        if cacheEnabled loader
        then match digest with
             | Returns hash => Returns (withHash hash loader)
             | Throws message => Throws message
             end
        else Returns loader in
      match hashed with
      | Throws message => (loader, Throws message)
      | Returns loader =>
          if negb (zipHeader bytes)
          then (loader, Throws invalidZipHeader)
          else
            match findEOCD bytes with
            | None => (loader, Throws missingEOCD)
            | Some _ =>
                match parsed with
                | Throws message => (loader, Throws message)
                | Returns archive =>
                    ({| packManager := packManager loader;
                        resourcePacks := <[packId := archive]> (resourcePacks loader);
                        resourcePackOrder := packId :: resourcePackOrder loader;
                        stringCache := stringCache loader;
                        cacheEnabled := cacheEnabled loader;
                        resourcePackHash := resourcePackHash loader |},
                     Returns ())
                end
            end
      end
  end.

End PackFiles.


(** ** The pack order, as its users see it *)

Module PackOrderSpec.

Import ResourcePackManager.

(** Every id of [packOrder] is the id of a loaded pack. *)
Definition orderKnown (m : Manager) : Prop :=
  Forall (λ packId, is_Some (JS.get packId (packs m))) (packOrder m).

(** The packs of [packOrder], lowest first. *)
Definition orderedPacks (m : Manager) : list LoadedPack :=
  omap (λ packId, JS.get packId (packs m)) (packOrder m).

(** [packOrder] names each pack once, and along it the priorities do
    not decrease. *)
Definition sortedByPriority (m : Manager) : Prop :=
  NoDup (packOrder m) ∧
  Sorted Z.le ((λ pack, priority (info pack)) <$> orderedPacks m).

(** The path [AssetLoader] asks [getResourceString] (or
    [getResourceBlob]) for. *)
Definition resourcePath (assetPath : string) (type : AssetType) : string :=
  match type with
  | Texture => "textures/" +:+ assetPath +:+ ".png"
  | Blockstate => "blockstates/" +:+ assetPath +:+ ".json"
  | Model => "models/" +:+ assetPath +:+ ".json"
  end.

(** Every pack is stored under the id its info carries. *)
Definition idsConsistent (m : Manager) : Prop :=
  Forall (λ entry, pack_id (info entry.2) = entry.1) (packs m).

(** The priority of the pack under an id (0 for an id without pack). *)
Definition priorityOf (m : Manager) (packId : string) : Z :=
  default 0%Z (priority ∘ info <$> JS.get packId (packs m)).

(** The pack order is in good shape: it names loaded packs, each once,
    in the order of their priorities. *)
Definition wellOrdered (m : Manager) : Prop :=
  orderKnown m ∧ sortedByPriority m.

End PackOrderSpec.


(** ** Managers used in examples *)

Module PackExamples.

Import ResourcePackManager.

Definition stoneFile : string := "assets/minecraft/blockstates/stone.json".

Definition examplePack (packId : string) (level : Z) (content : string) : LoadedPack :=
  {| info := {| pack_id := packId; pack_name := packId; priority := level;
                enabled := true; pack_size := 1; textureCount := 3;
                sourceUrl := None; pack_hash := "hash of " +:+ packId |};
     zip := {[ stoneFile := Returns content ]} |}.

(** Two packs, [low] loaded first and [high] above it. *)
Definition twoPacks : Manager :=
  withOrder ["low"; "high"]
    (withPacks [("low", examplePack "low" 0 "L"); ("high", examplePack "high" 1 "H")]
       newManager).

(** A third pack, as [loadPackInternal] receives it. *)
Definition thirdSource : PackSource :=
  {| source_hash := "hash of third"; source_zip := Returns {[ stoneFile := Returns "T" ]};
     source_size := 1; source_name := "third"; source_textures := 5;
     option_priority := None; option_enabled := None; option_sourceUrl := None |}.

End PackExamples.


(** ** The entity meshes in the cache *)

Module MeshCacheSpec.

Import Cubane.

Section Renderers.

Variable createEntityMesh : string → result bool.

(** The mesh [getEntityMesh] makes when it does not find one. *)
Definition freshEntityMesh (entity : string) : Object3D :=
  match createEntityMesh entity with
  | Returns true => EntityObject ("entity_" +:+ entity) entity
  | _ => createFallbackMesh ("entity_" +:+ entity)
  end.

(** The entity types of the dynamic parts registered for a block. *)
Definition dynamicEntities (cubane : Cubane) (blockId : string) : list string :=
  entityType <$> default [] (hybridBlockConfig cubane !! blockId).

End Renderers.

End MeshCacheSpec.


(** ** Block strings, as they are written *)

Module BlockStringSpec.

Import ModelResolver.

(** [s] does not contain the character [c]. *)
Definition lacks (c : ascii) (s : string) : Prop :=
  JS.includes s (String c EmptyString) = false.

(** A property name or value of a block string: not empty, without
    white space at either end and free of [=], [,] and [:]. *)
Definition plainWord (s : string) : Prop :=
  s ≠ "" ∧ JS.trim s = s ∧ lacks "=" s ∧ lacks "," s ∧ lacks ":" s.

(** [name[k1=v1,k2=v2...]] followed by one more character. *)
Definition writeNameAndProperties (blockName : string) (blockProperties : JS.Obj string)
    (last : ascii) : string :=
  blockName +:+ "[" +:+ JS.join "," (VariantSpec.keyValue <$> blockProperties)
    +:+ String last EmptyString.

(** A property name an object keeps where it was added: not
    [__proto__], which an assignment does not add, and not an array index,
    which goes first. *)
Definition keptInPlace (k : string) : Prop :=
  k ≠ "__proto__" ∧ JS.arrayIndex k = None.

End BlockStringSpec.


(** ** Changes made in a batch *)

Module BatchSpec.

Import ResourcePackManager.

(** One call of a method that changes the packs. *)
Inductive PackCall :=
| CallSetPackEnabled (packId : string) (isEnabled : bool)
| CallEnablePack (packId : string)
| CallDisablePack (packId : string)
| CallTogglePack (packId : string)
| CallSetPackPriority (packId : string) (newPriority : Z)
| CallMovePackUp (packId : string)
| CallMovePackDown (packId : string)
| CallRemovePack (packId : string)
| CallReorderPacks (packIds : list string)
| CallLoadPack (source : PackSource) (packId : string).

Definition call (c : PackCall) : Action () :=
  match c with
  | CallSetPackEnabled packId isEnabled => setPackEnabled packId isEnabled
  | CallEnablePack packId => enablePack packId
  | CallDisablePack packId => disablePack packId
  | CallTogglePack packId => _ ← togglePack packId; mret ()
  | CallSetPackPriority packId newPriority => setPackPriority packId newPriority
  | CallMovePackUp packId => movePackUp packId
  | CallMovePackDown packId => movePackDown packId
  | CallRemovePack packId => removePack packId
  | CallReorderPacks packIds => reorderPacks packIds
  | CallLoadPack source packId => _ ← loadPackInternal source packId; mret ()
  end.

(** The effects of a rebuild: its two events and the two callbacks. *)
Definition isRebuild (effect : Effect) : bool :=
  match effect with
  | Emitted (PacksChanged _) | Emitted (AtlasRebuilding _) => true
  | AtlasRebuildCalled | MeshRebuildCalled => true
  | Emitted _ => false
  end.

(** From [m] to [after] nothing was rebuilt: the batch is as deep as it
    was, what happened in between is no effect of a rebuild, and a
    rebuild is pending when something happened or one was pending. *)
Definition noRebuild (m after : Manager) : Prop :=
  batchUpdateDepth after = batchUpdateDepth m ∧
  ∃ events,
    effects after = (effects m ++ events)%list ∧
    Forall (λ effect, isRebuild effect = false) events ∧
    (pendingRebuild m = true → pendingRebuild after = true) ∧
    (events ≠ [] → pendingRebuild after = true).

(** What a method changes before it announces the change leaves the
    batch and the effects alone. *)
Definition sameBatch (m' m : Manager) : Prop :=
  batchUpdateDepth m' = batchUpdateDepth m ∧ effects m' = effects m.

End BatchSpec.


(** ** AnimatedTextureManager.ts *)

Module AnimatedTextureManager.

(** An entry of [animatedTextures], as far as [update] reads and
    writes it.  [frames] is [metadata.animation.frames]; [frameCount]
    is the [Math.floor(image.height / image.width)] of the loaded
    image; [currentFrame] is [None] when it is [NaN]; [offsetY] is
    [texture.offset.y], [None] when it is not a finite number. *)
Record AnimatedTexture := mkAnimatedTexture {
  frames : option (list Z);
  currentFrame : option nat;
  frameCount : N;
  frameTime : Z;
  lastFrameTime : Z;
  offsetY : option Q;
  needsUpdate : bool
}.

(** [metadata.animation.frames || [...Array(frameCount).keys()]] *)
Definition frameSequence (data : AnimatedTexture) : list Z :=
  default (Z.of_nat <$> seq 0 (N.to_nat (frameCount data))) (frames data).

(** [(currentFrame + 1) % frames.length] *)
Definition nextFrame (current : option nat) (sequence : list Z) : option nat :=
  match current, length sequence with
  | Some current, S _ => Some ((current + 1) mod length sequence)%nat
  | _, _ => None
  end.

(** [1 - (frameIndex + 1) / frameCount] for [frameIndex = frames[next]] *)
Definition frameOffset (sequence : list Z) (next : option nat) (count : N) : option Q :=
  match next with
  | Some next =>
      match sequence !! next with
      | Some frameIndex =>
          if (count =? 0)%N then None
          else Some (1 - inject_Z (frameIndex + 1) / inject_Z (Z.of_N count))%Q
      | None => None
      end
  | None => None
  end.

(** The body of the [forEach] of [update], at the time [now]. *)
Definition updateTexture (now : Z) (data : AnimatedTexture) : AnimatedTexture :=
  let elapsedTicks := ((now - lastFrameTime data) / 50)%Z in
  if (frameTime data <=? elapsedTicks)%Z
  then
    let sequence := frameSequence data in
    let next := nextFrame (currentFrame data) sequence in
    {| frames := frames data;
       currentFrame := next;
       frameCount := frameCount data;
       frameTime := frameTime data;
       lastFrameTime := now;
       offsetY := frameOffset sequence next (frameCount data);
       needsUpdate := true |}
  else data.

(** [update], at the time [now]. *)
Definition update (now : Z) (animatedTextures : JS.Obj AnimatedTexture)
  : JS.Obj AnimatedTexture :=
  (λ entry, (entry.1, updateTexture now entry.2)) <$> animatedTextures.

End AnimatedTextureManager.

(** ** Animations, frame by frame *)

Module AnimationSpec.

Import AnimatedTextureManager.

(** Each time of the list comes at least [frameTime] ticks of 50 ms
    after the one before. *)
Fixpoint due (ticks : Z) (last : Z) (times : list Z) : Prop :=
  match times with
  | [] => True
  | now :: later => (50 * ticks ≤ now - last)%Z ∧ due ticks now later
  end.

(** The texture after a call of [update] at each of the times. *)
Definition updatedAt (times : list Z) (data : AnimatedTexture) : AnimatedTexture :=
  foldl (λ data now, updateTexture now data) data times.

End AnimationSpec.


(** * Properties *)

Import ModelResolver AssetLoader VariantSpec.

(** ** Dictionary reads *)

Section get.
Context {V : Type}.
Implicit Types (o : JS.Obj V) (k : string).

Lemma get_Some_elem_of k o v : JS.get k o = Some v → (k, v) ∈ o.
Proof.
  induction o as [|[k' v'] o IH]; simpl; [done|].
  destruct (String.eqb_spec k' k) as [->|Hne].
  - intros [= ->]. left.
  - intros H. right. auto.
Qed.

Lemma get_None_not_key k o : JS.get k o = None ↔ k ∉ JS.keys o.
Proof.
  induction o as [|[k' v'] o IH]; simpl.
  - split; [intros _; apply not_elem_of_nil | done].
  - destruct (String.eqb_spec k' k) as [->|Hne].
    + split; [done|]. intros H. exfalso. apply H. left.
    + rewrite IH. unfold JS.keys. simpl. rewrite not_elem_of_cons.
      split; [by intros ?; split | by intros [_ ?]].
Qed.

Lemma get_is_Some_key k o : is_Some (JS.get k o) ↔ k ∈ JS.keys o.
Proof.
  destruct (JS.get k o) eqn:E.
  - split; [|eauto]. intros _.
    destruct (decide (k ∈ JS.keys o)) as [|Hn]; [done|].
    apply get_None_not_key in Hn. congruence.
  - split; [intros [? ?]; done|]. intros Hin. apply get_None_not_key in E. done.
Qed.

End get.

(** ** Variant selection *)

Lemma find_is_Some {A} (f : A → bool) (l : list A) :
  is_Some (List.find f l) ↔ ∃ a, a ∈ l ∧ f a = true.
Proof.
  induction l as [|a l IH]; simpl.
  - split; [intros [? ?]; done | intros (a & Ha & _); by apply elem_of_nil in Ha].
  - destruct (f a) eqn:E.
    + split; [|eauto]. intros _. exists a. split; [left | done].
    + rewrite IH. split.
      * intros (a' & ? & ?). exists a'. split; [by right | done].
      * intros (a' & [->|?]%elem_of_cons & ?); [congruence | eauto].
Qed.

Lemma specifies_findProp key p :
  specifies key p = snd <$> findProp (variantProps key) p.
Proof.
  unfold specifies, findProp, variantProps, nameOf, valueOf.
  induction (JS.split "," key) as [|part parts IH]; [done|].
  rewrite filter_cons. cbn [fmap list_fmap List.find fst].
  destruct (String.eqb_spec (default "" (head (JS.split "=" part))) p) as [Heq|Hne].
  - by rewrite decide_True by done.
  - rewrite decide_False by done. exact IH.
Qed.

Lemma specifies_is_Some key p :
  is_Some (specifies key p) ↔
  ∃ part, part ∈ JS.split "," key ∧ default "" (head (JS.split "=" part)) = p.
Proof.
  rewrite specifies_findProp. rewrite fmap_is_Some. unfold findProp.
  rewrite find_is_Some. unfold variantProps. split.
  - intros ([n w] & Hin & Heq). apply list_elem_of_fmap in Hin as (part & Hp & Hin).
    simpl in Heq. apply String.eqb_eq in Heq. exists part. split; [done|].
    by inversion Hp; subst.
  - intros (part & Hin & Hp). eexists. split.
    + apply list_elem_of_fmap. exists part. split; [reflexivity | done].
    + simpl. by apply String.eqb_eq.
Qed.

Lemma collect_parts_spec (parts : list string) (acc : gset string) p :
  p ∈ foldl (λ acc' part, acc' ∪ {[ default "" (head (JS.split "=" part)) ]}) acc parts ↔
  p ∈ acc ∨ ∃ part, part ∈ parts ∧ default "" (head (JS.split "=" part)) = p.
Proof.
  revert acc. induction parts as [|part parts IH]; intros acc; simpl.
  - split; [by left|]. intros [?|(? & H & _)]; [done | by apply elem_of_nil in H].
  - rewrite IH. rewrite elem_of_union, elem_of_singleton. split.
    + intros [[?| ->]|(part' & ? & ?)].
      * by left.
      * right. exists part. split; [left | done].
      * right. exists part'. split; [by right | done].
    + intros [?|(part' & [->|?]%elem_of_cons & ?)].
      * left. by left.
      * left. by right.
      * right. eauto.
Qed.

Lemma collect_spec_acc (variantKeys : list string) (acc : gset string) p :
  p ∈ foldl (λ acc key,
             if bool_decide (key = "") then acc
             else foldl (λ acc' part, acc' ∪ {[ default "" (head (JS.split "=" part)) ]})
                        acc (JS.split "," key)) acc variantKeys ↔
  p ∈ acc ∨ appears variantKeys p = true.
Proof.
  revert acc. induction variantKeys as [|key ks IH]; intros acc; simpl.
  - split; [by left | by intros [?|?]].
  - rewrite IH. rewrite orb_true_iff, andb_true_iff, negb_true_iff.
    rewrite bool_decide_eq_false, bool_decide_eq_true.
    case_bool_decide as Hk.
    + split; [intros [?|?]; auto|]. intros [?|[[? _]|?]]; auto.
    + rewrite collect_parts_spec, specifies_is_Some. split.
      * intros [[?|?]|?]; auto.
      * intros [?|[[_ ?]|?]]; auto.
Qed.

Lemma collect_spec (variantKeys : list string) p :
  p ∈ collectVariantProperties variantKeys ↔ appears variantKeys p = true.
Proof.
  unfold collectVariantProperties. rewrite collect_spec_acc.
  split; [intros [H|?]; [by apply not_elem_of_empty in H | done] | by right].
Qed.

Lemma buildVariantKey_isVariantKey vs block :
  isVariantKey vs block (buildVariantKey block (collectVariantProperties (JS.keys vs))).
Proof.
  unfold isVariantKey, buildVariantKey.
  assert (Hf : filter (λ kv : string * string, kv.1 ∈ collectVariantProperties (JS.keys vs))
                 (properties block) =
               filter (λ kv, appears (JS.keys vs) kv.1 = true) (properties block)).
  { apply list_filter_iff. intros kv. apply collect_spec. }
  case_bool_decide as Hlen.
  - eexists. split; [|split; [|reflexivity]].
    + unfold JS.sort. rewrite merge_sort_Permutation. by rewrite Hf.
    + apply Sorted_merge_sort. apply _.
  - exists []. destruct (properties block); [|simpl in Hlen; lia].
    split; [done|]. split; [constructor | done].
Qed.

Lemma isVariantKey_unique vs block k1 k2 :
  isVariantKey vs block k1 → isVariantKey vs block k2 → k1 = k2.
Proof.
  intros (l1 & Hp1 & Hs1 & ->) (l2 & Hp2 & Hs2 & ->). f_equal.
  apply (Sorted_unique String.le); [done..|]. by rewrite Hp1, Hp2.
Qed.

Lemma conflicts_findProp key p v :
  conflicts key (p, v) =
  match findProp (variantProps key) p with
  | Some mp => negb (bool_decide (mp.2 = Some v))
  | None => false
  end.
Proof. unfold conflicts. rewrite specifies_findProp. simpl. by destruct (findProp _ _). Qed.

Lemma agrees_findProp key p v :
  agrees key (p, v) =
  match findProp (variantProps key) p with
  | Some mp => bool_decide (mp.2 = Some v)
  | None => false
  end.
Proof.
  unfold agrees. rewrite specifies_findProp. simpl.
  destruct (findProp _ _) as [mp|]; simpl.
  - apply bool_decide_ext. split; congruence.
  - done.
Qed.

Lemma scan_spec key props c :
  (scanTargetProps (variantProps key) props c).1 =
    forallb (λ kv, negb (conflicts key kv)) props ∧
  ((scanTargetProps (variantProps key) props c).1 = true →
   (scanTargetProps (variantProps key) props c).2 =
     (c + Z.of_nat (length (filter (λ kv, agrees key kv = true) props)))%Z).
Proof.
  revert c. induction props as [|[p v] props IH]; intros c.
  - simpl. split; [done | intros _; lia].
  - rewrite filter_cons. cbn [scanTargetProps forallb].
    rewrite conflicts_findProp, agrees_findProp.
    destruct (findProp (variantProps key) p) as [mp|] eqn:Hfind.
    + destruct (bool_decide (mp.2 = Some v)) eqn:Hv.
      * destruct (IH (c + 1)%Z) as [IH1 IH2]. split; [done|].
        intros H. rewrite IH2 by done. rewrite decide_True by done.
        simpl. lia.
      * simpl. split; [done|]. done.
    + destruct (IH c) as [IH1 IH2]. split; [done|].
      intros H. rewrite IH2 by done. by rewrite decide_False.
Qed.

Lemma validCandidate_forallb block key :
  validCandidate block key ↔
  forallb (λ kv, negb (conflicts key kv)) (properties block) = true.
Proof.
  unfold validCandidate. rewrite forallb_forall. split.
  - intros H kv Hin. rewrite H; [done|]. by apply list_elem_of_In.
  - intros H kv Hin. apply list_elem_of_In, H in Hin.
    by destruct (conflicts key kv).
Qed.

Lemma best_fold block (ks : list string) :
  let st := foldl (bestMatchStep (properties block)) ("", (-1)%Z) ks in
  (st = ("", (-1)%Z) ∧ ∀ k, k ∈ ks → k ≠ "" → ¬ validCandidate block k) ∨
  (st.1 ≠ "" ∧ st.2 = Z.of_nat (agreeCount block st.1) ∧
   ∃ i : nat, ks !! i = Some st.1 ∧ validCandidate block st.1 ∧
     ∀ (j : nat) k', ks !! j = Some k' → k' ≠ "" → validCandidate block k' →
       (agreeCount block k' ≤ agreeCount block st.1)%nat ∧
       ((j < i)%nat → (agreeCount block k' < agreeCount block st.1)%nat)).
Proof.
  induction ks as [|k ks IH] using rev_ind; simpl.
  - left. split; [done|]. intros k Hk. by apply elem_of_nil in Hk.
  - rewrite foldl_snoc.
    set (st := foldl (bestMatchStep (properties block)) ("", (-1)%Z) ks) in *.
    destruct (decide (k = "")) as [Hk|Hk].
    { assert (bestMatchStep (properties block) st k = st) as ->.
      { unfold bestMatchStep. by rewrite bool_decide_eq_true_2. }
      subst k. destruct IH as [[Hst Hno]|(Hne & Hcnt & i & Hi & Hv & Hbest)].
      - left. split; [done|].
        intros k [?| ->%list_elem_of_singleton]%elem_of_app; auto.
      - right. split; [done|]. split; [done|]. exists i.
        split; [by apply lookup_app_l_Some|]. split; [done|].
        intros j k' [[_ ?]|[_ <-]]%lookup_snoc_Some; [eauto | done]. }
    destruct (scan_spec k (properties block) 0) as [Hall Hcount].
    destruct (scanTargetProps (variantProps k) (properties block) 0)
      as [allMatch matchCount] eqn:Hscan. simpl in Hall, Hcount.
    assert (Hvalid : validCandidate block k ↔ allMatch = true).
    { rewrite validCandidate_forallb. by rewrite Hall. }
    assert (Hmc : allMatch = true → matchCount = Z.of_nat (agreeCount block k)).
    { intros H. rewrite Hcount by done. by rewrite Z.add_0_l. }
    assert (bestMatchStep (properties block) st k =
            if allMatch && (st.2 <? matchCount)%Z then (k, matchCount) else st) as ->.
    { unfold bestMatchStep. by rewrite bool_decide_eq_false_2, Hscan. }
    destruct (allMatch && (st.2 <? matchCount)%Z) eqn:Hcond.
    + apply andb_true_iff in Hcond as [Hall' Hlt%Z.ltb_lt]. simpl.
      right. split; [done|]. split; [auto|]. exists (length ks).
      split; [by rewrite lookup_app_r, Nat.sub_diag by lia|].
      split; [by apply Hvalid|].
      intros j k' [[Hlen Hj]|[-> <-]]%lookup_snoc_Some Hne' Hv'.
      * destruct IH as [[Hst Hno]|(Hne & Hcnt & i & Hi & Hv & Hbest)].
        { exfalso. eapply Hno; eauto. by eapply list_elem_of_lookup_2. }
        destruct (Hbest j k' Hj Hne' Hv') as [Hle _].
        rewrite Hmc in Hlt by done. rewrite Hcnt in Hlt. split; [lia | intros _; lia].
      * split; lia.
    + apply andb_false_iff in Hcond.
      destruct IH as [[Hst Hno]|(Hne & Hcnt & i & Hi & Hv & Hbest)].
      * left. split; [done|].
        intros k' [?| ->%list_elem_of_singleton]%elem_of_app Hne'; [auto|].
        rewrite Hvalid. intros Hall'. destruct Hcond as [?|Hge]; [congruence|].
        apply Z.ltb_ge in Hge. rewrite Hst in Hge. simpl in Hge.
        rewrite Hmc in Hge by done. lia.
      * right. split; [done|]. split; [done|]. exists i.
        split; [by apply lookup_app_l_Some|]. split; [done|].
        intros j k' [[Hlen Hj]|[-> <-]]%lookup_snoc_Some Hne' Hv'; [eauto|].
        apply lookup_lt_Some in Hi.
        destruct Hcond as [Hf|Hge']; [apply Hvalid in Hv'; congruence|].
        apply Z.ltb_ge in Hge'. rewrite Hmc in Hge' by (by apply Hvalid).
        split; lia.
Qed.

Lemma singlePropertyVariant_Some vs block v :
  singlePropertyVariant vs (properties block) = Some v ↔ firstLiteralHit vs block v.
Proof.
  unfold firstLiteralHit. change keyValue with formatProperty.
  generalize (properties block) as props.
  induction props as [|kv props IH]; simpl.
  - split; [done|]. intros (i & kv & H & _). by destruct i.
  - destruct (JS.get (formatProperty kv) vs) as [v'|] eqn:Hget.
    + split.
      * intros [= ->]. exists 0%nat, kv. split; [done|]. split; [done|]. intros; lia.
      * intros (i & kv' & Hi & Hget' & Hfirst). destruct i as [|i].
        -- simpl in Hi. simplify_eq. congruence.
        -- specialize (Hfirst 0%nat kv ltac:(lia) eq_refl). congruence.
    + rewrite IH. split.
      * intros (i & kv' & Hi & Hget' & Hfirst). exists (S i), kv'.
        split; [done|]. split; [done|]. intros [|j] kv'' Hlt Hj; simpl in Hj.
        -- by simplify_eq.
        -- apply (Hfirst j); [lia | done].
      * intros (i & kv' & Hi & Hget' & Hfirst). destruct i as [|i].
        -- simpl in Hi. simplify_eq.
        -- exists i, kv'. split; [done|]. split; [done|].
           intros j kv'' Hlt Hj. apply (Hfirst (S j)); [lia | done].
Qed.

Lemma singlePropertyVariant_None vs (props : list (string * string)) :
  singlePropertyVariant vs props = None ↔
  ∀ kv, kv ∈ props → JS.get (formatProperty kv) vs = None.
Proof.
  induction props as [|kv props IH]; simpl.
  - split; [|done]. intros _ kv H. by apply elem_of_nil in H.
  - destruct (JS.get (formatProperty kv) vs) as [v'|] eqn:Hget.
    + split; [done|]. intros H. rewrite H in Hget; [done | left].
    + rewrite IH. split.
      * intros H kv' [->|?]%elem_of_cons; auto.
      * intros H kv' ?. apply H. by right.
Qed.

Lemma selectVariant_Selected vs block : Selected vs block (selectVariant vs block).
Proof.
  unfold selectVariant.
  pose proof (buildVariantKey_isVariantKey vs block) as Hkey.
  set (variantKey := buildVariantKey block _) in *.
  destruct (JS.get variantKey vs) as [v|] eqn:Hexact; [by eapply by_exact_match|].
  destruct (JS.get "" vs) as [v|] eqn:Hempty; [by eapply by_empty_key|].
  assert (Hnk : ∀ k, k ∈ JS.keys vs → k ≠ "").
  { intros k Hin ->. by apply get_None_not_key in Hempty. }
  unfold findBestVariantKey.
  destruct (best_fold block (JS.keys vs)) as [[Hst Hno]|(Hne & Hcnt & i & Hi & Hv & Hbest)].
  - rewrite Hst. simpl.
    assert (Hnone : ∀ key, key ∈ JS.keys vs → ¬ validCandidate block key) by auto.
    assert (Hsingle :
      (if bool_decide (0 < length (properties block))%nat
       then singlePropertyVariant vs (properties block) else None) =
      singlePropertyVariant vs (properties block)).
    { case_bool_decide as Hlen; [done|].
      destruct (properties block); [done | simpl in Hlen; lia]. }
    rewrite Hsingle.
    destruct (singlePropertyVariant vs (properties block)) as [v|] eqn:Hsp.
    + eapply by_single_property; eauto. by apply singlePropertyVariant_Some.
    + destruct vs as [|[firstKey v] vs']; simpl; [by apply by_nothing|].
      rewrite String.eqb_refl.
      eapply (by_first_key _ _ variantKey firstKey); eauto.
      * by apply singlePropertyVariant_None.
      * simpl. by rewrite String.eqb_refl.
  - set (st := foldl _ _ _) in *.
    rewrite bool_decide_eq_false_2 by done.
    assert (Hin : st.1 ∈ JS.keys vs) by (by eapply list_elem_of_lookup_2).
    apply get_is_Some_key in Hin as [v Hget]. rewrite Hget.
    eapply by_partial_match; eauto.
    exists i. split; [done|]. split; [done|].
    intros j k' Hj Hv'. apply Hbest; [done| |done].
    apply Hnk. by eapply list_elem_of_lookup_2.
Qed.

Lemma bestPartialMatch_unique vs block k1 k2 :
  bestPartialMatch vs block k1 → bestPartialMatch vs block k2 → k1 = k2.
Proof.
  intros (i1 & Hi1 & Hv1 & Hb1) (i2 & Hi2 & Hv2 & Hb2).
  destruct (Hb1 i2 k2 Hi2 Hv2) as [Hle1 Hlt1].
  destruct (Hb2 i1 k1 Hi1 Hv1) as [Hle2 Hlt2].
  destruct (Nat.lt_trichotomy i1 i2) as [?|[->|?]].
  - specialize (Hlt2 ltac:(done)). lia.
  - congruence.
  - specialize (Hlt1 ltac:(done)). lia.
Qed.

Lemma bestPartialMatch_valid vs block k :
  bestPartialMatch vs block k → k ∈ JS.keys vs ∧ validCandidate block k.
Proof.
  intros (i & Hi & Hv & _). split; [by eapply list_elem_of_lookup_2 | done].
Qed.

Lemma firstLiteralHit_unique vs block v1 v2 :
  firstLiteralHit vs block v1 → firstLiteralHit vs block v2 → v1 = v2.
Proof.
  intros (i1 & kv1 & Hi1 & Hg1 & Hf1) (i2 & kv2 & Hi2 & Hg2 & Hf2).
  destruct (Nat.lt_trichotomy i1 i2) as [?|[->|?]].
  - rewrite (Hf2 i1 kv1) in Hg1 by done. done.
  - congruence.
  - rewrite (Hf1 i2 kv2) in Hg2 by done. done.
Qed.

Lemma firstLiteralHit_elem vs block v :
  firstLiteralHit vs block v →
  ∃ kv, kv ∈ properties block ∧ JS.get (formatProperty kv) vs = Some v.
Proof.
  intros (i & kv & Hi & Hg & _). exists kv. split; [by eapply list_elem_of_lookup_2 | done].
Qed.

Lemma Selected_functional vs block r1 r2 :
  Selected vs block r1 → Selected vs block r2 → r1 = r2.
Proof.
  intros H1 H2.
  destruct H1 as [key1 v1 Hk1 Hg1|key1 v1 Hk1 Hg1 He1|key1 b1 v1 Hk1 Hg1 He1 Hb1 Hgb1
                 |key1 v1 Hk1 Hg1 He1 Hn1 Hh1|key1 f1 v1 Hk1 Hg1 He1 Hn1 Hh1 Hf1 Hgf1|Hvs1];
  destruct H2 as [key2 v2 Hk2 Hg2|key2 v2 Hk2 Hg2 He2|key2 b2 v2 Hk2 Hg2 He2 Hb2 Hgb2
                 |key2 v2 Hk2 Hg2 He2 Hn2 Hh2|key2 f2 v2 Hk2 Hg2 He2 Hn2 Hh2 Hf2 Hgf2|Hvs2];
  try (pose proof (isVariantKey_unique _ _ _ _ Hk1 Hk2); subst key2);
  try congruence;
  try (subst vs; simpl in *; congruence);
  repeat match goal with
  | Ha : bestPartialMatch _ _ ?k1, Hb : bestPartialMatch _ _ ?k2 |- _ =>
      pose proof (bestPartialMatch_unique _ _ _ _ Ha Hb); congruence
  | Ha : bestPartialMatch _ _ _, Hn : ∀ key, key ∈ JS.keys _ → ¬ validCandidate _ key |- _ =>
      apply bestPartialMatch_valid in Ha as [? ?]; exfalso; by eapply Hn
  | Ha : firstLiteralHit _ _ _, Hb : firstLiteralHit _ _ _ |- _ =>
      f_equal; by eapply firstLiteralHit_unique
  | Ha : firstLiteralHit _ _ _, Hb : ∀ kv, kv ∈ properties _ → _ = None |- _ =>
      let Hg := fresh in
      apply firstLiteralHit_elem in Ha as (? & ? & Hg); rewrite Hb in Hg; done
  | Hvs : ?o = [], Ha : firstLiteralHit ?o _ _ |- _ =>
      let Hg := fresh in
      subst o; destruct Ha as (? & ? & _ & Hg & _); done
  end.
Qed.

Lemma Selected_iff vs block r : Selected vs block r ↔ selectVariant vs block = r.
Proof.
  split.
  - intros H. eapply Selected_functional; [apply selectVariant_Selected | done].
  - intros <-. apply selectVariant_Selected.
Qed.

(** ** Order of the block's properties *)

Lemma includes_char_cons (c a : ascii) (s : string) :
  JS.includes (String a s) (String c EmptyString) =
  Ascii.eqb c a || JS.includes s (String c EmptyString).
Proof.
  simpl. unfold JS.startsWith. simpl.
  destruct (Ascii.ascii_dec c a) as [->|Hne].
  - rewrite Ascii.eqb_refl. by destruct s.
  - apply Ascii.eqb_neq in Hne. by rewrite Hne.
Qed.

Lemma eqb_ascii_sym (a c : ascii) : Ascii.eqb a c = Ascii.eqb c a.
Proof.
  destruct (Ascii.eqb_spec a c) as [->|Hne].
  - by rewrite Ascii.eqb_refl.
  - symmetry. apply Ascii.eqb_neq. congruence.
Qed.

Lemma split_absent (c : ascii) (s : string) :
  JS.includes s (String c EmptyString) = false → JS.split c s = [s].
Proof.
  induction s as [|a s IH]; [done|].
  rewrite includes_char_cons. intros [Hac Hs]%orb_false_iff.
  simpl. rewrite eqb_ascii_sym, Hac. by rewrite IH.
Qed.

Lemma split_once (c : ascii) (s1 s2 : string) :
  JS.includes s1 (String c EmptyString) = false →
  JS.includes s2 (String c EmptyString) = false →
  JS.split c (s1 +:+ String c s2) = [s1; s2].
Proof.
  intros H1 H2. induction s1 as [|a s1 IH]; simpl.
  - by rewrite Ascii.eqb_refl, split_absent.
  - rewrite includes_char_cons in H1. apply orb_false_iff in H1 as [Hac Hs].
    rewrite eqb_ascii_sym, Hac. by rewrite IH.
Qed.

Lemma includes_char_app (c : ascii) (s1 s2 : string) :
  JS.includes (s1 +:+ s2) (String c EmptyString) =
  JS.includes s1 (String c EmptyString) || JS.includes s2 (String c EmptyString).
Proof.
  induction s1 as [|a s1 IH].
  - simpl. unfold JS.startsWith. simpl. done.
  - change (String a s1 +:+ s2) with (String a (s1 +:+ s2)).
    rewrite !includes_char_cons, IH. by rewrite orb_assoc.
Qed.

Lemma formatProperty_unfold (p v : string) :
  formatProperty (p, v) = p +:+ String "=" v.
Proof. reflexivity. Qed.

Lemma variantProps_literal (kv : string * string) :
  cleanProperty kv → variantProps (formatProperty kv) = [(kv.1, Some kv.2)].
Proof.
  destruct kv as [p v]. intros [[Hp1 Hp2] [Hv1 Hv2]]. simpl in *.
  unfold variantProps. rewrite formatProperty_unfold.
  rewrite split_absent.
  - cbn [fmap list_fmap]. by rewrite (split_once "=" p v).
  - by rewrite includes_char_app, Hp2, includes_char_cons, Hv2.
Qed.

Lemma formatProperty_nonempty (kv : string * string) : formatProperty kv ≠ "".
Proof. destruct kv as [[|a p] v]; done. Qed.

Lemma keys_unique_value {V} (o : JS.Obj V) k v1 v2 :
  NoDup (JS.keys o) → (k, v1) ∈ o → (k, v2) ∈ o → v1 = v2.
Proof.
  unfold JS.keys. induction o as [|[k' v'] o IH]; simpl.
  - intros _ H. by apply elem_of_nil in H.
  - intros [Hnin Hnd]%NoDup_cons [H1|H1]%elem_of_cons [H2|H2]%elem_of_cons.
    + congruence.
    + simplify_eq. exfalso. apply Hnin. apply list_elem_of_fmap. by exists (k', v2).
    + simplify_eq. exfalso. apply Hnin. apply list_elem_of_fmap. by exists (k', v1).
    + auto.
Qed.

Lemma get_elem_of {V} (o : JS.Obj V) k v :
  NoDup (JS.keys o) → JS.get k o = Some v ↔ (k, v) ∈ o.
Proof.
  intros Hnd. split; [apply get_Some_elem_of|].
  intros Hin. destruct (JS.get k o) as [v'|] eqn:Hget.
  - apply get_Some_elem_of in Hget. f_equal. by eapply keys_unique_value.
  - apply get_None_not_key in Hget. exfalso. apply Hget.
    apply list_elem_of_fmap. by exists (k, v).
Qed.

Lemma get_Permutation {V} (o1 o2 : JS.Obj V) k :
  NoDup (JS.keys o1) → o1 ≡ₚ o2 → JS.get k o1 = JS.get k o2.
Proof.
  intros Hnd Hp.
  assert (Hnd2 : NoDup (JS.keys o2)) by (unfold JS.keys in *; by rewrite <- Hp).
  apply option_eq. intros v. rewrite !get_elem_of by done. by rewrite Hp.
Qed.

Lemma literal_hit_valid block kv :
  NoDup (JS.keys (properties block)) →
  Forall cleanProperty (properties block) →
  kv ∈ properties block →
  validCandidate block (formatProperty kv).
Proof.
  intros Hnd Hclean Hin [q w] Hin'. rewrite conflicts_findProp.
  rewrite variantProps_literal by (by eapply Forall_forall in Hclean).
  unfold findProp. simpl. destruct (String.eqb_spec kv.1 q) as [Heq|Hne]; [|done].
  simpl. destruct kv as [p v]. simpl in *. subst q.
  rewrite (keys_unique_value _ _ _ _ Hnd Hin Hin'). by rewrite bool_decide_eq_true_2.
Qed.

Lemma isVariantKey_Permutation vs b1 b2 k :
  properties b1 ≡ₚ properties b2 → isVariantKey vs b1 k → isVariantKey vs b2 k.
Proof.
  intros Hp (l & Hl & Hs & ->). exists l. split; [|done]. by rewrite Hl, Hp.
Qed.

Lemma validCandidate_Permutation b1 b2 k :
  properties b1 ≡ₚ properties b2 → validCandidate b1 k → validCandidate b2 k.
Proof. intros Hp Hv kv Hin. apply Hv. by rewrite Hp. Qed.

Lemma agreeCount_Permutation b1 b2 k :
  properties b1 ≡ₚ properties b2 → agreeCount b1 k = agreeCount b2 k.
Proof. intros Hp. unfold agreeCount. by rewrite Hp. Qed.

Lemma bestPartialMatch_Permutation vs b1 b2 k :
  properties b1 ≡ₚ properties b2 →
  bestPartialMatch vs b1 k → bestPartialMatch vs b2 k.
Proof.
  intros Hp (i & Hi & Hv & Hbest). exists i. split; [done|].
  split; [by eapply validCandidate_Permutation|].
  intros j k' Hj Hv'. rewrite <- !(agreeCount_Permutation b1 b2) by done.
  apply Hbest; [done|]. by eapply validCandidate_Permutation.
Qed.

Lemma Selected_Permutation vs b1 b2 r :
  properties b1 ≡ₚ properties b2 →
  NoDup (JS.keys (properties b1)) →
  Forall cleanProperty (properties b1) →
  Selected vs b1 r → Selected vs b2 r.
Proof.
  intros Hp Hnd Hclean H.
  assert (Hno : ∀ (P : string → Prop),
    (∀ key, key ∈ JS.keys vs → ¬ validCandidate b1 key) →
    ∀ key, key ∈ JS.keys vs → ¬ validCandidate b2 key).
  { intros _ Hn key Hin Hv. apply (Hn key Hin).
    by eapply validCandidate_Permutation. }
  destruct H as [key v Hk Hg|key v Hk Hg He|key b v Hk Hg He Hb Hgb
                |key v Hk Hg He Hn Hh|key f v Hk Hg He Hn Hh Hf Hgf|Hvs].
  - eapply by_exact_match; eauto using isVariantKey_Permutation.
  - eapply by_empty_key; eauto using isVariantKey_Permutation.
  - eapply by_partial_match;
      eauto using isVariantKey_Permutation, bestPartialMatch_Permutation.
  - exfalso. apply firstLiteralHit_elem in Hh as (kv & Hin & Hget).
    apply (Hn (formatProperty kv)).
    + apply get_is_Some_key. eauto.
    + by apply literal_hit_valid.
  - eapply by_first_key; eauto using isVariantKey_Permutation.
    + apply (Hno (λ _, True)), Hn.
    + intros kv Hin. apply Hh. by rewrite Hp.
  - by apply by_nothing.
Qed.

Lemma selectVariant_Permutation vs b1 b2 :
  properties b1 ≡ₚ properties b2 →
  NoDup (JS.keys (properties b1)) →
  Forall cleanProperty (properties b1) →
  selectVariant vs b1 = selectVariant vs b2.
Proof.
  intros Hp Hnd Hclean. symmetry. apply Selected_iff.
  eapply Selected_Permutation; eauto. apply selectVariant_Selected.
Qed.

Lemma isLiquidName_liquidNames n :
  isLiquidName n = bool_decide (n ∈ liquidNames).
Proof.
  unfold isLiquidName, liquidNames. apply eq_true_iff_eq.
  rewrite !orb_true_iff, !bool_decide_eq_true, !elem_of_cons, elem_of_nil. tauto.
Qed.

Lemma isLiquidName_false n : n ∉ liquidNames → isLiquidName n = false.
Proof. intros H. by rewrite isLiquidName_liquidNames, bool_decide_eq_false_2. Qed.

Lemma getBlockState_file assets block definition :
  blockstateJson assets (blockstateFile block) = Some (Parsed (Some definition)) →
  getBlockState assets (JS.replace (name block) "minecraft:" "") = Some definition.
Proof. intros H. unfold getBlockState. unfold blockstateFile in H. by rewrite H. Qed.

Lemma pushModel_firstHolder choice :
  pushModel choice =
  match MultipartSpec.firstHolder choice with
  | Some holder => Returns [MultipartSpec.contribution holder]
  | None => Throws "TypeError"
  end.
Proof. by destruct choice. Qed.

Ltac not_in_list :=
  let H := fresh in
  intros H;
  repeat (apply elem_of_cons in H as [H|H]; [discriminate H|]);
  by apply elem_of_nil in H.

Ltac nodup_strings :=
  repeat (apply NoDup_cons_2; [not_in_list|]); apply NoDup_nil_2.

(** C1, as stated, fails for the liquids: a block named [water] whose
    blockstate has the variants [{"": A}] should resolve to [A] by the
    exact match on the empty key, but resolves to the synthetic liquid
    model without its blockstate being looked at. *)
Lemma C1_counterexample :
  let vs := [("", Single (Examples.holder "block/pond"))] in
  let definition := {| variants := Some vs; multipart := None |} in
  let block := mkBlock "minecraft" "water" [] in
  let assets := Examples.onlyBlockstate "water" definition in
  blockstateJson assets (blockstateFile block) = Some (Parsed (Some definition)) ∧
  Selected vs block (Some (Single (Examples.holder "block/pond"))) ∧
  resolveBlockModel assets block =
    Returns [{| model := "block/water"; x := Some 0%Z; y := Some 0%Z;
                uvlock := Some false |}].
Proof.
  split; [by vm_compute|]. split; [|by vm_compute].
  apply Selected_iff. by vm_compute.
Qed.

Import MultipartSpec.

Lemma text_member_blockValue block property :
  JS.text property (JS.member (JS.get property (properties block)) property) =
  blockValue block property.
Proof.
  unfold blockValue, JS.member. destruct (JS.get property (properties block)); [done|].
  by case_bool_decide.
Qed.

Lemma matchesCondition_spec block condition :
  matchesCondition block condition = true ↔ conditionMatches block condition.
Proof.
  unfold conditionMatches. induction condition as [|[property expected] rest IH].
  - split; [|done]. intros _ e He. by apply elem_of_nil in He.
  - cbn [matchesCondition]. cbv zeta. rewrite text_member_blockValue.
    assert (Hstep : ∀ value,
      (if JS.includes expected "|"
       then if bool_decide (value ∈ JS.split "|" expected)
            then matchesCondition block rest else false
       else if bool_decide (value ≠ expected) then false
            else matchesCondition block rest) =
      bool_decide (value ∈ JS.split "|" expected) && matchesCondition block rest).
    { intros value. destruct (JS.includes expected "|") eqn:Hinc.
      - by destruct (bool_decide _).
      - rewrite split_absent by done.
        destruct (decide (value = expected)) as [->|Hne].
        + rewrite bool_decide_eq_false_2 by (by intros ?).
          rewrite bool_decide_eq_true_2; [done | left].
        + rewrite bool_decide_eq_true_2 by done.
          rewrite bool_decide_eq_false_2; [done|].
          by intros ->%list_elem_of_singleton. }
    destruct (blockValue block property) as [value|] eqn:Hget.
    + rewrite Hstep, andb_true_iff, bool_decide_eq_true, IH. split.
      * intros [Hin Hrest] e [->|He]%elem_of_cons; [|auto].
        exists value. by split.
      * intros H. split.
        -- destruct (H (property, expected)) as (value' & Hget' & Hin); [left|].
           simpl in *. congruence.
        -- intros e He. apply H. by right.
    + split; [done|]. intros H.
      destruct (H (property, expected)) as (value' & Hget' & _); [left|].
      simpl in *. congruence.
Qed.

Lemma resolveMultipart_spec parts block :
  resolveMultipart parts block =
  match mapM MultipartSpec.firstHolder
          (apply <$> filter (λ part, ruleApplies block part = true) parts) with
  | Some holders => Returns (MultipartSpec.contribution <$> holders)
  | None => Throws "TypeError"
  end.
Proof.
  induction parts as [|part rest IH]; [done|].
  cbn [resolveMultipart]. rewrite filter_cons.
  destruct (ruleApplies block part) eqn:Happ.
  - rewrite decide_True by done. cbn [fmap list_fmap mapM].
    rewrite pushModel_firstHolder, IH.
    destruct (MultipartSpec.firstHolder (apply part)) as [holder|]; [|done]. simpl.
    by destruct (mapM MultipartSpec.firstHolder _).
  - rewrite decide_False by done. exact IH.
Qed.

(** [resolveBlockModel] on a block that reaches its blockstate, by the
    variant selected and the rules that apply. *)
Lemma resolveBlockModel_output assets block definition :
  name block ∉ liquidNames →
  blockstateJson assets (blockstateFile block) = Some (Parsed (Some definition)) →
  resolveBlockModel assets block =
    match mapM MultipartSpec.firstHolder
            (option_list (variants definition ≫= λ vs, selectVariant vs block) ++
             (apply <$> filter (λ part, ruleApplies block part = true)
                          (default [] (multipart definition))))%list with
    | Some holders => Returns (MultipartSpec.contribution <$> holders)
    | None => Throws "TypeError"
    end.
Proof.
  intros Hliquid Hfile. unfold resolveBlockModel.
  rewrite (isLiquidName_false _ Hliquid), (getBlockState_file _ _ _ Hfile).
  assert (Hparts :
    match multipart definition with
    | Some parts => resolveMultipart parts block
    | None => Returns []
    end =
    match mapM MultipartSpec.firstHolder
            (apply <$> filter (λ part, ruleApplies block part = true)
                         (default [] (multipart definition))) with
    | Some holders => Returns (MultipartSpec.contribution <$> holders)
    | None => Throws "TypeError"
    end).
  { destruct (multipart definition) as [parts|]; [apply resolveMultipart_spec | done]. }
  assert (Hboth :
    ((fromVariants ←
       match variants definition with
       | Some vs => resolveVariants vs block
       | None => Returns []
       end;
     fromMultipart ←
       match multipart definition with
       | Some parts => resolveMultipart parts block
       | None => Returns []
       end;
     mret (fromVariants ++ fromMultipart)%list) : result (list ModelData)) =
    match mapM MultipartSpec.firstHolder
            (option_list (variants definition ≫= λ vs, selectVariant vs block) ++
             (apply <$> filter (λ part, ruleApplies block part = true)
                          (default [] (multipart definition))))%list with
    | Some holders => Returns (MultipartSpec.contribution <$> holders)
    | None => Throws "TypeError"
    end).
  { rewrite Hparts.
    destruct (variants definition) as [vs|]; cbn [mbind option_bind option_list].
    - unfold resolveVariants.
      destruct (selectVariant vs block) as [choice|]; cbn [option_list app mapM].
      + rewrite pushModel_firstHolder.
        destruct (MultipartSpec.firstHolder choice) as [holder|] eqn:Hholder;
          cbn; rewrite Hholder; cbn; [|done].
        by destruct (mapM MultipartSpec.firstHolder _).
      + cbn. by destruct (mapM MultipartSpec.firstHolder _).
    - cbn. by destruct (mapM MultipartSpec.firstHolder _). }
  destruct (variants definition) as [vs|] eqn:Hvs;
    destruct (multipart definition) as [parts|] eqn:Hmp; exact Hboth.
Qed.

Lemma Applying_filter block parts :
  MultipartSpec.Applying block parts (filter (λ part, ruleApplies block part = true) parts).
Proof.
  induction parts as [|part parts IH]; [constructor|].
  rewrite filter_cons. destruct (ruleApplies block part) eqn:Happ.
  - rewrite decide_True by done. constructor; [|done].
    unfold ruleApplies in Happ. unfold MultipartSpec.applies.
    destruct (when part) as [[condition|conditions]|]; [| |done].
    + by apply matchesCondition_spec.
    + apply existsb_exists in Happ as (c & Hin & Hc). exists c.
      split; [by apply list_elem_of_In | by apply matchesCondition_spec].
  - rewrite decide_False by done. apply MultipartSpec.applying_skip; [|done].
    intros Happlies. unfold ruleApplies in Happ. unfold MultipartSpec.applies in Happlies.
    destruct (when part) as [[condition|conditions]|]; [| |done].
    + apply matchesCondition_spec in Happlies. congruence.
    + destruct Happlies as (c & Hin & Hc).
      assert (existsb (matchesCondition block) conditions = true); [|congruence].
      apply existsb_exists. exists c.
      split; [by apply list_elem_of_In | by apply matchesCondition_spec].
Qed.

Lemma Applying_functional block parts kept1 kept2 :
  MultipartSpec.Applying block parts kept1 →
  MultipartSpec.Applying block parts kept2 → kept1 = kept2.
Proof.
  intros H1. revert kept2. induction H1; intros kept2 H2; inversion H2; subst;
    try done; f_equal; auto.
Qed.

(** C1 (amended).  For every block other than the liquids and every
    blockstate definition with variants, [resolveBlockModel] settles on
    the one variant the strict fallback order gives -- exact match on the
    sorted, comma-joined key built from the block's properties whose names
    appear in a variant key; else the empty key; else the best partial
    match (no conflicting property, highest count of agreeing properties,
    first in key order on ties); else the first literal ["key=value"] hit
    in the order of the block's properties; else the first variant key --
    and its output starts with the model data of that variant, the entry
    at index 0 when the variant is a list (a [TypeError] when the list is
    empty), followed by those of the multipart rules that apply.  For
    variants [{"facing=north": A, "facing=south": B, "": C}] and a block
    with [facing=east] the output is [C]. *)
Theorem C1_variant_fallback_order :
  (∀ assets block definition vs,
     name block ∉ liquidNames →
     blockstateJson assets (blockstateFile block) = Some (Parsed (Some definition)) →
     variants definition = Some vs →
     ∃ selected applying,
       Selected vs block selected ∧
       (∀ other, Selected vs block other → other = selected) ∧
       MultipartSpec.Applying block (default [] (multipart definition)) applying ∧
       resolveBlockModel assets block =
         match mapM MultipartSpec.firstHolder
                 (option_list selected ++ (apply <$> applying))%list with
         | Some holders =>
             Returns ((λ holder, {| model := holder_model holder;
                                    x := holder_x holder; y := holder_y holder;
                                    uvlock := holder_uvlock holder |}) <$> holders)
         | None => Throws "TypeError"
         end) ∧
  (∀ A B C,
     resolveBlockModel
       (Examples.onlyBlockstate "furnace"
          {| variants := Some [("facing=north", Single A); ("facing=south", Single B);
                               ("", Single C)];
             multipart := None |})
       (mkBlock "minecraft" "furnace" [("facing", "east")])
     = Returns [{| model := holder_model C; x := holder_x C; y := holder_y C;
                   uvlock := holder_uvlock C |}]).
Proof.
  split; [|intros A B C; by vm_compute].
  intros assets block definition vs Hliquid Hfile Hvs.
  exists (selectVariant vs block).
  exists (filter (λ part, ruleApplies block part = true)
            (default [] (multipart definition))).
  split; [apply selectVariant_Selected|].
  split; [intros other Hother; symmetry; by apply Selected_iff|].
  split; [apply Applying_filter|].
  rewrite (resolveBlockModel_output _ _ _ Hliquid Hfile).
  by rewrite Hvs.
Qed.

Lemma C1_variant_fallback_order_witness :
  let vs := [("facing=north", Single (Examples.holder "block/A"));
             ("facing=south", Single (Examples.holder "block/B"));
             ("", Single (Examples.holder "block/C"))] in
  let definition := {| variants := Some vs; multipart := None |} in
  let block := mkBlock "minecraft" "furnace" [("facing", "east")] in
  let assets := Examples.onlyBlockstate "furnace" definition in
  (name block ∉ liquidNames) ∧
  blockstateJson assets (blockstateFile block) = Some (Parsed (Some definition)) ∧
  ∃ selected applying,
    Selected vs block selected ∧
    (∀ other, Selected vs block other → other = selected) ∧
    MultipartSpec.Applying block (default [] (multipart definition)) applying ∧
    resolveBlockModel assets block =
      match mapM MultipartSpec.firstHolder
              (option_list selected ++ (apply <$> applying))%list with
      | Some holders =>
          Returns ((λ holder, {| model := holder_model holder;
                                 x := holder_x holder; y := holder_y holder;
                                 uvlock := holder_uvlock holder |}) <$> holders)
      | None => Throws "TypeError"
      end.
Proof.
  intros vs definition block assets.
  assert (Hliquid : name block ∉ liquidNames) by not_in_list.
  assert (Hfile : blockstateJson assets (blockstateFile block) =
                  Some (Parsed (Some definition))) by (vm_compute; reflexivity).
  split; [exact Hliquid|]. split; [exact Hfile|].
  exact (proj1 C1_variant_fallback_order assets block definition vs
           Hliquid Hfile eq_refl).
Defined.

Lemma createLiquidModelData_Permutation b1 b2 :
  name b1 = name b2 →
  properties b1 ≡ₚ properties b2 →
  NoDup (JS.keys (properties b1)) →
  createLiquidModelData b1 = createLiquidModelData b2.
Proof.
  intros Hname Hp Hnd. unfold createLiquidModelData, blockLevel.
  by rewrite Hname, (get_Permutation _ _ "level" Hnd Hp).
Qed.

(** C8, as stated, fails: with property values that contain [=] no
    variant key is a valid candidate, the single-property fallback is
    reached, and it takes the first property in insertion order. *)
Lemma C8_counterexample :
  properties Examples.crate_ab ≡ₚ properties Examples.crate_ba ∧
  NoDup (JS.keys (properties Examples.crate_ab)) ∧
  getBlockState (Examples.onlyBlockstate "crate" Examples.crateState) "crate"
    = Some Examples.crateState ∧
  multipart Examples.crateState = None ∧
  resolveBlockModel (Examples.onlyBlockstate "crate" Examples.crateState) Examples.crate_ab
    = Returns [{| model := "block/crate_a"; x := None; y := None; uvlock := None |}] ∧
  resolveBlockModel (Examples.onlyBlockstate "crate" Examples.crateState) Examples.crate_ba
    = Returns [{| model := "block/crate_b"; x := None; y := None; uvlock := None |}].
Proof.
  split; [apply perm_swap|]. split; [nodup_strings|].
  split; [by vm_compute|]. split; [done|]. split; by vm_compute.
Qed.

(** C8 (amended).  For a block whose property names and values contain
    neither [=] nor [,] and whose blockstate definition has only variants,
    the resolved models do not depend on the insertion order of the
    properties. *)
Theorem C8_property_order_irrelevant assets b1 b2 definition vs :
  name b1 = name b2 →
  properties b1 ≡ₚ properties b2 →
  NoDup (JS.keys (properties b1)) →
  Forall cleanProperty (properties b1) →
  getBlockState assets (JS.replace (name b1) "minecraft:" "") = Some definition →
  variants definition = Some vs →
  multipart definition = None →
  resolveBlockModel assets b1 = resolveBlockModel assets b2.
Proof.
  intros Hname Hp Hnd Hclean Hdef Hvs Hmp. unfold resolveBlockModel.
  rewrite <- Hname. destruct (isLiquidName (name b1)).
  - f_equal. by apply createLiquidModelData_Permutation.
  - rewrite Hdef, Hvs, Hmp. unfold resolveVariants.
    by rewrite (selectVariant_Permutation vs b1 b2).
Qed.

Lemma C8_property_order_irrelevant_witness :
  name Examples.log_1 = name Examples.log_2 ∧
  properties Examples.log_1 ≡ₚ properties Examples.log_2 ∧
  NoDup (JS.keys (properties Examples.log_1)) ∧
  Forall cleanProperty (properties Examples.log_1) ∧
  resolveBlockModel (Examples.onlyBlockstate "oak_log" Examples.logState) Examples.log_1 =
  resolveBlockModel (Examples.onlyBlockstate "oak_log" Examples.logState) Examples.log_2.
Proof.
  assert (Hp : properties Examples.log_1 ≡ₚ properties Examples.log_2) by apply perm_swap.
  assert (Hnd : NoDup (JS.keys (properties Examples.log_1))).
  { nodup_strings. }
  assert (Hclean : Forall cleanProperty (properties Examples.log_1)).
  { repeat constructor; vm_compute; reflexivity. }
  split; [reflexivity|]. split; [exact Hp|]. split; [exact Hnd|]. split; [exact Hclean|].
  apply (C8_property_order_irrelevant _ _ _ Examples.logState
           [("axis=x", Single {| holder_model := "block/oak_log_horizontal";
                                 holder_x := Some 90%Z; holder_y := Some 90%Z;
                                 holder_uvlock := None; holder_weight := None |});
            ("axis=y", Single (Examples.holder "block/oak_log"))]);
    [reflexivity | exact Hp | exact Hnd | exact Hclean
    | vm_compute; reflexivity | reflexivity | reflexivity].
Defined.

(** ** Multipart rules *)

Lemma ruleApplies_spec block part :
  ruleApplies block part = true ↔ applies block part.
Proof.
  unfold ruleApplies, applies. destruct (when part) as [[condition|conditions]|].
  - apply matchesCondition_spec.
  - rewrite existsb_exists. split.
    + intros (c & Hin & Hc). exists c. split; [by apply list_elem_of_In|].
      by apply matchesCondition_spec.
    + intros (c & Hin & Hc). exists c. split; [by apply list_elem_of_In|].
      by apply matchesCondition_spec.
  - done.
Qed.

(** C2, as stated, fails in three ways: a block value that is the whole
    [|]-separated expected string equals the expected value, yet the
    condition does not match, because that string is compared with the
    alternatives only; a condition on a name every object inherits, such as
    [toString], matches a block that does not define that property; and a
    liquid never reaches its multipart rules. *)
Lemma C2_counterexample :
  ((∀ entry, entry ∈ [("north", "a|b")] →
      entrySatisfiedLoose (mkBlock "minecraft" "fence" [("north", "a|b")]) entry) ∧
   matchesCondition (mkBlock "minecraft" "fence" [("north", "a|b")]) [("north", "a|b")]
     = false) ∧
  (JS.get "toString" (properties (mkBlock "minecraft" "fence" [])) = None ∧
   matchesCondition (mkBlock "minecraft" "fence" [])
     [("toString", "function toString() { [native code] }")] = true) ∧
  (let definition :=
     {| variants := None;
        multipart := Some [{| when := None;
                              apply := Single (Examples.holder "block/pond") |}] |} in
   let block := mkBlock "minecraft" "lava" [] in
   let assets := Examples.onlyBlockstate "lava" definition in
   blockstateJson assets (blockstateFile block) = Some (Parsed (Some definition)) ∧
   resolveBlockModel assets block =
     Returns [{| model := "block/lava"; x := Some 0%Z; y := Some 0%Z;
                 uvlock := Some false |}]).
Proof.
  split; [split; [|by vm_compute]|split; [by vm_compute|split; by vm_compute]].
  intros entry ->%list_elem_of_singleton. exists "a|b". split; [done | by left].
Qed.

(** C2 (amended).  For a block other than the liquids, the multipart
    rules are evaluated in declaration order: a rule without [when]
    applies; a [when] with key [OR] applies iff one of its condition maps
    matches; any other [when] applies iff it matches; a condition map
    matches iff for each of its entries the block has the property -- its
    own, or else a member its property map inherits from
    [Object.prototype], read as text -- and the block's value is a member
    of the [|]-split set of the expected value.  The applying rules
    contribute, in rule order, the model of their [apply] (index 0 of a
    list, a [TypeError] for an empty list), after the model of the variant
    selected, if there are variants.  For the rules
    [[{when:{north:"true"}, apply:X}, {when:{OR:[{east:"true"},{west:"true"}]}, apply:Y}]]
    and a block with [north=true] and [east=true] the output is [X] then [Y]. *)
Theorem C2_multipart_rules :
  (∀ block condition,
     matchesCondition block condition = true ↔
     ∀ entry, entry ∈ condition →
       ∃ value,
         match JS.get entry.1 (properties block) with
         | Some own => Some own
         | None => if bool_decide (entry.1 ∈ JS.objectPrototype)
                   then Some (JS.inheritedText entry.1) else None
         end = Some value ∧
         value ∈ JS.split "|" entry.2) ∧
  (∀ block part,
     ruleApplies block part = true ↔
     match when part with
     | None => True
     | Some (WhenOR conditions) =>
         ∃ c, c ∈ conditions ∧ matchesCondition block c = true
     | Some (WhenAll condition) => matchesCondition block condition = true
     end) ∧
  (∀ assets block definition parts,
     name block ∉ liquidNames →
     blockstateJson assets (blockstateFile block) = Some (Parsed (Some definition)) →
     multipart definition = Some parts →
     ∃ selected applying,
       match variants definition with
       | Some vs => Selected vs block selected
       | None => selected = None
       end ∧
       Applying block parts applying ∧
       (∀ other, Applying block parts other → other = applying) ∧
       resolveBlockModel assets block =
         match mapM firstHolder (option_list selected ++ (apply <$> applying))%list with
         | Some holders =>
             Returns ((λ holder, {| model := holder_model holder;
                                    x := holder_x holder; y := holder_y holder;
                                    uvlock := holder_uvlock holder |}) <$> holders)
         | None => Throws "TypeError"
         end) ∧
  (∀ X Y,
     resolveBlockModel
       (Examples.onlyBlockstate "fence"
          {| variants := None;
             multipart := Some
               [{| when := Some (WhenAll [("north", "true")]); apply := Single X |};
                {| when := Some (WhenOR [[("east", "true")]; [("west", "true")]]);
                   apply := Single Y |}] |})
       (mkBlock "minecraft" "fence" [("north", "true"); ("east", "true")])
     = Returns [{| model := holder_model X; x := holder_x X; y := holder_y X;
                   uvlock := holder_uvlock X |};
                {| model := holder_model Y; x := holder_x Y; y := holder_y Y;
                   uvlock := holder_uvlock Y |}]).
Proof.
  split; [exact matchesCondition_spec|]. split; [|split].
  - intros block part. rewrite ruleApplies_spec. unfold applies.
    destruct (when part) as [[condition|conditions]|]; [|  |done].
    + symmetry. apply matchesCondition_spec.
    + split; intros (c & ? & ?); exists c; (split; [done|]);
        by apply matchesCondition_spec.
  - intros assets block definition parts Hliquid Hfile Hmp.
    exists (variants definition ≫= λ vs, selectVariant vs block).
    exists (filter (λ part, ruleApplies block part = true) parts).
    split; [destruct (variants definition); [apply selectVariant_Selected | done]|].
    split; [apply Applying_filter|].
    split; [intros other Hother;
            exact (Applying_functional _ _ _ _ Hother (Applying_filter block parts))|].
    rewrite (resolveBlockModel_output _ _ _ Hliquid Hfile).
    by rewrite Hmp.
  - intros X Y. by vm_compute.
Qed.

Lemma C2_multipart_rules_witness :
  let parts :=
    [{| when := Some (WhenAll [("north", "true")]);
        apply := Single (Examples.holder "block/X") |};
     {| when := Some (WhenOR [[("east", "true")]; [("west", "true")]]);
        apply := Single (Examples.holder "block/Y") |}] in
  let definition := {| variants := None; multipart := Some parts |} in
  let block := mkBlock "minecraft" "fence" [("north", "true"); ("east", "true")] in
  let assets := Examples.onlyBlockstate "fence" definition in
  (name block ∉ liquidNames) ∧
  blockstateJson assets (blockstateFile block) = Some (Parsed (Some definition)) ∧
  ∃ selected applying,
    match variants definition with
    | Some vs => Selected vs block selected
    | None => selected = None
    end ∧
    Applying block parts applying ∧
    (∀ other, Applying block parts other → other = applying) ∧
    resolveBlockModel assets block =
      match mapM firstHolder (option_list selected ++ (apply <$> applying))%list with
      | Some holders =>
          Returns ((λ holder, {| model := holder_model holder;
                                 x := holder_x holder; y := holder_y holder;
                                 uvlock := holder_uvlock holder |}) <$> holders)
      | None => Throws "TypeError"
      end.
Proof.
  intros parts definition block assets.
  assert (Hliquid : name block ∉ liquidNames) by not_in_list.
  assert (Hfile : blockstateJson assets (blockstateFile block) =
                  Some (Parsed (Some definition))) by (vm_compute; reflexivity).
  split; [exact Hliquid|]. split; [exact Hfile|].
  exact (proj1 (proj2 (proj2 C2_multipart_rules)) assets block definition parts
           Hliquid Hfile eq_refl).
Defined.

(** ** Parent inheritance *)

Import InheritanceSpec.

Lemma mergeLoop_ancestors assets fuel currentModel parentPath :
  mergeLoop assets fuel currentModel parentPath =
  foldl (λ current parentModel, mergeModels parentModel current) currentModel
        (ancestors assets fuel parentPath).
Proof.
  revert currentModel parentPath.
  induction fuel as [|fuel IH]; intros currentModel parentPath; [done|].
  cbn [mergeLoop ancestors]. destruct (decide (parentPath = "")); [done|].
  destruct (modelJson assets _) as [[|parentModel]|]; [done| |done].
  by rewrite IH.
Qed.

Lemma ancestors_length assets hops parentPath :
  (length (ancestors assets hops parentPath) ≤ hops)%nat.
Proof.
  revert parentPath. induction hops as [|hops IH]; intros parentPath; [done|].
  cbn [ancestors]. destruct (decide (parentPath = "")); [simpl; lia|].
  destruct (modelJson assets _) as [[|parentModel]|]; simpl; try lia.
  specialize (IH (default "" (parent parentModel))). lia.
Qed.

Lemma textureOf_mergeModels key parentModel currentModel :
  textureOf key (mergeModels parentModel currentModel) =
  match textureOf key currentModel with
  | Some value => Some value
  | None => textureOf key parentModel
  end.
Proof.
  unfold textureOf, mergeModels. simpl. rewrite lookup_union.
  destruct (textures currentModel) as [tc|], (textures parentModel) as [tp|]; simpl;
    rewrite ?lookup_empty.
  - by destruct (tc !! key), (tp !! key).
  - by destruct (tc !! key).
  - by destruct (tp !! key).
  - done.
Qed.

Lemma firstOf_cons {A} (f : BlockModel → option A) m chain :
  firstOf f (m :: chain) =
  match f m with
  | Some a => Some a
  | None => firstOf f chain
  end.
Proof. unfold firstOf. simpl. by destruct (f m). Qed.

Lemma merged_firstOf {A} (f : BlockModel → option A) chain currentModel :
  (∀ parentModel current,
     f (mergeModels parentModel current) =
     match f current with
     | Some a => Some a
     | None => f parentModel
     end) →
  f (foldl (λ current parentModel, mergeModels parentModel current) currentModel chain) =
  firstOf f (currentModel :: chain).
Proof.
  intros Hmerge. revert currentModel.
  induction chain as [|parentModel chain IH]; intros currentModel.
  - rewrite firstOf_cons. simpl. by destruct (f currentModel).
  - simpl. rewrite IH, !firstOf_cons, Hmerge.
    by destruct (f currentModel).
Qed.

(** C3.  A model that declares a parent is merged with its chain of
    parents, at most 5 of them: each texture key takes the value of the
    nearest model (child first) that defines it, the elements are those of
    the nearest model that has any, a parent file that is missing ends the
    chain without an error, and the result has no [parent].  The child
    [{parent: P, textures: {top: "A"}}] over the parent
    [{textures: {top: "B", side: "C"}, elements: [E]}] gives the textures
    [{top: "A", side: "C"}], the elements [[E]] and no parent. *)
Theorem C3_parent_chain_merge :
  (∀ assets model p,
     parent model = Some p → p ≠ "" →
     (length (ancestors assets MAX_DEPTH p) ≤ 5)%nat ∧
     parent (loadAndMergeModel assets model) = None ∧
     (∀ key,
        textureOf key (loadAndMergeModel assets model) =
        firstOf (textureOf key) (model :: ancestors assets MAX_DEPTH p)) ∧
     elements (loadAndMergeModel assets model) =
       firstOf elements (model :: ancestors assets MAX_DEPTH p) ∧
     (ancestors assets MAX_DEPTH p = [] →
        loadAndMergeModel assets model = dropParent model)) ∧
  loadAndMergeModel (Examples.onlyModel "block/P" Examples.parentModel)
    Examples.childModel =
    {| parent := None;
       textures := Some (list_to_map [("top", "A"); ("side", "C")]);
       elements := Some [Examples.cubeElement];
       display := None |}.
Proof.
  split; [|by vm_compute].
  intros assets model p Hparent Hp.
  assert (Hload : loadAndMergeModel assets model =
    dropParent (foldl (λ current parentModel, mergeModels parentModel current) model
                  (ancestors assets MAX_DEPTH p))).
  { unfold loadAndMergeModel. rewrite Hparent, decide_False by done.
    by rewrite mergeLoop_ancestors. }
  rewrite Hload. split; [apply ancestors_length|]. split; [done|].
  split; [|split].
  - intros key.
    rewrite <- (merged_firstOf (textureOf key)) by apply textureOf_mergeModels.
    done.
  - rewrite <- (merged_firstOf elements); [done|].
    intros parentModel current. simpl. by destruct (elements current).
  - by intros ->.
Qed.

Lemma C3_parent_chain_merge_witness :
  parent Examples.childModel = Some "block/P" ∧ "block/P" ≠ "" ∧
  parent (loadAndMergeModel (Examples.onlyModel "block/P" Examples.parentModel)
            Examples.childModel) = None ∧
  elements (loadAndMergeModel (Examples.onlyModel "block/P" Examples.parentModel)
              Examples.childModel) =
    firstOf elements
      (Examples.childModel ::
       ancestors (Examples.onlyModel "block/P" Examples.parentModel) MAX_DEPTH "block/P").
Proof.
  split; [reflexivity|]. split; [discriminate|].
  destruct (proj1 C3_parent_chain_merge
              (Examples.onlyModel "block/P" Examples.parentModel)
              Examples.childModel "block/P" eq_refl ltac:(discriminate))
    as (_ & Hparent & _ & Helements & _).
  split; [exact Hparent | exact Helements].
Defined.

(** ** Liquids *)

Import LiquidSpec.

Lemma string_app_cons (a : ascii) (s1 s2 : string) :
  String a s1 +:+ s2 = String a (s1 +:+ s2).
Proof. reflexivity. Qed.

Lemma string_app_assoc (s1 s2 s3 : string) :
  (s1 +:+ s2) +:+ s3 = s1 +:+ (s2 +:+ s3).
Proof.
  induction s1 as [|a s1 IH]; [done|]. by rewrite !string_app_cons, IH.
Qed.

Lemma digitValue_digitChar (d : Z) :
  (0 ≤ d < 10)%Z → JS.digitValue (JS.digitChar d) = Some d.
Proof.
  intros Hd.
  assert (d = 0 ∨ d = 1 ∨ d = 2 ∨ d = 3 ∨ d = 4 ∨ d = 5 ∨ d = 6 ∨ d = 7 ∨
          d = 8 ∨ d = 9)%Z as Hcases by lia.
  repeat (destruct Hcases as [->|Hcases]; [reflexivity|]). by subst.
Qed.

Lemma isDigit_digitChar (d : Z) : (0 ≤ d < 10)%Z → isDigit (JS.digitChar d) = true.
Proof. intros Hd. unfold isDigit. by rewrite digitValue_digitChar. Qed.

Lemma natDigits_S fuel n acc :
  JS.natDigits (S fuel) n acc =
  if (n <? 10)%Z then String (JS.digitChar (n mod 10)) acc
  else JS.natDigits fuel (n / 10) (String (JS.digitChar (n mod 10)) acc).
Proof. reflexivity. Qed.

Lemma natDigits_acc fuel n acc :
  JS.natDigits fuel n acc = JS.natDigits fuel n "" +:+ acc.
Proof.
  revert n acc. induction fuel as [|fuel IH]; intros n acc; [done|].
  rewrite !natDigits_S. destruct (n <? 10)%Z; [done|].
  rewrite (IH (n / 10)%Z (String _ acc)), (IH (n / 10)%Z (String _ "")).
  by rewrite string_app_assoc.
Qed.

Lemma parseDigits_app acc s1 s2 :
  allDigits s1 = true →
  JS.parseDigits acc (s1 +:+ s2) = JS.parseDigits (JS.parseDigits acc s1) s2.
Proof.
  revert acc. induction s1 as [|c s1 IH]; intros acc Hall; [done|].
  simpl in Hall. apply andb_true_iff in Hall as [Hc Hall].
  rewrite string_app_cons. cbn [JS.parseDigits]. unfold isDigit in Hc.
  destruct (JS.digitValue c); [|done]. by apply IH.
Qed.

Lemma allDigits_app s1 s2 :
  allDigits (s1 +:+ s2) = allDigits s1 && allDigits s2.
Proof.
  induction s1 as [|c s1 IH]; [done|].
  rewrite string_app_cons. simpl. by rewrite IH, andb_assoc.
Qed.

Lemma natDigits_spec fuel n :
  (0 ≤ n < 2 ^ Z.of_nat (S fuel))%Z →
  allDigits (JS.natDigits (S fuel) n "") = true ∧
  JS.natDigits (S fuel) n "" ≠ "" ∧
  JS.parseDigits None (JS.natDigits (S fuel) n "") = Some n.
Proof.
  revert n. induction fuel as [|fuel IH]; intros n Hn;
    assert (Hmod : (0 ≤ n mod 10 < 10)%Z) by (apply Z.mod_pos_bound; lia);
    rewrite natDigits_S; destruct (n <? 10)%Z eqn:Hlt;
    try (apply Z.ltb_lt in Hlt; rewrite Z.mod_small by lia;
         cbn [allDigits JS.parseDigits];
         rewrite isDigit_digitChar, digitValue_digitChar by lia;
         split; [done|]; split; [done|]; cbn [default from_option id]; f_equal; lia).
  - apply Z.ltb_ge in Hlt. change (Z.of_nat 1) with 1%Z in Hn. lia.
  - apply Z.ltb_ge in Hlt. rewrite natDigits_acc.
    destruct (IH (n / 10)%Z) as (Hall & Hne & Hparse).
    { split; [apply Z.div_pos; lia|].
      apply Z.div_lt_upper_bound; [lia|].
      rewrite (Nat2Z.inj_succ (S fuel)), Z.pow_succ_r in Hn by lia. lia. }
    split; [|split].
    + rewrite allDigits_app, Hall. cbn [allDigits andb].
      by rewrite isDigit_digitChar.
    + destruct (JS.natDigits (S fuel) (n / 10) ""); done.
    + rewrite parseDigits_app, Hparse by done. cbn [JS.parseDigits].
      rewrite digitValue_digitChar by done. cbn [default from_option id]. f_equal.
      pose proof (Z.div_mod n 10). lia.
Qed.

Lemma natDigits_allDigits fuel n acc :
  allDigits acc = true → allDigits (JS.natDigits fuel n acc) = true.
Proof.
  revert n acc. induction fuel as [|fuel IH]; intros n acc Hacc; [done|].
  rewrite natDigits_S.
  assert (Hd : allDigits (String (JS.digitChar (n mod 10)) acc) = true).
  { cbn [allDigits]. rewrite isDigit_digitChar by (apply Z.mod_pos_bound; lia). done. }
  destruct (n <? 10)%Z; [done | by apply IH].
Qed.

Lemma decimal_allDigits n : allDigits (JS.decimal n) = true.
Proof. by apply natDigits_allDigits. Qed.

Lemma decimal_head n :
  ∃ d rest, JS.decimal n = String d rest ∧ isDigit d = true.
Proof.
  pose proof (decimal_allDigits n) as Hall.
  assert (Hne : JS.decimal n ≠ "").
  { unfold JS.decimal. rewrite natDigits_S. destruct (n <? 10)%Z; [done|].
    rewrite natDigits_acc. by destruct (JS.natDigits _ _ ""). }
  destruct (JS.decimal n) as [|d rest]; [done|].
  cbn [allDigits] in Hall. apply andb_true_iff in Hall as [Hd _]. eauto.
Qed.

Lemma decimal_spec n :
  (0 ≤ n)%Z → JS.parseDigits None (JS.decimal n) = Some n.
Proof.
  intros Hn. unfold JS.decimal. apply natDigits_spec. split; [done|].
  rewrite Nat2Z.inj_succ, Z2Nat.id by apply Z.log2_nonneg.
  destruct (decide (n = 0%Z)) as [->|Hne]; [done|].
  apply Z.log2_spec. lia.
Qed.

Lemma zeros_allDigits n : allDigits (JS.zeros n) = true.
Proof. induction n as [|n IH]; [done|]. exact IH. Qed.

Lemma roundDouble_small z :
  (Z.abs z < 2 ^ 53)%Z → JS.roundDouble z = JS.Integer z.
Proof. intros Hz. unfold JS.roundDouble. by rewrite (proj2 (Z.ltb_lt _ _)). Qed.

Lemma roundDouble_even z :
  (Z.abs z < 2 ^ 54)%Z → Z.even z = true → JS.roundDouble z = JS.Integer z.
Proof.
  intros Hz Heven. unfold JS.roundDouble.
  destruct (Z.ltb_spec (Z.abs z) (2 ^ 53)) as [Hlt|Hge]; [done|].
  assert (Hlog : Z.log2 (Z.abs z) = 53%Z) by (apply Z.log2_unique; lia).
  rewrite Hlog. change (53 - 52)%Z with 1%Z. change (1 - 1)%Z with 0%Z.
  change (2 ^ 1)%Z with 2%Z. change (2 ^ 0)%Z with 1%Z.
  assert (Hmod : (Z.abs z mod 2 = 0)%Z).
  { rewrite Zmod_even. assert (Z.even (Z.abs z) = Z.even z) as -> by (by destruct z).
    by rewrite Heven. }
  rewrite Hmod. cbn [Z.ltb Z.eqb Z.compare orb andb].
  assert (Hq : (Z.abs z / 2 * 2 = Z.abs z)%Z).
  { pose proof (Z.div_mod (Z.abs z) 2). lia. }
  rewrite Hq. rewrite (proj2 (Z.leb_gt _ _)); [|].
  - f_equal. lia.
  - assert (2 ^ 54 < 2 ^ 1024)%Z by (apply Z.pow_lt_mono_r; lia). lia.
Qed.

Lemma takeDigits_allDigits s : allDigits s = true → takeDigits s = s.
Proof.
  induction s as [|c s IH]; [done|]. simpl.
  intros [Hc Hs]%andb_true_iff. by rewrite Hc, IH.
Qed.

Lemma parseDigits_takeDigits acc s :
  JS.parseDigits acc (takeDigits s) = JS.parseDigits acc s.
Proof.
  revert acc. induction s as [|c s IH]; intros acc; [done|].
  cbn [takeDigits JS.parseDigits]. unfold isDigit.
  destruct (JS.digitValue c) as [d|] eqn:Hd; [|done].
  cbn [JS.parseDigits]. by rewrite Hd, IH.
Qed.

Lemma parseInt_digit (c : ascii) s :
  isDigit c = true →
  JS.parseInt (String c s) =
  match JS.parseDigits None (String c s) with
  | Some n => JS.roundDouble n
  | None => JS.NaN
  end.
Proof.
  intros Hc. unfold JS.parseInt. unfold isDigit, JS.digitValue in Hc.
  destruct c as [[] [] [] [] [] [] [] []]; done.
Qed.

Lemma parseInt_takeDigits (c : ascii) s :
  isDigit c = true →
  JS.parseInt (takeDigits (String c s)) = JS.parseInt (String c s).
Proof.
  intros Hc. cbn [takeDigits]. rewrite Hc, !parseInt_digit by done.
  assert (String c (takeDigits s) = takeDigits (String c s)) as ->.
  { cbn [takeDigits]. by rewrite Hc. }
  by rewrite parseDigits_takeDigits.
Qed.

Lemma matchLevel_unfold s :
  matchLevel s =
  match (if JS.startsWith s "_level_"
         then match takeDigits (JS.substring_from 7 s) with
              | EmptyString => None
              | digits => Some digits
              end
         else None) with
  | Some digits => Some digits
  | None =>
      match s with
      | EmptyString => None
      | String _ s' => matchLevel s'
      end
  end.
Proof. by destruct s. Qed.

Lemma prefix_app (p s : string) : String.prefix p (p +:+ s) = true.
Proof.
  induction p as [|a p IH]; [by destruct s|].
  rewrite string_app_cons. simpl. by destruct (Ascii.ascii_dec a a).
Qed.

Lemma substring_from_app (p s : string) :
  JS.substring_from (String.length p) (p +:+ s) = s.
Proof. induction p as [|a p IH]; [by destruct s|]. exact IH. Qed.

Lemma matchLevel_here (d : ascii) rest :
  isDigit d = true →
  matchLevel ("_level_" +:+ String d rest) = Some (takeDigits (String d rest)).
Proof.
  intros Hd. rewrite matchLevel_unfold. unfold JS.startsWith.
  rewrite prefix_app.
  change 7%nat with (String.length "_level_").
  rewrite substring_from_app. cbn [takeDigits]. by rewrite Hd.
Qed.

Lemma matchLevel_skip (c : ascii) s :
  c ≠ "_"%char → matchLevel (String c s) = matchLevel s.
Proof.
  intros Hc. rewrite matchLevel_unfold. unfold JS.startsWith.
  cbn [String.prefix].
  destruct (ascii_dec "_" c) as [Heq|_]; [congruence | reflexivity].
Qed.

Lemma matchLevel_no_underscore s :
  JS.includes s "_" = false → matchLevel s = None.
Proof.
  induction s as [|c s IH]; [done|].
  rewrite includes_char_cons. intros [Hc Hs]%orb_false_iff.
  rewrite matchLevel_skip; [by apply IH|].
  intros ->. by rewrite Ascii.eqb_refl in Hc.
Qed.

Lemma allDigits_no_char (c : ascii) s :
  isDigit c = false → allDigits s = true → JS.includes s (String c EmptyString) = false.
Proof.
  intros Hc. induction s as [|a s IH]; [done|]. cbn [allDigits].
  intros [Ha Hs]%andb_true_iff. rewrite includes_char_cons, IH by done.
  destruct (Ascii.eqb_spec c a) as [->|_]; [congruence | done].
Qed.

Lemma formatDigits_no_char (c : ascii) s k n :
  isDigit c = false → c ≠ "."%char → c ≠ "e"%char → c ≠ "+"%char →
  JS.includes (JS.formatDigits s k n) (String c EmptyString) = false.
Proof.
  intros Hc Hdot He Hplus. unfold JS.formatDigits.
  assert (Hneq : ∀ a : ascii, c ≠ a → Ascii.eqb c a = false).
  { intros a Hne. by apply Ascii.eqb_neq. }
  destruct (n <=? 21)%Z.
  - rewrite includes_char_app.
    by rewrite !allDigits_no_char by auto using decimal_allDigits, zeros_allDigits.
  - pose proof (decimal_allDigits s) as Hall.
    destruct (JS.decimal s) as [|d rest]; [done|].
    cbn [allDigits] in Hall. apply andb_true_iff in Hall as [Hd Hrest].
    rewrite includes_char_cons, !includes_char_app.
    assert (Ascii.eqb c d = false) as ->.
    { destruct (Ascii.eqb_spec c d) as [->|_]; [congruence | done]. }
    assert (JS.includes (if bool_decide (rest = "") then "" else "." +:+ rest)
              (String c EmptyString) = false) as ->.
    { case_bool_decide; [done|].
      rewrite string_app_cons, includes_char_cons, (Hneq "."%char) by done.
      by apply allDigits_no_char. }
    assert (JS.includes "e+" (String c EmptyString) = false) as ->.
    { by rewrite !includes_char_cons, (Hneq "e"%char), (Hneq "+"%char) by done. }
    by apply allDigits_no_char, decimal_allDigits.
Qed.

Lemma magnitudeToString_no_char (c : ascii) x :
  isDigit c = false → c ≠ "."%char → c ≠ "e"%char → c ≠ "+"%char →
  JS.includes (JS.magnitudeToString x) (String c EmptyString) = false.
Proof.
  intros Hc Hdot He Hplus. unfold JS.magnitudeToString.
  destruct (x <? 2 ^ 53)%Z.
  - by apply allDigits_no_char, decimal_allDigits.
  - destruct (JS.shortestDigits x) as [[s k] n]. by apply formatDigits_no_char.
Qed.

Lemma magnitudeToString_head x :
  ∃ d rest, JS.magnitudeToString x = String d rest ∧ isDigit d = true.
Proof.
  unfold JS.magnitudeToString. destruct (x <? 2 ^ 53)%Z; [apply decimal_head|].
  destruct (JS.shortestDigits x) as [[s k] n]. unfold JS.formatDigits.
  destruct (decimal_head s) as (d & rest & -> & Hd).
  destruct (n <=? 21)%Z; rewrite ?string_app_cons; eauto.
Qed.

Lemma numberToString_no_m level :
  JS.includes (JS.numberToString level) "m" = false.
Proof.
  destruct level as [|[]|z]; [done..|]. unfold JS.numberToString.
  destruct (z <? 0)%Z; rewrite ?includes_char_cons;
    by rewrite magnitudeToString_no_char.
Qed.

Lemma replace_absent s pat rep (c : ascii) pat' :
  pat = String c pat' →
  JS.includes s (String c EmptyString) = false →
  JS.replace s pat rep = s.
Proof.
  intros ->. induction s as [|a s IH]; intros Hinc.
  - reflexivity.
  - rewrite includes_char_cons in Hinc. apply orb_false_iff in Hinc as [Hca Hs].
    cbn [JS.replace]. unfold JS.startsWith. cbn [String.prefix].
    destruct (ascii_dec c a) as [->|_].
    + by rewrite Ascii.eqb_refl in Hca.
    + by rewrite IH.
Qed.

Lemma liquidPath_no_namespace isWater level :
  JS.replace (liquidPath isWater level) "minecraft:" "" = liquidPath isWater level.
Proof.
  apply (replace_absent _ _ _ "m" "inecraft:"); [done|].
  unfold liquidPath. rewrite !includes_char_app.
  assert (JS.includes (if isWater then "block/water" else "block/lava") "m" = false)
    as -> by (by destruct isWater).
  destruct (JS.isZero level); [done|].
  by rewrite includes_char_app, numberToString_no_m.
Qed.

Lemma liquidPath_startsWith isWater level :
  JS.startsWith (liquidPath isWater level) "block/water" = isWater ∧
  JS.startsWith (liquidPath isWater level) "block/lava" = negb isWater.
Proof. unfold liquidPath, JS.startsWith. by destruct isWater, (JS.isZero _). Qed.

Lemma isLiquidName_cases n :
  isLiquidName n = true →
  n = "water" ∨ n = "flowing_water" ∨ n = "lava" ∨ n = "flowing_lava".
Proof.
  unfold isLiquidName. rewrite !orb_true_iff, !bool_decide_eq_true. tauto.
Qed.

Lemma liquidActualHeight_heightFor isWater n :
  liquidActualHeight isWater n = heightFor isWater n.
Proof.
  unfold liquidActualHeight, heightFor, sourceHeight.
  by destruct (JS.isZero n), isWater.
Qed.

Lemma liquidLevel_positive (isWater : bool) (d : ascii) rest :
  isDigit d = true →
  liquidLevel ((if isWater then "block/water" else "block/lava") +:+
               "_level_" +:+ String d rest) = JS.parseInt (String d rest).
Proof.
  intros Hd. unfold liquidLevel.
  assert (matchLevel ((if isWater then "block/water" else "block/lava") +:+
                      "_level_" +:+ String d rest) =
          Some (takeDigits (String d rest))) as ->.
  { destruct isWater; rewrite !string_app_cons;
      rewrite !matchLevel_skip by discriminate;
      by apply matchLevel_here. }
  by apply parseInt_takeDigits.
Qed.

Lemma string_app_nil (s : string) : "" +:+ s = s.
Proof. reflexivity. Qed.

Lemma matchLevel_level_nondigit (c : ascii) s :
  isDigit c = false →
  matchLevel ("_level_" +:+ String c s) = matchLevel ("level_" +:+ String c s).
Proof.
  intros Hc. rewrite matchLevel_unfold. unfold JS.startsWith.
  rewrite prefix_app. change 7%nat with (String.length "_level_").
  rewrite substring_from_app. cbn [takeDigits]. by rewrite Hc.
Qed.

Lemma matchLevel_underscore (c : ascii) s :
  c ≠ "l"%char → matchLevel (String "_" (String c s)) = matchLevel (String c s).
Proof.
  intros Hc. rewrite matchLevel_unfold. unfold JS.startsWith.
  cbn [String.prefix].
  destruct (ascii_dec "_" "_") as [_|Hne]; [|done].
  destruct (ascii_dec "l" c) as [Heq|_]; [congruence | reflexivity].
Qed.

Lemma liquidLevel_negative (isWater : bool) text :
  JS.includes text "_" = false →
  liquidLevel ((if isWater then "block/water" else "block/lava") +:+
               "_level_" +:+ String "-"%char text) = JS.Integer 0.
Proof.
  intros Htext. unfold liquidLevel.
  assert (matchLevel ((if isWater then "block/water" else "block/lava") +:+
                      "_level_" +:+ String "-"%char text) = None) as ->; [|done].
  assert (Hlevel : matchLevel ("_level_" +:+ String "-"%char text) = None).
  { rewrite matchLevel_level_nondigit by done.
    rewrite !string_app_cons, string_app_nil.
    rewrite !matchLevel_skip by discriminate.
    rewrite matchLevel_underscore by discriminate.
    rewrite matchLevel_skip by discriminate.
    by apply matchLevel_no_underscore. }
  destruct isWater; rewrite !string_app_cons;
    rewrite !matchLevel_skip by discriminate; exact Hlevel.
Qed.

Lemma synthesized_height isWater level :
  liquidActualHeight isWater (liquidLevel (liquidPath isWater level)) =
  liquidHeightAt isWater level.
Proof.
  rewrite liquidActualHeight_heightFor.
  destruct level as [|negative|z].
  - by destruct isWater; vm_compute.
  - by destruct isWater, negative; vm_compute.
  - destruct z as [|p|p].
    + by destruct isWater; vm_compute.
    + unfold liquidPath, liquidHeightAt. cbn [JS.isZero Z.ltb Z.compare].
      cbn [JS.numberToString Z.ltb Z.compare].
      destruct (magnitudeToString_head (Z.pos p)) as (d & rest & -> & Hd).
      by rewrite liquidLevel_positive.
    + unfold liquidPath, liquidHeightAt. cbn [JS.isZero Z.ltb Z.compare].
      cbn [JS.numberToString Z.ltb Z.compare].
      rewrite liquidLevel_negative; [by destruct isWater|].
      by apply magnitudeToString_no_char.
Qed.

Lemma liquidHeightAt_level isWater z :
  (1 ≤ z < 2 ^ 53)%Z →
  liquidHeightAt isWater (JS.Integer z) = JS.Integer (16 - 2 * z).
Proof.
  intros Hz. unfold liquidHeightAt. rewrite (proj2 (Z.ltb_lt 0 z)) by lia.
  unfold JS.numberToString. rewrite (proj2 (Z.ltb_ge z 0)) by lia.
  unfold JS.magnitudeToString. rewrite (proj2 (Z.ltb_lt z _)) by lia.
  destruct (decimal_head z) as (d & rest & Hdec & Hd).
  rewrite Hdec, parseInt_digit by done. rewrite <- Hdec, decimal_spec by lia.
  rewrite roundDouble_small by lia.
  unfold heightFor. destruct z as [|p|p]; [lia| |lia]. cbn [JS.isZero JS.sub JS.mul].
  rewrite (roundDouble_even (Z.pos p * 2)); [|lia|].
  - rewrite roundDouble_even; [f_equal; lia | lia |].
    rewrite Z.even_sub, Z.even_mul. change (Z.even 2) with true.
    by rewrite orb_true_r.
  - rewrite Z.even_mul. change (Z.even 2) with true. by rewrite orb_true_r.
Qed.

Lemma natDigits_leading fuel n acc :
  (1 ≤ n < 2 ^ Z.of_nat (S fuel))%Z →
  ∃ d rest, JS.natDigits (S fuel) n acc = String (JS.digitChar d) rest ∧ (1 ≤ d ≤ 9)%Z.
Proof.
  revert n acc. induction fuel as [|fuel IH]; intros n acc Hn;
    rewrite natDigits_S; destruct (n <? 10)%Z eqn:Hlt;
    try (apply Z.ltb_lt in Hlt; rewrite Z.mod_small by lia;
         exists n, acc; split; [done | lia]).
  - apply Z.ltb_ge in Hlt. change (Z.of_nat 1) with 1%Z in Hn. lia.
  - apply Z.ltb_ge in Hlt. apply IH. split.
    + apply Z.div_le_lower_bound; lia.
    + apply Z.div_lt_upper_bound; [lia|].
      rewrite (Nat2Z.inj_succ (S fuel)), Z.pow_succ_r in Hn by lia. lia.
Qed.

Lemma decimal_leading n :
  (1 ≤ n)%Z →
  ∃ d rest, JS.decimal n = String (JS.digitChar d) rest ∧ (1 ≤ d ≤ 9)%Z.
Proof.
  intros Hn. unfold JS.decimal. apply natDigits_leading. split; [done|].
  rewrite Nat2Z.inj_succ, Z2Nat.id by apply Z.log2_nonneg.
  apply Z.log2_spec. lia.
Qed.

Lemma parseDigits_grows a s :
  (0 ≤ a)%Z → ∃ m, JS.parseDigits (Some a) s = Some m ∧ (a ≤ m)%Z.
Proof.
  revert a. induction s as [|c s IH]; intros a Ha; [exists a; by split|].
  cbn [JS.parseDigits]. destruct (JS.digitValue c) as [d|] eqn:Hd; [|exists a; by split].
  assert (0 ≤ d)%Z.
  { unfold JS.digitValue in Hd. destruct (Ascii.is_nat c); [|done].
    injection Hd as <-. lia. }
  cbn [default from_option id].
  destruct (IH (10 * a + d)%Z ltac:(lia)) as (m & Hm & Hle).
  exists m. split; [done | lia].
Qed.

Lemma roundDouble_positive m : (1 ≤ m)%Z → JS.isZero (JS.roundDouble m) = false.
Proof.
  intros Hm. unfold JS.roundDouble.
  destruct (Z.ltb_spec (Z.abs m) (2 ^ 53)) as [Hlt|Hge]; [by destruct m|].
  cbv zeta.
  assert (Hlog : (53 ≤ Z.log2 (Z.abs m))%Z) by (apply Z.log2_le_pow2; lia).
  set (e := (Z.log2 (Z.abs m) - 52)%Z).
  assert (He : (0 < 2 ^ e)%Z) by (apply Z.pow_pos_nonneg; lia).
  assert (Hq : (1 ≤ Z.abs m / 2 ^ e)%Z).
  { apply Z.div_le_lower_bound; [done|].
    rewrite Z.mul_1_r. transitivity (2 ^ Z.log2 (Z.abs m))%Z.
    - apply Z.pow_le_mono_r; lia.
    - apply Z.log2_spec. lia. }
  rewrite Z.sgn_pos by lia.
  destruct (_ || _); destruct (2 ^ 1024 <=? _)%Z; try done.
  - destruct (1 * ((Z.abs m / 2 ^ e + 1) * 2 ^ e))%Z eqn:Hzero; [nia | done | done].
  - destruct (1 * (Z.abs m / 2 ^ e * 2 ^ e))%Z eqn:Hzero; [nia | done | done].
Qed.

Lemma parseInt_leading d rest :
  (1 ≤ d ≤ 9)%Z → JS.isZero (JS.parseInt (String (JS.digitChar d) rest)) = false.
Proof.
  intros Hd. rewrite parseInt_digit by (apply isDigit_digitChar; lia).
  cbn [JS.parseDigits]. rewrite digitValue_digitChar by lia.
  cbn [default from_option id]. rewrite Z.mul_0_r, Z.add_0_l.
  destruct (parseDigits_grows d rest ltac:(lia)) as (m & -> & Hm).
  apply roundDouble_positive. lia.
Qed.

Lemma closestDigits_positive x k n s :
  JS.closestDigits x k n = Some s → (1 ≤ k)%Z → (1 ≤ s)%Z.
Proof.
  unfold JS.closestDigits. intros Hs Hk.
  assert (Hreads : ∀ t, JS.readsAs x t k n = true → (1 ≤ t)%Z).
  { intros t. unfold JS.readsAs. rewrite !andb_true_iff.
    intros [[Hlow%Z.leb_le _] _].
    assert (0 < 10 ^ (k - 1))%Z by (apply Z.pow_pos_nonneg; lia). lia. }
  set (low := (x / 10 ^ (n - k))%Z) in *.
  destruct (JS.readsAs x low k n) eqn:Hlow,
           (JS.readsAs x (low + 1) k n) eqn:Hhigh; [| | |done];
    injection Hs as <-; repeat destruct (_ <? _)%Z; try destruct (Z.even _); auto.
Qed.

Lemma fewestDigits_positive fuel x k n :
  (1 ≤ x)%Z → (1 ≤ k)%Z → (1 ≤ (JS.fewestDigits fuel x k n).1)%Z.
Proof.
  revert k. induction fuel as [|fuel IH]; intros k Hx Hk; [done|].
  cbn [JS.fewestDigits].
  destruct (JS.closestDigits x k n) as [s|] eqn:Hs.
  - cbn [fst]. by eapply closestDigits_positive.
  - apply IH; lia.
Qed.

Lemma magnitudeToString_leading x :
  (1 ≤ x)%Z →
  ∃ d rest, JS.magnitudeToString x = String (JS.digitChar d) rest ∧ (1 ≤ d ≤ 9)%Z.
Proof.
  intros Hx. unfold JS.magnitudeToString.
  destruct (x <? 2 ^ 53)%Z; [by apply decimal_leading|].
  assert (Hs : (1 ≤ (JS.shortestDigits x).1.1)%Z).
  { unfold JS.shortestDigits. destruct (JS.isInteger _ _); [done|].
    cbn [fst]. by apply fewestDigits_positive. }
  destruct (JS.shortestDigits x) as [[s k] n]. cbn [fst] in Hs.
  unfold JS.formatDigits.
  destruct (decimal_leading s Hs) as (d & rest & -> & Hd).
  destruct (n <=? 21)%Z; rewrite ?string_app_cons; eauto.
Qed.

Lemma liquidHeightAt_positive isWater z :
  (1 ≤ z)%Z →
  liquidHeightAt isWater (JS.Integer z) =
    JS.sub (JS.Integer 16)
      (JS.mul (JS.parseInt (JS.numberToString (JS.Integer z))) (JS.Integer 2)).
Proof.
  intros Hz. unfold liquidHeightAt. rewrite (proj2 (Z.ltb_lt 0 z)) by lia.
  unfold heightFor. unfold JS.numberToString. rewrite (proj2 (Z.ltb_ge z 0)) by lia.
  destruct (magnitudeToString_leading z Hz) as (d & rest & -> & Hd).
  by rewrite parseInt_leading.
Qed.

(** C5, as stated, fails outside the levels 0 .. 2^53 - 1: a level that
    is negative or not a number leaves no digits after [_level_] in the
    path, and a level from 10^21 on is printed in exponent form, of which
    only the leading digit is read back; the height is then not
    [16 - 2*level]. *)
Lemma C5_counterexample :
  let assets := Examples.onlyModel "block/P" Examples.parentModel in
  let height (modelPath : string) :=
    (λ element, (to element).1.2) <$> (elements (getModel assets modelPath) ≫= head) in
  (levelOf (mkBlock "minecraft" "flowing_water" [("level", "-3")]) = JS.Integer (-3) ∧
   resolveBlockModel assets (mkBlock "minecraft" "flowing_water" [("level", "-3")]) =
     Returns [{| model := "block/water_level_-3"; x := Some 0%Z; y := Some 0%Z;
                 uvlock := Some false |}] ∧
   height "block/water_level_-3" = Some (JS.Integer 14) ∧
   (14 ≠ 16 - 2 * -3)%Z) ∧
  (levelOf (mkBlock "minecraft" "water" [("level", "1000000000000000000000")]) =
     JS.Integer (10 ^ 21) ∧
   resolveBlockModel assets
     (mkBlock "minecraft" "water" [("level", "1000000000000000000000")]) =
     Returns [{| model := "block/water_level_1e+21"; x := Some 0%Z; y := Some 0%Z;
                 uvlock := Some false |}] ∧
   height "block/water_level_1e+21" = Some (JS.Integer 14) ∧
   (14 ≠ 16 - 2 * 10 ^ 21)%Z) ∧
  (levelOf (mkBlock "minecraft" "lava" [("level", "high")]) = JS.NaN ∧
   resolveBlockModel assets (mkBlock "minecraft" "lava" [("level", "high")]) =
     Returns [{| model := "block/lava_level_NaN"; x := Some 0%Z; y := Some 0%Z;
                 uvlock := Some false |}] ∧
   height "block/lava_level_NaN" = Some (JS.Integer 16)).
Proof.
  cbv zeta. split; [|split].
  - split; [by vm_compute|]. split; [by vm_compute|]. split; [by vm_compute|]. lia.
  - split; [by vm_compute|]. split; [by vm_compute|]. split; [by vm_compute|]. lia.
  - split; [by vm_compute|]. split; by vm_compute.
Qed.

(** C5 (amended).  A block named [water], [flowing_water], [lava] or
    [flowing_lava] resolves, whatever the pack holds, to exactly one
    [ModelData] with [x = 0], [y = 0], [uvlock = false], whose path is the
    liquid's base path followed, for a level other than 0, by [_level_] and
    the level as JavaScript prints it.  The model synthesized for that path
    is the single cuboid [[0,0,0]]-[[16,height,16]] with the still texture
    on top, bottom and particle, the flow texture on the four sides, and on
    each face a cullface equal to its direction; it is what [getModel]
    returns when the pack has no model file for the liquid.  The height is
    14 for water and 16 for lava at level 0 and at every level that is
    negative, not a number or infinite; [16 - 2*level] for a level from 1
    to 2^53 - 1; and for a larger level [16 - 2*n] for the number [n] that
    the leading digits of the printed level are read as: 10^21, printed
    [1e+21], gives 14. *)
Theorem C5_liquid_models :
  (∀ assets block,
     name block ∈ liquidNames →
     resolveBlockModel assets block =
       Returns [{| model := liquidPath (JS.includes (name block) "water")
                                       (levelOf block);
                   x := Some 0%Z; y := Some 0%Z; uvlock := Some false |}]) ∧
  (∀ isWater level,
     let liquid := synthesizeLiquid (liquidPath isWater level) in
     ∃ fs,
       elements liquid =
         Some [{| from := (JS.Integer 0, JS.Integer 0, JS.Integer 0);
                  to := (JS.Integer 16, liquidHeightAt isWater level, JS.Integer 16);
                  element_rotation := None; faces := Some fs |}] ∧
       JS.keys fs = ["down"; "up"; "north"; "south"; "west"; "east"] ∧
       (∀ direction face,
          (direction, face) ∈ fs →
          cullface face = Some direction ∧
          resolveTexture (texture face) liquid =
            Returns (if bool_decide (direction = "up" ∨ direction = "down")
                     then stillTexture isWater else flowTexture isWater)) ∧
       textureOf "top" liquid = Some (stillTexture isWater) ∧
       textureOf "bottom" liquid = Some (stillTexture isWater) ∧
       textureOf "particle" liquid = Some (stillTexture isWater)) ∧
  (∀ isWater,
     liquidHeightAt isWater (JS.Integer 0) = JS.Integer (if isWater then 14 else 16) ∧
     (∀ z, (z < 0)%Z →
        liquidHeightAt isWater (JS.Integer z) = JS.Integer (if isWater then 14 else 16)) ∧
     liquidHeightAt isWater JS.NaN = JS.Integer (if isWater then 14 else 16) ∧
     (∀ negative,
        liquidHeightAt isWater (JS.Infinity negative) =
          JS.Integer (if isWater then 14 else 16)) ∧
     (∀ z, (1 ≤ z < 2 ^ 53)%Z →
        liquidHeightAt isWater (JS.Integer z) = JS.Integer (16 - 2 * z)) ∧
     (∀ z, (2 ^ 53 ≤ z)%Z →
        liquidHeightAt isWater (JS.Integer z) =
          JS.sub (JS.Integer 16)
            (JS.mul (JS.parseInt (JS.numberToString (JS.Integer z))) (JS.Integer 2))) ∧
     liquidHeightAt isWater (JS.Integer (10 ^ 21)) = JS.Integer 14) ∧
  (∀ assets isWater level,
     modelJson assets ("models/" +:+ liquidPath isWater level +:+ ".json") = None →
     modelJson assets ("models/" +:+ liquidPath isWater (JS.Integer 0) +:+ ".json") = None →
     getModel assets (liquidPath isWater level) =
       synthesizeLiquid (liquidPath isWater level)).
Proof.
  split; [|split; [|split]].
  - intros assets block Hliquid. unfold resolveBlockModel.
    rewrite isLiquidName_liquidNames, bool_decide_eq_true_2 by done.
    unfold createLiquidModelData, liquidPath.
    change (blockLevel block) with (levelOf block).
    by destruct (JS.includes (name block) "water"), (JS.isZero (levelOf block)).
  - intros isWater level liquid. subst liquid.
    unfold synthesizeLiquid.
    rewrite (proj1 (liquidPath_startsWith isWater level)), synthesized_height.
    eexists. split; [reflexivity|]. split; [reflexivity|].
    split; [|by destruct isWater].
    intros direction face Hin.
    repeat (apply elem_of_cons in Hin as [Hin|Hin];
            [injection Hin as -> ->; split; [reflexivity|];
             by destruct isWater; vm_compute|]).
    by apply elem_of_nil in Hin.
  - intros isWater. split; [done|]. split; [|split; [done|split; [done|split; [|split]]]].
    + intros z Hz. unfold liquidHeightAt. by rewrite (proj2 (Z.ltb_ge 0 z)) by lia.
    + intros z Hz. by apply liquidHeightAt_level.
    + intros z Hz. apply liquidHeightAt_positive. lia.
    + by destruct isWater; vm_compute.
  - intros assets isWater level Hfile Hbase. unfold getModel.
    rewrite liquidPath_no_namespace.
    destruct (liquidPath_startsWith isWater level) as [-> ->].
    rewrite orb_negb_r, Hfile.
    assert ("models/" +:+ (if isWater then "block/water" else "block/lava") +:+ ".json"
            = "models/" +:+ liquidPath isWater (JS.Integer 0) +:+ ".json") as Hpath.
    { by destruct isWater. }
    rewrite Hpath, Hbase. by destruct (matchLevel _).
Qed.

Lemma C5_liquid_models_witness :
  name (mkBlock "minecraft" "flowing_water" [("level", "3")]) ∈ liquidNames ∧
  resolveBlockModel (Examples.onlyModel "block/P" Examples.parentModel)
    (mkBlock "minecraft" "flowing_water" [("level", "3")]) =
  Returns [{| model := "block/water_level_3";
              x := Some 0%Z; y := Some 0%Z; uvlock := Some false |}].
Proof.
  assert (Hliquid : name (mkBlock "minecraft" "flowing_water" [("level", "3")])
                    ∈ liquidNames) by (right; left).
  split; [exact Hliquid|].
  exact (proj1 C5_liquid_models
           (Examples.onlyModel "block/P" Examples.parentModel)
           (mkBlock "minecraft" "flowing_water" [("level", "3")]) Hliquid).
Defined.

(** ** Texture references *)

Import TextureSpec.

Lemma iter_readTable_shift table n outcome :
  Nat.iter n (λ r, r ≫= readTable table) (outcome ≫= readTable table) =
  Nat.iter n (λ r, r ≫= readTable table) outcome ≫= readTable table.
Proof. induction n as [|n IH]; [done|]. simpl. by rewrite IH. Qed.

Lemma iter_readTable_throws table n message :
  Nat.iter n (λ r, r ≫= readTable table) (Throws message) = Throws message.
Proof. induction n as [|n IH]; [done|]. simpl. by rewrite IH. Qed.

Lemma iter_readTable_literal table n ref :
  JS.startsWith ref "#" = false →
  Nat.iter n (λ r, r ≫= readTable table) (Returns ref) = Returns ref.
Proof.
  intros H. induction n as [|n IH]; [done|]. simpl. rewrite IH. simpl.
  unfold readTable. by rewrite H.
Qed.

(** What [resolveTexture] makes of the state the loop is left in. *)
Lemma resolveLoop_spec model table fuel ref depth :
  textures model = Some table →
  (depth + fuel = MAX_DEPTH)%nat →
  (exit ← resolveLoop model fuel ref depth;
   match exit with
   | None => Returns missing_texture
   | Some (ref', depth') =>
       if bool_decide (MAX_DEPTH ≤ depth')%nat || JS.startsWith ref' "#"
       then Returns missing_texture
       else Returns (JS.replace ref' "minecraft:" "")
   end) =
  match fuel with
  | O => Returns missing_texture
  | S fuel' =>
      ref' ← Nat.iter fuel' (λ r, r ≫= readTable table) (Returns ref);
      if JS.startsWith ref' "#"
      then _ ← readTable table ref'; Returns missing_texture
      else Returns (JS.replace ref' "minecraft:" "")
  end.
Proof.
  intros Htable. revert ref depth.
  induction fuel as [|fuel IH]; intros ref depth Hdepth.
  { cbn. rewrite bool_decide_eq_true_2; [done | unfold MAX_DEPTH in *; lia]. }
  cbn [resolveLoop]. rewrite Htable.
  destruct (JS.startsWith ref "#") eqn:Href.
  - rewrite bool_decide_eq_true_2 by (unfold MAX_DEPTH in *; lia). cbn [andb].
    assert (Hlookup : readTable table ref =
      match JS.member (table !! JS.substring_from 1 ref) (JS.substring_from 1 ref) with
      | JS.Own value => Returns (if decide (value = "") then ref else value)
      | JS.Undefined => Returns ref
      | JS.Inherited => Throws "TypeError"
      end).
    { unfold readTable. by rewrite Href. }
    destruct fuel as [|fuel'].
    + change (Nat.iter 0 (λ r, r ≫= readTable table) (Returns ref)) with (Returns ref).
      cbn [mbind result_bind]. rewrite Href, Hlookup.
      destruct (JS.member _ _) as [value| |]; cbn;
        (rewrite ?bool_decide_eq_true_2; [done | unfold MAX_DEPTH in *; lia]) || done.
    + rewrite Nat.iter_succ_r.
      change (Returns ref ≫= readTable table) with (readTable table ref).
      rewrite Hlookup.
      destruct (JS.member _ _) as [value| |].
      * by rewrite IH by lia.
      * by rewrite iter_readTable_throws.
      * by rewrite IH by lia.
  - cbn [andb mbind result_bind].
    rewrite bool_decide_eq_false_2 by (unfold MAX_DEPTH in *; lia).
    rewrite iter_readTable_literal by done. cbn. by rewrite Href.
Qed.

(** X2.  [resolveTexture], case by case: a [#key] reference resolves
    exactly when four lookups reach a literal; a reference to a name the
    table does not have but every object inherits, met among the first
    five, makes the call throw. *)
Lemma resolveTexture_characterised :
  (∀ textureRef model,
     resolveTexture textureRef model =
     if bool_decide (textureRef = "" ∨ textureRef = "#missing")
     then Returns missing_texture
     else if negb (JS.startsWith textureRef "#")
     then Returns (JS.replace textureRef "minecraft:" "")
     else
       match textures model with
       | None => Returns missing_texture
       | Some table =>
           ref ← Nat.iter 4 (λ r, r ≫= readTable table) (Returns textureRef);
           if JS.startsWith ref "#"
           then _ ← readTable table ref; Returns missing_texture
           else Returns (JS.replace ref "minecraft:" "")
       end) ∧
  resolveTexture "#constructor"
    {| parent := None; textures := Some ∅; elements := None; display := None |}
    = Throws "TypeError" ∧
  resolveTexture "#toString" fiveHops = Throws "TypeError" ∧
  resolveTexture "#side" fiveHops = Returns "block/stone".
Proof.
  split; [|split; [|split]; vm_compute; reflexivity].
  intros textureRef model. unfold resolveTexture.
  assert (bool_decide (textureRef = "") || bool_decide (textureRef = "#missing") =
          bool_decide (textureRef = "" ∨ textureRef = "#missing")) as ->.
  { destruct (decide (textureRef = "")) as [H1|H1].
    { rewrite (bool_decide_eq_true_2 (textureRef = "")) by done.
      by rewrite (bool_decide_eq_true_2 (_ ∨ _)) by auto. }
    destruct (decide (textureRef = "#missing")) as [H2|H2].
    - rewrite (bool_decide_eq_true_2 (textureRef = "#missing")) by done.
      rewrite (bool_decide_eq_true_2 (_ ∨ _)) by auto. apply orb_true_r.
    - rewrite !bool_decide_eq_false_2 by tauto. done. }
  case_bool_decide as Hspecial; [done|].
  destruct (JS.startsWith textureRef "#") eqn:Href; [|done]. cbn [negb].
  destruct (textures model) as [table|] eqn:Htable.
  - exact (resolveLoop_spec model table MAX_DEPTH textureRef 0 Htable eq_refl).
  - simpl. by rewrite Href, Htable.
Qed.

(** C6, at the inputs where the code leaves the claim: [replace] removes
    the first [minecraft:] wherever it stands, so a literal that only
    contains it is not returned as it is; and a chain whose literal is
    reached by the fifth lookup, within the bound of 5, still gives the
    sentinel.  The claim's own examples hold. *)
Theorem C6_resolveTexture_at_failing_inputs :
  (∀ model, resolveTexture "modminecraft:block/stone" model = Returns "modblock/stone") ∧
  stripNamespace "modminecraft:block/stone" = "modminecraft:block/stone" ∧
  (∀ model, resolveTexture "minecraft:block/stone" model = Returns "block/stone") ∧
  resolveTexture "#a" fiveHops = Returns missing_texture ∧
  (∀ table, textures fiveHops = Some table →
     Nat.iter 5 (lookupStep table) "#a" = "block/stone") ∧
  resolveTexture "#b" fiveHops = Returns "block/stone" ∧
  resolveTexture "#end" fiveHops = Returns "block/stone" ∧
  resolveTexture "#loop" fiveHops = Returns missing_texture.
Proof.
  split; [intros model; vm_compute; reflexivity|].
  split; [vm_compute; reflexivity|].
  split; [intros model; vm_compute; reflexivity|].
  split; [vm_compute; reflexivity|].
  split; [intros table [= <-]; vm_compute; reflexivity|].
  split; [vm_compute; reflexivity|].
  split; vm_compute; reflexivity.
Qed.

(** ** UV rotation *)

Import BlockMeshBuilder UVSpec.

Lemma normalise_mod (t : Z) :
  Z.rem (Z.rem t 360 + 360) 360 = (t mod 360)%Z.
Proof.
  pose proof (Z.rem_bound_abs t 360 ltac:(lia)) as Hb.
  pose proof (Z.quot_rem' t 360) as Hq.
  rewrite Z.rem_mod_nonneg by lia.
  replace (Z.rem t 360 + 360)%Z with (t + (1 - Z.quot t 360) * 360)%Z by lia.
  apply Z_mod_plus_full.
Qed.

Lemma roundedRotation_nearest (t : Z) : nearest90 (roundedRotation t) t.
Proof.
  unfold nearest90, roundedRotation. split; [apply Z_mod_mult|].
  pose proof (Z.div_mod (2 * t + 90) 180 ltac:(lia)) as Hdm.
  pose proof (Z.mod_pos_bound (2 * t + 90) 180 ltac:(lia)) as Hb.
  lia.
Qed.

Lemma totalRotation_spec direction faceData transform :
  totalRotation direction faceData transform =
  ((default 0 (rotation faceData) +
    (if bool_decide (transform_uvlock transform = Some true) then 0
     else directionSign direction * default 0 (transform_y transform))) mod 360)%Z.
Proof.
  unfold totalRotation. rewrite normalise_mod. f_equal.
  unfold directionSign.
  destruct (decide (transform_uvlock transform = Some true)) as [Hlock|Hlock].
  - rewrite bool_decide_eq_false_2 by (by intros ?).
    rewrite bool_decide_eq_true_2 by done. lia.
  - rewrite bool_decide_eq_true_2 by done.
    rewrite (bool_decide_eq_false_2 (transform_uvlock transform = Some true)) by done.
    repeat case_bool_decide; subst; try lia;
      repeat match goal with
      | H : ¬ (_ ∨ _) |- _ => apply Decidable.not_or in H as [? ?]
      | H : _ ∨ _ |- _ => destruct H as [H|H]; try discriminate H; subst
      end; try lia; try congruence.
Qed.

(** C4.  The code drops the blockstate's x rotation: [mapUVCoordinates]
    reads [transform.x] into [xRot] and never uses it, so the mapped
    corners are the same whatever x is, although the total is announced
    as "including face rotation and block transform rotation".  With
    x = 90, y = 0 and uvlock false no face of any direction has its UV
    corners rotated, while y = 90, which the code does add, rotates
    them. *)
Theorem C4_x_rotation_is_dropped :
  (∀ direction faceData x x' y lock,
     mapUVCoordinates direction faceData
       {| transform_x := x; transform_y := y; transform_uvlock := lock |} =
     mapUVCoordinates direction faceData
       {| transform_x := x'; transform_y := y; transform_uvlock := lock |}) ∧
  mapUVCoordinates "up" plainFace xOnly = faceUVCoords plainFace ∧
  mapUVCoordinates "down" plainFace xOnly = faceUVCoords plainFace ∧
  mapUVCoordinates "north" plainFace xOnly = faceUVCoords plainFace ∧
  mapUVCoordinates "south" plainFace xOnly = faceUVCoords plainFace ∧
  mapUVCoordinates "east" plainFace xOnly = faceUVCoords plainFace ∧
  mapUVCoordinates "west" plainFace xOnly = faceUVCoords plainFace ∧
  mapUVCoordinates "up" plainFace yOnly = applyUVRotation (faceUVCoords plainFace) 90 ∧
  applyUVRotation (faceUVCoords plainFace) 90 ≠ faceUVCoords plainFace.
Proof.
  split; [done|].
  do 7 (split; [vm_compute; reflexivity|]).
  vm_compute. discriminate.
Qed.

(** ** The atlas packer *)

Import AtlasBuilder AtlasSpec.

Lemma overlap_sym r1 r2 : overlap r1 r2 → overlap r2 r1.
Proof. intros (px & py & H1 & H2). by exists px, py. Qed.

Lemma overlap_within r1 r1' r2 : within r1 r1' → overlap r1 r2 → overlap r1' r2.
Proof. intros Hin (px & py & H1 & H2). exists px, py. split; [by apply Hin | done]. Qed.

Lemma pairwiseApart_app l1 l2 :
  pairwiseApart (l1 ++ l2)%list ↔
  pairwiseApart l1 ∧ pairwiseApart l2 ∧
  ∀ a b, a ∈ l1 → b ∈ l2 → ¬ overlap a b.
Proof.
  induction l1 as [|r l1 IH]; simpl.
  - split; [intros H; repeat split; [done|] | by intros (_ & H & _)].
    intros a b Ha. by apply elem_of_nil in Ha.
  - rewrite IH. split.
    + intros (Hr & H1 & H2 & H12). repeat split; [|done|done|].
      * intros r' Hr'. apply Hr, elem_of_app. by left.
      * intros a b [->|Ha]%elem_of_cons Hb; [|by apply H12].
        apply Hr, elem_of_app. by right.
    + intros ((Hr & H1) & H2 & H12). repeat split; [|done|done|].
      * intros r' [Hr'|Hr']%elem_of_app; [by apply Hr|].
        apply H12; [left | done].
      * intros a b Ha Hb. apply H12; [by right | done].
Qed.

Lemma pairwiseApart_lookup rects (i j : nat) a b :
  pairwiseApart rects → i ≠ j →
  rects !! i = Some a → rects !! j = Some b → ¬ overlap a b.
Proof.
  revert i j. induction rects as [|r rects IH]; intros i j Hap Hij Hi Hj.
  - by destruct i.
  - destruct Hap as [Hr Hrest].
    destruct i as [|i], j as [|j]; simpl in *; simplify_eq.
    + apply Hr. by eapply list_elem_of_lookup_2.
    + intros Ho%overlap_sym. revert Ho. apply Hr. by eapply list_elem_of_lookup_2.
    + eapply (IH i j); eauto.
Qed.

(** The node [findNode] returns is an unused node that is large enough;
    [splitNode] replaces it by its two children and reports its origin. *)
Lemma findNode_splitNode root w h node :
  findNode root w h = Some node →
  ∃ before x y width height after,
    unusedNodes root = (before ++ (x, y, width, height) :: after)%list ∧
    (w ≤ width)%N ∧ (h ≤ height)%N ∧
    (splitNode root node w h).2 = (x, y) ∧
    unusedNodes (splitNode root node w h).1 =
      (before ++ [(x + w, y, width - w, h); (x, y + h, width, height - h)]%N ++ after)%list.
Proof.
  revert node. induction root as [x y width height|x y width height r IHr d IHd];
    intros node Hfind; simpl in Hfind.
  - destruct ((w <=? width)%N && (h <=? height)%N) eqn:Hfit; [|done].
    apply andb_true_iff in Hfit as [Hw%N.leb_le Hh%N.leb_le]. simplify_eq.
    exists [], x, y, width, height, []. by repeat split.
  - destruct (findNode r w h) as [node'|] eqn:Hr.
    + simplify_eq. destruct (IHr node' eq_refl)
        as (before & x' & y' & width' & height' & after & Hu & Hw & Hh & Hfit & Hu').
      exists before, x', y', width', height', (after ++ unusedNodes d)%list.
      simpl. destruct (splitNode r node' w h) as [r' fit]. simpl in *.
      rewrite Hu, Hu'. split; [by rewrite <- app_assoc|].
      split; [done|]. split; [done|]. split; [done|].
      by rewrite <- !app_assoc.
    + destruct (findNode d w h) as [node'|] eqn:Hd; [|done]. simpl in Hfind.
      simplify_eq. destruct (IHd node' eq_refl)
        as (before & x' & y' & width' & height' & after & Hu & Hw & Hh & Hfit & Hu').
      exists (unusedNodes r ++ before)%list, x', y', width', height', after.
      simpl. destruct (splitNode d node' w h) as [d' fit]. simpl in *.
      rewrite Hu, Hu'. split; [by rewrite <- app_assoc|].
      split; [done|]. split; [done|]. split; [done|].
      by rewrite <- !app_assoc.
Qed.

Lemma right_within (x y width height w h : N) :
  (w ≤ width)%N → (h ≤ height)%N →
  within (x + w, y, width - w, h)%N (x, y, width, height).
Proof. intros Hw Hh px py. unfold covers. lia. Qed.

Lemma down_within (x y width height h : N) :
  (h ≤ height)%N →
  within (x, y + h, width, height - h)%N (x, y, width, height).
Proof. intros Hh px py. unfold covers. lia. Qed.

Lemma placed_within (x y width height w h tw th : N) :
  (w ≤ width)%N → (h ≤ height)%N → (tw ≤ w)%N → (th ≤ h)%N →
  within (x, y, tw, th) (x, y, width, height).
Proof. intros Hw Hh Htw Hth px py. unfold covers. lia. Qed.

Lemma right_apart_down (x y width height w h : N) :
  ¬ overlap (x + w, y, width - w, h)%N (x, y + h, width, height - h)%N.
Proof. intros (px & py & H1 & H2). unfold covers in *. lia. Qed.

Lemma right_apart_placed (x y width w h tw th : N) :
  (tw ≤ w)%N →
  ¬ overlap (x + w, y, width - w, h)%N (x, y, tw, th).
Proof. intros Htw (px & py & H1 & H2). unfold covers in *. lia. Qed.

Lemma down_apart_placed (x y width height h tw th : N) :
  (th ≤ h)%N →
  ¬ overlap (x, y + h, width, height - h)%N (x, y, tw, th).
Proof. intros Hth (px & py & H1 & H2). unfold covers in *. lia. Qed.

Lemma packLoop_apart padding textures root (old : list Rect) :
  pairwiseApart (unusedNodes root) →
  (∀ f o, f ∈ unusedNodes root → o ∈ old → ¬ overlap f o) →
  pairwiseApart (pixelRect <$> packLoop padding root textures) ∧
  ∀ n o, n ∈ pixelRect <$> packLoop padding root textures → o ∈ old → ¬ overlap n o.
Proof.
  revert root old. induction textures as [|texture rest IH]; intros root old Hfree Hold.
  { simpl. split; [done|]. intros n o Hn. by apply elem_of_nil in Hn. }
  cbn [packLoop]. cbv zeta.
  set (w := (tex_width texture + padding)%N). set (h := (tex_height texture + padding)%N).
  destruct (findNode root w h) as [node|] eqn:Hfind; [|by apply IH].
  destruct (findNode_splitNode root w h node Hfind)
    as (before & x & y & width & height & after & Hu & Hw & Hh & Hfit & Hu').
  destruct (splitNode root node w h) as [root' [fit_x fit_y]]. simpl in Hfit, Hu'.
  simplify_eq. cbn [fmap list_fmap]. unfold pixelRect at 1 3. cbn [packed_x packed_y packed_info].
  set (placed := (x, y, tex_width texture, tex_height texture)).
  set (L := (x, y, width, height)) in *.
  set (R := (x + w, y, width - w, h)%N) in *.
  set (D := (x, y + h, width, height - h)%N) in *.
  assert (Htw : (tex_width texture ≤ w)%N) by (subst w; lia).
  assert (Hth : (tex_height texture ≤ h)%N) by (subst h; lia).
  assert (HRL : within R L) by (by apply right_within).
  assert (HDL : within D L) by (by apply down_within).
  assert (HPL : within placed L) by (by apply (placed_within x y width height w h)).
  rewrite Hu in Hfree, Hold.
  apply pairwiseApart_app in Hfree as (Hbefore & [HLafter Hafter] & Hcross).
  destruct (IH root' (placed :: old)) as [IHapart IHold].
  - rewrite Hu'. apply pairwiseApart_app. split; [done|]. split.
    + simpl. split.
      * intros r' [->|Hr']%elem_of_cons; [by apply right_apart_down|].
        intros Ho. apply (HLafter r' Hr'). by apply (overlap_within R L).
      * split; [|done]. intros r' Hr' Ho. apply (HLafter r' Hr').
        by apply (overlap_within D L).
    + intros a b Ha [->|[->|Hb]%elem_of_cons]%elem_of_cons.
      * intros Ho%overlap_sym. apply (Hcross a L Ha); [left|].
        apply overlap_sym. by apply (overlap_within R L).
      * intros Ho%overlap_sym. apply (Hcross a L Ha); [left|].
        apply overlap_sym. by apply (overlap_within D L).
      * apply Hcross; [done | by right].
  - rewrite Hu'. intros f o Hf [->|Ho]%elem_of_cons.
    + apply elem_of_app in Hf as [Hf|[->|[->|Hf]%elem_of_cons]%elem_of_cons].
      * intros Hov%overlap_sym. apply (Hcross f L Hf); [left|].
        apply overlap_sym. by apply (overlap_within placed L).
      * by apply right_apart_placed.
      * by apply down_apart_placed.
      * intros Hov%overlap_sym. apply (HLafter f Hf).
        by apply (overlap_within placed L).
    + apply elem_of_app in Hf as [Hf|[->|[->|Hf]%elem_of_cons]%elem_of_cons].
      * apply Hold; [|done]. apply elem_of_app. by left.
      * intros Hov. apply (Hold L o); [|done|by apply (overlap_within R L)].
        apply elem_of_app. right. left.
      * intros Hov. apply (Hold L o); [|done|by apply (overlap_within D L)].
        apply elem_of_app. right. left.
      * apply Hold; [|done]. apply elem_of_app. right. by right.
  - split.
    + simpl. split; [|done]. intros r' Hr' Ho%overlap_sym.
      revert Ho. apply IHold; [done | left].
    + intros n o [->|Hn]%elem_of_cons Ho.
      * intros Hov. apply (Hold L o); [|done|by apply (overlap_within placed L)].
        apply elem_of_app. right. left.
      * apply IHold; [done | by right].
Qed.

Lemma packLoop_sublist padding textures root :
  (packed_info <$> packLoop padding root textures) `sublist_of` textures.
Proof.
  revert root. induction textures as [|texture rest IH]; intros root; [done|].
  cbn [packLoop]. cbv zeta.
  destruct (findNode root _ _) as [node|]; [|by apply sublist_cons].
  destruct (splitNode root node _ _) as [root' [fit_x fit_y]].
  cbn [fmap list_fmap packed_info]. by apply sublist_skip.
Qed.

Lemma createAtlasCanvas_snoc atlasSize packed texture :
  createAtlasCanvas atlasSize (packed ++ [texture]) =
  {| canvas := canvas (createAtlasCanvas atlasSize packed) ++
       [(tex_image (packed_info texture), packed_x texture, packed_y texture)];
     canvas_uvMap :=
       <[tex_path (packed_info texture) := uvRectOf atlasSize texture]>
         (canvas_uvMap (createAtlasCanvas atlasSize packed)) |}.
Proof. unfold createAtlasCanvas. by rewrite foldl_snoc. Qed.

Lemma createAtlasCanvas_canvas atlasSize packed :
  canvas (createAtlasCanvas atlasSize packed) =
  (λ t, (tex_image (packed_info t), packed_x t, packed_y t)) <$> packed.
Proof.
  induction packed as [|texture packed IH] using rev_ind; [done|].
  rewrite createAtlasCanvas_snoc, fmap_app. simpl. by rewrite IH.
Qed.

Lemma createAtlasCanvas_uvMap atlasSize packed p :
  canvas_uvMap (createAtlasCanvas atlasSize packed) !! p =
  uvRectOf atlasSize <$>
    last (filter (λ t, tex_path (packed_info t) = p) packed).
Proof.
  induction packed as [|texture packed IH] using rev_ind; [done|].
  rewrite createAtlasCanvas_snoc, filter_app. cbn [canvas_uvMap].
  rewrite filter_cons, filter_nil.
  destruct (decide (tex_path (packed_info texture) = p)) as [Heq|Hne].
  - rewrite Heq, lookup_insert_eq, last_snoc. done.
  - rewrite lookup_insert_ne by done. by rewrite app_nil_r.
Qed.

Lemma filter_absent_key {A} (f : A → string) (l : list A) (k : string) :
  k ∉ f <$> l → filter (λ b, f b = k) l = [].
Proof.
  induction l as [|b l IH]; intros Hk; [done|].
  rewrite fmap_cons in Hk. apply not_elem_of_cons in Hk as [Hb Hk].
  rewrite filter_cons_False by done. by apply IH.
Qed.

Lemma filter_unique_key {A} (f : A → string) (l : list A) (a : A) :
  NoDup (f <$> l) → a ∈ l → filter (λ b, f b = f a) l = [a].
Proof.
  induction l as [|b l IH]; intros Hnd Hin; [by apply elem_of_nil in Hin|].
  rewrite fmap_cons in Hnd. apply NoDup_cons in Hnd as [Hb Hnd].
  apply elem_of_cons in Hin as [->|Hin].
  - rewrite filter_cons_True by done. f_equal. by apply filter_absent_key.
  - rewrite filter_cons_False; [by apply IH|].
    intros Heq. apply Hb. rewrite Heq. by apply list_elem_of_fmap_2.
Qed.

Lemma insertSorted_Permutation compare a sorted :
  insertSorted compare a sorted ≡ₚ a :: sorted.
Proof.
  induction sorted as [|b rest IH]; [done|]. simpl.
  destruct (compare a b <=? 0)%Z; [done|]. rewrite IH. apply perm_swap.
Qed.

Lemma sortBy_Permutation compare textures : sortBy compare textures ≡ₚ textures.
Proof.
  induction textures as [|a rest IH]; [done|]. unfold sortBy in *. simpl.
  by rewrite insertSorted_Permutation, IH.
Qed.

Lemma bestResult_elem results best :
  bestResult results = Some best → best ∈ results.
Proof.
  destruct results as [|first rest]; [done|]. simpl. intros [= <-].
  revert first. induction rest as [|current rest IH]; intros first; [left|].
  simpl. destruct (Qlt_le_dec _ _).
  - right. apply IH.
  - specialize (IH first). apply elem_of_cons in IH as [->|IH]; [left|].
    right. by right.
Qed.

(** C7.  For the textures the packer places: each comes from the input
    with its image and dimensions unchanged, is drawn at its offset, and
    the UV rectangle recorded for its path is
    [(x/atlasSize, y/atlasSize, w/atlasSize, h/atlasSize)] with [w], [h]
    the image's dimensions (for a path given twice, the rectangle of the
    placement drawn last); and no two placed textures cover a common
    pixel.  The atlas that is built is such a packing of one of the five
    orderings of the input. *)
Theorem C7_atlas_uv_and_no_overlap atlasSize padding :
  (∀ textures,
     let packed := packTextures atlasSize padding textures in
     let drawn := createAtlasCanvas atlasSize packed in
     (packed_info <$> packed) `sublist_of` textures ∧
     canvas drawn =
       (λ t, (tex_image (packed_info t), packed_x t, packed_y t)) <$> packed ∧
     (∀ p, canvas_uvMap drawn !! p =
           uvRectOf atlasSize <$>
             last (filter (λ t, tex_path (packed_info t) = p) packed)) ∧
     (NoDup (tex_path <$> textures) →
      ∀ t, t ∈ packed →
        canvas_uvMap drawn !! tex_path (packed_info t) =
          Some {| uv_u := Over (packed_x t) atlasSize;
                  uv_v := Over (packed_y t) atlasSize;
                  uv_width := Over (tex_width (packed_info t)) atlasSize;
                  uv_height := Over (tex_height (packed_info t)) atlasSize |}) ∧
     (∀ (i j : nat) a b,
        i ≠ j → packed !! i = Some a → packed !! j = Some b →
        ¬ overlap (pixelRect a) (pixelRect b))) ∧
  (∀ inputs,
     ∃ sorted,
       sorted ≡ₚ textureInfoOf <$> inputs ∧
       atlas (buildNewAtlas atlasSize padding inputs) =
         canvas (createAtlasCanvas atlasSize (packTextures atlasSize padding sorted)) ∧
       uvMap (buildNewAtlas atlasSize padding inputs) =
         canvas_uvMap
           (createAtlasCanvas atlasSize (packTextures atlasSize padding sorted))).
Proof.
  split.
  - intros textures packed drawn.
    assert (Hsub : (packed_info <$> packed) `sublist_of` textures)
      by apply packLoop_sublist.
    split; [done|]. split; [apply createAtlasCanvas_canvas|].
    split; [apply createAtlasCanvas_uvMap|]. split.
    + intros Hnd t Ht. subst drawn. rewrite createAtlasCanvas_uvMap.
      rewrite (filter_unique_key (λ t, tex_path (packed_info t))); [done| |done].
      rewrite (list_fmap_compose packed_info tex_path).
      eapply sublist_NoDup; [exact Hnd|]. by apply fmap_sublist.
    + intros i j a b Hij Hi Hj. unfold packed, packTextures in Hi, Hj.
      destruct (packLoop_apart padding textures (Unused 0 0 atlasSize atlasSize) [])
        as [Hapart _].
      * simpl. split; [|done]. intros r' Hr'. by apply elem_of_nil in Hr'.
      * intros f o _ Ho. by apply elem_of_nil in Ho.
      * eapply (pairwiseApart_lookup _ i j); [exact Hapart|done| |];
          rewrite list_lookup_fmap; [by rewrite Hi | by rewrite Hj].
  - intros inputs. unfold buildNewAtlas.
    destruct (bestResult _) as [best|] eqn:Hbest; [|done].
    apply bestResult_elem in Hbest.
    apply list_elem_of_fmap in Hbest as ([name sorted] & -> & Hin).
    exists sorted. split; [|by split].
    unfold sortTexturesForPacking in Hin.
    repeat (apply elem_of_cons in Hin as [[= _ ->]|Hin];
            [apply sortBy_Permutation|]).
    by apply elem_of_nil in Hin.
Qed.

(** ** The atlas cache *)

Import AtlasBuilder AtlasCache.

Lemma loadFromLocalStorage_absent browser cacheKey expected :
  localStorage browser !! ("atlas_" +:+ cacheKey) = None →
  loadFromLocalStorage browser cacheKey expected = (browser, None).
Proof. intros Habsent. unfold loadFromLocalStorage. by rewrite Habsent. Qed.

Lemma loadFromCache_noEntry browser cacheKey expected :
  noEntry browser cacheKey →
  loadFromCache browser cacheKey expected = (browser, None).
Proof.
  intros [Hdb Hlegacy]. unfold loadFromCache.
  destruct (indexedDB browser) as [store|]; [|done].
  rewrite (Hdb store eq_refl).
  by rewrite loadFromLocalStorage_absent.
Qed.

(** A check of the cache alone, on a browser whose stores are empty and
    on one that holds a fresh entry. *)
Example buildAtlas_cache_check :
  let emptyBrowser :=
    {| indexedDB := Some ∅; localStorage := ∅; now := 1000; background := [] |} in
  let entry :=
    {| cached_pixels := Some []; cached_uvMap := ∅;
       cached_packingEfficiency := 0; cached_timestamp := 900;
       cached_textureCount := 3 |} in
  let fresh :=
    {| indexedDB := Some {[ "pack" := entry ]}; localStorage := ∅; now := 1000;
       background := [] |} in
  (buildAtlas 2048 1 emptyBrowser [] (Some "pack")).2 =
    Throws "No cache found and no textures provided" ∧
  (buildAtlas 2048 1 fresh [] (Some "pack")).2 =
    Returns {| built := {| atlas := []; uvMap := ∅; packingEfficiency := 0 |};
               fromCache := true |} ∧
  (buildAtlas 2048 1 fresh [] (Some "other")).2 =
    Throws "No cache found and no textures provided".
Proof. repeat split. Qed.

(** C10.  [buildAtlas] with an empty [textures] list rejects with
    [No cache found and no textures provided] when no cache key (or the
    empty one) is given and when [loadFromCache] finds nothing for the
    key, which is the case whenever neither store has an entry under it;
    a cache hit is the one way such a call resolves. *)
Theorem C10_empty_textures_without_cache_rejects atlasSize padding browser :
  (buildAtlas atlasSize padding browser [] None).2 =
    Throws "No cache found and no textures provided" ∧
  (buildAtlas atlasSize padding browser [] (Some "")).2 =
    Throws "No cache found and no textures provided" ∧
  (∀ cacheKey,
     (loadFromCache browser cacheKey 0).2 = None →
     (buildAtlas atlasSize padding browser [] (Some cacheKey)).2 =
       Throws "No cache found and no textures provided") ∧
  (∀ cacheKey,
     noEntry browser cacheKey →
     (buildAtlas atlasSize padding browser [] (Some cacheKey)).2 =
       Throws "No cache found and no textures provided") ∧
  (∀ cacheKey cached,
     cacheKey ≠ "" →
     (loadFromCache browser cacheKey 0).2 = Some cached →
     (buildAtlas atlasSize padding browser [] (Some cacheKey)).2 =
       Returns {| built := cached; fromCache := true |}).
Proof.
  assert (Hmiss : ∀ cacheKey,
    (loadFromCache browser cacheKey 0).2 = None →
    (buildAtlas atlasSize padding browser [] (Some cacheKey)).2 =
      Throws "No cache found and no textures provided").
  { intros cacheKey Hnone. unfold buildAtlas.
    destruct (givenKey (Some cacheKey)) as [key|] eqn:Hkey; [|done].
    assert (key = cacheKey) as ->.
    { destruct cacheKey as [|c rest]; [done|]. by injection Hkey. }
    cbn [length]. change (N.of_nat 0) with 0%N.
    destruct (loadFromCache browser cacheKey 0) as [browser' cachedResult].
    simpl in Hnone. subst cachedResult. reflexivity. }
  split; [done|]. split; [done|]. split; [exact Hmiss|]. split.
  - intros cacheKey Hno. apply Hmiss. by rewrite loadFromCache_noEntry.
  - intros cacheKey cached Hkey Hhit. unfold buildAtlas.
    assert (givenKey (Some cacheKey) = Some cacheKey) as ->.
    { by destruct cacheKey. }
    cbn [length]. change (N.of_nat 0) with 0%N.
    destruct (loadFromCache browser cacheKey 0) as [browser' cachedResult].
    simpl in Hhit. subst cachedResult. reflexivity.
Qed.

(** ** The fail-soft path *)

Import Cubane FallbackSpec.

Lemma resolveBlockModel_noUsableBlockstate assets block :
  noUsableBlockstate assets block →
  isLiquidName (name block) = false →
  resolveBlockModel assets block = Returns [].
Proof.
  intros Hfile Hliquid. unfold resolveBlockModel, getBlockState.
  rewrite Hliquid. unfold noUsableBlockstate in Hfile. cbv zeta in Hfile.
  destruct Hfile as [-> | [-> | [-> | (definition & -> & Hvs & Hmp)]]]; try done.
  by rewrite Hvs, Hmp.
Qed.

Lemma resolveBlockModel_liquid assets block :
  isLiquidName (name block) = true →
  ∃ modelData, resolveBlockModel assets block = Returns [modelData].
Proof.
  intros Hliquid. unfold resolveBlockModel. rewrite Hliquid.
  unfold createLiquidModelData. eauto.
Qed.

Lemma dynamicParts_nonempty createEntityMesh cubane useCache partConfig rest :
  (dynamicParts createEntityMesh cubane useCache (partConfig :: rest)).2 ≠ [].
Proof.
  cbn [dynamicParts].
  destruct (getEntityMesh createEntityMesh cubane (entityType partConfig) useCache)
    as [cubane' dynamicMesh].
  by destruct (dynamicParts createEntityMesh cubane' useCache rest).
Qed.

(** C9, refuted as worded.  In a pack without any file,
    [minecraft:flowing_water] has no blockstate definition, yet
    [resolveBlockModel] returns the liquid model; and
    [minecraft:lectern], for which it returns the empty list, is not
    given the placeholder by [getBlockMesh] but a group holding its
    book, even with an entity renderer that throws. *)
Lemma C9_counterexample :
  noUsableBlockstate emptyPack (parseBlockString "minecraft:flowing_water") ∧
  resolveBlockModel emptyPack (parseBlockString "minecraft:flowing_water") =
    Returns [{| model := "block/water"; x := Some 0%Z; y := Some 0%Z;
                uvlock := Some false |}] ∧
  noUsableBlockstate emptyPack (parseBlockString "minecraft:lectern") ∧
  resolveBlockModel emptyPack (parseBlockString "minecraft:lectern") = Returns [] ∧
  (getBlockMesh (λ _, Throws "no renderer") (λ _ _ _ _, Throws "no builder")
     (newCubane emptyPack) "minecraft:lectern" "plains" true).2 =
    Group "block_lectern" (parseBlockString "minecraft:lectern") "plains"
      [DynamicPart (createFallbackMesh "entity_lectern_book") None None "lectern_book"].
Proof.
  split; [by left|]. split; [vm_compute; reflexivity|].
  split; [by left|]. split; [vm_compute; reflexivity|].
  vm_compute. reflexivity.
Qed.

(** C9 (amended).  For a block that is not a liquid and whose blockstate
    definition is missing, unparseable, [null] or without [variants] and
    [multipart], [resolveBlockModel] returns the empty list; and
    [getBlockMesh], which always resolves, gives for its block string
    the magenta wireframe placeholder unless a mesh is cached under the
    key or the block is registered as a block entity or as a hybrid
    block; for a hybrid block it gives a group that is not empty. *)
Theorem C9_missing_blockstate_gives_placeholder :
  (∀ assets block,
     noUsableBlockstate assets block →
     isLiquidName (name block) = false →
     resolveBlockModel assets block = Returns []) ∧
  (∀ createEntityMesh createBlockMesh cubane blockString biome (useCache : bool),
     let block := parseBlockString blockString in
     let blockId := namespace block +:+ ":" +:+ name block in
     noUsableBlockstate (assetLoader cubane) block →
     isLiquidName (name block) = false →
     (if useCache then blockMeshCache cubane !! (blockString +:+ ":" +:+ biome)
      else None) = None →
     truthyEntry (pureBlockEntityMap cubane) blockId = None →
     (hybridBlockConfig cubane !! blockId = None ∨
      hybridBlockConfig cubane !! blockId = Some []) →
     (getBlockMesh createEntityMesh createBlockMesh cubane blockString biome useCache).2 =
       placeholder block ∧
     placeholder block =
       Mesh ("block_fallback_" +:+ blockId)
            (BoxGeometry (8 # 10) (8 # 10) (8 # 10)) (MeshBasicMaterial 0xff00ff true)) ∧
  (∀ createEntityMesh createBlockMesh cubane blockString biome (useCache : bool)
     partConfig rest,
     let block := parseBlockString blockString in
     let blockId := namespace block +:+ ":" +:+ name block in
     noUsableBlockstate (assetLoader cubane) block →
     isLiquidName (name block) = false →
     (if useCache then blockMeshCache cubane !! (blockString +:+ ":" +:+ biome)
      else None) = None →
     truthyEntry (pureBlockEntityMap cubane) blockId = None →
     hybridBlockConfig cubane !! blockId = Some (partConfig :: rest) →
     ∃ rootName child children,
       (getBlockMesh createEntityMesh createBlockMesh cubane blockString biome useCache).2 =
         Group rootName block biome (child :: children)).
Proof.
  split; [exact resolveBlockModel_noUsableBlockstate|]. split.
  - intros createEntityMesh createBlockMesh cubane blockString biome useCache
      block blockId Hfile Hliquid Hcache Hpure Hhybrid.
    split; [|reflexivity].
    unfold getBlockMesh. rewrite Hcache. cbv zeta.
    fold block. fold blockId. rewrite Hpure.
    rewrite (resolveBlockModel_noUsableBlockstate _ _ Hfile Hliquid).
    by destruct Hhybrid as [-> | ->].
  - intros createEntityMesh createBlockMesh cubane blockString biome useCache
      partConfig rest block blockId Hfile Hliquid Hcache Hpure Hhybrid.
    unfold getBlockMesh. rewrite Hcache. cbv zeta.
    fold block. fold blockId. rewrite Hpure.
    rewrite (resolveBlockModel_noUsableBlockstate _ _ Hfile Hliquid).
    rewrite Hhybrid.
    pose proof (dynamicParts_nonempty createEntityMesh cubane useCache partConfig rest)
      as Hparts.
    destruct (dynamicParts createEntityMesh cubane useCache (partConfig :: rest))
      as [cubane' [|child children]]; [done|].
    simpl. eauto.
Qed.

Lemma C9_missing_blockstate_gives_placeholder_witness :
  resolveBlockModel emptyPack (parseBlockString "minecraft:stone[axis=y]") = Returns [] ∧
  (getBlockMesh (λ _, Returns true) (λ _ _ _ _, Returns ())
     (newCubane emptyPack) "minecraft:stone[axis=y]" "plains" true).2 =
    placeholder (parseBlockString "minecraft:stone[axis=y]").
Proof.
  destruct C9_missing_blockstate_gives_placeholder as (Hresolve & Hmesh & _).
  split.
  - apply Hresolve; [by left | reflexivity].
  - apply (Hmesh (λ _, Returns true) (λ _ _ _ _, Returns ())
             (newCubane emptyPack) "minecraft:stone[axis=y]" "plains" true).
    + by left.
    + reflexivity.
    + vm_compute. reflexivity.
    + vm_compute. reflexivity.
    + left. vm_compute. reflexivity.
Defined.

(** ** The property maps of parsed block strings *)

Import Cubane.

Lemma includes_char_nil (c : ascii) : JS.includes "" (String c EmptyString) = false.
Proof. reflexivity. Qed.

Lemma split_pieces_lack (d c : ascii) (s : string) :
  JS.includes s (String d EmptyString) = false →
  Forall (λ w, JS.includes w (String d EmptyString) = false) (JS.split c s).
Proof.
  induction s as [|a s IH]; intros Hs.
  - by repeat constructor.
  - rewrite includes_char_cons in Hs. apply orb_false_iff in Hs as [Hda Hs].
    specialize (IH Hs). cbn [JS.split].
    destruct (Ascii.eqb a c).
    + by constructor.
    + destruct (JS.split c s) as [|w ws].
      * constructor; [|done]. by rewrite includes_char_cons, Hda.
      * apply Forall_cons in IH as [Hw Hws]. constructor; [|done].
        by rewrite includes_char_cons, Hda, Hw.
Qed.

Lemma split_pieces_lack_separator (c : ascii) (s : string) :
  Forall (λ w, JS.includes w (String c EmptyString) = false) (JS.split c s).
Proof.
  induction s as [|a s IH]; [by repeat constructor|].
  cbn [JS.split]. destruct (Ascii.eqb a c) eqn:Hac.
  - by constructor.
  - destruct (JS.split c s) as [|w ws].
    + constructor; [|done]. by rewrite includes_char_cons, eqb_ascii_sym, Hac.
    + apply Forall_cons in IH as [Hw Hws]. constructor; [|done].
      by rewrite includes_char_cons, eqb_ascii_sym, Hac, Hw.
Qed.

Lemma skipWhiteSpace_lacks (d : ascii) (s : string) :
  JS.includes s (String d EmptyString) = false →
  JS.includes (JS.skipWhiteSpace s) (String d EmptyString) = false.
Proof.
  induction s as [|a s IH]; [done|]. intros Hs. cbn [JS.skipWhiteSpace].
  destruct (JS.isWhiteSpace a); [|done].
  rewrite includes_char_cons in Hs. apply orb_false_iff in Hs as [_ Hs]. by apply IH.
Qed.

Lemma rev_app_lacks (d : ascii) (s1 s2 : string) :
  JS.includes s1 (String d EmptyString) = false →
  JS.includes s2 (String d EmptyString) = false →
  JS.includes (String.rev_app s1 s2) (String d EmptyString) = false.
Proof.
  revert s2. induction s1 as [|a s1 IH]; intros s2 H1 H2; [done|].
  rewrite includes_char_cons in H1. apply orb_false_iff in H1 as [Hda H1].
  cbn [String.rev_app]. apply IH; [done|]. by rewrite includes_char_cons, Hda.
Qed.

Lemma trim_lacks (d : ascii) (s : string) :
  JS.includes s (String d EmptyString) = false →
  JS.includes (JS.trim s) (String d EmptyString) = false.
Proof.
  intros Hs. unfold JS.trim, String.rev.
  apply rev_app_lacks; [|done]. apply skipWhiteSpace_lacks.
  apply rev_app_lacks; [|done]. by apply skipWhiteSpace_lacks.
Qed.

Lemma set_keys {V} (k : string) (v : V) (o : JS.Obj V) :
  JS.keys (JS.set k v o) = if bool_decide (k ∈ JS.keys o) then JS.keys o
                           else (JS.keys o ++ [k])%list.
Proof.
  unfold JS.keys. induction o as [|[k' v'] o IH]; [done|]. cbn [JS.set].
  destruct (String.eqb_spec k' k) as [->|Hne].
  - rewrite bool_decide_eq_true_2; [done|]. left.
  - cbn [fmap list_fmap fst] in *. rewrite IH.
    destruct (decide (k ∈ fst <$> o)) as [Hin|Hout].
    + rewrite !bool_decide_eq_true_2; [done|by right|done].
    + rewrite !bool_decide_eq_false_2; [done| |done].
      intros [?|?]%elem_of_cons; congruence.
Qed.

Lemma set_NoDup {V} (k : string) (v : V) (o : JS.Obj V) :
  NoDup (JS.keys o) → NoDup (JS.keys (JS.set k v o)).
Proof.
  intros Hnd. rewrite set_keys. case_bool_decide; [done|].
  apply NoDup_app. split; [done|]. split; [|apply NoDup_singleton].
  intros k' Hk' ->%list_elem_of_singleton. done.
Qed.

Lemma set_Forall {V} (P : string * V → Prop) (k : string) (v : V) (o : JS.Obj V) :
  P (k, v) → Forall P o → Forall P (JS.set k v o).
Proof.
  intros Hkv. induction o as [|[k' v'] o IH]; intros Ho.
  - by repeat constructor.
  - apply Forall_cons in Ho as [Hk' Ho]. cbn [JS.set].
    destruct (String.eqb_spec k' k) as [->|Hne]; constructor; auto.
Qed.

Lemma set_fresh {V} (k : string) (v : V) (o : JS.Obj V) :
  k ∉ JS.keys o → JS.set k v o = (o ++ [(k, v)])%list.
Proof.
  induction o as [|[k' v'] o IH]; [done|]. intros Hfresh.
  apply not_elem_of_cons in Hfresh as [Hne Hfresh]. cbn [JS.set].
  destruct (String.eqb_spec k' k) as [->|_]; [done|]. by rewrite IH.
Qed.

Lemma insertIndex_Permutation {V} (n : Z) (k : string) (v : V) (o : JS.Obj V) :
  JS.insertIndex n k v o ≡ₚ (k, v) :: o.
Proof.
  induction o as [|[k' v'] o IH]; [done|]. cbn [JS.insertIndex].
  destruct (JS.arrayIndex k') as [n'|]; [|done].
  destruct (n' <? n)%Z; [|done]. rewrite IH. apply perm_swap.
Qed.

Lemma assign_NoDup {V} (k : string) (v : V) (o : JS.Obj V) :
  NoDup (JS.keys o) → NoDup (JS.keys (JS.assign k v o)).
Proof.
  intros Hnd. unfold JS.assign. case_bool_decide; [done|].
  case_bool_decide as Hin; [by apply set_NoDup|].
  destruct (JS.arrayIndex k) as [n|].
  - unfold JS.keys. rewrite insertIndex_Permutation. by apply NoDup_cons.
  - rewrite <- (set_fresh k v o Hin). by apply set_NoDup.
Qed.

Lemma assign_Forall {V} (P : string * V → Prop) (k : string) (v : V) (o : JS.Obj V) :
  P (k, v) → Forall P o → Forall P (JS.assign k v o).
Proof.
  intros Hkv Ho. unfold JS.assign. case_bool_decide; [done|].
  case_bool_decide as Hin; [by apply set_Forall|].
  destruct (JS.arrayIndex k) as [n|].
  - rewrite insertIndex_Permutation. by constructor.
  - apply Forall_app. by repeat constructor.
Qed.

Lemma parseProperties_clean (propertiesString : string) :
  NoDup (JS.keys (parseProperties propertiesString)) ∧
  Forall cleanProperty (parseProperties propertiesString).
Proof.
  unfold parseProperties.
  pose proof (split_pieces_lack_separator "," propertiesString) as Hpieces.
  revert Hpieces. generalize (JS.split "," propertiesString). intros props Hprops.
  assert (Hstart : NoDup (JS.keys ([] : JS.Obj string)) ∧
                   Forall cleanProperty ([] : JS.Obj string)).
  { split; constructor. }
  revert Hstart. generalize ([] : JS.Obj string).
  induction Hprops as [|prop props Hprop Hprops IH]; intros properties Hstart; [done|].
  cbn [foldl]. apply IH. destruct Hstart as [Hnd Hclean].
  pose proof (split_pieces_lack_separator "=" prop) as Hequals.
  pose proof (split_pieces_lack "," "=" prop Hprop) as Hcommas.
  destruct (JS.split "=" prop) as [|key [|value rest]]; [done..|].
  destruct (bool_decide (key ≠ "") && bool_decide (value ≠ "")); [|done].
  apply Forall_cons in Hequals as [Hk1 [Hv1 _]%Forall_cons].
  apply Forall_cons in Hcommas as [Hk2 [Hv2 _]%Forall_cons].
  split; [by apply assign_NoDup|].
  apply assign_Forall; [|done]. by repeat split; apply trim_lacks.
Qed.

(** X1.  Every block [parseBlockString] produces has a property map
    with distinct names, whose names and values contain neither [=] nor
    [,]. *)
Theorem parseBlockString_clean (blockString : string) :
  NoDup (JS.keys (properties (parseBlockString blockString))) ∧
  Forall cleanProperty (properties (parseBlockString blockString)).
Proof.
  assert (Hparse : ∀ remaining,
    NoDup (JS.keys (parseNameAndProperties remaining).2) ∧
    Forall cleanProperty (parseNameAndProperties remaining).2).
  { intros remaining. unfold parseNameAndProperties.
    destruct (JS.indexOf "[" remaining); [apply parseProperties_clean|].
    split; constructor. }
  unfold parseBlockString.
  destruct (JS.split ":" blockString) as [|namespacePart [|remaining rest]].
  - specialize (Hparse blockString).
    by destruct (parseNameAndProperties blockString).
  - specialize (Hparse blockString).
    by destruct (parseNameAndProperties blockString).
  - specialize (Hparse remaining).
    by destruct (parseNameAndProperties remaining).
Qed.

(** ** The packing, measured *)

Import AtlasBuilder AtlasSpec PackingSpec.

Lemma totalArea_cons r l : totalArea (r :: l) = (area r + totalArea l)%N.
Proof. reflexivity. Qed.

Lemma totalArea_app l1 l2 :
  totalArea (l1 ++ l2) = (totalArea l1 + totalArea l2)%N.
Proof.
  induction l1 as [|r l1 IH]; [done|].
  unfold totalArea in *. cbn [app foldr]. rewrite IH. lia.
Qed.

Lemma split_area (width height w h : N) :
  (w ≤ width)%N → (h ≤ height)%N →
  ((width - w) * h + (width * (height - h) + w * h) = width * height)%N.
Proof.
  intros Hw Hh.
  assert (∃ a, width = (w + a)%N) as [a ->] by (exists (width - w)%N; lia).
  assert (∃ b, height = (h + b)%N) as [b ->] by (exists (height - h)%N; lia).
  replace (w + a - w)%N with a by lia. replace (h + b - h)%N with b by lia.
  ring.
Qed.

(** What [packLoop] keeps: the unused nodes and the padded placements
    end inside the canvas, and the placements take no more area than the
    unused nodes had. *)
Lemma packLoop_measure size padding textures root :
  Forall (fitsIn size) (unusedNodes root) →
  Forall (fitsIn size) (paddedRect padding <$> packLoop padding root textures) ∧
  (totalArea (paddedRect padding <$> packLoop padding root textures)
     ≤ totalArea (unusedNodes root))%N.
Proof.
  revert root. induction textures as [|texture rest IH]; intros root Hfits.
  { split; [constructor | apply N.le_0_l]. }
  cbn [packLoop]. cbv zeta.
  set (w := (tex_width texture + padding)%N). set (h := (tex_height texture + padding)%N).
  destruct (findNode root w h) as [node|] eqn:Hfind; [|by apply IH].
  destruct (findNode_splitNode root w h node Hfind)
    as (before & x & y & width & height & after & Hu & Hw & Hh & Hfit & Hu').
  destruct (splitNode root node w h) as [root' [fit_x fit_y]].
  cbn [fst snd] in Hfit, Hu'. injection Hfit as -> ->.
  rewrite Hu in Hfits |- *.
  apply Forall_app in Hfits as [Hbefore [HL Hafter]%Forall_cons].
  destruct HL as [HLx HLy].
  destruct (IH root') as [IHfits IHarea].
  { rewrite Hu'. apply Forall_app. split; [done|].
    apply Forall_cons. split; [split; lia|].
    apply Forall_cons. split; [split; lia|done]. }
  cbn [fmap list_fmap]. split.
  - apply Forall_cons. split; [|done].
    unfold paddedRect, fitsIn. cbn [packed_x packed_y packed_info]. fold w h. lia.
  - rewrite Hu' in IHarea. rewrite totalArea_cons.
    rewrite !totalArea_app, !totalArea_cons in *.
    unfold paddedRect at 1. cbn [packed_x packed_y packed_info area]. fold w h.
    cbn [area] in IHarea. change (totalArea []) with 0%N in IHarea.
    pose proof (split_area width height w h Hw Hh) as Hsplit.
    revert IHarea Hsplit.
    generalize (totalArea (paddedRect padding <$> packLoop padding root' rest)).
    generalize (totalArea before) (totalArea after).
    generalize ((width - w) * h)%N (width * (height - h))%N (w * h)%N (width * height)%N.
    intros. lia.
Qed.

Lemma packLoop_inflate padding textures root :
  packLoop 0 root (inflate padding <$> textures) =
  (λ t, {| packed_info := inflate padding (packed_info t);
           packed_x := packed_x t; packed_y := packed_y t |})
    <$> packLoop padding root textures.
Proof.
  revert root. induction textures as [|texture rest IH]; intros root; [done|].
  cbn [fmap list_fmap packLoop]. cbv zeta.
  cbn [inflate tex_width tex_height]. rewrite !N.add_0_r.
  destruct (findNode root _ _) as [node|]; [|apply IH].
  destruct (splitNode root node _ _) as [root' [fit_x fit_y]].
  cbn [fmap list_fmap packed_info packed_x packed_y]. by rewrite IH.
Qed.

Lemma packTextures_measure atlasSize padding textures :
  Forall (fitsIn atlasSize) (paddedRect padding <$> packTextures atlasSize padding textures) ∧
  (totalArea (paddedRect padding <$> packTextures atlasSize padding textures)
     ≤ atlasSize * atlasSize)%N.
Proof.
  destruct (packLoop_measure atlasSize padding textures (Unused 0 0 atlasSize atlasSize))
    as [Hfits Harea].
  { repeat constructor; cbn; lia. }
  split; [exact Hfits|].
  change (totalArea (unusedNodes (Unused 0 0 atlasSize atlasSize)))
    with (atlasSize * atlasSize + 0)%N in Harea.
  by rewrite N.add_0_r in Harea.
Qed.

(** X3.  Every texture the packer places lies, with its padding, inside
    the atlas: its UV rectangle ends at or before 1 in both directions,
    and a texture larger than the atlas is never placed. *)
Theorem packTextures_inside_atlas atlasSize padding textures :
  Forall (λ t,
            (packed_x t + tex_width (packed_info t) + padding ≤ atlasSize)%N ∧
            (packed_y t + tex_height (packed_info t) + padding ≤ atlasSize)%N)
         (packTextures atlasSize padding textures).
Proof.
  destruct (packTextures_measure atlasSize padding textures) as [Hfits _].
  rewrite Forall_fmap in Hfits. eapply Forall_impl; [exact Hfits|].
  intros t. unfold compose, paddedRect, fitsIn. lia.
Qed.

(** X4.  The regions the placed textures take, padding included, are
    pairwise disjoint: [padding] pixels to the right of and below every
    image belong to no other placement. *)
Theorem packTextures_padding_kept atlasSize padding textures :
  pairwiseApart (paddedRect padding <$> packTextures atlasSize padding textures).
Proof.
  destruct (packLoop_apart 0 (inflate padding <$> textures)
              (Unused 0 0 atlasSize atlasSize) []) as [Hapart _].
  { simpl. split; [|done]. intros r' Hr'. by apply elem_of_nil in Hr'. }
  { intros f o _ Ho. by apply elem_of_nil in Ho. }
  rewrite packLoop_inflate, <- list_fmap_compose in Hapart.
  exact Hapart.
Qed.

Lemma textureArea_foldl (packed : list PackedTexture) (start : N) :
  foldl (λ sum tex, (sum + tex_area (packed_info tex))%N) start packed =
  (start + foldr (λ tex sum, (tex_area (packed_info tex) + sum)%N) 0%N packed)%N.
Proof.
  revert start. induction packed as [|t packed IH]; intros start; simpl; [lia|].
  rewrite IH. lia.
Qed.

Lemma textureArea_le_padded padding (packed : list PackedTexture) :
  Forall (λ t, tex_area (packed_info t) =
               (tex_width (packed_info t) * tex_height (packed_info t))%N) packed →
  (foldl (λ sum tex, (sum + tex_area (packed_info tex))%N) 0%N packed
     ≤ totalArea (paddedRect padding <$> packed))%N.
Proof.
  intros Hareas. rewrite textureArea_foldl, N.add_0_l.
  induction Hareas as [|t packed Ht Hareas IH]; [done|].
  cbn [foldr fmap list_fmap]. rewrite totalArea_cons.
  unfold paddedRect at 1. cbn [area]. rewrite Ht.
  assert (tex_width (packed_info t) * tex_height (packed_info t)
            ≤ (tex_width (packed_info t) + padding) * (tex_height (packed_info t) + padding))%N
    by (apply N.mul_le_mono; lia).
  lia.
Qed.

Lemma efficiency_bounds (total whole : N) :
  (0 < whole)%N → (total ≤ whole)%N →
  (0 <= inject_Z (Z.of_N total) / inject_Z (Z.of_N whole) * 100)%Q ∧
  (inject_Z (Z.of_N total) / inject_Z (Z.of_N whole) * 100 <= 100)%Q.
Proof.
  intros Hwhole Hle.
  assert (Hpos : (0 < inject_Z (Z.of_N whole))%Q).
  { change 0%Q with (inject_Z 0). rewrite <- Zlt_Qlt. lia. }
  assert (H0 : (0 <= inject_Z (Z.of_N total) / inject_Z (Z.of_N whole))%Q).
  { apply Qle_shift_div_l; [done|]. rewrite Qmult_0_l.
    change 0%Q with (inject_Z 0). rewrite <- Zle_Qle. lia. }
  assert (H1 : (inject_Z (Z.of_N total) / inject_Z (Z.of_N whole) <= 1)%Q).
  { apply Qle_shift_div_r; [done|]. rewrite Qmult_1_l. rewrite <- Zle_Qle. lia. }
  split.
  - apply Qmult_le_0_compat; [done|]. by compute.
  - apply Qle_trans with (1 * 100)%Q; [|by compute].
    apply Qmult_le_compat_r; [done|]. by compute.
Qed.

Lemma calculatePackingEfficiency_bounds atlasSize padding textures :
  (0 < atlasSize)%N →
  Forall (λ t, tex_area t = (tex_width t * tex_height t)%N) textures →
  (0 <= calculatePackingEfficiency atlasSize (packTextures atlasSize padding textures))%Q ∧
  (calculatePackingEfficiency atlasSize (packTextures atlasSize padding textures) <= 100)%Q.
Proof.
  intros Hsize Hareas. unfold calculatePackingEfficiency. cbv zeta.
  apply efficiency_bounds; [lia|].
  destruct (packTextures_measure atlasSize padding textures) as [_ Harea].
  etrans; [|exact Harea]. apply textureArea_le_padded.
  apply Forall_forall. intros t Ht.
  rewrite Forall_forall in Hareas. apply Hareas.
  eapply elem_of_sublist; [|apply (packLoop_sublist padding textures)].
  by apply list_elem_of_fmap_2.
Qed.

(** X5.  The packing efficiency [buildNewAtlas] reports lies between 0
    and 100 percent, whatever the images and the padding: the placed
    images never add up to more than the area of the atlas. *)
Theorem buildNewAtlas_efficiency_bounds atlasSize padding inputs :
  (0 < atlasSize)%N →
  (0 <= packingEfficiency (buildNewAtlas atlasSize padding inputs))%Q ∧
  (packingEfficiency (buildNewAtlas atlasSize padding inputs) <= 100)%Q.
Proof.
  intros Hsize. unfold buildNewAtlas.
  destruct (bestResult _) as [best|] eqn:Hbest; [|by split; compute].
  apply bestResult_elem in Hbest.
  apply list_elem_of_fmap in Hbest as ([strategyName sorted] & -> & Hin).
  cbn [packingEfficiency packWithStrategy efficiency snd].
  apply calculatePackingEfficiency_bounds; [done|].
  assert (Hperm : sorted ≡ₚ textureInfoOf <$> inputs).
  { unfold sortTexturesForPacking in Hin.
    repeat (apply elem_of_cons in Hin as [[= _ ->]|Hin];
            [apply sortBy_Permutation|]).
    by apply elem_of_nil in Hin. }
  rewrite Hperm. apply Forall_fmap, Forall_forall. by intros input _.
Qed.

Lemma buildNewAtlas_efficiency_bounds_witness :
  let inputs := [ {| input_path := "block/stone"; input_image := mkImage 16 16 |};
                  {| input_path := "block/dirt"; input_image := mkImage 16 32 |} ] in
  (0 <= packingEfficiency (buildNewAtlas 64 1 inputs))%Q ∧
  (packingEfficiency (buildNewAtlas 64 1 inputs) <= 100)%Q ∧
  (packingEfficiency (buildNewAtlas 64 1 inputs) == 75 # 4)%Q.
Proof.
  intros inputs.
  destruct (buildNewAtlas_efficiency_bounds 64 1 inputs) as [Hlow Hhigh]; [done|].
  split; [exact Hlow|]. split; [exact Hhigh|]. vm_compute. reflexivity.
Defined.

Lemma bestResult_is_largest (results : list PackingResult) best :
  bestResult results = Some best →
  Forall (λ r, (efficiency r <= efficiency best)%Q) results.
Proof.
  destruct results as [|first rest]; [done|]. simpl. intros [= <-].
  assert (Hfold : ∀ rest start,
    (efficiency start <=
       efficiency (foldl (λ best current,
                            if Qlt_le_dec (efficiency best) (efficiency current)
                            then current else best) start rest))%Q ∧
    Forall (λ r, (efficiency r <=
       efficiency (foldl (λ best current,
                            if Qlt_le_dec (efficiency best) (efficiency current)
                            then current else best) start rest))%Q) rest).
  { clear. induction rest as [|current rest IH]; intros start.
    - split; [apply Qle_refl | constructor].
    - cbn [foldl]. destruct (Qlt_le_dec (efficiency start) (efficiency current)) as [Hlt|Hle].
      + destruct (IH current) as [Hc Hrest]. split; [|by constructor].
        eapply Qle_trans; [apply Qlt_le_weak, Hlt | exact Hc].
      + destruct (IH start) as [Hs Hrest]. split; [done|]. constructor; [|done].
        eapply Qle_trans; [exact Hle | exact Hs]. }
  destruct (Hfold rest first) as [Hfirst Hrest]. by constructor.
Qed.

(** The result of [reduce] with [>]: the first of the greatest. *)
Lemma bestResult_first_largest (results : list PackingResult) best :
  bestResult results = Some best →
  ∃ i : nat, results !! i = Some best ∧
    ∀ (j : nat) earlier, (j < i)%nat → results !! j = Some earlier →
      (efficiency earlier < efficiency best)%Q.
Proof.
  destruct results as [|first rest]; [done|]. simpl. intros [= <-].
  assert (Hfold : ∀ rest (before skipped : list PackingResult) start,
    Forall (λ r, (efficiency r < efficiency start)%Q) before →
    Forall (λ r, (efficiency r <= efficiency start)%Q) skipped →
    ∃ i : nat,
      (before ++ start :: skipped ++ rest)%list !! i =
        Some (foldl (λ best current,
                       if Qlt_le_dec (efficiency best) (efficiency current)
                       then current else best) start rest) ∧
      ∀ (j : nat) earlier, (j < i)%nat →
        (before ++ start :: skipped ++ rest)%list !! j = Some earlier →
        (efficiency earlier <
           efficiency (foldl (λ best current,
                       if Qlt_le_dec (efficiency best) (efficiency current)
                       then current else best) start rest))%Q).
  { clear. induction rest as [|current rest IH]; intros before skipped start Hbefore Hskipped.
    - exists (length before). cbn [foldl]. split.
      + by rewrite list_lookup_middle.
      + intros j earlier Hj Hlook. rewrite lookup_app_l in Hlook by done.
        rewrite Forall_forall in Hbefore. apply Hbefore.
        by eapply list_elem_of_lookup_2.
    - cbn [foldl].
      destruct (Qlt_le_dec (efficiency start) (efficiency current)) as [Hlt|Hle].
      + destruct (IH (before ++ start :: skipped)%list [] current) as (i & Hi & Hless).
        { apply Forall_app. split.
          - eapply Forall_impl; [exact Hbefore|]. intros r Hr.
            eapply Qlt_trans; [exact Hr | exact Hlt].
          - constructor; [done|].
            eapply Forall_impl; [exact Hskipped|]. intros r Hr.
            eapply Qle_lt_trans; [exact Hr | exact Hlt]. }
        { constructor. }
        exists i. cbn [app] in Hi, Hless.
        by rewrite <- app_assoc in Hi, Hless.
      + destruct (IH before (skipped ++ [current])%list start) as (i & Hi & Hless).
        { done. }
        { apply Forall_app. split; [done|]. by repeat constructor. }
        exists i. by rewrite <- app_assoc in Hi, Hless. }
  destruct (Hfold rest [] [] first) as (i & Hi & Hless); [constructor..|].
  by exists i.
Qed.

(** X6.  Of the five orderings [buildNewAtlas] tries, the atlas it
    returns is the packing with the greatest efficiency; among equally
    efficient ones the first tried, starting with largest-first, is
    kept. *)
Theorem buildNewAtlas_best_strategy atlasSize padding inputs :
  let tried :=
    packWithStrategy atlasSize padding <$>
      sortTexturesForPacking (textureInfoOf <$> inputs) in
  Forall (λ r, (efficiency r <=
                  packingEfficiency (buildNewAtlas atlasSize padding inputs))%Q) tried ∧
  ∃ (i : nat) chosen,
    tried !! i = Some chosen ∧
    atlas (buildNewAtlas atlasSize padding inputs) =
      canvas (createAtlasCanvas atlasSize (packedTextures chosen)) ∧
    uvMap (buildNewAtlas atlasSize padding inputs) =
      canvas_uvMap (createAtlasCanvas atlasSize (packedTextures chosen)) ∧
    packingEfficiency (buildNewAtlas atlasSize padding inputs) = efficiency chosen ∧
    ∀ (j : nat) earlier, (j < i)%nat → tried !! j = Some earlier →
      (efficiency earlier < efficiency chosen)%Q.
Proof.
  intros tried. unfold buildNewAtlas. fold tried.
  destruct (bestResult tried) as [best|] eqn:Hbest; [|done].
  split.
  - by apply bestResult_is_largest.
  - destruct (bestResult_first_largest tried best Hbest) as (i & Hi & Hless).
    by exists i, best.
Qed.

(** ** The atlas cache over time *)

Import AtlasBuilder AtlasCache.

Lemma loadFromLocalStorage_keeps browser key expected :
  indexedDB (loadFromLocalStorage browser key expected).1 = indexedDB browser ∧
  now (loadFromLocalStorage browser key expected).1 = now browser ∧
  background (loadFromLocalStorage browser key expected).1 = background browser.
Proof.
  unfold loadFromLocalStorage.
  destruct (localStorage browser !! _) as [[| |cacheData]|]; [done..| |done].
  destruct (countMismatch _ _); [done|].
  destruct (_ <? _)%Z; [done|].
  by destruct (legacy_image cacheData).
Qed.

(** [loadFromCache] leaves the clock alone and an open database open,
    and starts nothing when it finds nothing. *)
Lemma loadFromCache_keeps browser key expected :
  now (loadFromCache browser key expected).1 = now browser ∧
  (is_Some (indexedDB browser) →
   is_Some (indexedDB (loadFromCache browser key expected).1)) ∧
  ((loadFromCache browser key expected).2 = None →
   background (loadFromCache browser key expected).1 = background browser).
Proof.
  unfold loadFromCache. destruct (indexedDB browser) as [store|] eqn:Hdb.
  - destruct (store !! key) as [cacheData|].
    + destruct (countMismatch _ _); [cbn [fst]; by rewrite Hdb|].
      destruct (_ <? _)%Z.
      * cbn [fst deleteFromCache indexedDB now]. by rewrite Hdb.
      * destruct (cached_pixels cacheData); cbn [fst]; by rewrite Hdb.
    + pose proof (loadFromLocalStorage_keeps browser key expected)
        as (Hkeep & Hnow & Hjobs).
      destruct (loadFromLocalStorage browser key expected) as [browser' [legacy|]];
        cbn [fst snd] in *.
      * cbn [migrateToIndexedDB start indexedDB now].
        rewrite Hkeep, Hnow, Hdb. done.
      * by rewrite Hkeep, Hnow, Hdb.
  - split; [done|]. split; [by intros [? ?] | done].
Qed.

(** The job a call has just started ends. *)
Lemma settle_started landed job browser :
  settle (length (background browser)) landed (start job browser) =
  finish landed job browser.
Proof.
  unfold settle, start. cbn [background indexedDB localStorage now].
  rewrite list_lookup_middle by done.
  rewrite (delete_middle (background browser) [] job), app_nil_r.
  by destruct browser.
Qed.

Lemma loadFromCache_put browser key entry pixels time expected :
  is_Some (indexedDB browser) →
  cached_pixels entry = Some pixels →
  loadFromCache (atTime time (put key entry browser)) key expected =
    if countMismatch expected (cached_textureCount entry)
    then (atTime time (put key entry browser), None)
    else if (maxAge <? time - cached_timestamp entry)%Z
    then (deleteFromCache (atTime time (put key entry browser)) key, None)
    else (atTime time (put key entry browser),
          Some {| atlas := pixels; uvMap := cached_uvMap entry;
                  packingEfficiency := cached_packingEfficiency entry |}).
Proof.
  intros [store Hdb] Hpixels. unfold loadFromCache.
  cbn [atTime put indexedDB now]. rewrite Hdb. cbn [fmap option_fmap option_map].
  rewrite lookup_insert_eq.
  destruct (countMismatch expected _); [done|].
  destruct (_ <? _)%Z; [done|]. by rewrite Hpixels.
Qed.

(** X7.  What [buildAtlas] builds under a cache key it serves again
    once its save has landed: a call that missed the cache and built the
    atlas of a non-empty list leaves a save running; if that save fails,
    the stores stay as the lookup left them; once it has landed, a call
    under the same key within a week, with no textures or with as many,
    resolves to that same atlas (its [uvMap] without a path [__proto__])
    marked [fromCache], whatever the textures passed are; after more than
    a week the entry has expired and the call builds anew. *)
Theorem buildAtlas_cache_round_trip atlasSize padding browser textures key :
  textures ≠ [] →
  key ≠ "" →
  is_Some (indexedDB browser) →
  (loadFromCache browser key (N.of_nat (length textures))).2 = None →
  let made := buildNewAtlas atlasSize padding textures in
  let missed := (loadFromCache browser key (N.of_nat (length textures))).1 in
  let first := buildAtlas atlasSize padding browser textures (Some key) in
  let job := length (background browser) in
  first.2 = Returns {| built := made; fromCache := false |} ∧
  first.1 =
    start (Saving key
             {| cached_pixels := Some (atlas made);
                cached_uvMap := delete "__proto__" (uvMap made);
                cached_packingEfficiency := packingEfficiency made;
                cached_timestamp := now browser;
                cached_textureCount := N.of_nat (length textures) |}) missed ∧
  background missed = background browser ∧
  settle job false first.1 = missed ∧
  (∀ later others,
     (later - now browser ≤ maxAge)%Z →
     others = [] ∨ length others = length textures →
     (buildAtlas atlasSize padding (atTime later (settle job true first.1))
        others (Some key)).2 =
       Returns {| built := {| atlas := atlas made;
                              uvMap := delete "__proto__" (uvMap made);
                              packingEfficiency := packingEfficiency made |};
                  fromCache := true |}) ∧
  (∀ later others,
     (maxAge < later - now browser)%Z →
     others ≠ [] →
     (buildAtlas atlasSize padding (atTime later (settle job true first.1))
        others (Some key)).2 =
       Returns {| built := buildNewAtlas atlasSize padding others;
                  fromCache := false |}).
Proof.
  intros Htextures Hkey Hdb Hmiss made missed first job.
  assert (Hgiven : givenKey (Some key) = Some key) by (by destruct key).
  destruct (loadFromCache_keeps browser key (N.of_nat (length textures)))
    as (Hnow & Hopen & Hjobs).
  specialize (Hopen Hdb). specialize (Hjobs Hmiss).
  fold missed in Hnow, Hopen, Hjobs.
  set (entry := cacheEntry missed made (N.of_nat (length textures))).
  assert (Hfirst : first =
    (start (Saving key entry) missed, Returns {| built := made; fromCache := false |})).
  { unfold first, buildAtlas, entry, missed, made. rewrite Hgiven.
    destruct (loadFromCache browser key (N.of_nat (length textures)))
      as [browser' cached]. cbn [snd] in Hmiss. subst cached.
    by destruct textures. }
  assert (Hsettled : ∀ landed,
    settle job landed first.1 = finish landed (Saving key entry) missed).
  { intros landed. rewrite Hfirst. cbn [fst]. unfold job. rewrite <- Hjobs.
    apply settle_started. }
  split; [by rewrite Hfirst|].
  split; [rewrite Hfirst; cbn [fst]; unfold entry, cacheEntry; by rewrite Hnow|].
  split; [done|]. split; [by rewrite Hsettled|].
  split.
  - intros later others Hfresh Hcount. rewrite Hsettled. cbn [finish].
    unfold buildAtlas. rewrite Hgiven.
    rewrite (loadFromCache_put missed key entry (atlas made)) by done.
    cbn [entry cacheEntry cached_textureCount cached_timestamp cached_uvMap
         cached_packingEfficiency].
    assert (countMismatch (N.of_nat (length others)) (N.of_nat (length textures)) = false)
      as ->.
    { unfold countMismatch. destruct Hcount as [-> | ->]; [done|].
      by rewrite N.eqb_refl, andb_false_r. }
    rewrite Hnow. by rewrite (proj2 (Z.ltb_ge _ _)).
  - intros later others Hold Hothers. rewrite Hsettled. cbn [finish].
    unfold buildAtlas. rewrite Hgiven.
    rewrite (loadFromCache_put missed key entry (atlas made)) by done.
    cbn [entry cacheEntry cached_textureCount cached_timestamp cached_uvMap
         cached_packingEfficiency].
    rewrite Hnow. rewrite (proj2 (Z.ltb_lt _ _)) by done.
    destruct (countMismatch _ _); by destruct others.
Qed.

Lemma buildAtlas_cache_round_trip_witness :
  let browser :=
    {| indexedDB := Some ∅; localStorage := ∅; now := 1000; background := [] |} in
  let textures := [ {| input_path := "block/stone"; input_image := mkImage 16 16 |} ] in
  let others := [ {| input_path := "block/dirt"; input_image := mkImage 32 32 |} ] in
  let made := buildNewAtlas 64 1 textures in
  (buildAtlas 64 1
     (atTime 5000 (settle 0 true (buildAtlas 64 1 browser textures (Some "pack")).1))
     others (Some "pack")).2 =
    Returns {| built := {| atlas := atlas made;
                           uvMap := delete "__proto__" (uvMap made);
                           packingEfficiency := packingEfficiency made |};
               fromCache := true |}.
Proof.
  intros browser textures others made.
  destruct (buildAtlas_cache_round_trip 64 1 browser textures "pack")
    as (_ & _ & _ & _ & Hhit & _); [done | done | by eexists | reflexivity |].
  apply Hhit; [by vm_compute | by right].
Defined.

(** X8.  A legacy [localStorage] entry that is still valid is served,
    and a migration is left running: once it has ended, [localStorage]
    no longer has the entry, whether its save landed or not; if the save
    landed, the IndexedDB store holds the entry stamped with the time of
    the call, so that it is served from there (its [uvMap] without a path
    [__proto__]) for a further week; if it did not, the store is as it
    was and the entry is gone. *)
Theorem loadFromCache_migrates_legacy browser key store legacy img expected :
  indexedDB browser = Some store →
  store !! key = None →
  localStorage browser !! ("atlas_" +:+ key) = Some (Encodes legacy) →
  legacy_image legacy = Some img →
  countMismatch expected (legacy_textureCount legacy) = false →
  (now browser - legacy_timestamp legacy ≤ maxAge)%Z →
  let served :=
    {| atlas := img; uvMap := legacy_uvMap legacy;
       packingEfficiency := legacy_packingEfficiency legacy |} in
  let moved :=
    {| cached_pixels := Some img;
       cached_uvMap := delete "__proto__" (legacy_uvMap legacy);
       cached_packingEfficiency := legacy_packingEfficiency legacy;
       cached_timestamp := now browser;
       cached_textureCount := legacy_textureCount legacy |} in
  let after := (loadFromCache browser key expected).1 in
  let job := length (background browser) in
  (loadFromCache browser key expected).2 = Some served ∧
  after = start (Migrating key moved) browser ∧
  (∀ landed, localStorage (settle job landed after) !! ("atlas_" +:+ key) = None) ∧
  indexedDB (settle job true after) = Some (<[key := moved]> store) ∧
  indexedDB (settle job false after) = Some store ∧
  ∀ later, (later - now browser ≤ maxAge)%Z →
    loadFromCache (atTime later (settle job true after)) key expected =
      (atTime later (settle job true after),
       Some {| atlas := img; uvMap := delete "__proto__" (legacy_uvMap legacy);
               packingEfficiency := legacy_packingEfficiency legacy |}).
Proof.
  intros Hdb Hstore Hlegacy Himg Hcount Hfresh served moved after job.
  assert (Hload : loadFromCache browser key expected =
    (start (Migrating key moved) browser, Some served)).
  { unfold loadFromCache, loadFromLocalStorage.
    rewrite Hdb, Hstore, Hlegacy, Hcount, Himg.
    by rewrite (proj2 (Z.ltb_ge _ _)). }
  assert (Hsettled : ∀ landed,
    settle job landed after = finish landed (Migrating key moved) browser).
  { intros landed. unfold after. rewrite Hload. apply settle_started. }
  split; [by rewrite Hload|]. split; [unfold after; by rewrite Hload|].
  split.
  { intros landed. rewrite Hsettled. unfold finish, removeItem. cbn [localStorage].
    apply lookup_delete_eq. }
  split.
  { rewrite Hsettled. unfold finish, removeItem, put. cbn [indexedDB]. by rewrite Hdb. }
  split.
  { rewrite Hsettled. unfold finish, removeItem. cbn [indexedDB]. by rewrite Hdb. }
  intros later Hlater. rewrite Hsettled.
  unfold loadFromCache, finish, removeItem, put, atTime.
  cbn [indexedDB now fst snd]. rewrite Hdb. cbn [fmap option_fmap option_map].
  rewrite lookup_insert_eq.
  cbn [moved cached_textureCount cached_timestamp cached_pixels cached_uvMap
       cached_packingEfficiency].
  rewrite Hcount. by rewrite (proj2 (Z.ltb_ge _ _)).
Qed.

Lemma loadFromCache_migrates_legacy_witness :
  let legacy :=
    {| legacy_image := Some []; legacy_uvMap := ∅; legacy_packingEfficiency := 50;
       legacy_timestamp := 0; legacy_textureCount := 7 |} in
  let browser :=
    {| indexedDB := Some ∅; localStorage := {[ "atlas_pack" := Encodes legacy ]};
       now := maxAge; background := [] |} in
  (loadFromCache browser "pack" 7).2 =
    Some {| atlas := []; uvMap := ∅; packingEfficiency := 50 |} ∧
  (loadFromCache
     (atTime (2 * maxAge) (settle 0 true (loadFromCache browser "pack" 7).1)) "pack" 7).2 =
    Some {| atlas := []; uvMap := delete "__proto__" ∅; packingEfficiency := 50 |}.
Proof.
  intros legacy browser.
  destruct (loadFromCache_migrates_legacy browser "pack" ∅ legacy [] 7)
    as (Hserved & _ & _ & _ & _ & Hlater); [done..|].
  split; [exact Hserved|]. change 0%nat with (length (background browser)).
  by rewrite Hlater.
Defined.

(** X9.  After [clearAllCaches] no key has a cached atlas: every
    [loadFromCache] misses, so a call of [buildAtlas] without textures
    rejects whatever the key; and [localStorage] items whose key does
    not start with [atlas_] are kept. *)
Theorem clearAllCaches_forgets atlasSize padding browser :
  (∀ key expected,
     loadFromCache (clearAllCaches browser) key expected =
       (clearAllCaches browser, None)) ∧
  (∀ cacheKey,
     (buildAtlas atlasSize padding (clearAllCaches browser) [] cacheKey).2 =
       Throws "No cache found and no textures provided") ∧
  (∀ key, JS.startsWith key "atlas_" = false →
     localStorage (clearAllCaches browser) !! key = localStorage browser !! key).
Proof.
  assert (Hmiss : ∀ key expected,
    loadFromCache (clearAllCaches browser) key expected = (clearAllCaches browser, None)).
  { intros key expected. apply loadFromCache_noEntry. split.
    - unfold clearAllCaches. cbn [indexedDB]. intros store Hstore.
      destruct (indexedDB browser); [|done]. by injection Hstore as <-.
    - unfold clearAllCaches. cbn [localStorage].
      apply map_lookup_filter_None. right. intros item _. cbn [fst].
      destruct key; by vm_compute. }
  split; [exact Hmiss|]. split.
  - intros [key|]; [|done]. unfold buildAtlas.
    destruct (givenKey (Some key)); [|done]. by rewrite Hmiss.
  - intros key Hkey. unfold clearAllCaches. cbn [localStorage].
    destruct (localStorage browser !! key) as [item|] eqn:Hitem.
    + by apply map_lookup_filter_Some.
    + apply map_lookup_filter_None. by left.
Qed.

(** ** Resource packs *)

Import ResourcePackManager PackFiles PackOrderSpec.

Lemma get_set_eq {V} (k : string) (v : V) (o : JS.Obj V) :
  JS.get k (JS.set k v o) = Some v.
Proof.
  induction o as [|[k' v'] o IH]; simpl.
  - by rewrite String.eqb_refl.
  - destruct (String.eqb_spec k' k) as [->|Hne]; simpl.
    + by rewrite String.eqb_refl.
    + by apply String.eqb_neq in Hne as ->.
Qed.

Lemma get_set_ne {V} (k k' : string) (v : V) (o : JS.Obj V) :
  k ≠ k' → JS.get k' (JS.set k v o) = JS.get k' o.
Proof.
  intros Hne. induction o as [|[k0 v0] o IH]; simpl.
  - by apply String.eqb_neq in Hne as ->.
  - destruct (String.eqb_spec k0 k) as [->|Hne0]; simpl.
    + by apply String.eqb_neq in Hne as ->.
    + by rewrite IH.
Qed.

Lemma get_remove_eq {V} (k : string) (o : JS.Obj V) : JS.get k (JS.remove k o) = None.
Proof.
  unfold JS.remove, JS.Obj. induction o as [|[k' v'] o IH]; [done|].
  rewrite filter_cons. cbn [fst]. destruct (decide (k' ≠ k)) as [Hne|Heq]; [|done].
  simpl. by apply String.eqb_neq in Hne as ->.
Qed.

Lemma get_remove_ne {V} (k k' : string) (o : JS.Obj V) :
  k ≠ k' → JS.get k' (JS.remove k o) = JS.get k' o.
Proof.
  intros Hne. unfold JS.remove, JS.Obj. induction o as [|[k0 v0] o IH]; [done|].
  rewrite filter_cons. cbn [fst]. destruct (decide (k0 ≠ k)) as [Hne0|Heq].
  - simpl. by rewrite IH.
  - apply dec_stable in Heq as ->. simpl.
    by apply String.eqb_neq in Hne as ->.
Qed.

Lemma mapM_packOf m (order : list string) :
  Forall (λ packId, is_Some (JS.get packId (packs m))) order →
  mapM (packOf m) order = Returns (omap (λ packId, JS.get packId (packs m)) order).
Proof.
  induction 1 as [|packId order [pack Hpack] _ IH]; [done|].
  cbn [mapM]. rewrite IH. unfold packOf. rewrite Hpack. simpl. by rewrite Hpack.
Qed.

Lemma omap_reverse {A B} (f : A → option B) (l : list A) :
  omap f (reverse l) = reverse (omap f l).
Proof.
  induction l as [|a l IH]; [done|].
  rewrite reverse_cons, omap_app, IH. simpl.
  destruct (f a); simpl; [by rewrite reverse_cons | by rewrite app_nil_r].
Qed.

Lemma assetFullPath_resourcePath assetPath type :
  assetFullPath assetPath type = "assets/minecraft/" +:+ resourcePath assetPath type.
Proof. by destruct type. Qed.

(** [getAssetSource] and the loop of [getResourceString] walk the same
    packs in the same order. *)
Lemma findAssetSource_readFirst m path (highestFirst : list string) :
  Forall (λ packId, is_Some (JS.get packId (packs m))) highestFirst →
  match findAssetSource m ("assets/minecraft/" +:+ path) highestFirst with
  | Returns (Some packId) =>
      ∃ pack, JS.get packId (packs m) = Some pack ∧ enabled (info pack) = true ∧
        ∃ outcome, zip pack !! ("assets/minecraft/" +:+ path) = Some outcome ∧
          (∀ content, outcome = Returns content →
             readFirst path
               ((λ pack, (pack_id (info pack), zip pack)) <$>
                  filter (λ pack, enabled (info pack) = true)
                    (omap (λ packId, JS.get packId (packs m)) highestFirst))
             = Some content)
  | Returns None =>
      readFirst path
        ((λ pack, (pack_id (info pack), zip pack)) <$>
           filter (λ pack, enabled (info pack) = true)
             (omap (λ packId, JS.get packId (packs m)) highestFirst))
      = None
  | Throws _ => False
  end.
Proof.
  induction 1 as [|packId rest [pack Hpack] _ IH]; [done|].
  cbn [findAssetSource]. unfold packOf. rewrite Hpack.
  change (omap ?f (packId :: rest)) with
    (match f packId with Some y => y :: omap f rest | None => omap f rest end).
  cbv beta. rewrite Hpack. cbn [mbind result_bind].
  rewrite filter_cons.
  destruct (enabled (info pack)) eqn:Henabled; cbn [negb].
  - rewrite decide_True by done. cbn [fmap list_fmap readFirst].
    destruct (zip pack !! ("assets/minecraft/" +:+ path)) as [outcome|] eqn:Hfile.
    + rewrite bool_decide_eq_true_2 by by eexists.
      exists pack. split; [done|]. split; [done|]. exists outcome. split; [done|].
      by intros content ->.
    + rewrite bool_decide_eq_false_2 by by intros [? ?]. exact IH.
  - rewrite decide_False by done. exact IH.
Qed.

Lemma getEnabledPacksInOrder_known m :
  orderKnown m →
  getEnabledPacksInOrder m =
    Returns ((λ pack, (pack_id (info pack), zip pack)) <$>
               filter (λ pack, enabled (info pack) = true) (orderedPacks m)).
Proof.
  intros Hknown. unfold getEnabledPacksInOrder. by rewrite mapM_packOf.
Qed.

(** X10.  The pack [getAssetSource] names is the pack [AssetLoader]
    reads from: with every id of the pack order loaded and the string
    not yet cached, [getResourceString] yields the file of the enabled
    pack standing last in the pack order among those that have it,
    provided it can be read, and nothing when no enabled pack has the
    file. *)
Theorem getResourceString_follows_pack_order loader m assetPath type :
  packManager loader = Some m →
  orderKnown m →
  stringCache loader !! ("string:" +:+ resourcePath assetPath type) = None →
  match getAssetSource m assetPath type with
  | Returns (Some packId) =>
      ∃ pack outcome,
        JS.get packId (packs m) = Some pack ∧ enabled (info pack) = true ∧
        zip pack !! assetFullPath assetPath type = Some outcome ∧
        ∀ content, outcome = Returns content →
          (getResourceString loader (resourcePath assetPath type)).2 =
            Returns (Some content)
  | Returns None =>
      (∃ pack, pack ∈ orderedPacks m ∧ enabled (info pack) = true) →
      (getResourceString loader (resourcePath assetPath type)).2 = Returns None
  | Throws _ => False
  end.
Proof.
  intros Hmanager Hknown Hcache. unfold getAssetSource.
  rewrite assetFullPath_resourcePath.
  set (path := resourcePath assetPath type) in *.
  pose proof (findAssetSource_readFirst m path (reverse (packOrder m))) as Hwalk.
  rewrite omap_reverse, filter_reverse, fmap_reverse in Hwalk.
  specialize (Hwalk (proj2 (Forall_reverse _ _) Hknown)).
  fold (orderedPacks m) in Hwalk.
  set (managed := (λ pack, (pack_id (info pack), zip pack)) <$>
                    filter (λ pack, enabled (info pack) = true) (orderedPacks m)) in *.
  assert (Hread : managed ≠ [] →
    (getResourceString loader path).2 = Returns (readFirst path (reverse managed))).
  { intros Hmanaged. unfold getResourceString. rewrite Hcache.
    unfold getOrderedPacks. rewrite Hmanager, getEnabledPacksInOrder_known by done.
    fold managed. cbn [mbind result_bind].
    destruct managed as [|first rest] eqn:Heq; [done|].
    by destruct (readFirst path (reverse (first :: rest))). }
  destruct (findAssetSource m _ _) as [[packId|]|]; [| |done].
  - destruct Hwalk as (pack & Hpack & Henabled & outcome & Hfile & Hcontent).
    exists pack, outcome. split; [done|]. split; [done|]. split; [done|].
    intros content ->. specialize (Hcontent content eq_refl).
    rewrite Hread; [by rewrite Hcontent|].
    intros Hnil. by rewrite Hnil in Hcontent.
  - intros (pack & Hin & Henabled). rewrite Hread; [by rewrite Hwalk|].
    intros Hnil. apply fmap_nil_inv in Hnil.
    assert (pack ∈ filter (λ pack, enabled (info pack) = true) (orderedPacks m)) as Hmem
      by (by apply list_elem_of_filter).
    rewrite Hnil in Hmem. by apply elem_of_nil in Hmem.
Qed.

Lemma getResourceString_follows_pack_order_witness :
  let packInfo (packId : string) (level : Z) :=
    {| pack_id := packId; pack_name := packId; priority := level; enabled := true;
       pack_size := 1; textureCount := 0; sourceUrl := None; pack_hash := packId |} in
  let file := "assets/minecraft/blockstates/stone.json" in
  let m :=
    withOrder ["low"; "high"]
      (withPacks
         [("high", {| info := packInfo "high" 1%Z; zip := {[ file := Returns "H" ]} |});
          ("low", {| info := packInfo "low" 0%Z; zip := {[ file := Returns "L" ]} |})]
         newManager) in
  let loader :=
    {| packManager := Some m; resourcePacks := ∅; resourcePackOrder := [];
       stringCache := ∅; cacheEnabled := true; resourcePackHash := "" |} in
  getAssetSource m "stone" Blockstate = Returns (Some "high") ∧
  (getResourceString loader "blockstates/stone.json").2 = Returns (Some "H").
Proof.
  intros packInfo file m loader.
  assert (Hsource : getAssetSource m "stone" Blockstate = Returns (Some "high"))
    by (vm_compute; reflexivity).
  split; [exact Hsource|].
  pose proof (getResourceString_follows_pack_order loader m "stone" Blockstate) as Hfollows.
  rewrite Hsource in Hfollows.
  destruct Hfollows as (pack & outcome & Hpack & _ & Hfile & Hcontent).
  - reflexivity.
  - repeat constructor; by eexists.
  - reflexivity.
  - injection Hpack as <-. injection Hfile as <-. by apply Hcontent.
Defined.

(** *** What a rebuild leaves alone *)

(** The store of a manager: everything but the record of its effects
    and the pending flag. *)
Lemma triggerRebuild_frame reason m :
  let after := (triggerRebuild reason m).1 in
  packs after = packs m ∧ packOrder after = packOrder m ∧
  autoRebuild after = autoRebuild m ∧ batchUpdateDepth after = batchUpdateDepth m ∧
  pendingRebuild after = pendingRebuild m ∧
  onAtlasRebuildNeeded after = onAtlasRebuildNeeded m ∧
  onMeshRebuildNeeded after = onMeshRebuildNeeded m.
Proof.
  unfold triggerRebuild, emit, update, inspect, callAtlasRebuild, callMeshRebuild.
  unfold mbind, action_bind. cbn [fst snd].
  destruct (getEnabledPacks _) as [enabledPacks|message]; [|by repeat split].
  cbn [withEffect onAtlasRebuildNeeded onMeshRebuildNeeded effects].
  destruct (onAtlasRebuildNeeded m) as [atlasCallback|] eqn:Hatlas.
  - destruct (atlasCallback _); cbn [fst withEffect onMeshRebuildNeeded];
      [|by repeat split].
    destruct (onMeshRebuildNeeded m) eqn:Hmesh; cbn [fst withEffect]; by repeat split.
  - cbn [withEffect onMeshRebuildNeeded].
    destruct (onMeshRebuildNeeded m) eqn:Hmesh; cbn [fst withEffect]; by repeat split.
Qed.

Lemma triggerRebuildIfNeeded_frame reason m :
  let after := (triggerRebuildIfNeeded reason m).1 in
  packs after = packs m ∧ packOrder after = packOrder m ∧
  autoRebuild after = autoRebuild m ∧ batchUpdateDepth after = batchUpdateDepth m ∧
  onAtlasRebuildNeeded after = onAtlasRebuildNeeded m ∧
  onMeshRebuildNeeded after = onMeshRebuildNeeded m.
Proof.
  unfold triggerRebuildIfNeeded. cbv zeta.
  destruct (0 <? batchUpdateDepth m)%nat; [by repeat split|].
  destruct (autoRebuild m) eqn:Hauto; [|by repeat split].
  pose proof (triggerRebuild_frame reason m) as H. cbv zeta in H.
  rewrite Hauto in H. tauto.
Qed.

(** With a batch open, a change only marks the rebuild as pending. *)
Lemma triggerRebuildIfNeeded_in_batch reason m :
  (0 < batchUpdateDepth m)%nat →
  triggerRebuildIfNeeded reason m = (withPending true m, Returns ()).
Proof.
  intros Hdepth. unfold triggerRebuildIfNeeded.
  by rewrite (proj2 (Nat.ltb_lt _ _)).
Qed.

(** A rebuild of a manager without packs announces no texture. *)
Lemma triggerRebuild_empty reason m :
  packOrder m = [] →
  triggerRebuild reason m =
    (_ ← callAtlasRebuild; callMeshRebuild)
      (withEffect (Emitted (AtlasRebuilding 0))
         (withEffect (Emitted (PacksChanged reason)) m)).
Proof.
  intros Horder. unfold triggerRebuild, emit, update, inspect.
  unfold mbind at 1 2 3, action_bind. cbn [fst snd].
  unfold getEnabledPacks, getAllPacks. cbn [withEffect packOrder]. rewrite Horder.
  reflexivity.
Qed.

(** *** Removing every pack *)

Lemma remove_absent {V} (k : string) (o : JS.Obj V) :
  k ∉ JS.keys o → JS.remove k o = o.
Proof.
  unfold JS.remove, JS.Obj, JS.keys. induction o as [|[k' v'] o IH]; [done|].
  rewrite fmap_cons, not_elem_of_cons. cbn [fst]. intros [Hne Hout].
  rewrite filter_cons_True by (cbn; congruence). by rewrite IH.
Qed.

(** The manager after the packs [entries], all it has, were removed
    one by one while a batch was open. *)
Lemma forEach_removePack (entries : JS.Obj LoadedPack) m :
  NoDup (JS.keys entries) →
  packs m = entries →
  (0 < batchUpdateDepth m)%nat →
  forEach (JS.keys entries) removePack m =
    ({| packs := [];
        packOrder := filter (λ packId, packId ∉ JS.keys entries) (packOrder m);
        autoRebuild := autoRebuild m;
        batchUpdateDepth := batchUpdateDepth m;
        pendingRebuild := match entries with [] => pendingRebuild m | _ => true end;
        onAtlasRebuildNeeded := onAtlasRebuildNeeded m;
        onMeshRebuildNeeded := onMeshRebuildNeeded m;
        effects :=
          (effects m ++
           ((λ entry, Emitted (PackRemoved entry.1 (pack_name (info entry.2))))
              <$> entries))%list |},
     Returns ()).
Proof.
  revert m. induction entries as [|[packId pack] entries IH]; intros m Hnd Hpacks Hdepth.
  - cbn [JS.keys fmap list_fmap forEach]. unfold mret, action_ret.
    f_equal. destruct m. cbn in *. subst. f_equal.
    + clear. induction packOrder0 as [|a l IHl]; [done|].
      rewrite filter_cons_True by apply not_elem_of_nil. by f_equal.
    + by rewrite app_nil_r.
  - cbn [JS.keys fmap list_fmap fst] in Hnd |- *. apply NoDup_cons in Hnd as [Hfresh Hnd].
    cbn [forEach]. unfold mbind at 1, action_bind.
    unfold removePack at 1. rewrite Hpacks. cbn [JS.get]. rewrite String.eqb_refl.
    unfold mbind at 1, action_bind. unfold emit, update. cbv zeta.
    rewrite triggerRebuildIfNeeded_in_batch by done.
    assert (Hrest : JS.remove packId ((packId, pack) :: entries) = entries).
    { unfold JS.remove, JS.Obj. rewrite filter_cons_False by (cbn; tauto).
      by apply (remove_absent packId entries). }
    rewrite Hrest. rewrite IH; [|done|done|done].
    f_equal. cbn [withPending withEffect withOrder withPacks packs packOrder autoRebuild
      batchUpdateDepth pendingRebuild onAtlasRebuildNeeded onMeshRebuildNeeded effects].
    f_equal.
    + rewrite list_filter_filter. apply list_filter_iff. intros other.
      rewrite not_elem_of_cons. tauto.
    + by destruct entries.
    + cbn [fmap list_fmap fst snd]. by rewrite <- app_assoc.
Qed.

(** X11.  [removeAllPacks], called outside a batch on a manager whose
    pack order names loaded packs only: no pack and no order are left,
    one [packRemoved] event per pack is emitted in load order, and the
    rebuild is triggered once, at the end, announcing 0 textures --
    however many packs there were; with no pack and no rebuild pending
    nothing happens at all. *)
Theorem removeAllPacks_one_rebuild m :
  batchUpdateDepth m = 0%nat →
  NoDup (JS.keys (packs m)) →
  orderKnown m →
  removeAllPacks m =
    if bool_decide (packs m = []) && negb (pendingRebuild m) then (m, Returns ())
    else
      (_ ← callAtlasRebuild; callMeshRebuild)
        {| packs := []; packOrder := [];
           autoRebuild := autoRebuild m; batchUpdateDepth := 0;
           pendingRebuild := false;
           onAtlasRebuildNeeded := onAtlasRebuildNeeded m;
           onMeshRebuildNeeded := onMeshRebuildNeeded m;
           effects :=
             (effects m ++
              ((λ entry, Emitted (PackRemoved entry.1 (pack_name (info entry.2))))
                 <$> packs m) ++
              [Emitted (PacksChanged "batch update completed");
               Emitted (AtlasRebuilding 0)])%list |}.
Proof.
  intros Hdepth Hnd Hknown. unfold removeAllPacks.
  unfold mbind at 1, action_bind. unfold beginBatchUpdate at 1, update.
  unfold mbind at 1, action_bind.
  rewrite (forEach_removePack (packs m)); [|done|done|cbn; lia].
  assert (Hgone : filter (λ packId, packId ∉ JS.keys (packs m))
                    (packOrder (withDepth (S (batchUpdateDepth m)) m)) = []).
  { cbn [withDepth packOrder]. unfold orderKnown in Hknown.
    induction Hknown as [|packId order Hid _ IH]; [done|].
    rewrite filter_cons_False; [done|].
    intros Hout. apply Hout. by apply get_is_Some_key. }
  rewrite Hgone. unfold endBatchUpdate.
  cbn [withDepth withPending batchUpdateDepth pendingRebuild packs packOrder autoRebuild
       onAtlasRebuildNeeded onMeshRebuildNeeded effects]. rewrite Hdepth.
  cbn [Nat.sub Nat.eqb andb].
  destruct (packs m) as [|entry entries] eqn:Hpacks.
  - rewrite bool_decide_eq_true_2 by done. cbn [andb fmap list_fmap].
    destruct (pendingRebuild m) eqn:Hpending; cbn [negb].
    + rewrite triggerRebuild_empty by done.
      f_equal. unfold withEffect, withPending, withDepth.
      cbn [packs packOrder autoRebuild batchUpdateDepth pendingRebuild
           onAtlasRebuildNeeded onMeshRebuildNeeded effects].
      f_equal. by rewrite <- !app_assoc.
    + f_equal. unfold orderKnown in Hknown. destruct m as [ps order ? ? ? ? ? fx].
      cbn in *. subst. unfold withDepth. cbn. rewrite app_nil_r.
      destruct order as [|packId order]; [done|].
      apply Forall_cons in Hknown as [[? Hnone] _]. discriminate Hnone.
  - rewrite bool_decide_eq_false_2 by done. cbn [andb].
    rewrite triggerRebuild_empty by done.
    f_equal. unfold withEffect, withPending, withDepth.
    cbn [packs packOrder autoRebuild batchUpdateDepth pendingRebuild
         onAtlasRebuildNeeded onMeshRebuildNeeded effects].
    f_equal. by rewrite <- !app_assoc.
Qed.

Lemma removeAllPacks_one_rebuild_witness :
  removeAllPacks PackExamples.twoPacks =
    ({| packs := []; packOrder := []; autoRebuild := true; batchUpdateDepth := 0;
        pendingRebuild := false; onAtlasRebuildNeeded := None;
        onMeshRebuildNeeded := None;
        effects := [Emitted (PackRemoved "low" "low"); Emitted (PackRemoved "high" "high");
                    Emitted (PacksChanged "batch update completed");
                    Emitted (AtlasRebuilding 0)] |},
     Returns ()).
Proof.
  rewrite removeAllPacks_one_rebuild.
  - reflexivity.
  - reflexivity.
  - cbn. nodup_strings.
  - repeat constructor; by eexists.
Defined.

(** *** Configurations *)

Lemma set_same {V} (k : string) (v : V) (o : JS.Obj V) :
  JS.get k o = Some v → JS.set k v o = o.
Proof.
  induction o as [|[k' v'] o IH]; [done|]. simpl.
  destruct (String.eqb_spec k' k) as [->|Hne].
  - by intros [= ->].
  - intros Hget. by rewrite IH.
Qed.

Lemma withPriority_withEnabled_same p :
  withPriority (priority p) (withEnabled (enabled p) p) = p.
Proof. by destruct p. Qed.

Lemma setInfo_same change packId m :
  (∀ pack, JS.get packId (packs m) = Some pack → change (info pack) = info pack) →
  setInfo change packId m = m.
Proof.
  intros Hsame. unfold setInfo.
  destruct (JS.get packId (packs m)) as [pack|] eqn:Hpack; [|done].
  rewrite (Hsame pack eq_refl).
  replace {| info := info pack; zip := zip pack |} with pack by (by destruct pack).
  rewrite set_same by done. by destruct m.
Qed.

Lemma endBatchUpdate_frame m :
  packs (endBatchUpdate m).1 = packs m ∧ packOrder (endBatchUpdate m).1 = packOrder m.
Proof.
  unfold endBatchUpdate. cbv zeta.
  destruct (_ && _); [|done].
  pose proof (triggerRebuild_frame "batch update completed"
                (withPending false (withDepth (batchUpdateDepth m - 1) m))) as H.
  cbv zeta in H. tauto.
Qed.

(** What [exportConfig] returns lists the packs of the pack order. *)
Lemma exportConfig_Returns m config :
  idsConsistent m →
  exportConfig m = Returns config →
  orderKnown m ∧
  config_id <$> config = packOrder m ∧
  Forall (λ packConfig,
            ∃ pack, JS.get (config_id packConfig) (packs m) = Some pack ∧
                    config_priority packConfig = priority (info pack) ∧
                    config_enabled packConfig = enabled (info pack)) config.
Proof.
  intros Hids. unfold exportConfig, orderKnown, packOf.
  generalize (packOrder m). intros order. revert config.
  induction order as [|packId order IH]; intros config.
  - cbn. intros [= <-]. by repeat split.
  - cbn [mapM].
    destruct (JS.get packId (packs m)) as [pack|] eqn:Hpack; [|by cbn].
    cbn [mbind result_bind].
    destruct (mapM _ order) as [rest|]; [|by cbn]. cbn. intros [= <-].
    destruct (IH rest eq_refl) as (Hknown & Hidsrest & Hall).
    assert (Hid : pack_id (info pack) = packId).
    { apply get_Some_elem_of in Hpack. unfold idsConsistent in Hids.
      rewrite Forall_forall in Hids. apply (Hids _ Hpack). }
    split; [constructor; [by eexists | done]|].
    split; [cbn; by rewrite Hid, Hidsrest|].
    constructor; [|done]. cbn. exists pack. by rewrite Hid.
Qed.

(** X12.  Importing the configuration a manager exports changes neither
    its packs (enabled states and priorities included) nor its pack
    order. *)
Theorem importConfig_exportConfig m config :
  idsConsistent m →
  exportConfig m = Returns config →
  packs (importConfig config m).1 = packs m ∧
  packOrder (importConfig config m).1 = packOrder m.
Proof.
  intros Hids Hexport.
  destruct (exportConfig_Returns m config Hids Hexport) as (Hknown & Hconfig & Hall).
  unfold importConfig. unfold mbind, action_bind, beginBatchUpdate, update.
  set (opened := withDepth (S (batchUpdateDepth m)) m).
  assert (Hfold : foldl (λ m packConfig,
                    setInfo (λ p, withPriority (config_priority packConfig)
                                    (withEnabled (config_enabled packConfig) p))
                            (config_id packConfig) m) opened config = opened).
  { assert (Hopened : packs opened = packs m) by done.
    clear Hconfig Hexport. revert Hopened. generalize opened. clear opened.
    induction Hall as [|packConfig config (pack & Hpack & Hpriority & Henabled) _ IH];
      intros opened Hopened; [done|].
    cbn [foldl]. rewrite setInfo_same; [by apply IH|].
    intros pack'. rewrite Hopened, Hpack. intros [= <-].
    rewrite Hpriority, Henabled. apply withPriority_withEnabled_same. }
  rewrite Hfold.
  destruct (endBatchUpdate_frame
    (withOrder (filter (λ packId, is_Some (JS.get packId (packs opened)))
                  (config_id <$> config)) opened)) as [Hpacks Horder].
  split; [exact Hpacks|]. rewrite Horder. cbn [withOrder packOrder].
  rewrite Hconfig. unfold orderKnown in Hknown.
  clear -Hknown. cbn [opened withDepth packs].
  induction Hknown as [|packId order Hid _ IH]; [done|].
  rewrite filter_cons_True by done. by f_equal.
Qed.

Lemma importConfig_exportConfig_witness :
  ∃ config,
    exportConfig PackExamples.twoPacks = Returns config ∧
    packs (importConfig config PackExamples.twoPacks).1 = packs PackExamples.twoPacks ∧
    packOrder (importConfig config PackExamples.twoPacks).1 = ["low"; "high"].
Proof.
  eexists. split; [reflexivity|].
  apply importConfig_exportConfig; [|reflexivity].
  by repeat constructor.
Defined.

(** *** Loading a pack *)

Lemma foldl_max_le (first : Z) (rest : list Z) :
  (first ≤ foldl Z.max first rest)%Z ∧ Forall (λ p, (p ≤ foldl Z.max first rest)%Z) rest.
Proof.
  revert first. induction rest as [|p rest IH]; intros first; [by split|].
  cbn [foldl]. destruct (IH (Z.max first p)) as [Hfirst Hrest].
  split; [lia|]. constructor; [lia|done].
Qed.

(** [getNextPriority] is above the priority of every loaded pack. *)
Lemma getNextPriority_above m packId pack :
  JS.get packId (packs m) = Some pack →
  (priority (info pack) < getNextPriority m)%Z.
Proof.
  intros Hpack%get_Some_elem_of. unfold getNextPriority.
  apply (list_elem_of_fmap_2 (λ entry, priority (info entry.2))) in Hpack.
  cbn [snd] in Hpack.
  destruct ((λ entry, priority (info entry.2)) <$> packs m) as [|first rest];
    [by apply elem_of_nil in Hpack|].
  destruct (foldl_max_le first rest) as [Hfirst Hrest].
  apply elem_of_cons in Hpack as [->|Hin]; [lia|].
  rewrite Forall_forall in Hrest. specialize (Hrest _ Hin). lia.
Qed.

Lemma insertIndex_top m newPriority (order : list string) :
  (∀ packId pack, JS.get packId (packs m) = Some pack →
     (priority (info pack) ≤ newPriority)%Z) →
  insertIndex m newPriority order = length order.
Proof.
  intros Hbelow. induction order as [|packId order IH]; [done|].
  cbn [insertIndex length].
  destruct (JS.get packId (packs m)) as [pack|] eqn:Hpack; [|by rewrite IH].
  specialize (Hbelow _ _ Hpack).
  rewrite (proj2 (Z.ltb_ge _ _)) by done. by rewrite IH.
Qed.

(** X13.  A pack loaded without a priority of its own goes on top: it
    gets a priority above that of every loaded pack and the last place
    in the pack order, and, being enabled unless the options say
    otherwise, it is then the source of every asset it contains. *)
Theorem loadPackInternal_on_top m source packId archive :
  find (λ entry, bool_decide (pack_hash (info entry.2) = source_hash source)) (packs m) = None →
  source_zip source = Returns archive →
  option_priority source = None →
  let after := (loadPackInternal source packId m).1 in
  packOrder after = (packOrder m ++ [packId])%list ∧
  (∃ pack, JS.get packId (packs after) = Some pack ∧ zip pack = archive ∧
           priority (info pack) = getNextPriority m ∧
           enabled (info pack) = default true (option_enabled source)) ∧
  (∀ other pack, JS.get other (packs m) = Some pack →
     (priority (info pack) < getNextPriority m)%Z) ∧
  (∀ assetPath type,
     option_enabled source ≠ Some false →
     is_Some (archive !! assetFullPath assetPath type) →
     getAssetSource after assetPath type = Returns (Some packId)).
Proof.
  intros Hnew Hzip Hpriority after.
  set (packInfo :=
    {| pack_id := packId; pack_name := source_name source;
       priority := getNextPriority m;
       enabled := default true (option_enabled source);
       pack_size := source_size source; textureCount := source_textures source;
       sourceUrl := option_sourceUrl source; pack_hash := source_hash source |}).
  set (stored := withPacks (JS.set packId {| info := packInfo; zip := archive |} (packs m)) m).
  assert (Hafter : packs after = packs stored ∧
                   packOrder after = (packOrder m ++ [packId])%list).
  { subst after. unfold loadPackInternal. rewrite Hnew, Hzip, Hpriority.
    cbn [default]. fold packInfo. fold stored.
    unfold mbind, action_bind, emit, update.
    destruct (triggerRebuildIfNeeded_frame "pack added"
      (withEffect (Emitted (PackAdded packId packInfo))
         (insertPackByPriority packId (getNextPriority m) stored)))
      as (Hpacks & Horder & _).
    destruct (triggerRebuildIfNeeded _ _) as [final outcome].
    cbn [fst] in Hpacks, Horder.
    assert (packs final = packs stored ∧
            packOrder final = (packOrder m ++ [packId])%list) as Hfinal.
    { rewrite Hpacks, Horder. split; [done|]. unfold insertPackByPriority.
      cbn [withEffect withOrder packOrder stored withPacks].
      rewrite insertIndex_top; [by rewrite take_ge, drop_ge by lia|].
      intros other pack. cbn [stored withPacks packs].
      destruct (decide (packId = other)) as [<-|Hne].
      - rewrite get_set_eq. by intros [= <-].
      - rewrite get_set_ne by done. intros Hget%getNextPriority_above. lia. }
    by destruct outcome as [[]|message]. }
  destruct Hafter as [Hpacks Horder].
  assert (Hstored : JS.get packId (packs after) = Some {| info := packInfo; zip := archive |}).
  { rewrite Hpacks. apply get_set_eq. }
  split; [done|]. split; [by eexists|]. split; [apply getNextPriority_above|].
  intros assetPath type Henabled Hfile. unfold getAssetSource.
  rewrite Horder, reverse_app. cbn [reverse rev_append app findAssetSource].
  unfold packOf. rewrite Hstored. cbn [mbind result_bind info zip enabled packInfo].
  destruct (option_enabled source) as [[]|]; [|done|]; cbn [default negb];
    by rewrite bool_decide_eq_true_2.
Qed.

Lemma loadPackInternal_on_top_witness :
  packOrder (loadPackInternal PackExamples.thirdSource "third" PackExamples.twoPacks).1 =
    ["low"; "high"; "third"] ∧
  getAssetSource (loadPackInternal PackExamples.thirdSource "third" PackExamples.twoPacks).1
    "stone" Blockstate = Returns (Some "third").
Proof.
  destruct (loadPackInternal_on_top PackExamples.twoPacks PackExamples.thirdSource
              "third" {[ PackExamples.stoneFile := Returns "T" ]})
    as (Horder & _ & _ & Hsource); [reflexivity..|].
  split; [exact Horder|]. apply Hsource; [done|].
  vm_compute. by eexists.
Defined.

(** X14.  Loading a blob whose hash is that of a loaded pack adds
    nothing -- packs, pack order and the rebuild state stay as they are
    and only [loadStart] and [loadComplete] are emitted -- yet the
    promise resolves to the id made for the new load, which is the id of
    no pack. *)
Theorem loadPackFromBlob_duplicate m source packId existing :
  find (λ entry, bool_decide (pack_hash (info entry.2) = source_hash source)) (packs m)
    = Some existing →
  packId ∉ JS.keys (packs m) →
  loadPackFromBlob source packId m =
    (withEffect (Emitted (LoadComplete packId (info existing.2)))
       (withEffect (Emitted (LoadStart packId "blob")) m),
     Returns packId) ∧
  getPack (loadPackFromBlob source packId m).1 packId = None ∧
  packs (loadPackFromBlob source packId m).1 = packs m ∧
  packOrder (loadPackFromBlob source packId m).1 = packOrder m.
Proof.
  intros Hfound Hfresh.
  assert (Hload : loadPackFromBlob source packId m =
    (withEffect (Emitted (LoadComplete packId (info existing.2)))
       (withEffect (Emitted (LoadStart packId "blob")) m), Returns packId)).
  { unfold loadPackFromBlob, loadPackInternal. cbn [withEffect packs nameOnly source_hash].
    by rewrite Hfound. }
  rewrite Hload. split; [done|]. cbn [fst]. split; [|done].
  unfold getPack. cbn [withEffect packs].
  apply get_None_not_key in Hfresh. by rewrite Hfresh.
Qed.

Lemma loadPackFromBlob_duplicate_witness :
  let again :=
    {| source_hash := "hash of low"; source_zip := Returns ∅; source_size := 1;
       source_name := "again"; source_textures := 0; option_priority := None;
       option_enabled := None; option_sourceUrl := None |} in
  (loadPackFromBlob again "pack_2" PackExamples.twoPacks).2 = Returns "pack_2" ∧
  getPack (loadPackFromBlob again "pack_2" PackExamples.twoPacks).1 "pack_2" = None.
Proof.
  intros again.
  destruct (loadPackFromBlob_duplicate PackExamples.twoPacks again "pack_2"
              ("low", PackExamples.examplePack "low" 0 "L"))
    as (Hload & Hnone & _); [reflexivity | cbn; not_in_list |].
  split; [by rewrite Hload | exact Hnone].
Defined.

(** *** Moving a pack *)

Lemma set_set_eq {V} (k : string) (v1 v2 : V) (o : JS.Obj V) :
  JS.set k v2 (JS.set k v1 o) = JS.set k v2 o.
Proof.
  induction o as [|[k' v'] o IH]; simpl.
  - by rewrite String.eqb_refl.
  - destruct (String.eqb_spec k' k) as [->|Hne]; simpl.
    + by rewrite String.eqb_refl.
    + apply String.eqb_neq in Hne as Hneb. rewrite Hneb. by rewrite IH.
Qed.

Lemma set_set_ne {V} (k1 k2 : string) (v1 v2 : V) (o : JS.Obj V) :
  k1 ≠ k2 → is_Some (JS.get k1 o) → is_Some (JS.get k2 o) →
  JS.set k1 v1 (JS.set k2 v2 o) = JS.set k2 v2 (JS.set k1 v1 o).
Proof.
  intros Hne. induction o as [|[k' v'] o IH]; simpl; [by intros [? ?]|].
  destruct (String.eqb_spec k' k1) as [->|Hne1];
    destruct (String.eqb_spec k1 k2) as [?|_]; try done.
  - intros _ _. simpl. rewrite String.eqb_refl.
    by apply String.eqb_neq in Hne as ->.
  - destruct (String.eqb_spec k' k2) as [->|Hne2]; intros H1 H2; simpl.
    + apply String.eqb_neq in Hne1 as ->. by rewrite String.eqb_refl.
    + apply String.eqb_neq in Hne1 as ->. apply String.eqb_neq in Hne2 as ->.
      by rewrite IH.
Qed.

Lemma indexOf_first (order : list string) (i : nat) packId :
  (∀ j : nat, (j < i)%nat → order !! j ≠ Some packId) →
  order !! i = Some packId → indexOf packId order = Some i.
Proof.
  revert i. induction order as [|other order IH]; intros i Hfirst Hi; [done|].
  cbn [indexOf]. destruct i as [|i]; cbn in Hi.
  - injection Hi as ->. by rewrite String.eqb_refl.
  - destruct (String.eqb_spec other packId) as [->|Hne].
    + by destruct (Hfirst 0%nat ltac:(lia)).
    + rewrite (IH i); [done| |done]. intros j Hj. apply (Hfirst (S j)). lia.
Qed.

Lemma indexOf_lookup (order : list string) (i : nat) packId :
  NoDup order → order !! i = Some packId → indexOf packId order = Some i.
Proof.
  intros Hnd Hi. apply indexOf_first; [|done].
  intros j Hj Hsame. pose proof (NoDup_lookup _ _ _ _ Hnd Hi Hsame). lia.
Qed.

Lemma setInfo_known change packId pack m :
  JS.get packId (packs m) = Some pack →
  setInfo change packId m =
    withPacks (JS.set packId {| info := change (info pack); zip := zip pack |} (packs m)) m.
Proof. intros Hpack. unfold setInfo. by rewrite Hpack. Qed.

(** The swap of two neighbours in the pack order. *)
Lemma swapWith_known packId otherId index other reason current neighbour m :
  packOrder m !! other = Some otherId →
  packId ≠ otherId →
  JS.get packId (packs m) = Some current →
  JS.get otherId (packs m) = Some neighbour →
  packs (swapWith packId index other reason m).1 =
    JS.set otherId {| info := withPriority (priority (info current)) (info neighbour);
                      zip := zip neighbour |}
      (JS.set packId {| info := withPriority (priority (info neighbour)) (info current);
                        zip := zip current |} (packs m)) ∧
  packOrder (swapWith packId index other reason m).1 =
    <[other := packId]> (<[index := otherId]> (packOrder m)).
Proof.
  intros Hother Hne Hcurrent Hneighbour. unfold swapWith.
  rewrite Hother, Hneighbour, Hcurrent. cbv zeta.
  unfold mbind, action_bind, emit, update.
  rewrite (setInfo_known _ packId current) by done.
  rewrite (setInfo_known _ otherId neighbour)
    by (cbn [withPacks packs]; by rewrite get_set_ne).
  match goal with
  | |- context [triggerRebuildIfNeeded reason ?x] =>
      destruct (triggerRebuildIfNeeded_frame reason x) as (Hpacks & Horder & _);
      destruct (triggerRebuildIfNeeded reason x) as [final outcome]
  end.
  cbn [fst] in *. rewrite Hpacks, Horder. done.
Qed.

(** X15.  Moving a pack up and then down again restores the pack order
    and the priorities: for a pack that is not the last of an order
    naming loaded packs once each, [movePackUp] followed by
    [movePackDown] leaves packs and pack order as they were, and in
    between the pack has changed places and priorities with the pack
    above it. *)
Theorem movePackUp_movePackDown m (index : nat) packId otherId :
  NoDup (packOrder m) →
  orderKnown m →
  packOrder m !! index = Some packId →
  packOrder m !! S index = Some otherId →
  let moved := (movePackUp packId m).1 in
  packOrder moved = <[S index := packId]> (<[index := otherId]> (packOrder m)) ∧
  priority <$> getPack moved packId = priority <$> getPack m otherId ∧
  priority <$> getPack moved otherId = priority <$> getPack m packId ∧
  packs (movePackDown packId moved).1 = packs m ∧
  packOrder (movePackDown packId moved).1 = packOrder m.
Proof.
  intros Hnd Hknown Hindex Hother moved.
  assert (Hne : packId ≠ otherId).
  { intros ->. pose proof (NoDup_lookup _ _ _ _ Hnd Hindex Hother). lia. }
  unfold orderKnown in Hknown. rewrite Forall_forall in Hknown.
  destruct (Hknown packId) as [current Hcurrent]; [by eapply list_elem_of_lookup_2|].
  destruct (Hknown otherId) as [neighbour Hneighbour]; [by eapply list_elem_of_lookup_2|].
  pose proof (lookup_lt_Some _ _ _ Hother) as Hlength.
  assert (Hup : movePackUp packId m = swapWith packId index (S index) "pack moved up" m).
  { unfold movePackUp. rewrite (indexOf_lookup _ index) by done.
    rewrite bool_decide_eq_false_2 by lia. done. }
  destruct (swapWith_known packId otherId index (S index) "pack moved up"
              current neighbour m) as [Hpacks1 Horder1]; [done..|].
  subst moved. rewrite Hup.
  set (moved := (swapWith packId index (S index) "pack moved up" m).1) in *.
  split; [done|].
  assert (Hcurrent1 : JS.get packId (packs moved) =
            Some {| info := withPriority (priority (info neighbour)) (info current);
                    zip := zip current |}).
  { rewrite Hpacks1, get_set_ne by done. apply get_set_eq. }
  assert (Hneighbour1 : JS.get otherId (packs moved) =
            Some {| info := withPriority (priority (info current)) (info neighbour);
                    zip := zip neighbour |}).
  { rewrite Hpacks1. apply get_set_eq. }
  split; [unfold getPack; by rewrite Hcurrent1, Hneighbour|].
  split; [unfold getPack; by rewrite Hneighbour1, Hcurrent|].
  assert (Hindex1 : packOrder moved !! S index = Some packId).
  { rewrite Horder1. apply list_lookup_insert_eq. by rewrite length_insert. }
  assert (Hother1 : packOrder moved !! index = Some otherId).
  { rewrite Horder1, list_lookup_insert_ne by lia.
    apply list_lookup_insert_eq. lia. }
  assert (Hdown : movePackDown packId moved =
            swapWith packId (S index) index "pack moved down" moved).
  { unfold movePackDown. rewrite (indexOf_first _ (S index)); [done| |done].
    intros j Hj. rewrite Horder1.
    destruct (decide (j = index)) as [->|Hji].
    - rewrite list_lookup_insert_ne by lia.
      rewrite list_lookup_insert_eq by lia. congruence.
    - rewrite !list_lookup_insert_ne by lia. intros Hsame.
      pose proof (NoDup_lookup _ _ _ _ Hnd Hindex Hsame). lia. }
  rewrite Hdown.
  destruct (swapWith_known packId otherId (S index) index "pack moved down" _ _ moved
              Hother1 Hne Hcurrent1 Hneighbour1) as [Hpacks2 Horder2].
  split.
  - rewrite Hpacks2, Hpacks1. cbn [info zip].
    rewrite (set_set_ne packId otherId);
      [|done|rewrite get_set_eq; by eexists
       |rewrite get_set_ne by done; by rewrite Hneighbour].
    rewrite (set_set_eq packId), (set_set_eq otherId).
    replace {| info := withPriority (priority (withPriority (priority (info neighbour))
                                                 (info current)))
                         (withPriority (priority (info current)) (info neighbour));
               zip := zip neighbour |} with neighbour
      by (by destruct neighbour as [[] ?]).
    replace {| info := withPriority (priority (withPriority (priority (info current))
                                                 (info neighbour)))
                         (withPriority (priority (info neighbour)) (info current));
               zip := zip current |} with current
      by (by destruct current as [[] ?]).
    rewrite (set_same packId current) by done.
    by rewrite (set_same otherId neighbour).
  - rewrite Horder2, Horder1.
    rewrite list_insert_insert_eq.
    rewrite (list_insert_insert_ne _ (S index) index) by lia.
    rewrite list_insert_insert_eq.
    rewrite (list_insert_id _ (S index)) by done.
    by rewrite list_insert_id.
Qed.

Lemma movePackUp_movePackDown_witness :
  packOrder (movePackUp "low" PackExamples.twoPacks).1 = ["high"; "low"] ∧
  packs (movePackDown "low" (movePackUp "low" PackExamples.twoPacks).1).1 =
    packs PackExamples.twoPacks ∧
  packOrder (movePackDown "low" (movePackUp "low" PackExamples.twoPacks).1).1 =
    ["low"; "high"].
Proof.
  destruct (movePackUp_movePackDown PackExamples.twoPacks 0 "low" "high")
    as (Hmoved & _ & _ & Hpacks & Horder).
  - cbn. nodup_strings.
  - repeat constructor; by eexists.
  - reflexivity.
  - reflexivity.
  - done.
Defined.

(** *** The pack order stays sorted *)

Lemma orderedPacks_known m :
  orderKnown m →
  (λ pack, priority (info pack)) <$> orderedPacks m = priorityOf m <$> packOrder m.
Proof.
  unfold orderKnown, orderedPacks, priorityOf. generalize (packOrder m).
  induction 1 as [|packId order [pack Hpack] _ IH]; [done|].
  change (omap ?f (packId :: order)) with
    (match f packId with Some y => y :: omap f order | None => omap f order end).
  cbv beta. rewrite Hpack. cbn [fmap list_fmap]. rewrite Hpack. cbn. by f_equal.
Qed.

Lemma wellOrdered_alt m :
  wellOrdered m ↔
  orderKnown m ∧ NoDup (packOrder m) ∧
  StronglySorted Z.le (priorityOf m <$> packOrder m).
Proof.
  unfold wellOrdered, sortedByPriority. split.
  - intros (Hknown & Hnd & Hsorted). split; [done|]. split; [done|].
    rewrite <- orderedPacks_known by done.
    apply Sorted_StronglySorted; [intros x y z ? ?; lia | done].
  - intros (Hknown & Hnd & Hsorted). split; [done|]. split; [done|].
    rewrite orderedPacks_known by done. by apply StronglySorted_Sorted.
Qed.

(** A manager whose pack order and priorities are those of another. *)
Lemma wellOrdered_same m m' :
  packOrder m' = packOrder m →
  (∀ packId, packId ∈ packOrder m →
     is_Some (JS.get packId (packs m')) ∧ priorityOf m' packId = priorityOf m packId) →
  wellOrdered m → wellOrdered m'.
Proof.
  rewrite !wellOrdered_alt. intros Horder Hsame (Hknown & Hnd & Hsorted).
  unfold orderKnown in *. rewrite Horder. split; [|split; [done|]].
  - apply Forall_forall. intros packId Hin. by apply Hsame.
  - erewrite list_fmap_ext; [exact Hsorted|].
    intros i packId Hi. apply Hsame. by eapply list_elem_of_lookup_2.
Qed.

Lemma StronglySorted_filter_fmap (f : string → Z) (P : string → Prop)
    `{!∀ x, Decision (P x)} (order : list string) :
  StronglySorted Z.le (f <$> order) → StronglySorted Z.le (f <$> filter P order).
Proof.
  induction order as [|packId order IH]; [done|].
  rewrite fmap_cons. intros [Hall Hsorted]%StronglySorted_cons.
  rewrite filter_cons. destruct (decide (P packId)); [|by apply IH].
  rewrite fmap_cons. apply StronglySorted_cons. split; [|by apply IH].
  rewrite Forall_fmap in Hall |- *. rewrite Forall_forall in Hall |- *.
  intros other [_ Hin]%list_elem_of_filter. by apply Hall.
Qed.

(** Removing a pack. *)
Lemma wellOrdered_remove m m' packId :
  packs m' = JS.remove packId (packs m) →
  packOrder m' = filter (λ other, other ≠ packId) (packOrder m) →
  wellOrdered m → wellOrdered m'.
Proof.
  rewrite !wellOrdered_alt. intros Hpacks Horder (Hknown & Hnd & Hsorted).
  unfold orderKnown in *. rewrite Horder.
  assert (Hother : ∀ other, other ≠ packId →
            JS.get other (packs m') = JS.get other (packs m)).
  { intros other Hne. rewrite Hpacks. by apply get_remove_ne. }
  split; [|split].
  - apply Forall_forall. intros other [Hne Hin]%list_elem_of_filter.
    rewrite Hother by done. rewrite Forall_forall in Hknown. by apply Hknown.
  - by apply NoDup_filter.
  - erewrite list_fmap_ext; [by apply StronglySorted_filter_fmap|].
    intros i other [Hne _]%list_elem_of_lookup_2%list_elem_of_filter.
    unfold priorityOf. by rewrite Hother.
Qed.

(** Splicing a pack in at the place [insertPackByPriority] finds. *)
Lemma insert_sorted m newPriority packId (order : list string) :
  priorityOf m packId = newPriority →
  Forall (λ other, is_Some (JS.get other (packs m))) order →
  StronglySorted Z.le (priorityOf m <$> order) →
  let i := insertIndex m newPriority order in
  StronglySorted Z.le (priorityOf m <$> (take i order ++ packId :: drop i order)%list).
Proof.
  intros Hnew. induction 1 as [|other order [pack Hpack] Hknown IH].
  - intros _. cbn. repeat constructor.
  - rewrite fmap_cons. intros [Hall Hsorted]%StronglySorted_cons.
    cbn [insertIndex]. rewrite Hpack.
    assert (Hprio : priorityOf m other = priority (info pack))
      by (unfold priorityOf; by rewrite Hpack).
    destruct (Z.ltb_spec newPriority (priority (info pack))) as [Hlt|Hge].
    + cbn [take drop app]. rewrite !fmap_cons. apply StronglySorted_cons. split.
      * rewrite Hnew. constructor; [lia|].
        eapply Forall_impl; [exact Hall|]. intros p Hp. cbn in Hp. lia.
      * apply StronglySorted_cons. by split.
    + cbn [take drop app]. rewrite fmap_cons. apply StronglySorted_cons.
      split; [|by apply IH].
      rewrite fmap_app, fmap_cons. apply Forall_app. split; [|constructor].
      * rewrite fmap_take. by apply Forall_take.
      * rewrite Hnew. lia.
      * rewrite fmap_drop. by apply Forall_drop.
Qed.

Lemma wellOrdered_insert m m' packId pack :
  (∀ other, other ≠ packId → JS.get other (packs m') = JS.get other (packs m)) →
  JS.get packId (packs m') = Some pack →
  (let base := filter (λ other, other ≠ packId) (packOrder m) in
   let i := insertIndex m' (priority (info pack)) base in
   packOrder m' = (take i base ++ packId :: drop i base)%list) →
  wellOrdered m → wellOrdered m'.
Proof.
  rewrite !wellOrdered_alt. intros Hother Hpack Horder (Hknown & Hnd & Hsorted).
  cbv zeta in Horder. unfold orderKnown in *.
  set (base := filter (λ other, other ≠ packId) (packOrder m)) in *.
  assert (Hbase : Forall (λ other, other ≠ packId ∧ is_Some (JS.get other (packs m'))) base).
  { apply Forall_forall. intros other [Hne Hin]%list_elem_of_filter.
    split; [done|]. rewrite Hother by done. rewrite Forall_forall in Hknown. by apply Hknown. }
  assert (Hbase_sorted : StronglySorted Z.le (priorityOf m' <$> base)).
  { erewrite list_fmap_ext; [by apply StronglySorted_filter_fmap|].
    intros i other [Hne _]%list_elem_of_lookup_2%list_elem_of_filter.
    unfold priorityOf. by rewrite Hother. }
  rewrite Horder. split; [|split].
  - apply Forall_app. split; [|constructor; [by eexists|]].
    + apply Forall_take. eapply Forall_impl; [exact Hbase|]. by intros ? [_ ?].
    + apply Forall_drop. eapply Forall_impl; [exact Hbase|]. by intros ? [_ ?].
  - assert (Hperm : (take (insertIndex m' (priority (info pack)) base) base ++
                     packId :: drop (insertIndex m' (priority (info pack)) base) base)%list
                    ≡ₚ packId :: base).
    { rewrite <- Permutation_middle. by rewrite take_drop. }
    rewrite Hperm. apply NoDup_cons. split; [|by apply NoDup_filter].
    intros [Hne _]%list_elem_of_filter. done.
  - apply insert_sorted; [unfold priorityOf; by rewrite Hpack| |done].
    eapply Forall_impl; [exact Hbase|]. by intros ? [_ ?].
Qed.

(** Two packs changing places and priorities. *)
Lemma wellOrdered_swap m m' (i j : nat) packId otherId current neighbour newCurrent newNeighbour :
  i ≠ j →
  packOrder m !! i = Some packId →
  packOrder m !! j = Some otherId →
  JS.get packId (packs m) = Some current →
  JS.get otherId (packs m) = Some neighbour →
  priority (info newCurrent) = priority (info neighbour) →
  priority (info newNeighbour) = priority (info current) →
  packs m' = JS.set otherId newNeighbour (JS.set packId newCurrent (packs m)) →
  packOrder m' = <[j := packId]> (<[i := otherId]> (packOrder m)) →
  wellOrdered m → wellOrdered m'.
Proof.
  rewrite !wellOrdered_alt.
  intros Hij Hi Hj Hcurrent Hneighbour Hp1 Hp2 Hpacks Horder (Hknown & Hnd & Hsorted).
  assert (Hne : packId ≠ otherId).
  { intros ->. pose proof (NoDup_lookup _ _ _ _ Hnd Hi Hj). lia. }
  pose proof (lookup_lt_Some _ _ _ Hi) as Hilt.
  pose proof (lookup_lt_Some _ _ _ Hj) as Hjlt.
  assert (Hlook : ∀ n : nat, packOrder m' !! n =
            packOrder m !! (if decide (n = j) then i else if decide (n = i) then j else n)).
  { intros n. rewrite Horder. destruct (decide (n = j)) as [->|Hnj].
    - rewrite list_lookup_insert_eq by (by rewrite length_insert). done.
    - rewrite list_lookup_insert_ne by done. destruct (decide (n = i)) as [->|Hni].
      + by rewrite list_lookup_insert_eq.
      + by rewrite list_lookup_insert_ne. }
  assert (Hget : ∀ other,
            JS.get other (packs m') =
              if decide (other = otherId) then Some newNeighbour
              else if decide (other = packId) then Some newCurrent
              else JS.get other (packs m)).
  { intros other. rewrite Hpacks. destruct (decide (other = otherId)) as [->|Hno].
    - apply get_set_eq.
    - rewrite get_set_ne by done. destruct (decide (other = packId)) as [->|Hnp].
      + apply get_set_eq.
      + by rewrite get_set_ne. }
  unfold orderKnown in *. split; [|split].
  - apply Forall_forall. intros other [n Hn]%list_elem_of_lookup_1.
    rewrite Hlook in Hn. apply list_elem_of_lookup_2 in Hn.
    rewrite Hget. repeat case_decide; [by eexists..|].
    rewrite Forall_forall in Hknown. by apply Hknown.
  - apply NoDup_alt. intros n1 n2 other. rewrite !Hlook. intros H1 H2.
    pose proof (NoDup_lookup _ _ _ _ Hnd H1 H2). repeat case_decide; lia.
  - replace (priorityOf m' <$> packOrder m') with (priorityOf m <$> packOrder m); [done|].
    apply list_eq. intros n. rewrite !list_lookup_fmap, Hlook.
    unfold priorityOf.
    destruct (decide (n = j)) as [->|Hnj].
    { rewrite Hi, Hj. cbn. rewrite Hget, Hneighbour.
      rewrite decide_False by done. rewrite decide_True by done. cbn. by rewrite Hp1. }
    destruct (decide (n = i)) as [->|Hni].
    { rewrite Hi, Hj. cbn. rewrite Hget, Hcurrent.
      rewrite decide_True by done. cbn. by rewrite Hp2. }
    destruct (packOrder m !! n) as [other|] eqn:Hn; [|done]. cbn. rewrite Hget.
    rewrite decide_False; [rewrite decide_False; [done|]|].
    + intros ->. pose proof (NoDup_lookup _ _ _ _ Hnd Hi Hn). lia.
    + intros ->. pose proof (NoDup_lookup _ _ _ _ Hnd Hj Hn). lia.
Qed.

(** Numbering the packs of a list. *)
Lemma numberPacks_frame (packIds : list string) start m :
  packOrder (numberPacks packIds start m) = packOrder m ∧
  (∀ other, is_Some (JS.get other (packs (numberPacks packIds start m))) ↔
            is_Some (JS.get other (packs m))) ∧
  (∀ other, other ∉ packIds →
     JS.get other (packs (numberPacks packIds start m)) = JS.get other (packs m)).
Proof.
  revert start m. induction packIds as [|packId packIds IH]; intros start m; [done|].
  cbn [numberPacks].
  destruct (IH (start + 1)%Z (setInfo (withPriority start) packId m))
    as (Horder & Hsome & Hother).
  assert (Hset : ∀ other,
    (is_Some (JS.get other (packs (setInfo (withPriority start) packId m))) ↔
     is_Some (JS.get other (packs m))) ∧
    (other ≠ packId →
     JS.get other (packs (setInfo (withPriority start) packId m)) = JS.get other (packs m))).
  { intros other. unfold setInfo.
    destruct (JS.get packId (packs m)) as [pack|] eqn:Hpack; [|done].
    cbn [withPacks packs]. destruct (decide (packId = other)) as [<-|Hne].
    - rewrite get_set_eq, Hpack. split; [|done]. split; by eexists.
    - rewrite get_set_ne by done. split; [done|]. done. }
  split; [|split].
  - rewrite Horder. unfold setInfo. by destruct (JS.get packId (packs m)).
  - intros other. rewrite Hsome. apply Hset.
  - intros other [Hne Hout]%not_elem_of_cons. rewrite Hother by done.
    by apply Hset.
Qed.

Lemma numberPacks_sorted (packIds : list string) start m :
  NoDup packIds →
  Forall (λ packId, is_Some (JS.get packId (packs m))) packIds →
  StronglySorted Z.le (priorityOf (numberPacks packIds start m) <$> packIds) ∧
  Forall (λ packId, (start ≤ priorityOf (numberPacks packIds start m) packId)%Z) packIds.
Proof.
  revert start m. induction packIds as [|packId packIds IH]; intros start m Hnd Hknown.
  { split; constructor. }
  apply NoDup_cons in Hnd as [Hfresh Hnd].
  apply Forall_cons in Hknown as [[pack Hpack] Hknown].
  cbn [numberPacks].
  set (numbered := setInfo (withPriority start) packId m).
  assert (Hnumbered : JS.get packId (packs numbered) =
            Some {| info := withPriority start (info pack); zip := zip pack |}).
  { unfold numbered. rewrite (setInfo_known _ packId pack) by done. apply get_set_eq. }
  assert (Hhead : priorityOf (numberPacks packIds (start + 1) numbered) packId = start).
  { unfold priorityOf.
    destruct (numberPacks_frame packIds (start + 1) numbered) as (_ & _ & Hother).
    rewrite Hother by done. by rewrite Hnumbered. }
  destruct (IH (start + 1)%Z numbered) as [Hsorted Hall]; [done| |].
  { eapply Forall_impl; [exact Hknown|]. intros other Hsome.
    unfold numbered. rewrite (setInfo_known _ packId pack) by done.
    cbn [withPacks packs]. destruct (decide (packId = other)) as [<-|Hne].
    - rewrite get_set_eq. by eexists.
    - by rewrite get_set_ne. }
  split.
  - rewrite fmap_cons. apply StronglySorted_cons. split; [|done].
    rewrite Hhead, Forall_fmap. eapply Forall_impl; [exact Hall|].
    intros other Hle. apply (Z.le_trans _ (start + 1)); [lia | exact Hle].
  - constructor; [lia|]. eapply Forall_impl; [exact Hall|]. intros other Hle.
    apply (Z.le_trans _ (start + 1)); [lia | exact Hle].
Qed.

Lemma announce_frame event reason m :
  packs ((_ ← emit event; triggerRebuildIfNeeded reason) m).1 = packs m ∧
  packOrder ((_ ← emit event; triggerRebuildIfNeeded reason) m).1 = packOrder m.
Proof.
  unfold mbind, action_bind, emit, update.
  destruct (triggerRebuildIfNeeded_frame reason (withEffect (Emitted event) m))
    as (Hpacks & Horder & _).
  by rewrite Hpacks, Horder.
Qed.

Lemma wellOrdered_store m m' :
  packs m' = packs m → packOrder m' = packOrder m → wellOrdered m → wellOrdered m'.
Proof.
  intros Hpacks Horder Hwell. apply (wellOrdered_same m); [done| |done].
  intros packId Hin. unfold priorityOf. rewrite Hpacks. split; [|done].
  destruct Hwell as [Hknown _]. unfold orderKnown in Hknown.
  rewrite Forall_forall in Hknown. by apply Hknown.
Qed.

Lemma setInfo_frame change packId m :
  packOrder (setInfo change packId m) = packOrder m ∧
  (∀ other, other ≠ packId →
     JS.get other (packs (setInfo change packId m)) = JS.get other (packs m)) ∧
  (∀ pack, JS.get packId (packs m) = Some pack →
     JS.get packId (packs (setInfo change packId m)) =
       Some {| info := change (info pack); zip := zip pack |}).
Proof.
  unfold setInfo. destruct (JS.get packId (packs m)) as [pack|] eqn:Hpack.
  - cbn [withPacks packs packOrder]. split; [done|]. split.
    + intros other Hne. by rewrite get_set_ne.
    + intros ? [= <-]. apply get_set_eq.
  - by repeat split.
Qed.

Lemma insertIndex_packs m m' newPriority (order : list string) :
  packs m' = packs m → insertIndex m' newPriority order = insertIndex m newPriority order.
Proof.
  intros Hpacks. induction order as [|packId rest IH]; [done|].
  cbn [insertIndex]. by rewrite Hpacks, IH.
Qed.

(** X16.  The order the source promises for [packOrder] -- every id
    that of a loaded pack, none twice, priorities lowest first -- is
    kept by enabling and disabling, by [setPackPriority],
    [movePackUp], [movePackDown] and [removePack], by loading a pack
    under a new id, and by [reorderPacks] on a list without
    repetition, also when the call throws. *)
Theorem pack_order_stays_sorted m :
  wellOrdered m →
  (∀ packId isEnabled, wellOrdered (setPackEnabled packId isEnabled m).1) ∧
  (∀ packId newPriority, wellOrdered (setPackPriority packId newPriority m).1) ∧
  (∀ packId, wellOrdered (movePackUp packId m).1) ∧
  (∀ packId, wellOrdered (movePackDown packId m).1) ∧
  (∀ packId, wellOrdered (removePack packId m).1) ∧
  (∀ source packId,
     packId ∉ JS.keys (packs m) →
     wellOrdered (loadPackInternal source packId m).1) ∧
  (∀ packIds, NoDup packIds → wellOrdered (reorderPacks packIds m).1).
Proof.
  intros Hwell.
  assert (Hswap : ∀ packId (index other : nat) reason,
    packOrder m !! index = Some packId → index ≠ other →
    wellOrdered (swapWith packId index other reason m).1).
  { intros packId index other reason Hindex Hio.
    destruct (packOrder m !! other) as [otherId|] eqn:Hother;
      [|by unfold swapWith; rewrite Hother].
    destruct (JS.get otherId (packs m)) as [neighbour|] eqn:Hneighbour;
      [|by unfold swapWith; rewrite Hother, Hneighbour].
    destruct (JS.get packId (packs m)) as [current|] eqn:Hcurrent;
      [|by unfold swapWith; rewrite Hother, Hneighbour, Hcurrent].
    assert (Hne : packId ≠ otherId).
    { intros ->. destruct Hwell as [_ [Hnd _]].
      pose proof (NoDup_lookup _ _ _ _ Hnd Hindex Hother). lia. }
    pose proof (swapWith_known packId otherId index other reason current neighbour m
                  Hother Hne Hcurrent Hneighbour) as [Hpacks Horder].
    by eapply (wellOrdered_swap m _ index other packId otherId current neighbour);
      [exact Hio | exact Hindex | exact Hother | exact Hcurrent | exact Hneighbour
      | | | exact Hpacks | exact Horder | exact Hwell]. }
  split; [|split; [|split; [|split; [|split; [|split]]]]].
  - intros packId isEnabled. unfold setPackEnabled.
    destruct (JS.get packId (packs m)) as [pack|] eqn:Hpack; [|done].
    case_bool_decide; [done|].
    destruct (announce_frame (PackToggled packId isEnabled) "pack toggled"
                (setInfo (withEnabled isEnabled) packId m)) as [Hpacks Horder].
    eapply wellOrdered_store; [exact Hpacks | exact Horder|].
    destruct (setInfo_frame (withEnabled isEnabled) packId m) as (Horder' & Hother & Hsame).
    apply (wellOrdered_same m); [done| |done].
    intros other Hin. unfold priorityOf.
    destruct (decide (other = packId)) as [->|Hne].
    + rewrite (Hsame pack Hpack), Hpack. split; [by eexists | done].
    + rewrite Hother by done. split; [|done].
      destruct Hwell as [Hknown _]. unfold orderKnown in Hknown.
      rewrite Forall_forall in Hknown. by apply Hknown.
  - intros packId newPriority. unfold setPackPriority.
    destruct (JS.get packId (packs m)) as [pack|] eqn:Hpack; [|done]. cbv zeta.
    match goal with
    | |- context [(_ ← emit ?e; triggerRebuildIfNeeded ?r) ?x] =>
        destruct (announce_frame e r x) as [Hpacks Horder]
    end.
    eapply wellOrdered_store; [exact Hpacks | exact Horder|].
    destruct (setInfo_frame (withPriority newPriority) packId m) as (Horder' & Hother & Hsame).
    eapply (wellOrdered_insert m _ packId); [| | |done].
    + intros other Hne. unfold insertPackByPriority. cbn [withOrder packs]. by apply Hother.
    + unfold insertPackByPriority. cbn [withOrder packs]. by apply Hsame.
    + cbv zeta. unfold insertPackByPriority. cbn [withOrder packs packOrder info priority
        withPriority]. rewrite Horder'.
      match goal with
      | |- (take ?a _ ++ _ :: drop _ _)%list = (take ?c _ ++ _)%list =>
          replace c with a; [reflexivity | by apply insertIndex_packs]
      end.
  - intros packId. unfold movePackUp.
    destruct (indexOf packId (packOrder m)) as [index|] eqn:Hindex; [|done].
    case_bool_decide; [done|]. apply Hswap; [|lia].
    clear -Hindex. revert index Hindex.
    induction (packOrder m) as [|other order IH]; intros index; [done|]. cbn [indexOf].
    destruct (String.eqb_spec other packId) as [->|Hne]; [by intros [= <-]|].
    destruct (indexOf packId order) as [i|]; [|done]. intros [= <-]. by apply IH.
  - intros packId. unfold movePackDown.
    destruct (indexOf packId (packOrder m)) as [[|previous]|] eqn:Hindex; [done| |done].
    apply Hswap; [|lia].
    clear -Hindex. revert Hindex. generalize (S previous).
    induction (packOrder m) as [|other order IH]; intros index; [done|]. cbn [indexOf].
    destruct (String.eqb_spec other packId) as [->|Hne]; [by intros [= <-]|].
    destruct (indexOf packId order) as [i|]; [|done]. intros [= <-]. by apply IH.
  - intros packId. unfold removePack.
    destruct (JS.get packId (packs m)) as [pack|] eqn:Hpack; [|done]. cbv zeta.
    match goal with
    | |- context [(_ ← emit ?e; triggerRebuildIfNeeded ?r) ?x] =>
        destruct (announce_frame e r x) as [Hpacks Horder]
    end.
    eapply wellOrdered_store; [exact Hpacks | exact Horder|].
    by apply (wellOrdered_remove m _ packId).
  - intros source packId Hfresh. unfold loadPackInternal.
    destruct (find _ (packs m)); [done|].
    destruct (source_zip source) as [archive|]; [|done]. cbv zeta.
    unfold mbind at 1, action_bind at 1.
    match goal with
    | |- context [emit ?e ?x] => set (stored := x)
    end.
    unfold mbind, action_bind, emit, update.
    destruct (triggerRebuildIfNeeded_frame "pack added"
      (withEffect (Emitted (PackAdded packId
         {| pack_id := packId; pack_name := source_name source;
            priority := default (getNextPriority m) (option_priority source);
            enabled := default true (option_enabled source);
            pack_size := source_size source; textureCount := source_textures source;
            sourceUrl := option_sourceUrl source; pack_hash := source_hash source |}))
         stored)) as (Hpacks & Horder & _).
    destruct (triggerRebuildIfNeeded _ _) as [final outcome]. cbn [fst] in Hpacks, Horder.
    assert (wellOrdered final) as Hfinal.
    { eapply wellOrdered_store; [exact Hpacks | exact Horder|].
      eapply (wellOrdered_insert m _ packId); [| | |done].
      - intros other Hne. cbn [withEffect packs]. unfold stored, insertPackByPriority.
        cbn [withOrder withPacks packs]. by rewrite get_set_ne.
      - cbn [withEffect packs]. unfold stored, insertPackByPriority.
        cbn [withOrder withPacks packs]. apply get_set_eq.
      - cbv zeta. cbn [withEffect packOrder info priority].
        unfold stored, insertPackByPriority. cbn [withOrder withPacks packs packOrder].
        assert (Hbase : filter (λ other, other ≠ packId) (packOrder m) = packOrder m).
        { destruct Hwell as [Hknown _]. unfold orderKnown in Hknown.
          clear -Hknown Hfresh. induction Hknown as [|other order Hother _ IH]; [done|].
          rewrite filter_cons_True; [by f_equal|].
          intros ->. apply Hfresh. by apply get_is_Some_key. }
        rewrite Hbase.
        match goal with
        | |- (take ?a _ ++ _ :: drop _ _)%list = (take ?c _ ++ _)%list =>
            replace c with a; [reflexivity | by apply insertIndex_packs]
        end. }
    by destruct outcome as [[]|message].
  - intros packIds Hnd. unfold reorderPacks.
    destruct (find _ packIds) as [missing|] eqn:Hfind; [done|]. cbv zeta.
    match goal with
    | |- context [(_ ← emit ?e; triggerRebuildIfNeeded ?r) ?x] =>
        destruct (announce_frame e r x) as [Hpacks Horder]
    end.
    eapply wellOrdered_store; [exact Hpacks | exact Horder|].
    assert (Hknown : Forall (λ packId, is_Some (JS.get packId (packs m))) packIds).
    { apply Forall_forall. intros packId Hin.
      destruct (JS.get packId (packs m)) as [pack|] eqn:Hpack; [by eexists|].
      apply list_elem_of_In in Hin.
      pose proof (find_none _ _ Hfind packId Hin) as Hnone. cbv beta in Hnone.
      by rewrite bool_decide_eq_true_2 in Hnone. }
    destruct (numberPacks_frame packIds 0 m) as (_ & Hsome & _).
    destruct (numberPacks_sorted packIds 0 m Hnd Hknown) as [Hsorted _].
    apply wellOrdered_alt. cbn [withOrder packOrder packs]. split; [|by split].
    unfold orderKnown. cbn [withOrder packOrder packs].
    eapply Forall_impl; [exact Hknown|]. intros packId. by rewrite Hsome.
Qed.

Lemma pack_order_stays_sorted_witness :
  wellOrdered PackExamples.twoPacks ∧
  packOrder (setPackPriority "low" 5 PackExamples.twoPacks).1 = ["high"; "low"] ∧
  wellOrdered (setPackPriority "low" 5 PackExamples.twoPacks).1.
Proof.
  assert (Hwell : wellOrdered PackExamples.twoPacks).
  { split; [repeat constructor; by eexists|].
    split; [cbn; nodup_strings|]. cbn. repeat constructor. lia. }
  split; [exact Hwell|]. split; [reflexivity|].
  apply (pack_order_stays_sorted PackExamples.twoPacks Hwell).
Defined.

(** ** Packs loaded directly into the loader *)

Lemma find_downwards (P : nat → bool) (n : nat) :
  match List.find P (reverse (seq 0 n)) with
  | Some i => (i < n)%nat ∧ P i = true ∧ ∀ j, (i < j < n)%nat → P j = false
  | None => ∀ j, (j < n)%nat → P j = false
  end.
Proof.
  induction n as [|n IH]; [intros j; lia|].
  rewrite seq_S, reverse_snoc. cbn [List.find plus].
  destruct (P n) eqn:Hn.
  - split; [lia|]. split; [done|]. intros j. lia.
  - destruct (List.find P (reverse (seq 0 n))) as [i|].
    + destruct IH as (Hlt & Hi & Habove). split; [lia|]. split; [done|].
      intros j Hj. destruct (decide (j = n)) as [->|Hne]; [done|]. apply Habove. lia.
    + intros j Hj. destruct (decide (j = n)) as [->|Hne]; [done|]. apply IH. lia.
Qed.

(** X17.  [findEOCD] returns the last offset at which the four
    signature bytes stand with at least 22 bytes from there to the end,
    and -1 when there is no such offset -- a signature within the last
    21 bytes is not looked at; and [loadResourcePack] registers a pack
    exactly when the blob can be read, its digest is made (if the cache
    is enabled), it starts with the local-file signature, has such an
    offset and is accepted by JSZip, a blob of fewer than 22 bytes never
    being registered.  A call that rejects registers nothing. *)
Theorem findEOCD_last_signature (bytes : Bytes) :
  match findEOCD bytes with
  | Some i =>
      (i + 22 ≤ length bytes)%nat ∧ signatureAt bytes i = true ∧
      ∀ j, (i < j)%nat → (j + 22 ≤ length bytes)%nat → signatureAt bytes j = false
  | None => ∀ j, (j + 22 ≤ length bytes)%nat → signatureAt bytes j = false
  end ∧
  (∀ loader digest parsed packId,
     let outcome := loadResourcePack loader (Returns bytes) digest parsed packId in
     (outcome.2 = Returns () ↔
        (cacheEnabled loader = true → ∃ hash, digest = Returns hash) ∧
        zipHeader bytes = true ∧
        (∃ j, (j + 22 ≤ length bytes)%nat ∧ signatureAt bytes j = true) ∧
        ∃ archive, parsed = Returns archive) ∧
     (outcome.2 ≠ Returns () →
        resourcePacks outcome.1 = resourcePacks loader ∧
        resourcePackOrder outcome.1 = resourcePackOrder loader) ∧
     ((length bytes < 22)%nat → outcome.2 ≠ Returns ())) ∧
  (∀ loader message digest parsed packId,
     loadResourcePack loader (Throws message) digest parsed packId =
       (loader, Throws message)).
Proof.
  pose proof (find_downwards (signatureAt bytes) (length bytes - 21)) as Hfind.
  split; [|split; [|done]].
  { unfold findEOCD.
    destruct (List.find (signatureAt bytes) (reverse (seq 0 (length bytes - 21)))) as [i|].
    - destruct Hfind as (Hlt & Hi & Habove).
      split; [lia|]. split; [done|]. intros j ? ?. apply Habove. lia.
    - intros j Hj. apply Hfind. lia. }
  intros loader digest parsed packId.
  assert (Hchecks : ∀ hashed : Loader,
    resourcePacks hashed = resourcePacks loader →
    resourcePackOrder hashed = resourcePackOrder loader →
    let outcome :=
      if negb (zipHeader bytes) then (hashed, Throws invalidZipHeader)
      else match findEOCD bytes with
           | None => (hashed, Throws missingEOCD)
           | Some _ =>
               match parsed with
               | Throws message => (hashed, Throws message)
               | Returns archive =>
                   ({| packManager := packManager hashed;
                       resourcePacks := <[packId := archive]> (resourcePacks hashed);
                       resourcePackOrder := packId :: resourcePackOrder hashed;
                       stringCache := stringCache hashed;
                       cacheEnabled := cacheEnabled hashed;
                       resourcePackHash := resourcePackHash hashed |},
                    Returns () : result ())
               end
           end in
    (outcome.2 = Returns () ↔
       zipHeader bytes = true ∧
       (∃ j, (j + 22 ≤ length bytes)%nat ∧ signatureAt bytes j = true) ∧
       ∃ archive, parsed = Returns archive) ∧
    (outcome.2 ≠ Returns () →
       resourcePacks outcome.1 = resourcePacks loader ∧
       resourcePackOrder outcome.1 = resourcePackOrder loader) ∧
    ((length bytes < 22)%nat → outcome.2 ≠ Returns ())).
  { intros hashed Hpacks Horder. cbv zeta. unfold findEOCD.
    destruct (List.find (signatureAt bytes) (reverse (seq 0 (length bytes - 21))))
      as [i|].
    - destruct Hfind as (Hlt & Hi & Habove).
      destruct (zipHeader bytes); cbn [negb fst snd].
      + destruct parsed as [archive|message]; cbn [fst snd].
        * split; [|split; [intros Hne; by destruct Hne | intros ?; lia]].
          split; [|done]. intros _. split; [done|].
          split; [exists i; split; [lia | done] | by eexists].
        * split; [|split; [done | intros ?; lia]].
          split; [done|]. by intros (_ & _ & archive & [=]).
      + split; [|split; [done | intros ?; lia]].
        split; [done|]. by intros ([=] & _).
    - destruct (zipHeader bytes); cbn [negb fst snd].
      + split; [|by split]. split; [done|].
        intros (_ & (j & Hj & Hsig) & _). rewrite Hfind in Hsig by lia. done.
      + split; [|by split]. split; [done|]. by intros ([=] & _). }
  cbv zeta. unfold loadResourcePack.
  destruct (cacheEnabled loader) eqn:Hcache.
  - destruct digest as [hash|message].
    + destruct (Hchecks (withHash hash loader) eq_refl eq_refl) as (Hiff & Hkeep & Hshort).
      split; [|by split]. rewrite Hiff. split.
      * intros H. split; [by eauto | done].
      * by intros [_ H].
    + cbn [fst snd]. split; [|by split].
      split; [done|]. intros [Hdigest _]. by destruct (Hdigest eq_refl).
  - destruct (Hchecks loader eq_refl eq_refl) as (Hiff & Hkeep & Hshort).
    split; [|by split]. rewrite Hiff. split.
    + intros H. split; [done | done].
    + by intros [_ H].
Qed.

Lemma legacy_after_load (packs : gmap string Zip) (archive : Zip) packId
    (order : list string) :
  packId ∉ order →
  omap (λ other, (λ found, (other, found)) <$> <[packId := archive]> packs !! other) order =
  omap (λ other, (λ found, (other, found)) <$> packs !! other) order.
Proof.
  induction order as [|other order IH]; [done|].
  intros Hfresh. apply not_elem_of_cons in Hfresh as [Hne Hfresh].
  change (omap ?f (other :: order)) with
    (match f other with Some y => y :: omap f order | None => omap f order end).
  cbv beta. rewrite lookup_insert_ne by done. by rewrite IH.
Qed.

(** X18.  A pack loaded directly with [loadResourcePack] comes before
    the packs loaded so earlier, but only behind the pack manager and
    the string cache: while the manager has enabled packs the new pack
    is not read at all; otherwise a string cached before the load is
    still returned, a readable file of the new pack is returned when
    nothing is cached, and without such a file the answer is what it
    was before the load. *)
Theorem loadResourcePack_takes_precedence loader bytes digest archive packId path :
  (loadResourcePack loader (Returns bytes) digest (Returns archive) packId).2 = Returns () →
  packId ∉ resourcePackOrder loader →
  let loaded :=
    (loadResourcePack loader (Returns bytes) digest (Returns archive) packId).1 in
  let managed :=
    match packManager loader with
    | Some manager => getEnabledPacksInOrder manager
    | None => Returns []
    end in
  match managed with
  | Returns [] =>
      match stringCache loader !! ("string:" +:+ path) with
      | Some cached => (getResourceString loaded path).2 = Returns (Some cached)
      | None =>
          match archive !! ("assets/minecraft/" +:+ path) with
          | Some (Returns content) =>
              (getResourceString loaded path).2 = Returns (Some content)
          | _ => (getResourceString loaded path).2 = (getResourceString loader path).2
          end
      end
  | _ => (getResourceString loaded path).2 = (getResourceString loader path).2
  end.
Proof.
  intros Hok Hfresh loaded managed.
  assert (Hloaded : ∃ hash,
    loaded =
    {| packManager := packManager loader;
       resourcePacks := <[packId := archive]> (resourcePacks loader);
       resourcePackOrder := packId :: resourcePackOrder loader;
       stringCache := stringCache loader;
       cacheEnabled := cacheEnabled loader;
       resourcePackHash := hash |}).
  { unfold loaded. unfold loadResourcePack in Hok |- *.
    destruct (cacheEnabled loader) eqn:Hcache; [destruct digest as [hash|]; [|done]|];
      (destruct (negb (zipHeader bytes)); [done|]);
      (destruct (findEOCD bytes); [|done]); eexists; cbn [fst withHash packManager
        resourcePacks resourcePackOrder stringCache cacheEnabled resourcePackHash];
      by rewrite ?Hcache. }
  destruct Hloaded as [hash Hloaded].
  assert (Hlegacy :
    omap (λ other, (λ found, (other, found)) <$> resourcePacks loaded !! other)
         (resourcePackOrder loaded) =
    (packId, archive) ::
      omap (λ other, (λ found, (other, found)) <$> resourcePacks loader !! other)
           (resourcePackOrder loader)).
  { rewrite Hloaded. cbn [resourcePacks resourcePackOrder]. simpl.
    rewrite lookup_insert_eq. cbn [fmap option_fmap option_map]. f_equal.
    by apply legacy_after_load. }
  assert (Hmanager : packManager loaded = packManager loader) by by rewrite Hloaded.
  assert (Hcache : stringCache loaded = stringCache loader) by by rewrite Hloaded.
  unfold getResourceString. rewrite Hcache.
  unfold getOrderedPacks. rewrite Hmanager, Hlegacy.
  unfold managed. clear managed.
  destruct (packManager loader) as [manager|].
  - destruct (getEnabledPacksInOrder manager) as [[|pack others]|message].
    + cbn [mbind result_bind].
      destruct (stringCache loader !! ("string:" +:+ path)) as [cached|]; [done|].
      cbn [readFirst].
      destruct (archive !! ("assets/minecraft/" +:+ path)) as [[content|message]|];
        [done| |]; by destruct (readFirst path _).
    + cbn [mbind result_bind].
      destruct (stringCache loader !! ("string:" +:+ path)); [done|].
      by destruct (readFirst path _).
    + cbn [mbind result_bind].
      by destruct (stringCache loader !! ("string:" +:+ path)).
  - destruct (stringCache loader !! ("string:" +:+ path)) as [cached|]; [done|].
    cbn [readFirst].
    destruct (archive !! ("assets/minecraft/" +:+ path)) as [[content|message]|];
      [done| |]; by destruct (readFirst path _).
Qed.

Lemma loadResourcePack_takes_precedence_witness :
  let bytes : Bytes :=
    ([0x50; 0x4b; 0x03; 0x04; 0x50; 0x4b; 0x05; 0x06]%N ++ replicate 18 0%N)%list in
  let archive : Zip := {[ PackExamples.stoneFile := Returns "new" ]} in
  let loader :=
    {| packManager := None; resourcePacks := {[ "pack_1" := {[ PackExamples.stoneFile := Returns "old" ]} ]};
       resourcePackOrder := ["pack_1"]; stringCache := ∅;
       cacheEnabled := true; resourcePackHash := "" |} in
  (getResourceString loader "blockstates/stone.json").2 = Returns (Some "old") ∧
  (getResourceString
     (loadResourcePack loader (Returns bytes) (Returns "5f70bf18") (Returns archive)
        "pack_2").1
     "blockstates/stone.json").2 = Returns (Some "new").
Proof.
  intros bytes archive loader. split; [by vm_compute|].
  apply (loadResourcePack_takes_precedence loader bytes (Returns "5f70bf18") archive
           "pack_2" "blockstates/stone.json").
  - by vm_compute.
  - cbn. intros Hin. by apply list_elem_of_singleton in Hin.
Defined.

(** ** Quarter turns of the UV corners *)

Lemma roundedRotation_quarter (t : Z) :
  (0 ≤ t < 360)%Z →
  ∃ k, (0 ≤ k ≤ 4)%Z ∧ ((t + 45) / 90 = k)%Z ∧ roundedRotation t = (90 * k)%Z.
Proof.
  intros Ht. exists ((t + 45) / 90)%Z. unfold roundedRotation.
  replace (2 * t + 90)%Z with (2 * (t + 45))%Z by lia.
  change 180%Z with (2 * 90)%Z. rewrite Z.div_mul_cancel_l by lia.
  split; [|split; [done | lia]].
  pose proof (Z.div_mod (t + 45) 90 ltac:(lia)) as Hdm.
  pose proof (Z.mod_pos_bound (t + 45) 90 ltac:(lia)) as Hb. lia.
Qed.

Lemma applyUVRotation_turn (uvCoords : UVCoords) (k : Z) :
  (0 ≤ k < 4)%Z →
  applyUVRotation (applyUVRotation uvCoords (90 * k)) 90 =
  applyUVRotation uvCoords (90 * ((k + 1) mod 4)).
Proof.
  intros Hk. destruct uvCoords as [[[tl tr] bl] br].
  assert (k = 0 ∨ k = 1 ∨ k = 2 ∨ k = 3)%Z as [->|[->|[->| ->]]] by lia; done.
Qed.

Lemma mapUVCoordinates_turns direction faceData transform :
  mapUVCoordinates direction faceData transform =
  applyUVRotation (faceUVCoords faceData)
    (90 * (((totalRotation direction faceData transform + 45) / 90) mod 4)).
Proof.
  unfold mapUVCoordinates.
  set (t := totalRotation direction faceData transform).
  assert (Ht : (0 ≤ t < 360)%Z).
  { unfold t. rewrite totalRotation_spec. apply Z.mod_pos_bound. lia. }
  destruct (roundedRotation_quarter t Ht) as (k & Hk & Hdiv & ->).
  rewrite Hdiv.
  destruct (faceUVCoords faceData) as [[[tl tr] bl] br].
  destruct (Z.eqb_spec t 0) as [Hz|Hne].
  - rewrite Hz in Hdiv. by rewrite <- Hdiv.
  - assert (k = 0 ∨ k = 1 ∨ k = 2 ∨ k = 3 ∨ k = 4)%Z as [->|[->|[->|[->| ->]]]] by lia;
      done.
Qed.

(** X19.  Whatever the angles, [mapUVCoordinates] turns the corners by
    a whole number of quarter turns, namely the total rotation (in
    [0, 360)) plus 45, divided by 90, modulo 4: a total from 315 up to
    360 is rounded to 360, which [applyUVRotation] does not know and
    leaves as it is, like 0.  The three permutations of
    [applyUVRotation] fit one another: declaring 90 degrees more on a
    face turns its mapped corners by one more quarter turn. *)
Theorem mapUVCoordinates_quarter_turns direction faceData transform (declared : Z) :
  let total := totalRotation direction faceData transform in
  mapUVCoordinates direction faceData transform =
    applyUVRotation (faceUVCoords faceData) (90 * (((total + 45) / 90) mod 4)) ∧
  ((315 ≤ total)%Z → mapUVCoordinates direction faceData transform = faceUVCoords faceData) ∧
  mapUVCoordinates direction (withRotation (declared + 90) faceData) transform =
    applyUVRotation (mapUVCoordinates direction (withRotation declared faceData) transform) 90.
Proof.
  intros total. split; [apply mapUVCoordinates_turns|]. split.
  - intros Hlate. rewrite mapUVCoordinates_turns. fold total.
    assert (Ht : (0 ≤ total < 360)%Z).
    { unfold total. rewrite totalRotation_spec. apply Z.mod_pos_bound. lia. }
    destruct (roundedRotation_quarter total Ht) as (k & Hk & Hdiv & _).
    rewrite Hdiv. assert (k = 4)%Z as ->.
    { pose proof (Z.div_mod (total + 45) 90 ltac:(lia)) as Hdm.
      pose proof (Z.mod_pos_bound (total + 45) 90 ltac:(lia)) as Hb. lia. }
    by destruct (faceUVCoords faceData) as [[[tl tr] bl] br].
  - rewrite !mapUVCoordinates_turns.
    change (faceUVCoords (withRotation ?r faceData)) with (faceUVCoords faceData).
    rewrite applyUVRotation_turn by (apply Z.mod_pos_bound; lia).
    f_equal. apply (f_equal (Z.mul 90)). rewrite !totalRotation_spec.
    rewrite Z.add_mod_idemp_l by lia.
    change (default 0%Z (rotation (withRotation ?r faceData))) with r.
    set (contribution := if bool_decide (transform_uvlock transform = Some true) then 0%Z
                         else (directionSign direction * default 0 (transform_y transform))%Z).
    replace (declared + 90 + contribution)%Z with (declared + contribution + 90)%Z by lia.
    rewrite (Zplus_mod (declared + contribution) 90 360).
    change (90 mod 360)%Z with 90%Z.
    pose proof (Z.mod_pos_bound (declared + contribution) 360 ltac:(lia)) as Hbound.
    revert Hbound. generalize ((declared + contribution) mod 360)%Z. intros t Hbound.
    destruct (decide (t < 270)%Z) as [Hearly|Hlate].
    + rewrite (Z.mod_small (t + 90)) by lia.
      replace (t + 90 + 45)%Z with ((t + 45) + 1 * 90)%Z by lia.
      by rewrite Z.div_add by lia.
    + replace (t + 90)%Z with ((t - 270) + 1 * 360)%Z by lia.
      rewrite Z.mod_add, (Z.mod_small (t - 270)) by lia.
      replace (t + 45)%Z with ((t - 270 + 45) + 3 * 90)%Z by lia.
      rewrite Z.div_add by lia.
      replace ((t - 270 + 45) / 90 + 3 + 1)%Z with ((t - 270 + 45) / 90 + 1 * 4)%Z by lia.
      by rewrite Z.mod_add by lia.
Qed.

(** ** The mesh caches of Cubane *)

Import Cubane FallbackSpec.

Import MeshCacheSpec.

Section MeshCaches.

Variable createEntityMesh : string → result bool.
Variable createBlockMesh : BlockModel → option bool → Block → string → result unit.

Lemma getEntityMesh_uncached cubane entity :
  getEntityMesh createEntityMesh cubane entity false = (cubane, freshEntityMesh createEntityMesh entity).
Proof.
  unfold getEntityMesh, freshEntityMesh. cbn [cacheEntityMesh].
  by destruct (createEntityMesh entity) as [[]|].
Qed.

Lemma getEntityMesh_miss cubane entity :
  entityMeshCache cubane !! entity = None →
  getEntityMesh createEntityMesh cubane entity true =
    (cacheEntityMesh cubane true entity (Clone (freshEntityMesh createEntityMesh entity)),
     freshEntityMesh createEntityMesh entity).
Proof.
  intros Hmiss. unfold getEntityMesh, freshEntityMesh. rewrite Hmiss.
  by destruct (createEntityMesh entity) as [[]|].
Qed.

Lemma dynamicParts_uncached cubane config :
  (dynamicParts createEntityMesh cubane false config).1 = cubane.
Proof.
  revert cubane. induction config as [|partConfig rest IH]; intros cubane; [done|].
  cbn [dynamicParts]. rewrite getEntityMesh_uncached.
  specialize (IH cubane). by destruct (dynamicParts createEntityMesh cubane false rest).
Qed.

Lemma dynamicParts_uncached_parts c1 c2 config :
  (dynamicParts createEntityMesh c1 false config).2 =
  (dynamicParts createEntityMesh c2 false config).2.
Proof.
  revert c1 c2. induction config as [|partConfig rest IH]; intros c1 c2; [done|].
  cbn [dynamicParts]. rewrite !getEntityMesh_uncached.
  specialize (IH c1 c2).
  destruct (dynamicParts createEntityMesh c1 false rest),
           (dynamicParts createEntityMesh c2 false rest).
  cbn [snd] in *. by f_equal.
Qed.

Lemma dynamicParts_miss cubane config :
  NoDup (entityType <$> config) →
  (∀ entity, entity ∈ entityType <$> config → entityMeshCache cubane !! entity = None) →
  (dynamicParts createEntityMesh cubane true config).2 =
    (dynamicParts createEntityMesh cubane false config).2.
Proof.
  revert cubane. induction config as [|partConfig rest IH]; intros cubane Hnd Hmiss;
    [done|].
  cbn [fmap list_fmap] in Hnd, Hmiss. apply NoDup_cons in Hnd as [Hfirst Hnd].
  cbn [dynamicParts]. rewrite getEntityMesh_uncached.
  rewrite getEntityMesh_miss by (apply Hmiss; left).
  set (after := cacheEntityMesh cubane true (entityType partConfig) _).
  assert (Hafter : ∀ entity, entity ∈ entityType <$> rest →
                             entityMeshCache after !! entity = None).
  { intros entity Hin. unfold after. cbn [cacheEntityMesh entityMeshCache].
    rewrite lookup_insert_ne by (intros <-; done). apply Hmiss. by right. }
  pose proof (IH after Hnd Hafter) as Hparts.
  rewrite (dynamicParts_uncached_parts after cubane) in Hparts.
  destruct (dynamicParts createEntityMesh after true rest) as [c1 parts1].
  destruct (dynamicParts createEntityMesh cubane false rest) as [c2 parts2].
  cbn [snd] in *. by subst.
Qed.

(** X20.  A mesh asked for with the cache in use is cached, as a clone,
    under [blockString:biome] -- also when it is the placeholder cube --
    and served from there afterwards: the next call for the same block
    string and biome returns a clone of the cached mesh and leaves the
    instance as it is, whatever the renderers would do by then. *)
Theorem getBlockMesh_cache_round_trip
    (createEntityMesh' : string → result bool)
    (createBlockMesh' : BlockModel → option bool → Block → string → result unit)
    cubane blockString biome :
  let cacheKey := blockString +:+ ":" +:+ biome in
  let first := getBlockMesh createEntityMesh createBlockMesh cubane blockString biome true in
  isBlockMeshCached first.1 blockString biome = true ∧
  ∃ stored,
    blockMeshCache first.1 !! cacheKey = Some stored ∧
    getBlockMesh createEntityMesh' createBlockMesh' first.1 blockString biome true =
      (first.1, Clone stored) ∧
    match blockMeshCache cubane !! cacheKey with
    | Some cached => stored = cached ∧ first = (cubane, Clone cached)
    | None => stored = Clone first.2
    end.
Proof.
  intros cacheKey first.
  assert (Hstored : ∀ c mesh,
    let after := cacheBlockMesh c true cacheKey mesh in
    isBlockMeshCached after blockString biome = true ∧
    blockMeshCache after !! cacheKey = Some mesh ∧
    getBlockMesh createEntityMesh' createBlockMesh' after blockString biome true =
      (after, Clone mesh)).
  { intros c mesh after. unfold isBlockMeshCached, getBlockMesh. fold cacheKey.
    unfold after. cbn [cacheBlockMesh blockMeshCache]. rewrite lookup_insert_eq.
    split; [|done]. apply bool_decide_eq_true_2. by eexists. }
  assert (Hcases :
    match blockMeshCache cubane !! cacheKey with
    | Some cached => first = (cubane, Clone cached)
    | None => ∃ c, first = (cacheBlockMesh c true cacheKey (Clone first.2), first.2)
    end).
  { unfold first, getBlockMesh. fold cacheKey.
    destruct (blockMeshCache cubane !! cacheKey) as [cached|]; [done|].
    destruct (truthyEntry _ _) as [entity|].
    { destruct (getEntityMesh createEntityMesh cubane entity true) as [c mesh].
      by eexists. }
    cbv zeta.
    destruct (match hybridBlockConfig cubane !! _ with
              | Some config => dynamicParts createEntityMesh cubane true config
              | None => (cubane, [])
              end) as [c dynamic].
    destruct (_ ++ dynamic)%list; by eexists. }
  destruct (blockMeshCache cubane !! cacheKey) as [cached|] eqn:Hcached.
  - rewrite Hcases. cbn [fst snd]. unfold isBlockMeshCached, getBlockMesh.
    fold cacheKey. rewrite Hcached.
    split; [apply bool_decide_eq_true_2; by eexists|]. by exists cached.
  - destruct Hcases as [c Hfirst]. rewrite Hfirst. cbn [fst snd].
    destruct (Hstored c (Clone first.2)) as (Hcachedafter & Hlookup & Hagain).
    split; [done|]. by exists (Clone first.2).
Qed.

(** X21.  Without the cache a call reads and writes neither cache: the
    instance stays as it is; and when the dynamic parts registered for
    the block are of distinct entity types, the mesh is the one the first
    call with the cache gives after [clearMeshCaches]. *)
Theorem getBlockMesh_without_cache cubane blockString biome :
  let block := parseBlockString blockString in
  (getBlockMesh createEntityMesh createBlockMesh cubane blockString biome false).1 = cubane ∧
  isBlockMeshCached (clearMeshCaches cubane) blockString biome = false ∧
  (NoDup (dynamicEntities cubane (namespace block +:+ ":" +:+ name block)) →
   (getBlockMesh createEntityMesh createBlockMesh (clearMeshCaches cubane)
      blockString biome true).2 =
   (getBlockMesh createEntityMesh createBlockMesh cubane blockString biome false).2).
Proof.
  intros block.
  split; [|split; [done|intros Hdistinct]].
  - unfold getBlockMesh. destruct (truthyEntry _ _) as [entity|].
    + by rewrite getEntityMesh_uncached.
    + cbv zeta. destruct (hybridBlockConfig cubane !! _) as [config|].
      * pose proof (dynamicParts_uncached cubane config) as Hsame.
        destruct (dynamicParts createEntityMesh cubane false config) as [c dynamic].
        cbn [fst] in Hsame. subst c. by destruct (_ ++ dynamic)%list.
      * by destruct (_ ++ [])%list.
  - unfold getBlockMesh. cbn [clearMeshCaches blockMeshCache pureBlockEntityMap
      hybridBlockConfig assetLoader]. rewrite lookup_empty.
    destruct (truthyEntry _ _) as [entity|].
    + rewrite getEntityMesh_uncached.
      by rewrite getEntityMesh_miss by apply lookup_empty.
    + cbv zeta.
      change (staticPart createBlockMesh (clearMeshCaches cubane))
        with (staticPart createBlockMesh cubane).
      unfold dynamicEntities in Hdistinct. fold block.
      destruct (hybridBlockConfig cubane !! _) as [config|].
      * cbn [default from_option id] in Hdistinct.
        pose proof (dynamicParts_miss (clearMeshCaches cubane) config Hdistinct
                      (λ entity _, lookup_empty entity)) as Hparts.
        rewrite (dynamicParts_uncached_parts (clearMeshCaches cubane) cubane) in Hparts.
        destruct (dynamicParts createEntityMesh (clearMeshCaches cubane) true config)
          as [c1 parts1].
        destruct (dynamicParts createEntityMesh cubane false config) as [c2 parts2].
        cbn [snd] in Hparts. subst parts2. by destruct (_ ++ parts1)%list.
      * by destruct (_ ++ [])%list.
Qed.

End MeshCaches.

(** With two dynamic parts of one entity type the meshes differ: the
    cached call makes the first part and serves the second as a clone
    from the entity cache. *)
Example getBlockMesh_repeated_entity :
  let part := {| entityType := "bell"; offset := None; part_rotation := None |} in
  let cubane := registerHybridBlock (newCubane emptyPack) "minecraft:gong" [part; part] in
  (getBlockMesh (λ _, Returns true) (λ _ _ _ _, Returns ()) cubane
     "minecraft:gong" "plains" false).2 =
    Group "block_gong" (parseBlockString "minecraft:gong") "plains"
      [DynamicPart (EntityObject "entity_bell" "bell") None None "bell";
       DynamicPart (EntityObject "entity_bell" "bell") None None "bell"] ∧
  (getBlockMesh (λ _, Returns true) (λ _ _ _ _, Returns ()) (clearMeshCaches cubane)
     "minecraft:gong" "plains" true).2 =
    Group "block_gong" (parseBlockString "minecraft:gong") "plains"
      [DynamicPart (EntityObject "entity_bell" "bell") None None "bell";
       DynamicPart (Clone (Clone (EntityObject "entity_bell" "bell"))) None None "bell"].
Proof. split; vm_compute; reflexivity. Qed.

Lemma getBlockMesh_without_cache_witness :
  NoDup (dynamicEntities (newCubane emptyPack) "minecraft:lectern") ∧
  (getBlockMesh (λ _, Returns true) (λ _ _ _ _, Returns ()) (newCubane emptyPack)
     "minecraft:lectern" "plains" false).1 = newCubane emptyPack ∧
  isBlockMeshCached (clearMeshCaches (newCubane emptyPack)) "minecraft:lectern" "plains"
    = false ∧
  (getBlockMesh (λ _, Returns true) (λ _ _ _ _, Returns ())
     (clearMeshCaches (newCubane emptyPack)) "minecraft:lectern" "plains" true).2 =
  (getBlockMesh (λ _, Returns true) (λ _ _ _ _, Returns ()) (newCubane emptyPack)
     "minecraft:lectern" "plains" false).2.
Proof.
  assert (Hdistinct : NoDup (dynamicEntities (newCubane emptyPack) "minecraft:lectern")).
  { vm_compute. apply NoDup_singleton. }
  split; [exact Hdistinct|].
  destruct (getBlockMesh_without_cache (λ _, Returns true) (λ _ _ _ _, Returns ())
              (newCubane emptyPack) "minecraft:lectern" "plains")
    as (Hsame & Hcleared & Hmesh).
  split; [exact Hsame|]. split; [exact Hcleared|]. exact (Hmesh Hdistinct).
Defined.

(** ** Parsing a block string *)

Import Cubane BlockStringSpec.

Lemma indexOf_app (c : ascii) (s1 s2 : string) :
  lacks c s1 → JS.indexOf c (s1 +:+ String c s2) = Some (String.length s1).
Proof.
  unfold lacks. induction s1 as [|a s1 IH]; intros Hs1.
  - change ("" +:+ String c s2) with (String c s2). cbn [JS.indexOf].
    by rewrite Ascii.eqb_refl.
  - rewrite includes_char_cons in Hs1. apply orb_false_iff in Hs1 as [Hca Hs1].
    rewrite string_app_cons. cbn [JS.indexOf String.length].
    rewrite eqb_ascii_sym, Hca. by rewrite IH.
Qed.

Lemma substring_prefix (s1 s2 : string) :
  String.substring 0 (String.length s1) (s1 +:+ s2) = s1.
Proof.
  induction s1 as [|a s1 IH]; [by destruct s2|].
  rewrite string_app_cons. cbn [String.length String.substring]. by rewrite IH.
Qed.

Lemma substring_skip (s1 s2 : string) (n m : nat) :
  String.substring (String.length s1 + n) m (s1 +:+ s2) = String.substring n m s2.
Proof. induction s1 as [|a s1 IH]; [done|]. rewrite string_app_cons. exact IH. Qed.

Lemma length_app (s1 s2 : string) :
  String.length (s1 +:+ s2) = (String.length s1 + String.length s2)%nat.
Proof.
  induction s1 as [|a s1 IH]; [done|].
  rewrite string_app_cons. cbn [String.length]. by rewrite IH.
Qed.

Lemma split_cons (c : ascii) (s1 s2 : string) :
  lacks c s1 → JS.split c (s1 +:+ String c s2) = s1 :: JS.split c s2.
Proof.
  unfold lacks. induction s1 as [|a s1 IH]; intros Hs1.
  - change ("" +:+ String c s2) with (String c s2). cbn [JS.split].
    by rewrite Ascii.eqb_refl.
  - rewrite includes_char_cons in Hs1. apply orb_false_iff in Hs1 as [Hca Hs1].
    rewrite string_app_cons. cbn [JS.split]. rewrite eqb_ascii_sym, Hca. by rewrite IH.
Qed.

Lemma split_join (c : ascii) (items : list string) :
  items ≠ [] → Forall (lacks c) items →
  JS.split c (JS.join (String c EmptyString) items) = items.
Proof.
  induction items as [|item items IH]; [done|]. intros _ [Hitem Hitems]%Forall_cons.
  destruct items as [|next items].
  - cbn [JS.join]. by apply split_absent.
  - change (JS.join (String c "") (item :: next :: items))
      with (item +:+ String c (JS.join (String c "") (next :: items))).
    rewrite split_cons by done. by rewrite IH.
Qed.

Lemma join_lacks (d : ascii) (sep : string) (items : list string) :
  lacks d sep → Forall (lacks d) items → lacks d (JS.join sep items).
Proof.
  unfold lacks. intros Hsep. induction 1 as [|item items Hitem Hitems IH]; [done|].
  destruct items as [|next items]; [done|].
  change (JS.join sep (item :: next :: items))
    with (item +:+ sep +:+ JS.join sep (next :: items)).
  by rewrite !includes_char_app, Hitem, Hsep, IH.
Qed.

Lemma keyValue_unfold (p v : string) :
  keyValue (p, v) = p +:+ String "=" v.
Proof. reflexivity. Qed.

Lemma parseProperties_written (blockProperties : JS.Obj string) :
  blockProperties ≠ [] →
  NoDup (JS.keys blockProperties) →
  Forall (λ kv, plainWord kv.1 ∧ plainWord kv.2) blockProperties →
  Forall (λ kv, keptInPlace kv.1) blockProperties →
  parseProperties (JS.join "," (keyValue <$> blockProperties)) = blockProperties.
Proof.
  intros Hsome Hnd Hplain Hkept. unfold parseProperties.
  rewrite split_join.
  - assert (Hfold : ∀ acc,
      (∀ kv, kv ∈ blockProperties → kv.1 ∉ JS.keys acc) →
      foldl (λ properties prop,
               match JS.split "=" prop with
               | key :: value :: _ =>
                   if bool_decide (key ≠ "") && bool_decide (value ≠ "")
                   then JS.assign (JS.trim key) (JS.trim value) properties
                   else properties
               | _ => properties
               end) acc (keyValue <$> blockProperties) =
      (acc ++ blockProperties)%list).
    { clear Hsome. induction blockProperties as [|[k v] rest IH]; intros acc Hacc.
      { by rewrite app_nil_r. }
      apply Forall_cons in Hplain as [[Hk Hv] Hplain].
      apply Forall_cons in Hkept as [[Hproto Hindex] Hkept].
      apply NoDup_cons in Hnd as [Hfresh Hnd].
      destruct Hk as (Hk0 & Hk1 & Hk2 & _), Hv as (Hv0 & Hv1 & Hv2 & _).
      cbn [fmap list_fmap foldl]. rewrite keyValue_unfold.
      rewrite (split_once "=" k v) by done.
      rewrite !bool_decide_eq_true_2 by done. cbn [andb]. cbn [fst snd] in *.
      rewrite Hk1, Hv1. unfold JS.assign.
      rewrite bool_decide_eq_false_2 by done.
      rewrite bool_decide_eq_false_2 by (apply (Hacc (k, v)); left).
      rewrite Hindex.
      rewrite (IH Hnd Hplain Hkept).
      - by rewrite <- app_assoc.
      - intros kv Hkv. unfold JS.keys. rewrite fmap_app. intros Hin.
        apply elem_of_app in Hin as [Hin|Hin].
        + apply (Hacc kv); [by right | done].
        + apply list_elem_of_singleton in Hin. cbn in Hin.
          apply Hfresh. rewrite <- Hin. unfold JS.keys.
          by apply (list_elem_of_fmap_2 fst) in Hkv. }
    apply (Hfold []). intros kv _. apply not_elem_of_nil.
  - by destruct blockProperties.
  - apply Forall_fmap. eapply Forall_impl; [exact Hplain|].
    intros [k v] [(_ & _ & _ & Hk & _) (_ & _ & _ & Hv & _)]. cbn [fst snd] in *.
    unfold lacks, compose in *. rewrite keyValue_unfold.
    by rewrite includes_char_app, Hk, includes_char_cons, Hv.
Qed.

Lemma parseNameAndProperties_written blockName blockProperties last :
  lacks "[" blockName →
  blockProperties ≠ [] →
  NoDup (JS.keys blockProperties) →
  Forall (λ kv, plainWord kv.1 ∧ plainWord kv.2) blockProperties →
  Forall (λ kv, keptInPlace kv.1) blockProperties →
  parseNameAndProperties (writeNameAndProperties blockName blockProperties last) =
    (blockName, blockProperties).
Proof.
  intros Hname Hsome Hnd Hplain Hkept.
  unfold parseNameAndProperties, writeNameAndProperties.
  set (body := JS.join "," (keyValue <$> blockProperties)).
  change (blockName +:+ "[" +:+ body +:+ String last "")
    with (blockName +:+ String "[" (body +:+ String last "")).
  rewrite indexOf_app by done. unfold JS.substring.
  rewrite !length_app. cbn [String.length]. rewrite length_app. cbn [String.length].
  rewrite Nat.min_0_l, Nat.max_0_l, Nat.sub_0_r, substring_prefix.
  f_equal.
  replace (String.length blockName + 1) with (String.length blockName + 1)%nat by done.
  rewrite Nat.min_l, Nat.max_r by lia.
  rewrite substring_skip. cbn [String.substring].
  replace (String.length blockName + S (String.length body + 1) - 1 -
             (String.length blockName + 1))%nat with (String.length body) by lia.
  rewrite substring_prefix. by apply parseProperties_written.
Qed.

(** X22.  [parseBlockString] reads back what a block string writes:
    [namespace:name[k1=v1,k2=v2]] gives the namespace, the name and the
    properties in their written order, and [name[k1=v1]] gives them
    under the namespace [minecraft] -- for names without [:] and [[]
    and distinct property names that, like the values, are not empty,
    carry no white space at their ends and contain none of [=], [,],
    [:], and are neither [__proto__], which an assignment does not add,
    nor an array index, which an object enumerates first.  The closing
    bracket is not looked at: whatever character stands last is
    dropped. *)
Theorem parseBlockString_written namespacePart blockName blockProperties (last : ascii) :
  lacks ":" namespacePart →
  lacks ":" blockName → lacks "[" blockName →
  last ≠ ":"%char →
  blockProperties ≠ [] →
  NoDup (JS.keys blockProperties) →
  Forall (λ kv, plainWord kv.1 ∧ plainWord kv.2) blockProperties →
  Forall (λ kv, keptInPlace kv.1) blockProperties →
  parseBlockString
    (namespacePart +:+ ":" +:+ writeNameAndProperties blockName blockProperties last) =
    {| namespace := namespacePart; name := blockName; properties := blockProperties |} ∧
  parseBlockString (writeNameAndProperties blockName blockProperties last) =
    {| namespace := "minecraft"; name := blockName; properties := blockProperties |}.
Proof.
  intros Hnamespace Hname Hbracket Hlast Hsome Hnd Hplain Hkept.
  assert (Hwritten : lacks ":" (writeNameAndProperties blockName blockProperties last)).
  { unfold writeNameAndProperties, lacks in *.
    rewrite !includes_char_app, Hname. cbn [orb].
    rewrite (join_lacks ":" "," (keyValue <$> blockProperties)); [|done|].
    - change (JS.includes "[" ":") with false. rewrite includes_char_cons.
      by destruct (Ascii.eqb_spec ":" last) as [<-|_].
    - apply Forall_fmap. eapply Forall_impl; [exact Hplain|].
      intros [k v] [(_ & _ & _ & _ & Hk) (_ & _ & _ & _ & Hv)]. cbn [fst snd] in *.
      unfold lacks, compose in *. rewrite keyValue_unfold.
      by rewrite includes_char_app, Hk, includes_char_cons, Hv. }
  pose proof (parseNameAndProperties_written blockName blockProperties last
                Hbracket Hsome Hnd Hplain Hkept) as Hparsed.
  unfold parseBlockString. split.
  - change (namespacePart +:+ ":" +:+ ?rest) with (namespacePart +:+ String ":" rest).
    rewrite split_once by done. by rewrite Hparsed.
  - rewrite split_absent by done. by rewrite Hparsed.
Qed.

Lemma parseBlockString_written_witness :
  parseBlockString "minecraft:oak_log[axis=y,waterlogged=false]" =
    {| namespace := "minecraft"; name := "oak_log";
       properties := [("axis", "y"); ("waterlogged", "false")] |} ∧
  parseBlockString "oak_log[axis=y,waterlogged=false]" =
    {| namespace := "minecraft"; name := "oak_log";
       properties := [("axis", "y"); ("waterlogged", "false")] |}.
Proof.
  apply (parseBlockString_written "minecraft" "oak_log"
           [("axis", "y"); ("waterlogged", "false")] "]").
  - reflexivity.
  - reflexivity.
  - reflexivity.
  - discriminate.
  - discriminate.
  - cbn. nodup_strings.
  - repeat constructor; cbn; try discriminate; reflexivity.
  - repeat constructor; try discriminate; vm_compute; reflexivity.
Defined.

(** ** What a change of the packs announces *)

Import ResourcePackManager PackFiles PackOrderSpec.

(** [setInfo] touches the packs only, and keeps their ids in place. *)
Lemma setInfo_rest change packId m :
  JS.keys (packs (setInfo change packId m)) = JS.keys (packs m) ∧
  packOrder (setInfo change packId m) = packOrder m ∧
  autoRebuild (setInfo change packId m) = autoRebuild m ∧
  batchUpdateDepth (setInfo change packId m) = batchUpdateDepth m ∧
  pendingRebuild (setInfo change packId m) = pendingRebuild m ∧
  onAtlasRebuildNeeded (setInfo change packId m) = onAtlasRebuildNeeded m ∧
  onMeshRebuildNeeded (setInfo change packId m) = onMeshRebuildNeeded m ∧
  effects (setInfo change packId m) = effects m.
Proof.
  unfold setInfo. destruct (JS.get packId (packs m)) as [pack|] eqn:Hpack; [|done].
  cbn [withPacks packs packOrder autoRebuild batchUpdateDepth pendingRebuild
       onAtlasRebuildNeeded onMeshRebuildNeeded effects].
  split; [|done]. rewrite set_keys, bool_decide_eq_true_2; [done|].
  by apply get_is_Some_key.
Qed.

Lemma findAssetSource_named m fullPath (highestFirst : list string) packId :
  findAssetSource m fullPath highestFirst = Returns (Some packId) → packId ∈ highestFirst.
Proof.
  induction highestFirst as [|other lower IH]; [done|]. cbn [findAssetSource].
  destruct (packOf m other) as [pack|message]; [|done]. cbn [mbind result_bind].
  destruct (negb (enabled (info pack))); [intros ?; right; by apply IH|].
  case_bool_decide; [intros [= ->]; left | intros ?; right; by apply IH].
Qed.

(** X24.  [importConfig] is silent: called outside a batch with no
    rebuild pending it sets the enabled states, the priorities and the
    pack order without emitting an event, calling a rebuild callback or
    leaving a rebuild pending.  The pack order afterwards is the
    configuration's list of ids, whatever the priorities say, without
    the ids that are not loaded -- so a loaded pack that the
    configuration does not list stays loaded but is no longer the
    source of any asset. *)
Theorem importConfig_silent m config :
  batchUpdateDepth m = 0%nat →
  pendingRebuild m = false →
  let after := (importConfig config m).1 in
  (importConfig config m).2 = Returns () ∧
  effects after = effects m ∧ pendingRebuild after = false ∧
  batchUpdateDepth after = 0%nat ∧
  JS.keys (packs after) = JS.keys (packs m) ∧
  packOrder after =
    filter (λ packId, is_Some (JS.get packId (packs m))) (config_id <$> config) ∧
  ∀ packId assetPath type,
    packId ∉ config_id <$> config →
    getAssetSource after assetPath type ≠ Returns (Some packId).
Proof.
  intros Hdepth Hpending. unfold importConfig.
  unfold mbind, action_bind, beginBatchUpdate, update. cbv zeta.
  set (opened := withDepth (S (batchUpdateDepth m)) m).
  set (changed := foldl _ opened config).
  assert (Hchanged :
    JS.keys (packs changed) = JS.keys (packs m) ∧ packOrder changed = packOrder m ∧
    batchUpdateDepth changed = 1%nat ∧ pendingRebuild changed = false ∧
    effects changed = effects m).
  { unfold changed.
    assert (Hopened :
      JS.keys (packs opened) = JS.keys (packs m) ∧ packOrder opened = packOrder m ∧
      batchUpdateDepth opened = 1%nat ∧ pendingRebuild opened = false ∧
      effects opened = effects m).
    { unfold opened. cbn. by rewrite Hdepth. }
    revert Hopened. generalize opened.
    induction config as [|packConfig config IH]; intros current Hcurrent; [done|].
    cbn [foldl]. apply IH.
    destruct (setInfo_rest
      (λ p, withPriority (config_priority packConfig)
              (withEnabled (config_enabled packConfig) p))
      (config_id packConfig) current) as (-> & -> & _ & -> & -> & _ & _ & ->).
    done. }
  destruct Hchanged as (Hkeys & _ & Hone & Hquiet & Heffects).
  set (ordered := withOrder _ changed).
  assert (Hend : endBatchUpdate ordered = (withDepth 0 ordered, Returns ())).
  { unfold endBatchUpdate. cbv zeta.
    cbn [withDepth batchUpdateDepth pendingRebuild ordered withOrder].
    by rewrite Hone, Hquiet. }
  rewrite Hend. cbn [fst snd withDepth effects pendingRebuild batchUpdateDepth packs
    packOrder ordered withOrder].
  assert (Hfilter :
    filter (λ packId, is_Some (JS.get packId (packs changed))) (config_id <$> config) =
    filter (λ packId, is_Some (JS.get packId (packs m))) (config_id <$> config)).
  { apply list_filter_iff. intros packId.
    by rewrite !get_is_Some_key, Hkeys. }
  rewrite Hfilter.
  split; [done|]. split; [done|]. split; [done|]. split; [done|]. split; [done|].
  split; [done|].
  intros packId assetPath type Houtside Hsource.
  unfold getAssetSource in Hsource.
  apply findAssetSource_named in Hsource.
  cbn [packOrder withDepth withOrder] in Hsource.
  apply elem_of_reverse, list_elem_of_filter in Hsource as [_ Hlisted]. done.
Qed.

Lemma importConfig_silent_witness :
  let config := [ {| config_id := "high"; config_name := "high"; config_sourceUrl := None;
                     config_priority := 7; config_enabled := true |} ] in
  effects (importConfig config PackExamples.twoPacks).1 = [] ∧
  packOrder (importConfig config PackExamples.twoPacks).1 = ["high"] ∧
  getAssetSource (importConfig config PackExamples.twoPacks).1 "stone" Blockstate ≠
    Returns (Some "low").
Proof.
  intros config.
  destruct (importConfig_silent PackExamples.twoPacks config)
    as (_ & Heffects & _ & _ & _ & Horder & Hsource); [done..|].
  split; [exact Heffects|]. split; [exact Horder|].
  apply Hsource. cbn. intros Hin. by apply list_elem_of_singleton in Hin.
Defined.

(** ** Batches *)

Import ResourcePackManager PackFiles PackOrderSpec BatchSpec.

Lemma noRebuild_refl m : noRebuild m m.
Proof. split; [done|]. exists []. by rewrite app_nil_r. Qed.

Lemma noRebuild_trans m1 m2 m3 : noRebuild m1 m2 → noRebuild m2 m3 → noRebuild m1 m3.
Proof.
  intros (Hdepth1 & events1 & Heffects1 & Hquiet1 & Hkept1 & Hpending1)
         (Hdepth2 & events2 & Heffects2 & Hquiet2 & Hkept2 & Hpending2).
  split; [congruence|]. exists (events1 ++ events2)%list.
  split; [by rewrite Heffects2, Heffects1, app_assoc|].
  split; [by apply Forall_app|]. split; [auto|].
  intros Hsome. destruct events2 as [|event events2]; [|by apply Hpending2].
  rewrite app_nil_r in Hsome. auto.
Qed.

Lemma announce_noRebuild event reason m' m :
  isRebuild (Emitted event) = false →
  sameBatch m' m →
  (0 < batchUpdateDepth m)%nat →
  noRebuild m ((_ ← emit event; triggerRebuildIfNeeded reason) m').1.
Proof.
  intros Hevent [Hdepth Heffects] Hbatch.
  unfold mbind, action_bind, emit, update.
  rewrite triggerRebuildIfNeeded_in_batch by (cbn; lia). cbn [fst].
  split; [done|]. exists [Emitted event]. cbn. rewrite Heffects.
  split; [done|]. split; [by repeat constructor|]. done.
Qed.

Lemma setInfo_sameBatch change packId m' m :
  sameBatch m' m → sameBatch (setInfo change packId m') m.
Proof.
  intros [Hdepth Heffects].
  destruct (setInfo_rest change packId m') as (_ & _ & _ & Hd & _ & _ & _ & He).
  split; congruence.
Qed.

Lemma numberPacks_sameBatch (packIds : list string) index m' m :
  sameBatch m' m → sameBatch (numberPacks packIds index m') m.
Proof.
  revert index m'. induction packIds as [|packId packIds IH]; intros index m' Hsame; [done|].
  cbn [numberPacks]. by apply IH, setInfo_sameBatch.
Qed.

Lemma swapWith_noRebuild packId index other reason m :
  (0 < batchUpdateDepth m)%nat → noRebuild m (swapWith packId index other reason m).1.
Proof.
  intros Hbatch. unfold swapWith.
  destruct (packOrder m !! other) as [otherId|]; [|apply noRebuild_refl].
  destruct (JS.get otherId (packs m)) as [neighbour|]; [|apply noRebuild_refl].
  destruct (JS.get packId (packs m)) as [current|]; [|apply noRebuild_refl].
  cbv zeta. apply announce_noRebuild; [done| |done].
  by apply (setInfo_sameBatch _ _ _ m), setInfo_sameBatch.
Qed.

Lemma call_noRebuild c m :
  (0 < batchUpdateDepth m)%nat → noRebuild m (call c m).1.
Proof.
  intros Hbatch.
  assert (Henabled : ∀ packId isEnabled, noRebuild m (setPackEnabled packId isEnabled m).1).
  { intros packId isEnabled. unfold setPackEnabled.
    destruct (JS.get packId (packs m)) as [pack|]; [|apply noRebuild_refl].
    case_bool_decide; [apply noRebuild_refl|].
    apply announce_noRebuild; [done| |done]. by apply setInfo_sameBatch. }
  destruct c as [packId isEnabled|packId|packId|packId|packId newPriority|packId|packId
                 |packId|packIds|source packId]; cbn [call].
  - apply Henabled.
  - apply Henabled.
  - apply Henabled.
  - unfold mbind at 1, action_bind at 1. unfold togglePack.
    destruct (JS.get packId (packs m)) as [pack|]; [|apply noRebuild_refl].
    cbv zeta. unfold mbind, action_bind.
    specialize (Henabled packId (negb (enabled (info pack)))).
    by destruct (setPackEnabled packId (negb (enabled (info pack))) m)
      as [toggled [[]|message]].
  - unfold setPackPriority.
    destruct (JS.get packId (packs m)) as [pack|]; [|apply noRebuild_refl].
    cbv zeta. apply announce_noRebuild; [done| |done].
    unfold insertPackByPriority. cbv zeta.
    by apply (setInfo_sameBatch (withPriority newPriority) packId m m).
  - unfold movePackUp.
    destruct (indexOf packId (packOrder m)) as [index|]; [|apply noRebuild_refl].
    case_bool_decide; [apply noRebuild_refl|]. by apply swapWith_noRebuild.
  - unfold movePackDown.
    destruct (indexOf packId (packOrder m)) as [[|previous]|]; try apply noRebuild_refl.
    by apply swapWith_noRebuild.
  - unfold removePack.
    destruct (JS.get packId (packs m)) as [pack|]; [|apply noRebuild_refl].
    cbv zeta. by apply announce_noRebuild.
  - unfold reorderPacks.
    destruct (find _ packIds); [apply noRebuild_refl|].
    cbv zeta. apply announce_noRebuild; [done| |done].
    by apply (numberPacks_sameBatch packIds 0 m m).
  - unfold mbind at 1, action_bind at 1. unfold loadPackInternal.
    destruct (find _ (packs m)); [apply noRebuild_refl|].
    destruct (source_zip source) as [archive|]; [|apply noRebuild_refl].
    cbv zeta.
    match goal with
    | |- context [(_ ← emit ?e; _ ← triggerRebuildIfNeeded ?r; mret ?i) ?x] =>
        pose proof (announce_noRebuild e r x m eq_refl) as Hquiet;
        assert (Hsame : sameBatch x m) by done
    end.
    specialize (Hquiet Hsame Hbatch). revert Hquiet.
    unfold mbind, action_bind, emit, update.
    by destruct (triggerRebuildIfNeeded _ _) as [final [[]|message]].
Qed.

(** X25.  A batch rebuilds once: between [beginBatchUpdate] and
    [endBatchUpdate] no call that changes the packs emits
    [packsChanged] or [atlasRebuilding] or calls a rebuild callback,
    whatever the calls are and also when one throws; each change
    leaves a rebuild pending, and the closing [endBatchUpdate] makes
    the one [triggerRebuild] when one is pending and does nothing
    else. *)
Theorem batch_rebuilds_once m (script : list PackCall) :
  batchUpdateDepth m = 0%nat →
  let inside := (forEach script call (beginBatchUpdate m).1).1 in
  batchUpdateDepth inside = 1%nat ∧
  (∃ events,
     effects inside = (effects m ++ events)%list ∧
     Forall (λ effect, isRebuild effect = false) events ∧
     (pendingRebuild m = true → pendingRebuild inside = true) ∧
     (events ≠ [] → pendingRebuild inside = true)) ∧
  endBatchUpdate inside =
    if pendingRebuild inside
    then triggerRebuild "batch update completed" (withPending false (withDepth 0 inside))
    else (withDepth 0 inside, Returns ()).
Proof.
  intros Hdepth inside.
  assert (Hopened : ∀ opened, batchUpdateDepth opened = 1%nat →
            noRebuild opened (forEach script call opened).1).
  { clear. induction script as [|c script IH]; intros opened Hopened; [apply noRebuild_refl|].
    cbn [forEach]. unfold mbind, action_bind.
    pose proof (call_noRebuild c opened ltac:(lia)) as Hcall.
    destruct (call c opened) as [next [[]|message]]; [|exact Hcall].
    cbn [fst] in Hcall. eapply noRebuild_trans; [exact Hcall|].
    apply IH. destruct Hcall as [-> _]. done. }
  destruct (Hopened (beginBatchUpdate m).1) as (Hone & events & Heffects & Hquiet & Hkept & Hsome).
  { cbn. by rewrite Hdepth. }
  fold inside in Hone, Heffects, Hkept, Hsome.
  cbn [beginBatchUpdate update fst withDepth batchUpdateDepth effects pendingRebuild]
    in Hone, Heffects, Hkept.
  rewrite Hdepth in Hone.
  split; [exact Hone|]. split; [by exists events|].
  unfold endBatchUpdate. cbv zeta. cbn [withDepth batchUpdateDepth pendingRebuild].
  rewrite Hone. cbn [Nat.sub Nat.eqb andb]. by destruct (pendingRebuild inside).
Qed.

Lemma batch_rebuilds_once_witness :
  let script := [CallTogglePack "low"; CallMovePackUp "low";
                 CallSetPackPriority "high" 9; CallRemovePack "missing"] in
  let inside := (forEach script call (beginBatchUpdate PackExamples.twoPacks).1).1 in
  effects inside =
    [Emitted (PackToggled "low" false); Emitted (PackOrderChanged ["high"; "low"]);
     Emitted (PackOrderChanged ["low"; "high"])] ∧
  endBatchUpdate inside =
    triggerRebuild "batch update completed" (withPending false (withDepth 0 inside)).
Proof.
  intros script inside.
  destruct (batch_rebuilds_once PackExamples.twoPacks script) as (_ & _ & Hend); [done|].
  fold inside in Hend.
  assert (Hpending : pendingRebuild inside = true) by (vm_compute; reflexivity).
  rewrite Hpending in Hend.
  split; [vm_compute; reflexivity | exact Hend].
Defined.

(** ** Animated textures *)

Import AnimatedTextureManager AnimationSpec.

Lemma updateTexture_early now data :
  (now - lastFrameTime data < 50 * frameTime data)%Z → updateTexture now data = data.
Proof.
  intros Hearly. unfold updateTexture. cbv zeta.
  destruct (Z.leb_spec (frameTime data) ((now - lastFrameTime data) / 50)) as [Hdue|]; [|done].
  pose proof (Z.mul_div_le (now - lastFrameTime data) 50 ltac:(lia)). lia.
Qed.

Lemma updateTexture_due now data :
  (50 * frameTime data ≤ now - lastFrameTime data)%Z →
  updateTexture now data =
    {| frames := frames data;
       currentFrame := nextFrame (currentFrame data) (frameSequence data);
       frameCount := frameCount data;
       frameTime := frameTime data;
       lastFrameTime := now;
       offsetY := frameOffset (frameSequence data)
                    (nextFrame (currentFrame data) (frameSequence data)) (frameCount data);
       needsUpdate := true |}.
Proof.
  intros Hdue. unfold updateTexture. cbv zeta.
  destruct (Z.leb_spec (frameTime data) ((now - lastFrameTime data) / 50)) as [|Hearly];
    [done|].
  assert (frameTime data ≤ (now - lastFrameTime data) / 50)%Z; [|lia].
  apply Z.div_le_lower_bound; lia.
Qed.

Lemma nextFrame_in_range current sequence :
  sequence ≠ [] →
  nextFrame (Some current) sequence = Some ((current + 1) mod length sequence)%nat ∧
  ((current + 1) mod length sequence < length sequence)%nat.
Proof.
  intros Hsome. unfold nextFrame. destruct sequence as [|first rest]; [done|].
  split; [done|]. apply Nat.mod_upper_bound. cbn. lia.
Qed.

(** X26.  [update] shows one frame more, never several: before
    [frameTime] ticks of 50 ms have passed since the last change it
    changes nothing, and from then on one call moves to the next entry
    of the frame sequence, however much time has passed.  The frame
    index stays inside the sequence and returns to its start after as
    many changes as the sequence is long; for an entry below
    [frameCount] the texture offset lies in [0, 1).  [update] does
    this to every texture under its path. *)
Theorem update_steps_one_frame data current :
  currentFrame data = Some current →
  frameSequence data ≠ [] →
  let sequence := frameSequence data in
  (∀ now, (now - lastFrameTime data < 50 * frameTime data)%Z →
          updateTexture now data = data) ∧
  (∀ now, (50 * frameTime data ≤ now - lastFrameTime data)%Z →
     let after := updateTexture now data in
     lastFrameTime after = now ∧
     currentFrame after = Some ((current + 1) mod length sequence)%nat ∧
     ((current + 1) mod length sequence < length sequence)%nat ∧
     ∀ frameIndex,
       sequence !! ((current + 1) mod length sequence)%nat = Some frameIndex →
       (0 ≤ frameIndex < Z.of_N (frameCount data))%Z →
       ∃ y, offsetY after = Some y ∧ (0 <= y)%Q ∧ (y < 1)%Q) ∧
  (∀ times, due (frameTime data) (lastFrameTime data) times →
     times ≠ [] →
     currentFrame (updatedAt times data) =
       Some ((current + length times) mod length sequence)%nat) ∧
  (∀ times, due (frameTime data) (lastFrameTime data) times →
     length times = length sequence →
     (current < length sequence)%nat →
     currentFrame (updatedAt times data) = Some current) ∧
  (∀ now animatedTextures texturePath,
     JS.get texturePath animatedTextures = Some data →
     JS.get texturePath (update now animatedTextures) = Some (updateTexture now data)).
Proof.
  intros Hcurrent Hsome sequence.
  assert (Hrun : ∀ times data' current',
    frames data' = frames data → frameCount data' = frameCount data →
    frameTime data' = frameTime data → currentFrame data' = Some current' →
    due (frameTime data) (lastFrameTime data') times →
    times ≠ [] →
    currentFrame (updatedAt times data') =
      Some ((current' + length times) mod length sequence)%nat).
  { induction times as [|now later IH]; intros data' current' Hf Hc Ht Hcur Hdue Htimes;
      [done|].
    destruct Hdue as [Hnow Hlater]. unfold updatedAt. cbn [foldl].
    rewrite <- Ht in Hnow. rewrite (updateTexture_due now data' Hnow).
    assert (Hsequence : frameSequence data' = sequence).
    { unfold sequence, frameSequence. by rewrite Hf, Hc. }
    rewrite Hcur, Hsequence.
    destruct (nextFrame_in_range current' sequence Hsome) as [Hnext Hrange].
    rewrite Hnext.
    destruct later as [|next later]; [cbn; do 2 f_equal; lia|].
    match goal with
    | |- context [foldl _ ?d (next :: later)] =>
        pose proof (IH d ((current' + 1) mod length sequence)%nat) as Hgo
    end.
    unfold updatedAt in Hgo. rewrite Hgo by done.
    f_equal. rewrite Nat.Div0.add_mod_idemp_l. f_equal. cbn [length]. lia. }
  split; [intros now; apply updateTexture_early|]. split; [|split; [|split]].
  - intros now Hdue after. unfold after. rewrite (updateTexture_due now data Hdue).
    cbn [lastFrameTime currentFrame offsetY]. rewrite Hcurrent. fold sequence.
    destruct (nextFrame_in_range current sequence Hsome) as [Hnext Hrange].
    rewrite Hnext. split; [done|]. split; [done|]. split; [done|].
    intros frameIndex Hindex Hbelow. unfold frameOffset. rewrite Hindex.
    destruct (N.eqb_spec (frameCount data) 0) as [Hzero|Hcount]; [lia|].
    eexists. split; [done|].
    assert (Hpositive : (0 < inject_Z (Z.of_N (frameCount data)))%Q).
    { change 0%Q with (inject_Z 0). rewrite <- Zlt_Qlt. lia. }
    assert (Hlow : (0 < inject_Z (frameIndex + 1))%Q).
    { change 0%Q with (inject_Z 0). rewrite <- Zlt_Qlt. lia. }
    assert (Hhigh : (inject_Z (frameIndex + 1) <= inject_Z (Z.of_N (frameCount data)))%Q).
    { rewrite <- Zle_Qle. lia. }
    revert Hpositive Hlow Hhigh.
    generalize (inject_Z (frameIndex + 1)), (inject_Z (Z.of_N (frameCount data))).
    intros a b Hb Ha Hab.
    assert (Hratio : (0 < a / b ∧ a / b <= 1)%Q).
    { split.
      - apply Qlt_shift_div_l; [done|]. lra.
      - apply Qle_shift_div_r; [done|]. lra. }
    split; lra.
  - intros times Hdue Htimes. by apply (Hrun times data current).
  - intros times Hdue Hlength Hrange.
    rewrite (Hrun times data current); [|done..|].
    + f_equal. rewrite Hlength.
      rewrite <- (Nat.mul_1_l (length sequence)) at 1.
      rewrite Nat.Div0.mod_add. by apply Nat.mod_small.
    + intros ->. apply Hsome. fold sequence. apply nil_length_inv. by rewrite <- Hlength.
  - intros now animatedTextures texturePath. unfold update.
    induction animatedTextures as [|[path entry] rest IH]; [done|].
    cbn [fmap list_fmap JS.get fst snd].
    destruct (String.eqb path texturePath); [by intros [= ->] | exact IH].
Qed.

Lemma update_steps_one_frame_witness :
  let data := {| frames := None; currentFrame := Some 0%nat; frameCount := 4;
                 frameTime := 2; lastFrameTime := 1000; offsetY := Some 0%Q;
                 needsUpdate := false |} in
  updateTexture 1099 data = data ∧
  currentFrame (updateTexture 5000 data) = Some 1%nat ∧
  offsetY (updateTexture 5000 data) = Some (1 - inject_Z 2 / inject_Z 4)%Q ∧
  currentFrame (updatedAt [1100; 1200; 1300; 1400]%Z data) = Some 0%nat.
Proof.
  intros data.
  destruct (update_steps_one_frame data 0) as (Hearly & Hdue & _ & Hcycle & _); [done..|].
  split; [by apply Hearly|].
  destruct (Hdue 5000%Z) as (_ & Hframe & _); [done|].
  split; [exact Hframe|]. split; [reflexivity|].
  apply Hcycle; [|done|unfold data; vm_compute; lia]. unfold data. cbn. lia.
Defined.
